(** * Standup agent: transcript parsing, ticket extraction, credential cache

    A shallow embedding of [Standup_agent/utils.py] and
    [Standup_agent/tools.py].

    Modelling conventions.
    - A Python [str] is a [list ascii]. The character classes of [re]
      ([\d], [\s], [\w], case folding) and of [str.strip] and [str.split]
      are given on ASCII characters, where they are those of Python; a
      statement that depends on what the classes hold is made for texts
      that satisfy [isascii].
    - [re] is embedded as a backtracking matcher over a small regex syntax:
      greedy repetition, ordered alternation, capture groups and the
      zero-width assertions the patterns of the program use.
    - A Python [dict] whose iteration order is observable is an association
      list in insertion order; the session state, only read and written by
      key, is a [gmap]. *)

From Stdlib Require Import List Ascii String Bool Arith ZArith Lia DecimalString.
From stdpp Require Import base gmap strings.
Import ListNotations.

Set Warnings "-register-all".

Local Open Scope nat_scope.
Local Open Scope list_scope.

(** ** Python strings *)

Definition str : Type := list ascii.

Definition py (s : string) : str := list_ascii_of_string s.
Coercion py : string >-> str.

Module PyStr.

Definition code (c : ascii) : nat := nat_of_ascii c.

Definition between (lo hi : nat) (c : ascii) : bool :=
  (lo <=? code c) && (code c <=? hi).

Definition is_upper : ascii -> bool := between 65 90.
Definition is_lower : ascii -> bool := between 97 122.
Definition is_digit : ascii -> bool := between 48 57.
Definition is_alpha (c : ascii) : bool := is_upper c || is_lower c.

(** [\w] *)
Definition is_word (c : ascii) : bool :=
  is_alpha c || is_digit c || (code c =? 95).

(** [str.isspace] on one character, which is also [\s]: TAB, LF, VT, FF,
    CR, the separators FS, GS, RS, US, and the space. *)
Definition is_space (c : ascii) : bool :=
  between 9 13 c || between 28 31 c || (code c =? 32).

Definition lower_char (c : ascii) : ascii :=
  if is_upper c then ascii_of_nat (code c + 32) else c.
Definition upper_char (c : ascii) : ascii :=
  if is_lower c then ascii_of_nat (code c - 32) else c.

(** The line feed, on which [text.split('\n')] splits. *)
Definition newline : ascii := ascii_of_nat 10.

(** [s.lower()] *)
Definition lower (s : str) : str := map lower_char s.

Definition eqb (a b : str) : bool := bool_decide (a = b).

(** [s.lstrip()], [s.rstrip()], [s.strip()] *)
Fixpoint lstrip (s : str) : str :=
  match s with
  | c :: s' => if is_space c then lstrip s' else s
  | [] => []
  end.
Definition rstrip (s : str) : str := rev (lstrip (rev s)).
Definition strip (s : str) : str := rstrip (lstrip s).

(** [s.split(sep)] for a one-character separator: always at least one
    field, empty fields kept. *)
Fixpoint split_on (sep : ascii) (s : str) : list str :=
  match s with
  | [] => [[]]
  | c :: s' =>
      if Ascii.eqb c sep then [] :: split_on sep s'
      else match split_on sep s' with
           | w :: ws => (c :: w) :: ws
           | [] => [[c]]
           end
  end.

(** [s.split()]: fields separated by runs of whitespace, none empty. *)
Fixpoint split_ws_aux (cur : str) (s : str) : list str :=
  match s with
  | [] => match cur with [] => [] | _ => [rev cur] end
  | c :: s' =>
      if is_space c
      then match cur with
           | [] => split_ws_aux [] s'
           | _ => rev cur :: split_ws_aux [] s'
           end
      else split_ws_aux (c :: cur) s'
  end.
Definition split_ws (s : str) : list str := split_ws_aux [] s.

(** [prefix p s]: [s.startswith(p)] *)
Fixpoint prefix (p s : str) : bool :=
  match p, s with
  | [], _ => true
  | a :: p', b :: s' => Ascii.eqb a b && prefix p' s'
  | _ :: _, [] => false
  end.

(** [sub in s] *)
Fixpoint contains (sub s : str) : bool :=
  prefix sub s ||
  match s with
  | [] => false
  | _ :: s' => contains sub s'
  end.

(** Truth value of a string: [if s:] *)
Definition truthy (s : str) : bool :=
  match s with [] => false | _ => true end.

(** [s.isascii()] *)
Definition isascii (s : str) : bool := forallb (fun c => code c <? 128) s.

(** [sep.join(parts)] *)
Fixpoint join (sep : str) (parts : list str) : str :=
  match parts with
  | [] => []
  | [p] => p
  | p :: ps => p ++ sep ++ join sep ps
  end.

End PyStr.

(** ** The fragment of [re] the program uses *)

Module Re.

Import PyStr.

(** Character sets. *)
Inductive cset : Type :=
| CLit (c : ascii)
| CRange (lo hi : ascii)
| CDigit
| CSpace
| CAny
| CUnion (a b : cset).

Inductive regex : Type :=
| Eps
| Chr (cs : cset)
| Seq (r1 r2 : regex)
| Alt (r1 r2 : regex)
| Star (r : regex)
| Group (n : nat) (r : regex)
| WordB
| Bol
| Eol.

(** Membership of a character in a set; [ic] is [re.IGNORECASE]. *)
Fixpoint cset_mem (ic : bool) (cs : cset) (c : ascii) : bool :=
  match cs with
  | CLit x =>
      if ic then Ascii.eqb (lower_char c) (lower_char x) else Ascii.eqb c x
  | CRange lo hi =>
      let inr := between (code lo) (code hi) in
      if ic then inr c || inr (lower_char c) || inr (upper_char c) else inr c
  | CDigit => is_digit c
  | CSpace => is_space c
  | CAny => negb (code c =? 10)
  | CUnion a b => cset_mem ic a c || cset_mem ic b c
  end.

(** The matcher state: the text already passed (most recent character
    first), the text still ahead, and the groups captured so far (most
    recent first). *)
Record mstate : Type := MState {
  before : list ascii;
  after : list ascii;
  groups : list (nat * str)
}.

Definition advance (c : ascii) (rest : list ascii) (st : mstate) : mstate :=
  MState (c :: before st) rest (groups st).

(** The text passed between two states of one match. *)
Definition span (st st' : mstate) : str :=
  firstn (length (after st) - length (after st')) (after st).

Definition set_group (n : nat) (v : str) (st : mstate) : mstate :=
  MState (before st) (after st) ((n, v) :: groups st).

Definition word_before (st : mstate) : bool :=
  match before st with c :: _ => is_word c | [] => false end.
Definition word_after (st : mstate) : bool :=
  match after st with c :: _ => is_word c | [] => false end.

(** [\b] *)
Definition at_boundary (st : mstate) : bool :=
  xorb (word_before st) (word_after st).

(** [$] without [re.MULTILINE]: at the end, or before a final newline. *)
Definition at_end (st : mstate) : bool :=
  match after st with
  | [] => true
  | [c] => code c =? 10
  | _ => false
  end.

(** Backtracking match of [r] from [st], continuing with [k]. An iteration
    of a star that passes no text is abandoned, so the loop runs at most
    once per character ahead. *)
Fixpoint rmatch (ic : bool) (r : regex) (st : mstate)
    (k : mstate -> option mstate) {struct r} : option mstate :=
  match r with
  | Eps => k st
  | Chr cs =>
      match after st with
      | c :: rest => if cset_mem ic cs c then k (advance c rest st) else None
      | [] => None
      end
  | Seq r1 r2 => rmatch ic r1 st (fun st1 => rmatch ic r2 st1 k)
  | Alt r1 r2 =>
      match rmatch ic r1 st k with
      | Some res => Some res
      | None => rmatch ic r2 st k
      end
  | Star r1 =>
      (fix loop (fuel : nat) (st : mstate) : option mstate :=
         match fuel with
         | 0 => k st
         | S fuel' =>
             match rmatch ic r1 st (fun st1 =>
                     if length (after st1) <? length (after st)
                     then loop fuel' st1 else None) with
             | Some res => Some res
             | None => k st
             end
         end) (length (after st)) st
  | Group n r1 =>
      rmatch ic r1 st (fun st1 => k (set_group n (span st st1) st1))
  | WordB => if at_boundary st then k st else None
  | Bol => match before st with [] => k st | _ => None end
  | Eol => if at_end st then k st else None
  end.

(** Derived forms. *)
Definition Plus (r : regex) : regex := Seq r (Star r).
Definition Opt (r : regex) : regex := Alt r Eps.

(** [r{0,n}], greedy *)
Fixpoint UpTo (n : nat) (r : regex) : regex :=
  match n with
  | 0 => Eps
  | S n' => Opt (Seq r (UpTo n' r))
  end.

(** [r{lo,lo+extra}], greedy *)
Fixpoint Rep (lo extra : nat) (r : regex) : regex :=
  match lo with
  | 0 => UpTo extra r
  | S lo' => Seq r (Rep lo' extra r)
  end.

(** A literal word. *)
Fixpoint Lit (s : str) : regex :=
  match s with
  | [] => Eps
  | [c] => Chr (CLit c)
  | c :: s' => Seq (Chr (CLit c)) (Lit s')
  end.

(** [a|b|c] *)
Fixpoint AltOf (rs : list regex) : regex :=
  match rs with
  | [] => Eps
  | [r] => r
  | r :: rs' => Alt r (AltOf rs')
  end.

(** A match object: [group(0)] and the numbered groups. *)
Record pymatch : Type := PyMatch {
  group0 : str;
  captures : list (nat * str)
}.

(** [m.group(n)] for a group that took part in the match. *)
Fixpoint lookup_group (n : nat) (gs : list (nat * str)) : option str :=
  match gs with
  | [] => None
  | (i, v) :: gs' => if i =? n then Some v else lookup_group n gs'
  end.

Definition group (m : pymatch) (n : nat) : str :=
  match n with
  | 0 => group0 m
  | _ => match lookup_group n (captures m) with Some v => v | None => [] end
  end.

Definition start_state (bef aft : list ascii) : mstate := MState bef aft [].

Definition match_here (ic : bool) (r : regex) (bef aft : list ascii)
    : option mstate :=
  rmatch ic r (start_state bef aft) Some.

Definition to_match (st0 st : mstate) : pymatch :=
  PyMatch (span st0 st) (groups st).

(** [re.match(r, text)] *)
Definition re_match (ic : bool) (r : regex) (text : str) : option pymatch :=
  match match_here ic r [] text with
  | Some st => Some (to_match (start_state [] text) st)
  | None => None
  end.

(** [re.search]: the match at the leftmost position that has one. *)
Fixpoint search_from (ic : bool) (r : regex) (bef aft : list ascii)
    : option pymatch :=
  match match_here ic r bef aft with
  | Some st => Some (to_match (start_state bef aft) st)
  | None =>
      match aft with
      | [] => None
      | c :: rest => search_from ic r (c :: bef) rest
      end
  end.

Definition re_search (ic : bool) (r : regex) (text : str) : option pymatch :=
  search_from ic r [] text.

(** [re.finditer]: successive non-overlapping matches, left to right. The
    scan resumes where the previous match ended; after a match that passed
    no text it resumes one character further. *)
Fixpoint scan (ic : bool) (r : regex) (fuel : nat) (bef aft : list ascii)
    : list pymatch :=
  match fuel with
  | 0 => []
  | S fuel' =>
      let step :=
        match aft with
        | [] => []
        | c :: rest => scan ic r fuel' (c :: bef) rest
        end in
      match match_here ic r bef aft with
      | Some st =>
          to_match (start_state bef aft) st ::
          (if length (after st) <? length aft
           then scan ic r fuel' (before st) (after st)
           else step)
      | None => step
      end
  end.

Definition finditer (ic : bool) (r : regex) (text : str) : list pymatch :=
  scan ic r (S (length text)) [] text.

(** *** What a successful match says about the text

    [matches ic r w]: the text [w] belongs to the language of [r], the
    zero-width assertions read as the empty word. *)
Inductive matches (ic : bool) : regex -> str -> Prop :=
| matches_eps : matches ic Eps []
| matches_chr cs c : cset_mem ic cs c = true -> matches ic (Chr cs) [c]
| matches_seq r1 r2 w1 w2 :
    matches ic r1 w1 -> matches ic r2 w2 -> matches ic (Seq r1 r2) (w1 ++ w2)
| matches_alt_l r1 r2 w : matches ic r1 w -> matches ic (Alt r1 r2) w
| matches_alt_r r1 r2 w : matches ic r2 w -> matches ic (Alt r1 r2) w
| matches_star_nil r : matches ic (Star r) []
| matches_star_cons r w1 w2 :
    matches ic r w1 -> matches ic (Star r) w2 -> matches ic (Star r) (w1 ++ w2)
| matches_group n r w : matches ic r w -> matches ic (Group n r) w
| matches_wordb : matches ic WordB []
| matches_bol : matches ic Bol []
| matches_eol : matches ic Eol [].

(** The groups of a pattern, each with its body. *)
Fixpoint group_bodies (r : regex) : list (nat * regex) :=
  match r with
  | Seq r1 r2 | Alt r1 r2 => group_bodies r1 ++ group_bodies r2
  | Star r1 => group_bodies r1
  | Group n r1 => (n, r1) :: group_bodies r1
  | _ => []
  end.

(** Whether a pattern can match without passing any text. *)
Fixpoint nullable (r : regex) : bool :=
  match r with
  | Chr _ => false
  | Seq r1 r2 => nullable r1 && nullable r2
  | Alt r1 r2 => nullable r1 || nullable r2
  | Group _ r1 => nullable r1
  | Eps | Star _ | WordB | Bol | Eol => true
  end.

(** Whether every starred part of a pattern passes text at each iteration,
    so that no iteration of a star of the pattern is ever abandoned. *)
Fixpoint stars_consume (r : regex) : bool :=
  match r with
  | Star r1 => negb (nullable r1) && stars_consume r1
  | Seq r1 r2 | Alt r1 r2 => stars_consume r1 && stars_consume r2
  | Group _ r1 => stars_consume r1
  | _ => true
  end.

(** The groups every match of a pattern captures. *)
Fixpoint sure_groups (r : regex) : list nat :=
  match r with
  | Seq r1 r2 => sure_groups r1 ++ sure_groups r2
  | Group n r1 => n :: sure_groups r1
  | _ => []
  end.

(** A capture is justified by [r] when its text matches the body of a
    group of [r] with its number. *)
Definition justified (ic : bool) (r : regex) (g : nat * str) : Prop :=
  exists body, In (fst g, body) (group_bodies r) /\ matches ic body (snd g).

End Re.

(** ** Exceptions

    A computation either returns or raises; an exception is represented by
    its message, which is all the program ever reads of it ([str(e)]). *)

Inductive outcome (A : Type) : Type :=
| Ok (a : A)
| Raise (msg : str).
Arguments Ok {A} a.
Arguments Raise {A} msg.

#[global] Instance outcome_ret : MRet outcome := fun A a => Ok a.
#[global] Instance outcome_bind : MBind outcome := fun A B f x =>
  match x with
  | Ok a => f a
  | Raise e => Raise e
  end.

(** ** Dictionaries in insertion order *)

Module Dict.

Definition t (V : Type) : Type := list (str * V).

Fixpoint get {V : Type} (k : str) (d : t V) : option V :=
  match d with
  | [] => None
  | (k', v) :: d' => if PyStr.eqb k' k then Some v else get k d'
  end.

Definition mem {V : Type} (k : str) (d : t V) : bool :=
  match get k d with Some _ => true | None => false end.

(** [d[k] = v]: an existing key keeps its place. *)
Fixpoint set {V : Type} (k : str) (v : V) (d : t V) : t V :=
  match d with
  | [] => [(k, v)]
  | (k', v') :: d' =>
      if PyStr.eqb k' k then (k', v) :: d' else (k', v') :: set k v d'
  end.

(** [d[k].append(x)] for a key that is present; without the key the
    dictionary is returned as it is (the program never does that). *)
Fixpoint append {V : Type} (k : str) (x : V) (d : t (list V)) : t (list V) :=
  match d with
  | [] => []
  | (k', vs) :: d' =>
      if PyStr.eqb k' k then (k', vs ++ [x]) :: d' else (k', vs) :: append k x d'
  end.

Definition keys {V : Type} (d : t V) : list str := map fst d.

End Dict.

(** ** Python values

    The JSON-like values that cross the boundary of the program: session
    entries, responses of the services, and the results handed to the agent. *)

Inductive pyval : Type :=
| PNone
| PBool (b : bool)
| PInt (n : Z)
| PStr (s : str)
| PList (items : list pyval)
| PDict (entries : list (str * pyval)).

Module Py.

(** Truth value testing, as [if v:] and [not v] do it. *)
Definition truthy (v : pyval) : bool :=
  match v with
  | PNone => false
  | PBool b => b
  | PInt n => negb (n =? 0)%Z
  | PStr s => PyStr.truthy s
  | PList items => match items with [] => false | _ => true end
  | PDict entries => match entries with [] => false | _ => true end
  end.

Definition type_name (v : pyval) : str :=
  match v with
  | PNone => py "NoneType"
  | PBool _ => py "bool"
  | PInt _ => py "int"
  | PStr _ => py "str"
  | PList _ => py "list"
  | PDict _ => py "dict"
  end.

Definition no_attribute (v : pyval) (attr : str) : str :=
  py "'" ++ type_name v ++ py "' object has no attribute '" ++ attr ++ py "'".

(** [d.get(k, default)] *)
Definition get (d : pyval) (k : str) (default : pyval) : outcome pyval :=
  match d with
  | PDict entries =>
      Ok (match Dict.get k entries with Some v => v | None => default end)
  | _ => Raise (no_attribute d "get")
  end.

(** [d[k]] for a string key *)
Definition getitem (d : pyval) (k : str) : outcome pyval :=
  match d with
  | PDict entries =>
      match Dict.get k entries with
      | Some v => Ok v
      | None => Raise (py "'" ++ k ++ py "'")
      end
  | PStr _ => Raise (py "string indices must be integers")
  | PList _ => Raise (py "list indices must be integers or slices, not str")
  | _ => Raise (py "'" ++ type_name d ++ py "' object is not subscriptable")
  end.

(** [v[0]] *)
Definition first (v : pyval) : outcome pyval :=
  match v with
  | PList (x :: _) => Ok x
  | PList [] => Raise (py "list index out of range")
  | PStr (c :: _) => Ok (PStr [c])
  | PStr [] => Raise (py "string index out of range")
  | PDict _ => Raise (py "0")
  | _ => Raise (py "'" ++ type_name v ++ py "' object is not subscriptable")
  end.

(** The receiver of a [str] method such as [lower] or [replace]. *)
Definition as_str (v : pyval) (method : str) : outcome str :=
  match v with
  | PStr s => Ok s
  | _ => Raise (no_attribute v method)
  end.

(** [for x in v] *)
Definition iterate (v : pyval) : outcome (list pyval) :=
  match v with
  | PList items => Ok items
  | PDict entries => Ok (map (fun e => PStr (fst e)) entries)
  | PStr s => Ok (map (fun c => PStr [c]) s)
  | _ => Raise (py "'" ++ type_name v ++ py "' object is not iterable")
  end.

(** [s.replace(c, by)] for a one-character [c] *)
Definition replace_char (c : ascii) (by_ : str) (s : str) : str :=
  flat_map (fun x => if Ascii.eqb x c then by_ else [x]) s.

(** Decimal rendering of a non-negative integer, as an f-string does. *)
Definition of_nat (n : nat) : str :=
  py (NilEmpty.string_of_uint (Nat.to_uint n)).

End Py.

(** ** The session and the services around the program

    Everything the program does not own is a field of [library]: the ADK
    tool context ([get_auth_response], [request_credential]), the Google
    client, [requests], [dateutil] and the clock. Each field may return or
    raise, and the stateful ones thread a [World] the program cannot
    inspect; a statement proved for every [library] holds whatever the
    services answer. Module imports are taken to succeed: [agent.py]
    imports [config] before it imports the tools, so that in a running
    agent the [from .config import ...] that opens a tool finds the module
    loaded. *)

Module Session.

Inductive provider : Type := google | jira.

Record oauth2_auth : Type := OAuth2Auth {
  access_token : pyval;
  refresh_token : pyval
}.

(** An exchanged ADK credential; its [oauth2] part may be missing. *)
Record auth_credential : Type := AuthCredential {
  oauth2 : option oauth2_auth
}.

(** A [requests] response: [json()] may raise. *)
Record response : Type := Response {
  status_code : nat;
  json : outcome pyval;
  text : str
}.

Record library : Type := Library {
  World : Type;
  datetime : Type;
  credentials : Type;
  service : Type;
  (* dateutil and datetime:
     parser.parse(s); datetime.now(SYDNEY_TZ); d.strftime("%d %b %Y");
     datetime.fromisoformat(s);
     (now - timedelta(days=n)).replace(hour=0, minute=0, second=0);
     0 <= (a - b).total_seconds() <= 14400 *)
  parser_parse : str -> outcome datetime;
  now_sydney : World -> datetime;
  strftime_dby : datetime -> outcome str;
  fromisoformat : str -> outcome datetime;
  window_start : datetime -> Z -> outcome datetime;
  within_four_hours : datetime -> datetime -> outcome bool;
  (* the ADK tool context: an exchanged credential or None; the request for
     an interactive authorization *)
  get_auth_response : provider -> World -> outcome (option auth_credential) * World;
  request_credential : provider -> World -> outcome unit * World;
  (* google.oauth2.credentials and googleapiclient *)
  from_authorized_user_info : pyval -> outcome credentials;
  new_credentials : pyval -> pyval -> outcome credentials;
  creds_valid : credentials -> World -> bool;
  creds_expired : credentials -> World -> bool;
  creds_refresh_token : credentials -> pyval;
  creds_refresh : credentials -> World -> outcome credentials * World;
  creds_to_json : credentials -> outcome pyval;
  build : str -> credentials -> World -> outcome service * World;
  events_list : service -> datetime -> datetime -> World -> outcome pyval * World;
  events_get : service -> str -> World -> outcome pyval * World;
  files_list : service -> World -> outcome pyval * World;
  export_text : service -> pyval -> World -> outcome str * World;
  (* requests, against the Atlassian API *)
  http_accessible_resources : pyval -> World -> outcome response * World;
  http_get_issue : pyval -> pyval -> str -> World -> outcome response * World;
  http_post_comment : pyval -> pyval -> str -> pyval -> World -> outcome response * World
}.

(** The calls that leave the program, as they are logged in the trace. *)
Inductive event : Type :=
| GetAuthResponse (p : provider)
| RequestCredential (p : provider)
| RefreshCredentials
| BuildService (name : str)
| EventsList
| EventsGet
| FilesList
| ExportText
| AccessibleResources
| GetIssue (ticket_key : str)
| PostComment (ticket_key : str).

(** [Optional[ToolContext]] *)
Inductive tool_context : Type := NoToolContext | ToolContext.

Section Machine.

Variable L : library.

(** [state] is [tool_context.state]; [trace] lists the outside calls made
    so far, oldest first. *)
Record machine : Type := Machine {
  state : gmap string pyval;
  trace : list event;
  world : World L
}.

(** A computation: it may change the machine and then return or raise. *)
Definition M (A : Type) : Type := machine -> outcome A * machine.

Definition ret {A : Type} (a : A) : M A := fun m => (Ok a, m).

Definition bind {A B : Type} (c : M A) (f : A -> M B) : M B :=
  fun m =>
    match c m with
    | (Ok a, m') => f a m'
    | (Raise e, m') => (Raise e, m')
    end.

Definition lift {A : Type} (o : outcome A) : M A := fun m => (o, m).

Definition raise {A : Type} (e : str) : M A := lift (Raise e).

(** [try: body except Exception as e: handler(str(e))] *)
Definition try_except {A : Type} (body : M A) (handler : str -> M A) : M A :=
  fun m =>
    match body m with
    | (Ok a, m') => (Ok a, m')
    | (Raise e, m') => handler e m'
    end.

(** A call to a service: logged, then answered by the library. *)
Definition call {A : Type} (ev : event)
    (f : World L -> outcome A * World L) : M A :=
  fun m =>
    let (r, w) := f (world m) in
    (r, Machine (state m) (trace m ++ [ev]) w).

(** A look at the world that does not change it. *)
Definition read {A : Type} (f : World L -> A) : M A :=
  fun m => (Ok (f (world m)), m).

(** An attribute of [tool_context], which may be [None]. *)
Definition attr (tc : tool_context) (name : str) : M unit :=
  match tc with
  | ToolContext => ret tt
  | NoToolContext =>
      raise (py "'NoneType' object has no attribute '" ++ name ++ py "'")
  end.

(** [tool_context.state.get(key)] *)
Definition state_get (tc : tool_context) (key : string) : M pyval :=
  bind (attr tc "state") (fun _ m =>
    (Ok (match state m !! key with Some v => v | None => PNone end), m)).

(** [tool_context.state[key] = v] *)
Definition state_set (tc : tool_context) (key : string) (v : pyval) : M unit :=
  bind (attr tc "state") (fun _ m =>
    (Ok tt, Machine (<[key := v]> (state m)) (trace m) (world m))).

(** [tool_context.get_auth_response(...)], [tool_context.request_credential(...)] *)
Definition ask_auth_response (tc : tool_context) (p : provider)
    : M (option auth_credential) :=
  bind (attr tc "get_auth_response") (fun _ =>
    call (GetAuthResponse p) (get_auth_response L p)).

Definition ask_credential (tc : tool_context) (p : provider) : M unit :=
  bind (attr tc "request_credential") (fun _ =>
    call (RequestCredential p) (request_credential L p)).

End Machine.

Arguments state {L} _.
Arguments trace {L} _.
Arguments world {L} _.
Arguments ret {L A} _ _.
Arguments bind {L A B} _ _ _.
Arguments lift {L A} _ _.
Arguments raise {L A} _ _.
Arguments try_except {L A} _ _ _.
Arguments call {L A} _ _ _.
Arguments read {L A} _ _.
Arguments attr {L} _ _ _.
Arguments state_get {L} _ _ _.
Arguments state_set {L} _ _ _ _.
Arguments ask_auth_response {L} _ _ _.
Arguments ask_credential {L} _ _ _.

#[global] Instance M_ret {L : library} : MRet (M L) := fun A => ret.
#[global] Instance M_bind {L : library} : MBind (M L) := fun A B f c => bind c f.

(** A loop that threads an accumulator through the items of a list. *)
Fixpoint foldM {L : library} {A B : Type} (f : B -> A -> M L B)
    (items : list A) (acc : B) : M L B :=
  match items with
  | [] => ret acc
  | x :: rest => bind (f acc x) (foldM f rest)
  end.

End Session.

(** ** utils.py *)

Module Utils.

Import PyStr Re.

Definition TOKEN_CACHE_KEY : string := "standup_agent_tokens".
Definition JIRA_TOKEN_CACHE_KEY : string := "standup_agent_jira_token".

(** [SPOKEN_DIGITS], in the order the dictionary is written. *)
Definition SPOKEN_DIGITS : Dict.t str :=
  [ (py "zero", py "0"); (py "one", py "1"); (py "two", py "2");
    (py "three", py "3"); (py "four", py "4"); (py "five", py "5");
    (py "six", py "6"); (py "seven", py "7"); (py "eight", py "8");
    (py "nine", py "9") ].

(** [load_oauth_credentials]. What the file system holds at
    [CREDENTIALS_PATH] is a parameter: no file, or a file on which [open]
    and [json.load] give the data or raise. In [a or b] the second operand
    is only evaluated when the first does not count. *)
Definition load_oauth_credentials (CREDENTIALS_PATH : str)
    (file : option (outcome pyval)) : outcome (pyval * pyval) :=
  match file with
  | None => Raise (py "credentials.json not found at " ++ CREDENTIALS_PATH)
  | Some loaded =>
      creds_data ← loaded;
      installed ← Py.get creds_data "installed" PNone;
      client_config ← (if Py.truthy installed then Ok installed
                       else Py.get creds_data "web" PNone);
      if negb (Py.truthy client_config)
      then Raise (py "Invalid credentials.json format")
      else
        client_id ← Py.getitem client_config "client_id";
        client_secret ← Py.getitem client_config "client_secret";
        Ok (client_id, client_secret)
  end.

Inductive confidence_level : Type := high | medium | low.
Inductive mention_type : Type := full_key | partial_numeric | spoken_digits.

Record mention : Type := Mention {
  key : str;
  confidence : confidence_level;
  type : mention_type
}.

(** [any(t['key'] == key for t in tickets)] *)
Definition key_emitted (k : str) (tickets : list mention) : bool :=
  existsb (fun t => PyStr.eqb (key t) k) tickets.

Definition upper_AZ : regex := Chr (CRange "A" "Z").
Definition digit : regex := Chr CDigit.
Definition space : regex := Chr CSpace.

(** The pattern "\b([A-Z]{2,10}-\d+)\b" *)
Definition full_pattern : regex :=
  Seq WordB
    (Seq (Group 1 (Seq (Rep 2 8 upper_AZ) (Seq (Chr (CLit "-")) (Plus digit))))
         WordB).

(** The pattern "(?:ticket|issue|bug|story)\s+(\d+)" *)
Definition partial_pattern : regex :=
  Seq (AltOf [Lit "ticket"; Lit "issue"; Lit "bug"; Lit "story"])
    (Seq (Plus space) (Group 1 (Plus digit))).

(** ['|'.join(SPOKEN_DIGITS.keys())] *)
Definition digit_word : regex := AltOf (map Lit (Dict.keys SPOKEN_DIGITS)).

(** The pattern "\b(zero|...|nine)(?:\s+(zero|...|nine))*" *)
Definition spoken_pattern : regex :=
  Seq WordB
    (Seq (Group 1 digit_word)
         (Star (Seq (Plus space) (Group 2 digit_word)))).

(** [f"{default_project}-{digits}"] *)
Definition project_key (default_project digits : str) : str :=
  default_project ++ py "-" ++ digits.

(** [''.join(SPOKEN_DIGITS.get(word.lower(), '') for word in run.split())] *)
Definition spoken_to_digits (run : str) : str :=
  concat (map (fun word =>
                 match Dict.get (lower word) SPOKEN_DIGITS with
                 | Some d => d
                 | None => []
                 end) (split_ws run)).

(** The bodies of the three loops of [extract_ticket_keys]. *)
Definition full_step (tickets : list mention) (m : pymatch) : list mention :=
  tickets ++ [Mention (group m 1) high full_key].

Definition partial_step (default_project : str) (tickets : list mention)
    (m : pymatch) : list mention :=
  let k := project_key default_project (group m 1) in
  if key_emitted k tickets then tickets
  else tickets ++ [Mention k medium partial_numeric].

Definition spoken_step (default_project : str) (tickets : list mention)
    (m : pymatch) : list mention :=
  let digits := spoken_to_digits (group m 0) in
  if 3 <=? length digits then
    let k := project_key default_project digits in
    if key_emitted k tickets then tickets
    else tickets ++ [Mention k low spoken_digits]
  else tickets.

Definition full_tier (text : str) : list mention :=
  fold_left full_step (finditer false full_pattern text) [].

Definition partial_tier (text default_project : str) (tickets : list mention)
    : list mention :=
  fold_left (partial_step default_project)
    (finditer true partial_pattern text) tickets.

Definition spoken_tier (text default_project : str) (tickets : list mention)
    : list mention :=
  fold_left (spoken_step default_project)
    (finditer true spoken_pattern text) tickets.

Definition extract_ticket_keys (text default_project : str) : list mention :=
  spoken_tier text default_project
    (partial_tier text default_project (full_tier text)).

(** The pattern "^([A-Z][a-zA-Z\s]+):\s*(REST)$", where REST is any run of
    characters other than a newline (dot, starred). *)
Definition speaker_pattern : regex :=
  Seq Bol
    (Seq (Group 1 (Seq upper_AZ
                    (Plus (Chr (CUnion (CRange "a" "z")
                                 (CUnion (CRange "A" "Z") CSpace))))))
      (Seq (Chr (CLit ":"))
        (Seq (Star space) (Seq (Group 2 (Star (Chr CAny))) Eol)))).

(** The loop state of [parse_speakers]. *)
Record seg_state : Type := SegState {
  speakers : Dict.t (list str);
  current_speaker : option str
}.

Definition speakers_step (st : seg_state) (line : str) : seg_state :=
  match re_match false speaker_pattern (strip line) with
  | Some m =>
      let name := strip (group m 1) in
      let content := strip (group m 2) in
      let sp1 := if Dict.mem name (speakers st) then speakers st
                 else Dict.set name [] (speakers st) in
      let sp2 := if truthy content then Dict.append name content sp1
                 else sp1 in
      SegState sp2 (Some name)
  | None =>
      match current_speaker st with
      | Some name =>
          if truthy name && truthy (strip line)
          then SegState (Dict.append name (strip line) (speakers st))
                        (current_speaker st)
          else st
      | None => st
      end
  end.

Definition parse_speakers (text : str) : Dict.t (list str) :=
  speakers (fold_left speakers_step (split_on newline text) (SegState [] None)).

(** *** Date resolution *)

Definition month_abbrevs : list str :=
  [ py "Jan"; py "Feb"; py "Mar"; py "Apr"; py "May"; py "Jun";
    py "Jul"; py "Aug"; py "Sep"; py "Oct"; py "Nov"; py "Dec" ].

Definition month_names : list str :=
  [ py "January"; py "February"; py "March"; py "April"; py "May";
    py "June"; py "July"; py "August"; py "September"; py "October";
    py "November"; py "December" ].

(** The pattern
    "(?:standup|meeting)\s+(?:for|on)\s+(\d{1,2}\s+(?:Jan|...|Dec)[a-z]*(?:\s+\d{4})?)" *)
Definition standup_date_pattern : regex :=
  Seq (AltOf [Lit "standup"; Lit "meeting"])
    (Seq (Plus space)
      (Seq (AltOf [Lit "for"; Lit "on"])
        (Seq (Plus space)
          (Group 1
            (Seq (Rep 1 1 digit)
              (Seq (Plus space)
                (Seq (AltOf (map Lit month_abbrevs))
                  (Seq (Star (Chr (CRange "a" "z")))
                    (Opt (Seq (Plus space) (Rep 4 0 digit))))))))))).

(** The pattern "(\d{1,2}\s+(?:January|...|December)\s+\d{4})" *)
Definition full_date_pattern : regex :=
  Group 1
    (Seq (Rep 1 1 digit)
      (Seq (Plus space)
        (Seq (AltOf (map Lit month_names))
          (Seq (Plus space) (Rep 4 0 digit))))).

Definition date_patterns : list regex :=
  [standup_date_pattern; full_date_pattern].

(** The patterns of the program. *)
Definition program_patterns : list regex :=
  [ full_pattern; partial_pattern; spoken_pattern; speaker_pattern;
    standup_date_pattern; full_date_pattern ].

Section DateResolver.

(** [dateutil.parser.parse] is a third-party function: its result on a
    captured substring, or the exception it raises, is a parameter. *)
Context {datetime : Type}.
Variable parser_parse : str -> outcome datetime.

(** The loop over [date_patterns]: a pattern that does not match, or
    whose capture does not parse, is passed over. *)
Fixpoint first_parsed_date (patterns : list regex) (text : str)
    : option datetime :=
  match patterns with
  | [] => None
  | pattern :: rest =>
      match re_search true pattern text with
      | Some m =>
          match parser_parse (group m 1) with
          | Ok d => Some d
          | Raise _ => first_parsed_date rest text
          end
      | None => first_parsed_date rest text
      end
  end.

Definition extract_date_from_transcript (text : str) : option datetime :=
  first_parsed_date date_patterns text.

End DateResolver.

(** *** Atlassian Document Format *)

Inductive mark : Type := strong | em.

Inductive adf_node : Type :=
| text_node (text : str) (marks : list mark)
| paragraph (content : list adf_node)
| heading (level : nat) (content : list adf_node)
| listItem (content : list adf_node)
| bulletList (content : list adf_node).

Record adf_doc : Type := AdfDoc {
  version : nat;
  doc_content : list adf_node
}.

Definition FOOTER : str :=
  py "Generated by Standup Agent based on meeting notes; verify accuracy before relying on this content. For discrepancies, contact your Product Owner.".

(** The title, with the bytes the source file holds between "Update" and
    the date. *)
Definition title_of (date_str : str) : str :=
  py "Standup Update â€” " ++ date_str.

Definition bullet_item (point : str) : adf_node :=
  listItem [paragraph [text_node point []]].

(** The two blocks appended for one speaker. *)
Definition speaker_section (entry : str * list str) : list adf_node :=
  [ heading 3 [text_node (fst entry) []];
    bulletList (map bullet_item (snd entry)) ].

Definition footer_paragraph : adf_node :=
  paragraph [text_node FOOTER [em]].

(** [generate_adf_comment]; its first argument is not used by the body. *)
Definition generate_adf_comment {C : Type} (content : C) (date_str : str)
    (speakers_data : Dict.t (list str)) : adf_doc :=
  let doc0 := [paragraph [text_node (title_of date_str) [strong]]] in
  let doc1 :=
    fold_left (fun doc entry => doc ++ speaker_section entry)
      speakers_data doc0 in
  AdfDoc 1 (doc1 ++ [footer_paragraph]).

(** The text runs of a document, in document order. *)
Fixpoint node_texts (n : adf_node) : list (str * list mark) :=
  match n with
  | text_node t ms => [(t, ms)]
  | paragraph c | heading _ c | listItem c | bulletList c =>
      flat_map node_texts c
  end.

Definition doc_texts (d : adf_doc) : list (str * list mark) :=
  flat_map node_texts (doc_content d).

(** The text content of a document, concatenated. *)
Definition doc_text (d : adf_doc) : str :=
  concat (map fst (doc_texts d)).

(** *** The functions that talk to the services *)

Section Services.

Import Session.

Variable L : library.

(** [get_sydney_date()], as the program calls it: without a date string. *)
Definition get_sydney_date : M L (datetime L) := read (now_sydney L).

(** [get_meet_code]: the last path segment of the link, without its
    query and its dashes; [None] for a missing link or a link that is
    not a string. *)
Definition get_meet_code (hangout_link : pyval) : pyval :=
  if negb (Py.truthy hangout_link) then PNone
  else match hangout_link with
       | PStr link =>
           let segment := List.last (split_on "/" link) [] in
           let code := List.hd [] (split_on "?" segment) in
           PStr (Py.replace_char "-" [] code)
       | _ => PNone
       end.

(** [read_document_content]; the download loop is one call of the
    library, which yields the decoded text or raises. *)
Definition read_document_content (drive_service : service L)
    (file_id : pyval) : M L pyval :=
  try_except
    (content ← call ExportText (export_text L drive_service file_id);
     mret (PStr content))
    (fun e => mret (PStr (py "Error reading document: " ++ e))).

(** The loop of [search_meeting_notes] over the files found. *)
Fixpoint first_matching_file (files : list pyval) (event_summary : pyval)
    (event_time : datetime L) : outcome pyval :=
  match files with
  | [] => Ok PNone
  | file :: rest =>
      summary ← Py.as_str event_summary "lower";
      name ← Py.getitem file "name";
      name_s ← Py.as_str name "lower";
      if contains (lower summary) (lower name_s) then
        created ← Py.getitem file "createdTime";
        created_s ← Py.as_str created "replace";
        file_time ← fromisoformat L (Py.replace_char "Z" "+00:00" created_s);
        in_window ← within_four_hours L file_time event_time;
        if (in_window : bool) then
          id ← Py.getitem file "id";
          name' ← Py.getitem file "name";
          link ← Py.getitem file "webViewLink";
          Ok (PDict [(py "id", id); (py "name", name'); (py "link", link)])
        else first_matching_file rest event_summary event_time
      else first_matching_file rest event_summary event_time
  end.

Definition search_meeting_notes (drive_service : service L)
    (event_summary : pyval) (event_time : datetime L) : M L pyval :=
  try_except
    (results ← call FilesList (files_list L drive_service);
     files ← lift (Py.get results "files" (PList []));
     items ← lift (Py.iterate files);
     lift (first_matching_file items event_summary event_time))
    (fun _ => mret PNone).

Definition check_for_transcript_and_recording
    (cal_service drive_service : service L) (meet_code : pyval)
    (event_summary : pyval) (event_time : datetime L) : M L pyval :=
  if negb (Py.truthy meet_code) then mret PNone
  else
    notes ← search_meeting_notes drive_service event_summary event_time;
    if Py.truthy notes
    then mret (PDict [(py "transcript", PNone); (py "recording", PNone);
                      (py "notes", notes)])
    else mret PNone.

Definition CLOUD_ID_CACHE_KEY : string :=
  String.append JIRA_TOKEN_CACHE_KEY "_cloud_id".

Definition get_jira_cloud_id (access_token : pyval) (tc : tool_context)
    : M L pyval :=
  cached_cloud_id ← state_get tc CLOUD_ID_CACHE_KEY;
  if Py.truthy cached_cloud_id then mret cached_cloud_id
  else
    response ← call AccessibleResources
                 (http_accessible_resources L access_token);
    if negb (status_code response =? 200) then mret PNone
    else
      resources ← lift (json response);
      if negb (Py.truthy resources) then mret PNone
      else
        resource ← lift (Py.first resources);
        cloud_id ← lift (Py.getitem resource "id");
        _ ← state_set tc CLOUD_ID_CACHE_KEY cloud_id;
        mret cloud_id.

Definition GOOGLE_TOKEN_CACHE_KEY : string :=
  String.append TOKEN_CACHE_KEY "_google".

(** [not creds or not creds.valid] *)
Definition lacks_valid (creds : option (credentials L)) : M L bool :=
  match creds with
  | None => mret true
  | Some c => valid ← read (creds_valid L c); mret (negb valid)
  end.

(** The [try] block that revives the cached Google credentials. *)
Definition cached_google_credentials (tc : tool_context)
    (cached_token_info : pyval) : M L (option (credentials L)) :=
  try_except
    (creds ← lift (from_authorized_user_info L cached_token_info);
     valid ← read (creds_valid L creds);
     expired ← read (creds_expired L creds);
     if negb valid && expired && Py.truthy (creds_refresh_token L creds)
     then
       creds' ← call RefreshCredentials (creds_refresh L creds);
       info ← lift (creds_to_json L creds');
       _ ← state_set tc GOOGLE_TOKEN_CACHE_KEY info;
       mret (Some creds')
     else
       valid' ← read (creds_valid L creds);
       if negb valid' then mret None else mret (Some creds))
    (fun _ => mret None).

Definition oauth2_of (c : auth_credential) : outcome oauth2_auth :=
  match oauth2 c with
  | Some o => Ok o
  | None => Raise (py "'NoneType' object has no attribute 'access_token'")
  end.

Definition get_authenticated_google_services (tc : tool_context)
    : M L (option (service L * service L)) :=
  cached_token_info ← state_get tc GOOGLE_TOKEN_CACHE_KEY;
  creds ← (if Py.truthy cached_token_info
           then cached_google_credentials tc cached_token_info
           else mret None);
  stale ← lacks_valid creds;
  creds ← (if (stale : bool) then
             exchanged ← ask_auth_response tc google;
             match exchanged with
             | Some credential =>
                 o ← lift (oauth2_of credential);
                 fresh ← lift (new_credentials L (access_token o)
                                 (refresh_token o));
                 info ← lift (creds_to_json L fresh);
                 _ ← state_set tc GOOGLE_TOKEN_CACHE_KEY info;
                 mret (Some fresh)
             | None => mret creds
             end
           else mret creds);
  stale ← lacks_valid creds;
  match creds, stale with
  | Some c, false =>
      calendar_service ← call (BuildService "calendar") (build L "calendar" c);
      drive_service ← call (BuildService "drive") (build L "drive" c);
      mret (Some (calendar_service, drive_service))
  | _, _ =>
      _ ← ask_credential tc google;
      mret None
  end.

End Services.

End Utils.

(** ** tools.py *)

Module Tools.

Import PyStr Re Utils Session.

(** *** Results *)

Definition result : Type := Dict.t pyval.

(** [result["status"]] *)
Definition status_of (r : result) : option pyval := Dict.get (py "status") r.

Definition pending_result (message : str) : result :=
  [(py "status", PStr (py "pending")); (py "message", PStr message)].

Definition error_result (error_message : str) : result :=
  [(py "status", PStr (py "error")); (py "error_message", PStr error_message)].

(** The [try: ... except Exception as e: return {"status": "error", ...}]
    that wraps the body of an operation. *)
Definition boundary {L : library} (body : M L result) : M L result :=
  try_except body (fun e => mret (error_result e)).

(** *** Encoding of the typed data as the dictionaries the program builds *)

Definition confidence_name (c : confidence_level) : str :=
  match c with
  | high => py "high"
  | medium => py "medium"
  | low => py "low"
  end.

Definition type_name (t : mention_type) : str :=
  match t with
  | full_key => py "full_key"
  | partial_numeric => py "partial_numeric"
  | spoken_digits => py "spoken_digits"
  end.

Definition mention_to_py (t : mention) : pyval :=
  PDict [ (py "key", PStr (key t));
          (py "confidence", PStr (confidence_name (confidence t)));
          (py "type", PStr (type_name (type t))) ].

Definition lines_to_py (lines : list str) : pyval := PList (map PStr lines).

Definition speakers_to_py (d : Dict.t (list str)) : pyval :=
  PDict (map (fun e => (fst e, lines_to_py (snd e))) d).

Definition mark_to_py (m : mark) : pyval :=
  PDict [(py "type", PStr (match m with strong => py "strong" | em => py "em" end))].

Fixpoint node_to_py (n : adf_node) : pyval :=
  match n with
  | text_node t marks =>
      PDict ([(py "type", PStr (py "text")); (py "text", PStr t)] ++
             match marks with
             | [] => []
             | _ => [(py "marks", PList (map mark_to_py marks))]
             end)
  | paragraph c =>
      PDict [(py "type", PStr (py "paragraph"));
             (py "content", PList (map node_to_py c))]
  | heading level c =>
      PDict [(py "type", PStr (py "heading"));
             (py "attrs", PDict [(py "level", PInt (Z.of_nat level))]);
             (py "content", PList (map node_to_py c))]
  | listItem c =>
      PDict [(py "type", PStr (py "listItem"));
             (py "content", PList (map node_to_py c))]
  | bulletList c =>
      PDict [(py "type", PStr (py "bulletList"));
             (py "content", PList (map node_to_py c))]
  end.

Definition adf_to_py (d : adf_doc) : pyval :=
  PDict [(py "version", PInt (Z.of_nat (version d)));
         (py "type", PStr (py "doc"));
         (py "content", PList (map node_to_py (doc_content d)))].

(** *** parse_transcript: grouping the speakers' lines by ticket *)

Record ticket_context : Type := TicketContext {
  ctx_confidence : confidence_level;
  ctx_type : mention_type;
  ctx_speakers : Dict.t (list str);
  ctx_mentions : list pyval
}.

Definition ticket_context_to_py (c : ticket_context) : pyval :=
  PDict [ (py "confidence", PStr (confidence_name (ctx_confidence c)));
          (py "type", PStr (type_name (ctx_type c)));
          (py "speakers", speakers_to_py (ctx_speakers c));
          (py "mentions", PList (ctx_mentions c)) ].

(** A loop over a list whose body may raise. *)
Fixpoint ofold {A B : Type} (f : B -> A -> outcome B) (items : list A)
    (acc : B) : outcome B :=
  match items with
  | [] => Ok acc
  | x :: rest => acc' ← f acc x; ofold f rest acc'
  end.

(** [ticket_key.split('-')[1]] *)
Definition key_suffix (ticket_key : str) : outcome str :=
  match nth_error (split_on "-" ticket_key) 1 with
  | Some s => Ok s
  | None => Raise (py "list index out of range")
  end.

(** [any(str(ticket_key.split('-')[1]) in line for line in lines)] *)
Fixpoint any_line_has_suffix (ticket_key : str) (lines : list str)
    : outcome bool :=
  match lines with
  | [] => Ok false
  | line :: rest =>
      suffix ← key_suffix ticket_key;
      if contains suffix line then Ok true
      else any_line_has_suffix ticket_key rest
  end.

(** The comprehension
    [[line for line in lines if ticket_key in line or any(...)]];
    the generator inside [any] ranges over the whole of [lines]. *)
Fixpoint relevant_among (ticket_key : str) (lines rest : list str)
    : outcome (list str) :=
  match rest with
  | [] => Ok []
  | line :: rest' =>
      keep ← (if contains ticket_key line then Ok true
              else any_line_has_suffix ticket_key lines);
      tail ← relevant_among ticket_key lines rest';
      Ok (if (keep : bool) then line :: tail else tail)
  end.

Definition relevant_lines (ticket_key : str) (lines : list str)
    : outcome (list str) :=
  relevant_among ticket_key lines lines.

(** The body of the loop over [speakers.items()]. *)
Definition speaker_step (ticket_key : str) (found : Dict.t (list str))
    (entry : str * list str) : outcome (Dict.t (list str)) :=
  relevant ← relevant_lines ticket_key (snd entry);
  Ok (match relevant with
      | [] => found
      | _ => Dict.set (fst entry) relevant found
      end).

(** The body of the loop over [tickets]. *)
Definition ticket_step (speakers : Dict.t (list str))
    (ticket_contexts : Dict.t ticket_context) (ticket : mention)
    : outcome (Dict.t ticket_context) :=
  let ticket_key := key ticket in
  found ← ofold (speaker_step ticket_key) speakers [];
  Ok (Dict.set ticket_key
        (TicketContext (confidence ticket) (type ticket) found [])
        ticket_contexts).

Definition group_by_ticket (tickets : list mention)
    (speakers : Dict.t (list str)) : outcome (Dict.t ticket_context) :=
  ofold (ticket_step speakers) tickets [].

Section Operations.

Variable L : library.

Definition parse_transcript (transcript_text default_project : str)
    : M L result :=
  boundary
    (let extracted_date :=
       extract_date_from_transcript (parser_parse L) transcript_text in
     date_used ← match extracted_date with
                 | Some d => mret d
                 | None => get_sydney_date L
                 end;
     let tickets := extract_ticket_keys transcript_text default_project in
     let speakers := parse_speakers transcript_text in
     ticket_contexts ← lift (group_by_ticket tickets speakers);
     date ← lift (strftime_dby L date_used);
     mret [ (py "status", PStr (py "success"));
            (py "date", PStr date);
            (py "tickets", PList (map mention_to_py tickets));
            (py "speakers", speakers_to_py speakers);
            (py "ticket_contexts",
              PDict (map (fun e => (fst e, ticket_context_to_py (snd e)))
                       ticket_contexts));
            (py "default_project", PStr default_project) ]).

Definition process_manual_transcript (transcript_text default_project : str)
    : M L result :=
  parse_transcript transcript_text default_project.

Definition get_jira_auth (tc : tool_context) : M L pyval :=
  cached_token ← state_get tc JIRA_TOKEN_CACHE_KEY;
  if Py.truthy cached_token then mret cached_token
  else
    exchanged_credential ← ask_auth_response tc jira;
    match exchanged_credential with
    | None =>
        _ ← ask_credential tc jira;
        mret PNone
    | Some credential =>
        o ← lift (oauth2_of credential);
        let token := access_token o in
        _ ← state_set tc JIRA_TOKEN_CACHE_KEY token;
        mret token
    end.

Definition JIRA_SITE_URL : str := py "wow-sandbox2.atlassian.net".

(** The body of the loop of [validate_jira_tickets], with its own
    [try ... except] around each ticket. *)
Definition validate_one (cloud_id token : pyval) (results : list pyval)
    (ticket_key : str) : M L (list pyval) :=
  try_except
    (response ← call (GetIssue ticket_key)
                  (http_get_issue L cloud_id token ticket_key);
     if status_code response =? 200 then
       data ← lift (json response);
       fields ← lift (Py.getitem data "fields");
       status ← lift (Py.getitem fields "status");
       status_name ← lift (Py.getitem status "name");
       assignee ← lift (Py.get fields "assignee" (PDict []));
       display_name ← lift (Py.get assignee "displayName"
                              (PStr (py "Unassigned")));
       summary ← lift (Py.getitem fields "summary");
       mret (results ++
             [PDict [ (py "key", PStr ticket_key);
                      (py "valid", PBool true);
                      (py "status", status_name);
                      (py "assignee", display_name);
                      (py "summary", summary) ]])
     else
       mret (results ++
             [PDict [ (py "key", PStr ticket_key);
                      (py "valid", PBool false);
                      (py "error",
                        PStr (py "HTTP " ++ Py.of_nat (status_code response))) ]]))
    (fun e =>
       mret (results ++
             [PDict [ (py "key", PStr ticket_key);
                      (py "valid", PBool false);
                      (py "error", PStr e) ]])).

Definition validate_jira_tickets (ticket_keys : list str)
    (tc : tool_context) : M L result :=
  boundary
    (token ← get_jira_auth tc;
     if negb (Py.truthy token)
     then mret (pending_result "Awaiting Jira authentication")
     else
       cloud_id ← get_jira_cloud_id L token tc;
       if negb (Py.truthy cloud_id)
       then mret (error_result "Failed to get Jira cloud ID")
       else
         results ← foldM (validate_one cloud_id token) ticket_keys [];
         mret [ (py "status", PStr (py "success"));
                (py "results", PList results) ]).

(** The first line of the preview carries a true em dash and each point
    a bullet character, both in UTF-8. *)
Definition preview_title (date_str : str) : str :=
  py "Standup Update — " ++ date_str.

Definition preview_section (entry : str * list str) : list str :=
  fst entry :: map (fun point => py "• " ++ point) (snd entry) ++ [[]].

Definition PREVIEW_FOOTER : str :=
  py "Generated by Standup Agent based on meeting notes; verify accuracy before relying on this content.".

Definition preview_of (date_str : str) (speakers_data : Dict.t (list str))
    : str :=
  join [newline]
    ([preview_title date_str; []] ++
     flat_map preview_section speakers_data ++
     [PREVIEW_FOOTER]).

(** [d.get(k)] on a plain dictionary *)
Definition get_or_none (d : Dict.t pyval) (k : str) : pyval :=
  match Dict.get k d with Some v => v | None => PNone end.

(** [generate_jira_comment], for a context as [parse_transcript] builds
    it, where the key [speakers] is always present. *)
Definition generate_jira_comment (ticket_key : str)
    (context : ticket_context) (date_str : str)
    (ticket_info : option (Dict.t pyval)) : M L result :=
  boundary
    (let speakers_data := ctx_speakers context in
     let adf := generate_adf_comment context date_str speakers_data in
     let result0 : result :=
       [ (py "status", PStr (py "success"));
         (py "ticket_key", PStr ticket_key);
         (py "adf", adf_to_py adf);
         (py "preview", PStr (preview_of date_str speakers_data)) ] in
     match ticket_info with
     | Some (e :: info') =>
         let info := e :: info' in
         mret (Dict.set (py "ticket_summary") (get_or_none info "summary")
                (Dict.set (py "ticket_assignee") (get_or_none info "assignee")
                  (Dict.set (py "ticket_status") (get_or_none info "status")
                     result0)))
     | _ => mret result0
     end).

Definition post_jira_comment (ticket_key : str) (adf_comment : pyval)
    (tc : tool_context) : M L result :=
  boundary
    (token ← get_jira_auth tc;
     if negb (Py.truthy token)
     then mret (pending_result "Awaiting Jira authentication")
     else
       cloud_id ← get_jira_cloud_id L token tc;
       if negb (Py.truthy cloud_id)
       then mret (error_result "Failed to get Jira cloud ID")
       else
         response ← call (PostComment ticket_key)
                      (http_post_comment L cloud_id token ticket_key
                         adf_comment);
         if (status_code response =? 200) || (status_code response =? 201)
         then
           mret [ (py "status", PStr (py "success"));
                  (py "ticket_key", PStr ticket_key);
                  (py "link",
                    PStr (py "https://" ++ JIRA_SITE_URL ++ py "/browse/"
                          ++ ticket_key)) ]
         else
           mret [ (py "status", PStr (py "error"));
                  (py "ticket_key", PStr ticket_key);
                  (py "error_message",
                    PStr (py "HTTP " ++ Py.of_nat (status_code response)
                          ++ py ": " ++ text response)) ]).

(** [e['start'].get('dateTime', e['start'].get('date'))] *)
Definition start_of (e : pyval) : outcome pyval :=
  start ← Py.getitem e "start";
  date ← Py.get start "date" PNone;
  Py.get start "dateTime" date.

(** [datetime.fromisoformat(start.replace('Z', '+00:00'))] *)
Definition event_time_of (start : pyval) : outcome (datetime L) :=
  start_s ← Py.as_str start "replace";
  fromisoformat L (Py.replace_char "Z" "+00:00" start_s).

(** Copies the id and the link of [media[kind]], when there is one, into
    [info] under [kind_id] and [kind_link]. *)
Definition attach_links (media : pyval) (kind : str) (info : Dict.t pyval)
    : outcome (Dict.t pyval) :=
  item ← Py.get media kind PNone;
  if Py.truthy item then
    id ← Py.getitem item "id";
    link ← Py.getitem item "link";
    Ok (Dict.set (kind ++ py "_link") link
          (Dict.set (kind ++ py "_id") id info))
  else Ok info.

(** The body of the loop of [fetch_calendar_events]. *)
Definition event_step (cal_service drive_service : service L)
    (only_with_notes : bool) (result_events : list pyval) (e : pyval)
    : M L (list pyval) :=
  summary ← lift (Py.get e "summary" (PStr (py "No Title")));
  start ← lift (start_of e);
  meet_link ← lift (Py.get e "hangoutLink" PNone);
  id ← lift (Py.get e "id" PNone);
  let event_info : Dict.t pyval :=
    [ (py "id", id); (py "summary", summary); (py "start", start);
      (py "has_meet", PBool (Py.truthy meet_link)) ] in
  if only_with_notes && Py.truthy meet_link then
    let meet_code := get_meet_code meet_link in
    event_time ← lift (event_time_of start);
    media ← check_for_transcript_and_recording L cal_service drive_service
              meet_code summary event_time;
    if Py.truthy media then
      info1 ← lift (attach_links media "notes" event_info);
      info2 ← lift (attach_links media "transcript" info1);
      mret (result_events ++ [PDict info2])
    else mret result_events
  else if negb only_with_notes
       then mret (result_events ++ [PDict event_info])
       else mret result_events.

Definition fetch_calendar_events (days_back : Z) (only_with_notes : bool)
    (tc : tool_context) : M L result :=
  boundary
    (services ← get_authenticated_google_services L tc;
     match services with
     | None => mret (pending_result "Awaiting Google authentication")
     | Some (cal_service, drive_service) =>
         now ← read (now_sydney L);
         start_date ← lift (window_start L now days_back);
         events_result ← call EventsList
                           (events_list L cal_service start_date now);
         events ← lift (Py.get events_result "items" (PList []));
         items ← lift (Py.iterate events);
         result_events ← foldM
                           (event_step cal_service drive_service only_with_notes)
                           items [];
         mret [ (py "status", PStr (py "success"));
                (py "events", PList result_events);
                (py "count", PInt (Z.of_nat (length result_events))) ]
     end).

(** Reads the document behind [media[kind]], when there is one, into
    [kind_content] and copies its link into [kind_link]. *)
Definition attach_content (drive_service : service L) (media : pyval)
    (kind : str) (res : result) : M L result :=
  item ← lift (Py.get media kind PNone);
  if Py.truthy item then
    id ← lift (Py.getitem item "id");
    content ← read_document_content L drive_service id;
    link ← lift (Py.getitem item "link");
    mret (Dict.set (kind ++ py "_link") link
            (Dict.set (kind ++ py "_content") content res))
  else mret res.

Definition get_meeting_notes (event_id : str) (tc : tool_context)
    : M L result :=
  boundary
    (services ← get_authenticated_google_services L tc;
     match services with
     | None => mret (pending_result "Awaiting Google authentication")
     | Some (cal_service, drive_service) =>
         event ← call EventsGet (events_get L cal_service event_id);
         summary ← lift (Py.get event "summary" (PStr (py "No Title")));
         start ← lift (start_of event);
         meet_link ← lift (Py.get event "hangoutLink" PNone);
         if negb (Py.truthy meet_link)
         then mret (error_result "No Google Meet link found for this event")
         else
           let meet_code := get_meet_code meet_link in
           event_time ← lift (event_time_of start);
           media ← check_for_transcript_and_recording L cal_service
                     drive_service meet_code summary event_time;
           if negb (Py.truthy media)
           then mret (error_result
                        "No notes or transcript found for this meeting")
           else
             let result0 : result :=
               [ (py "status", PStr (py "success"));
                 (py "event_name", summary);
                 (py "event_time", start) ] in
             result1 ← attach_content drive_service media "notes" result0;
             attach_content drive_service media "transcript" result1
     end).

End Operations.

(** *** agent.py: the seven tools of [root_agent]

    The agent calls the tools in an order of its choosing, on one
    session. *)
Inductive tool_call : Type :=
| FetchCalendarEvents (days_back : Z) (only_with_notes : bool)
    (tc : tool_context)
| GetMeetingNotes (event_id : str) (tc : tool_context)
| ParseTranscript (transcript_text default_project : str)
| ValidateJiraTickets (ticket_keys : list str) (tc : tool_context)
| GenerateJiraComment (ticket_key : str) (context : ticket_context)
    (date_str : str) (ticket_info : option (Dict.t pyval))
| PostJiraComment (ticket_key : str) (adf_comment : pyval)
    (tc : tool_context)
| ProcessManualTranscript (transcript_text default_project : str).

Definition perform (L : library) (c : tool_call) : M L result :=
  match c with
  | FetchCalendarEvents days_back only_with_notes tc =>
      fetch_calendar_events L days_back only_with_notes tc
  | GetMeetingNotes event_id tc => get_meeting_notes L event_id tc
  | ParseTranscript text default_project =>
      parse_transcript L text default_project
  | ValidateJiraTickets ticket_keys tc =>
      validate_jira_tickets L ticket_keys tc
  | GenerateJiraComment ticket_key context date_str ticket_info =>
      generate_jira_comment L ticket_key context date_str ticket_info
  | PostJiraComment ticket_key adf_comment tc =>
      post_jira_comment L ticket_key adf_comment tc
  | ProcessManualTranscript text default_project =>
      process_manual_transcript L text default_project
  end.

(** The machine after a sequence of tool calls. *)
Fixpoint run_session (L : library) (calls : list tool_call) (m : machine L)
    : machine L :=
  match calls with
  | [] => m
  | c :: rest => run_session L rest (snd (perform L c m))
  end.

End Tools.

(** * Properties *)

(** ** The matcher is sound for the language of its pattern *)

Module ReFacts.

Import PyStr Re.

Lemma justified_seq_l ic r1 r2 g : justified ic r1 g -> justified ic (Seq r1 r2) g.
Proof. intros [b [Hin Hm]]. exists b. split; [simpl; apply in_or_app; auto | exact Hm]. Qed.

Lemma justified_seq_r ic r1 r2 g : justified ic r2 g -> justified ic (Seq r1 r2) g.
Proof. intros [b [Hin Hm]]. exists b. split; [simpl; apply in_or_app; auto | exact Hm]. Qed.

Lemma justified_alt_l ic r1 r2 g : justified ic r1 g -> justified ic (Alt r1 r2) g.
Proof. intros [b [Hin Hm]]. exists b. split; [simpl; apply in_or_app; auto | exact Hm]. Qed.

Lemma justified_alt_r ic r1 r2 g : justified ic r2 g -> justified ic (Alt r1 r2) g.
Proof. intros [b [Hin Hm]]. exists b. split; [simpl; apply in_or_app; auto | exact Hm]. Qed.

Lemma justified_star ic r g : justified ic r g -> justified ic (Star r) g.
Proof. intros [b [Hin Hm]]. exists b. split; [exact Hin | exact Hm]. Qed.

Lemma justified_group ic n r g : justified ic r g -> justified ic (Group n r) g.
Proof. intros [b [Hin Hm]]. exists b. split; [simpl; auto | exact Hm]. Qed.

(** The state [st'] is reached from [st] by passing the text [w] and
    capturing [new]. *)
Definition reaches (st st' : mstate) (w : str) (new : list (nat * str)) : Prop :=
  after st = w ++ after st' /\
  before st' = rev w ++ before st /\
  groups st' = new ++ groups st.

Lemma reaches_trans st1 st2 st3 w1 w2 n1 n2 :
  reaches st1 st2 w1 n1 -> reaches st2 st3 w2 n2 ->
  reaches st1 st3 (w1 ++ w2) (n2 ++ n1).
Proof.
  intros (Ha1 & Hb1 & Hg1) (Ha2 & Hb2 & Hg2). repeat split.
  - rewrite Ha1, Ha2. now rewrite app_assoc.
  - rewrite Hb2, Hb1, rev_app_distr. now rewrite app_assoc.
  - rewrite Hg2, Hg1. now rewrite app_assoc.
Qed.

Lemma span_reaches st st' w new : reaches st st' w new -> span st st' = w.
Proof.
  intros (Ha & _ & _). unfold span. rewrite Ha, length_app.
  replace (length w + length (after st') - length (after st')) with (length w) by lia.
  rewrite firstn_app, firstn_all, Nat.sub_diag. simpl. apply app_nil_r.
Qed.

Definition captured (n : nat) (new : list (nat * str)) : Prop :=
  exists v, In (n, v) new.

Theorem rmatch_sound ic r :
  forall st k res,
    rmatch ic r st k = Some res ->
    exists st' w new,
      k st' = Some res /\ reaches st st' w new /\
      matches ic r w /\ Forall (justified ic r) new /\
      Forall (fun n => captured n new) (sure_groups r).
Proof.
  induction r as [ | cs | r1 IH1 r2 IH2 | r1 IH1 r2 IH2 | r1 IH1 | n r1 IH1 | | | ];
    intros st k res H; simpl in H.
  - exists st, [], []. repeat split; auto. constructor.
  - destruct (after st) as [ | c rest] eqn:Ha; [discriminate | ].
    destruct (cset_mem ic cs c) eqn:Hc; [ | discriminate].
    exists (advance c rest st), [c], []. repeat split; auto.
    now constructor.
  - apply IH1 in H as (st1 & w1 & n1 & Hk1 & Hr1 & Hm1 & Hj1 & Hs1).
    apply IH2 in Hk1 as (st2 & w2 & n2 & Hk2 & Hr2 & Hm2 & Hj2 & Hs2).
    exists st2, (w1 ++ w2), (n2 ++ n1).
    split; [exact Hk2 | ]. split; [eapply reaches_trans; eauto | ].
    split; [now constructor | ]. split.
    + apply List.Forall_app. split.
      * eapply List.Forall_impl; [ | exact Hj2]. intros g. apply justified_seq_r.
      * eapply List.Forall_impl; [ | exact Hj1]. intros g. apply justified_seq_l.
    + simpl. apply List.Forall_app. split.
      * eapply List.Forall_impl; [ | exact Hs1]. intros g [v Hv].
        exists v. apply in_or_app. now right.
      * eapply List.Forall_impl; [ | exact Hs2]. intros g [v Hv].
        exists v. apply in_or_app. now left.
  - destruct (rmatch ic r1 st k) as [res1 | ] eqn:H1.
    + inversion H; subst res1.
      apply IH1 in H1 as (st1 & w1 & n1 & Hk1 & Hr1 & Hm1 & Hj1 & _).
      exists st1, w1, n1. repeat split; auto; try apply Hr1.
      * now apply matches_alt_l.
      * eapply List.Forall_impl; [ | exact Hj1]. intros g. apply justified_alt_l.
    + apply IH2 in H as (st1 & w1 & n1 & Hk1 & Hr1 & Hm1 & Hj1 & _).
      exists st1, w1, n1. repeat split; auto; try apply Hr1.
      * now apply matches_alt_r.
      * eapply List.Forall_impl; [ | exact Hj1]. intros g. apply justified_alt_r.
  - revert H. generalize (length (after st)) as fuel. intros fuel. revert st.
    induction fuel as [ | fuel IHf]; intros st H.
    + exists st, [], []. repeat split; auto. constructor.
    + match type of H with
      | match ?X with _ => _ end = _ => destruct X as [res1 | ] eqn:H1
      end.
      * inversion H; subst res1.
        apply IH1 in H1 as (st1 & w1 & n1 & Hk1 & Hr1 & Hm1 & Hj1 & _).
        destruct (length (after st1) <? length (after st)); [ | discriminate].
        apply IHf in Hk1 as (st2 & w2 & n2 & Hk2 & Hr2 & Hm2 & Hj2 & _).
        exists st2, (w1 ++ w2), (n2 ++ n1).
        split; [exact Hk2 | ]. split; [eapply reaches_trans; eauto | ].
        split; [now constructor | ]. split; [ | constructor].
        apply List.Forall_app. split; [exact Hj2 | ].
        eapply List.Forall_impl; [ | exact Hj1]. intros g. apply justified_star.
      * exists st, [], []. repeat split; auto. constructor.
  - apply IH1 in H as (st1 & w1 & n1 & Hk1 & Hr1 & Hm1 & Hj1 & Hs1).
    exists (set_group n (span st st1) st1), w1, ((n, w1) :: n1).
    rewrite (span_reaches _ _ _ _ Hr1) in *.
    destruct Hr1 as (Ha & Hb & Hg).
    split; [exact Hk1 | ]. split; [ | split; [ | split]].
    + repeat split; auto. simpl. now rewrite Hg.
    + now constructor.
    + constructor.
      * exists r1. split; [simpl; auto | exact Hm1].
      * eapply List.Forall_impl; [ | exact Hj1]. intros g. apply justified_group.
    + simpl. constructor.
      * exists w1. now left.
      * eapply List.Forall_impl; [ | exact Hs1]. intros g [v Hv].
        exists v. now right.
  - destruct (at_boundary st); [ | discriminate].
    exists st, [], []. repeat split; auto. constructor.
  - destruct (before st); [ | discriminate].
    exists st, [], []. repeat split; auto. constructor.
  - destruct (at_end st); [ | discriminate].
    exists st, [], []. repeat split; auto. constructor.
Qed.

(** A match object is sound for [r] when [group(0)] is in the language of
    [r], every capture is justified, and the groups [r] always captures
    are there. *)
Definition sound_match (ic : bool) (r : regex) (m : pymatch) : Prop :=
  matches ic r (group0 m) /\
  Forall (justified ic r) (captures m) /\
  Forall (fun n => captured n (captures m)) (sure_groups r).

Lemma match_here_sound ic r bef aft st :
  match_here ic r bef aft = Some st ->
  sound_match ic r (to_match (start_state bef aft) st).
Proof.
  unfold match_here. intros H.
  apply rmatch_sound in H as (st' & w & new & Hk & Hr & Hm & Hj & Hs).
  inversion Hk; subst st'. unfold sound_match, to_match. simpl.
  rewrite (span_reaches _ _ _ _ Hr).
  destruct Hr as (_ & _ & Hg). simpl in Hg. rewrite app_nil_r in Hg.
  rewrite Hg. auto.
Qed.

Lemma re_match_sound ic r text m :
  re_match ic r text = Some m -> sound_match ic r m.
Proof.
  unfold re_match. destruct (match_here ic r [] text) eqn:H; [ | discriminate].
  intros Heq. inversion Heq; subst m. now apply match_here_sound.
Qed.

Lemma search_from_sound ic r aft :
  forall bef m, search_from ic r bef aft = Some m -> sound_match ic r m.
Proof.
  induction aft as [ | c rest IH]; intros bef m; simpl;
    destruct (match_here ic r bef _) eqn:H; intros Heq;
    try (inversion Heq; subst m; now apply match_here_sound);
    try discriminate.
  eapply IH; eauto.
Qed.

Lemma re_search_sound ic r text m :
  re_search ic r text = Some m -> sound_match ic r m.
Proof. apply search_from_sound. Qed.

Lemma scan_sound ic r fuel :
  forall bef aft m, In m (scan ic r fuel bef aft) -> sound_match ic r m.
Proof.
  induction fuel as [ | fuel IH]; intros bef aft m; simpl; [tauto | ].
  assert (Hstep : In m (match aft with
                        | [] => []
                        | c :: rest => scan ic r fuel (c :: bef) rest
                        end) -> sound_match ic r m).
  { destruct aft; simpl; [tauto | apply IH]. }
  destruct (match_here ic r bef aft) eqn:H; [ | exact Hstep].
  intros [Heq | Hin].
  - subst m. now apply match_here_sound.
  - destruct (length (after m0) <? length aft); [eapply IH; eauto | auto].
Qed.

Lemma finditer_sound ic r text m :
  In m (finditer ic r text) -> sound_match ic r m.
Proof. apply scan_sound. Qed.

(** A group that [r] always captures, and whose number names one body
    only, holds a text of that body. *)
Lemma group_sound ic r m n body :
  sound_match ic r m ->
  In n (sure_groups r) ->
  (forall b, In (n, b) (group_bodies r) -> b = body) ->
  n <> 0 ->
  matches ic body (group m n).
Proof.
  intros (_ & Hj & Hs) Hn Huniq Hn0.
  rewrite List.Forall_forall in Hs. destruct (Hs n Hn) as [v Hv].
  unfold group. destruct n as [ | n']; [congruence | ].
  assert (Hl : forall gs, Forall (justified ic r) gs ->
               (exists v, In (S n', v) gs) ->
               exists v', lookup_group (S n') gs = Some v' /\
                          justified ic r (S n', v')).
  { induction gs as [ | [i x] gs IH]; intros HF [v0 Hv0]; [destruct Hv0 | ].
    inversion HF; subst. simpl lookup_group.
    destruct (i =? S n') eqn:Hi.
    - apply Nat.eqb_eq in Hi. subst i. eauto.
    - destruct Hv0 as [Heq | Hin].
      + inversion Heq; subst. rewrite Nat.eqb_refl in Hi. discriminate.
      + apply IH; eauto. }
  destruct (Hl (captures m) Hj (ex_intro _ v Hv)) as (v' & Hlook & b & Hb & Hm).
  rewrite Hlook. simpl in Hb, Hm. now rewrite <- (Huniq b Hb).
Qed.

(** *** Matches of the program's patterns pass text *)

Lemma matches_nonempty ic r w :
  matches ic r w -> nullable r = false -> w <> [].
Proof.
  induction 1; simpl; intros Hn; try discriminate.
  - apply andb_false_iff in Hn as [Hn | Hn].
    + intros Happ. apply app_eq_nil in Happ as [H1 _]. now apply IHmatches1.
    + intros Happ. apply app_eq_nil in Happ as [_ H2]. now apply IHmatches2.
  - apply orb_false_iff in Hn as [Hn _]. auto.
  - apply orb_false_iff in Hn as [_ Hn]. auto.
  - auto.
Qed.

Lemma match_here_progress ic r bef aft st :
  nullable r = false ->
  match_here ic r bef aft = Some st ->
  length (after st) < length aft.
Proof.
  intros Hn H. unfold match_here in H.
  apply rmatch_sound in H as (st' & w & new & Hk & Hr & Hm & _).
  inversion Hk; subst st'. destruct Hr as (Ha & _). simpl in Ha.
  pose proof (matches_nonempty _ _ _ Hm Hn) as Hw.
  rewrite Ha, length_app. destruct w; [congruence | simpl; lia].
Qed.

(** For such a pattern the scan of [finditer] always resumes where the
    match ended. *)
Lemma scan_resumes ic r fuel bef aft :
  nullable r = false ->
  scan ic r (S fuel) bef aft =
  match match_here ic r bef aft with
  | Some st =>
      to_match (start_state bef aft) st ::
      scan ic r fuel (before st) (after st)
  | None =>
      match aft with
      | [] => []
      | c :: rest => scan ic r fuel (c :: bef) rest
      end
  end.
Proof.
  intros Hn. cbn [scan].
  destruct (match_here ic r bef aft) as [st | ] eqn:H; [ | reflexivity].
  apply (match_here_progress _ _ _ _ _ Hn) in H.
  apply Nat.ltb_lt in H. now rewrite H.
Qed.

(** The scan does not depend on its fuel once there is more of it than
    text ahead: [finditer] is a total function of the text. *)
Lemma scan_fuel ic r f1 :
  forall f2 bef aft,
    length aft < f1 -> length aft < f2 ->
    scan ic r f1 bef aft = scan ic r f2 bef aft.
Proof.
  induction f1 as [ | f1 IH]; intros f2 bef aft H1 H2; [lia | ].
  destruct f2 as [ | f2]; [lia | ]. cbn [scan].
  assert (Hstep : match aft with
                  | [] => []
                  | c :: rest => scan ic r f1 (c :: bef) rest
                  end =
                  match aft with
                  | [] => []
                  | c :: rest => scan ic r f2 (c :: bef) rest
                  end).
  { destruct aft as [ | c rest]; [reflexivity | ].
    simpl in H1, H2. apply IH; lia. }
  destruct (match_here ic r bef aft) as [st | ]; [ | exact Hstep].
  f_equal. destruct (length (after st) <? length aft) eqn:Hlt; [ | exact Hstep].
  apply Nat.ltb_lt in Hlt. apply IH; lia.
Qed.

End ReFacts.

(** ** Character runs in the language of a pattern *)

Module RunFacts.

Import PyStr Re.

Definition all_in (ic : bool) (cs : cset) (w : str) : Prop :=
  Forall (fun c => cset_mem ic cs c = true) w.

Lemma matches_chr_inv ic cs w :
  matches ic (Chr cs) w -> exists c, w = [c] /\ cset_mem ic cs c = true.
Proof. intros H. inversion H; subst. eauto. Qed.

Lemma matches_seq_inv ic r1 r2 w :
  matches ic (Seq r1 r2) w ->
  exists w1 w2, w = w1 ++ w2 /\ matches ic r1 w1 /\ matches ic r2 w2.
Proof. intros H. inversion H; subst. eauto. Qed.

Lemma matches_star_chr ic cs w : matches ic (Star (Chr cs)) w -> all_in ic cs w.
Proof.
  intros H. remember (Star (Chr cs)) as r eqn:Hr.
  induction H; try discriminate.
  - constructor.
  - inversion Hr; subst r.
    apply matches_chr_inv in H as (c & -> & Hc).
    constructor; [exact Hc | now apply IHmatches2].
Qed.

Lemma matches_plus_chr ic cs w :
  matches ic (Plus (Chr cs)) w -> w <> [] /\ all_in ic cs w.
Proof.
  unfold Plus. intros H. inversion H; subst.
  match goal with
  | H1 : matches _ (Chr _) _, H2 : matches _ (Star _) _ |- _ =>
      apply matches_chr_inv in H1 as (c & -> & Hc);
      apply matches_star_chr in H2
  end.
  split; [discriminate | now constructor].
Qed.

Lemma matches_upto_chr ic cs n :
  forall w, matches ic (UpTo n (Chr cs)) w -> all_in ic cs w.
Proof.
  induction n as [ | n IH]; intros w H; simpl in H.
  - inversion H; subst. constructor.
  - unfold Opt in H. inversion H; subst.
    + match goal with
      | H1 : matches _ (Seq _ _) _ |- _ => inversion H1; subst
      end.
      match goal with
      | H1 : matches _ (Chr _) _, H2 : matches _ (UpTo _ _) _ |- _ =>
          apply matches_chr_inv in H1 as (c & -> & Hc); apply IH in H2
      end.
      now constructor.
    + match goal with
      | H1 : matches _ Eps _ |- _ => inversion H1; subst
      end.
      constructor.
Qed.

Lemma matches_rep_chr ic cs lo extra :
  forall w, matches ic (Rep lo extra (Chr cs)) w ->
            all_in ic cs w /\ lo <= length w.
Proof.
  induction lo as [ | lo IH]; intros w H; simpl in H.
  - split; [eapply matches_upto_chr; eauto | lia].
  - inversion H; subst.
    match goal with
    | H1 : matches _ (Chr _) _, H2 : matches _ (Rep _ _ _) _ |- _ =>
        apply matches_chr_inv in H1 as (c & -> & Hc);
        apply IH in H2 as [Hall Hlen]
    end.
    split; [now constructor | simpl; lia].
Qed.

Lemma matches_group_inv ic n r w : matches ic (Group n r) w -> matches ic r w.
Proof. intros H. now inversion H. Qed.

Lemma matches_bol_inv ic w : matches ic Bol w -> w = [].
Proof. intros H. now inversion H. Qed.

End RunFacts.

(** ** How the matcher runs *)

Module ReEval.

Import PyStr Re ReFacts.

(** The continuation of a match is only asked about states that lie no
    further back in the text. *)
Lemma rmatch_ext ic r :
  forall st k k',
    (forall st1, length (after st1) <= length (after st) -> k st1 = k' st1) ->
    rmatch ic r st k = rmatch ic r st k'.
Proof.
  induction r as [ | cs | r1 IH1 r2 IH2 | r1 IH1 r2 IH2 | r1 IH1 | n r1 IH1 | | | ];
    intros st k k' H; simpl.
  - apply H. lia.
  - destruct (after st) as [ | c rest] eqn:Ha; [reflexivity | ].
    destruct (cset_mem ic cs c); [ | reflexivity].
    apply H. simpl. lia.
  - apply IH1. intros st1 H1. apply IH2. intros st2 H2. apply H. lia.
  - rewrite (IH1 st k k' H), (IH2 st k k' H). reflexivity.
  - assert (Hloop : forall fuel st1,
              length (after st1) <= length (after st) ->
              (fix loop (fuel : nat) (st : mstate) : option mstate :=
                 match fuel with
                 | 0 => k st
                 | S fuel' =>
                     match rmatch ic r1 st (fun st1 =>
                             if length (after st1) <? length (after st)
                             then loop fuel' st1 else None) with
                     | Some res => Some res
                     | None => k st
                     end
                 end) fuel st1 =
              (fix loop (fuel : nat) (st : mstate) : option mstate :=
                 match fuel with
                 | 0 => k' st
                 | S fuel' =>
                     match rmatch ic r1 st (fun st1 =>
                             if length (after st1) <? length (after st)
                             then loop fuel' st1 else None) with
                     | Some res => Some res
                     | None => k' st
                     end
                 end) fuel st1).
    { induction fuel as [ | fuel IHf]; intros st1 Hst1.
      - now apply H.
      - rewrite (H st1 Hst1).
        match goal with
        | |- match ?X with _ => _ end = match ?Y with _ => _ end =>
            replace X with Y; [reflexivity | ]
        end.
        apply IH1. intros st2 H2.
        destruct (length (after st2) <? length (after st1)); [ | reflexivity].
        symmetry. apply IHf. lia. }
    apply Hloop. lia.
  - apply IH1. intros st1 H1. apply H. exact H1.
  - destruct (at_boundary st); [apply H; lia | reflexivity].
  - destruct (before st); [apply H; lia | reflexivity].
  - destruct (at_end st); [apply H; lia | reflexivity].
Qed.

(** A match whose continuation refuses every state fails. *)
Lemma rmatch_refused ic r st k :
  (forall st1, length (after st1) <= length (after st) -> k st1 = None) ->
  rmatch ic r st k = None.
Proof.
  intros H. destruct (rmatch ic r st k) as [res | ] eqn:Hr; [ | reflexivity].
  apply rmatch_sound in Hr as (st' & w & new & Hk & (Ha & _) & _).
  rewrite H in Hk; [discriminate | ].
  rewrite Ha, length_app. lia.
Qed.

(** The loop of a star. *)
Definition star_loop (ic : bool) (r1 : regex) (k : mstate -> option mstate)
    : nat -> mstate -> option mstate :=
  fix loop (fuel : nat) (st : mstate) : option mstate :=
    match fuel with
    | 0 => k st
    | S fuel' =>
        match rmatch ic r1 st (fun st1 =>
                if length (after st1) <? length (after st)
                then loop fuel' st1 else None) with
        | Some res => Some res
        | None => k st
        end
    end.

Lemma rmatch_star_loop ic r1 st k :
  rmatch ic (Star r1) st k = star_loop ic r1 k (length (after st)) st.
Proof. reflexivity. Qed.

(** The loop has fuel enough as soon as it has one unit per character
    ahead. *)
Lemma star_loop_fuel ic r1 k f :
  forall f' st,
    length (after st) <= f -> length (after st) <= f' ->
    star_loop ic r1 k f st = star_loop ic r1 k f' st.
Proof.
  induction f as [ | f IH]; intros f' st H1 H2.
  - destruct f' as [ | f']; [reflexivity | ]. cbn [star_loop].
    rewrite rmatch_refused; [reflexivity | ].
    intros st1 Hst1.
    replace (length (after st1) <? length (after st)) with false;
      [reflexivity | ].
    symmetry. apply Nat.ltb_ge. lia.
  - destruct f' as [ | f'].
    + cbn [star_loop]. rewrite rmatch_refused; [reflexivity | ].
      intros st1 Hst1.
      replace (length (after st1) <? length (after st)) with false;
        [reflexivity | ].
      symmetry. apply Nat.ltb_ge. lia.
    + cbn [star_loop].
      match goal with
      | |- match ?X with _ => _ end = match ?Y with _ => _ end =>
          replace X with Y; [reflexivity | ]
      end.
      apply rmatch_ext. intros st1 Hst1.
      destruct (length (after st1) <? length (after st)) eqn:Hlt;
        [ | reflexivity].
      apply Nat.ltb_lt in Hlt. symmetry. apply IH; lia.
Qed.

(** One turn of a star: its body, then the star again on what is left, as
    long as the body passed some text; otherwise what follows the star. *)
Lemma rmatch_star ic r1 st k :
  rmatch ic (Star r1) st k =
  match rmatch ic r1 st (fun st1 =>
          if length (after st1) <? length (after st)
          then rmatch ic (Star r1) st1 k else None) with
  | Some res => Some res
  | None => k st
  end.
Proof.
  rewrite rmatch_star_loop.
  destruct (length (after st)) as [ | f] eqn:Hlen.
  - cbn [star_loop]. rewrite rmatch_refused; [reflexivity | ].
    intros st1 Hst1.
    replace (length (after st1) <? 0) with false; [reflexivity | ].
    symmetry. apply Nat.ltb_ge. lia.
  - cbn [star_loop]. rewrite Hlen.
    match goal with
    | |- match ?X with _ => _ end = match ?Y with _ => _ end =>
        replace X with Y; [reflexivity | ]
    end.
    apply rmatch_ext. intros st1 Hst1.
    destruct (length (after st1) <? S f) eqn:Hlt; [ | reflexivity].
    apply Nat.ltb_lt in Hlt. rewrite rmatch_star_loop.
    apply star_loop_fuel; lia.
Qed.

End ReEval.

(** ** Runs of one character class, and the other steps of a match *)

Module ReRuns.

Import PyStr Re ReFacts ReEval.

(** A star of one character class, as a function of the text ahead: the
    longest run first, then each shorter one. *)
Fixpoint star_run (ic : bool) (cs : cset) (k : mstate -> option mstate)
    (bef aft : list ascii) (gs : list (nat * str)) : option mstate :=
  match aft with
  | c :: rest =>
      if cset_mem ic cs c then
        match star_run ic cs k (c :: bef) rest gs with
        | Some res => Some res
        | None => k (MState bef aft gs)
        end
      else k (MState bef aft gs)
  | [] => k (MState bef [] gs)
  end.

Lemma rmatch_seq ic r1 r2 st k :
  rmatch ic (Seq r1 r2) st k = rmatch ic r1 st (fun st1 => rmatch ic r2 st1 k).
Proof. reflexivity. Qed.

Lemma rmatch_group ic n r1 st k :
  rmatch ic (Group n r1) st k =
  rmatch ic r1 st (fun st1 => k (set_group n (span st st1) st1)).
Proof. reflexivity. Qed.

Lemma rmatch_bol ic st k :
  rmatch ic Bol st k = match before st with [] => k st | _ => None end.
Proof. reflexivity. Qed.

Lemma rmatch_eol ic st k :
  rmatch ic Eol st k = if at_end st then k st else None.
Proof. reflexivity. Qed.



Lemma rmatch_wordb ic st k :
  rmatch ic WordB st k = if at_boundary st then k st else None.
Proof. reflexivity. Qed.

Lemma rmatch_chr ic cs k bef aft gs :
  rmatch ic (Chr cs) (MState bef aft gs) k =
  match aft with
  | c :: rest =>
      if cset_mem ic cs c then k (MState (c :: bef) rest gs) else None
  | [] => None
  end.
Proof. reflexivity. Qed.

Lemma rmatch_star_chr ic cs k aft :
  forall bef gs,
    rmatch ic (Star (Chr cs)) (MState bef aft gs) k =
    star_run ic cs k bef aft gs.
Proof.
  induction aft as [ | c rest IH]; intros bef gs; rewrite rmatch_star,
    rmatch_chr.
  - reflexivity.
  - cbn [star_run after length]. destruct (cset_mem ic cs c); [ | reflexivity].
    replace (length rest <? S (length rest)) with true
      by (symmetry; apply Nat.ltb_lt; lia).
    now rewrite IH.
Qed.

(** The text after a run of the class, when what follows the run is not
    of the class. *)
Definition run_ends (ic : bool) (cs : cset) (tail : str) : Prop :=
  match tail with
  | c :: _ => cset_mem ic cs c = false
  | [] => True
  end.

Lemma star_run_end ic cs k bef tail gs :
  run_ends ic cs tail ->
  star_run ic cs k bef tail gs = k (MState bef tail gs).
Proof.
  destruct tail as [ | c rest]; simpl; [reflexivity | ].
  now intros ->.
Qed.

(** The longest run wins when what follows accepts it. *)
Lemma star_run_greedy ic cs k body :
  forall bef tail gs res,
    Forall (fun c => cset_mem ic cs c = true) body ->
    run_ends ic cs tail ->
    k (MState (rev body ++ bef) tail gs) = Some res ->
    star_run ic cs k bef (body ++ tail) gs = Some res.
Proof.
  induction body as [ | c body IH]; intros bef tail gs res Hb Ht Hk.
  - simpl. rewrite star_run_end by exact Ht. exact Hk.
  - inversion Hb; subst. cbn [app star_run].
    match goal with H : cset_mem _ _ _ = true |- _ => rewrite H end.
    rewrite (IH (c :: bef) tail gs res); auto.
    simpl in Hk. now rewrite <- app_assoc in Hk.
Qed.

(** The star fails when what follows refuses every run. *)
Lemma star_run_refused ic cs k body :
  forall bef tail gs,
    Forall (fun c => cset_mem ic cs c = true) body ->
    run_ends ic cs tail ->
    (forall pre post,
       body = pre ++ post ->
       k (MState (rev pre ++ bef) (post ++ tail) gs) = None) ->
    star_run ic cs k bef (body ++ tail) gs = None.
Proof.
  induction body as [ | c body IH]; intros bef tail gs Hb Ht Hk.
  - simpl. rewrite star_run_end by exact Ht. exact (Hk [] [] eq_refl).
  - inversion Hb; subst. cbn [app star_run].
    match goal with H : cset_mem _ _ _ = true |- _ => rewrite H end.
    rewrite (IH (c :: bef) tail gs); auto.
    + exact (Hk [] (c :: body) eq_refl).
    + intros pre post ->. specialize (Hk (c :: pre) post eq_refl).
      simpl in Hk. now rewrite <- app_assoc in Hk.
Qed.

Lemma star_run_all ic cs k body bef gs res :
  Forall (fun c => cset_mem ic cs c = true) body ->
  k (MState (rev body ++ bef) [] gs) = Some res ->
  star_run ic cs k bef body gs = Some res.
Proof.
  intros Hb Hk. rewrite <- (app_nil_r body) at 1.
  now apply star_run_greedy.
Qed.

(** The text between two states of which the second is further on. *)
Lemma span_app bef w aft gs bef' gs' :
  span (MState bef (w ++ aft) gs) (MState bef' aft gs') = w.
Proof.
  unfold span. cbn [after]. rewrite length_app.
  replace (length w + length aft - length aft) with (length w) by lia.
  rewrite firstn_app, firstn_all, Nat.sub_diag. simpl. apply app_nil_r.
Qed.

Lemma span_all bef w gs bef' gs' :
  span (MState bef w gs) (MState bef' [] gs') = w.
Proof. rewrite <- (app_nil_r w) at 1. apply span_app. Qed.



End ReRuns.

(** ** Ticket keys and their numeric suffix *)

Module KeyFacts.

Import PyStr Re Utils ReFacts RunFacts.

Definition hyphen : ascii := "-"%char.

Definition hyphen_free (s : str) : Prop := ~ In hyphen s.

Definition all_digits (s : str) : Prop := Forall (fun c => is_digit c = true) s.

(** A key [P-D]: a project part without a hyphen and a numeric suffix. *)
Definition key_of_shape (k project suffix : str) : Prop :=
  k = project ++ py "-" ++ suffix /\
  hyphen_free project /\ suffix <> [] /\ all_digits suffix.

Lemma digits_hyphen_free s : all_digits s -> hyphen_free s.
Proof.
  intros H Hin. unfold all_digits in H. rewrite List.Forall_forall in H.
  specialize (H _ Hin). vm_compute in H. discriminate.
Qed.

Lemma eqb_eq (a b : str) : PyStr.eqb a b = true <-> a = b.
Proof. unfold PyStr.eqb. apply bool_decide_eq_true. Qed.

Lemma eqb_neq (a b : str) : PyStr.eqb a b = false <-> a <> b.
Proof. unfold PyStr.eqb. apply bool_decide_eq_false. Qed.

Lemma split_on_hyphen_free s : hyphen_free s -> split_on hyphen s = [s].
Proof.
  induction s as [ | c s IH]; intros H; simpl; [reflexivity | ].
  destruct (Ascii.eqb c hyphen) eqn:Hc.
  - apply Ascii.eqb_eq in Hc. subst c. exfalso. apply H. now left.
  - rewrite IH; [reflexivity | ]. intros Hin. apply H. now right.
Qed.

Lemma split_on_key project suffix :
  hyphen_free project ->
  split_on hyphen (project ++ py "-" ++ suffix) =
  project :: split_on hyphen suffix.
Proof.
  induction project as [ | c p IH]; intros H; simpl.
  - reflexivity.
  - destruct (Ascii.eqb c hyphen) eqn:Hc.
    + apply Ascii.eqb_eq in Hc. subst c. exfalso. apply H. now left.
    + simpl in IH. rewrite IH; [reflexivity | ].
      intros Hin. apply H. now right.
Qed.

(** The second field of a well-formed key is its numeric suffix. *)
Lemma key_suffix_of_shape k project suffix :
  key_of_shape k project suffix -> Tools.key_suffix k = Ok suffix.
Proof.
  intros (-> & Hp & _ & Hd). unfold Tools.key_suffix.
  change "-"%char with hyphen.
  rewrite split_on_key by exact Hp.
  rewrite split_on_hyphen_free by (now apply digits_hyphen_free).
  reflexivity.
Qed.

(** The digits that [spoken_to_digits] produces. *)
Lemma spoken_digits_values w d :
  Dict.get w SPOKEN_DIGITS = Some d -> all_digits d.
Proof.
  unfold SPOKEN_DIGITS. simpl.
  repeat match goal with
         | |- (if ?c then _ else _) = _ -> _ => destruct c
         end;
    intros H; inversion H; subst;
    repeat constructor.
Qed.

Lemma spoken_to_digits_all_digits run : all_digits (spoken_to_digits run).
Proof.
  unfold spoken_to_digits.
  induction (split_ws run) as [ | w ws IH]; cbn [map concat].
  - constructor.
  - apply List.Forall_app. split; [ | exact IH].
    destruct (Dict.get (lower w) SPOKEN_DIGITS) as [d | ] eqn:H.
    + exact (spoken_digits_values _ _ H).
    + constructor.
Qed.

Lemma upper_hyphen_free ic w :
  all_in ic (CRange "A" "Z") w -> hyphen_free w.
Proof.
  intros H Hin. unfold all_in in H. rewrite List.Forall_forall in H.
  specialize (H _ Hin). destruct ic; vm_compute in H; discriminate.
Qed.

(** Group 1 of a full-key match is [LETTERS-DIGITS]. *)
Lemma full_key_shape m :
  sound_match false full_pattern m ->
  exists project suffix, key_of_shape (group m 1) project suffix.
Proof.
  intros Hs.
  assert (Hm : matches false
                 (Seq (Rep 2 8 upper_AZ) (Seq (Chr (CLit "-")) (Plus digit)))
                 (group m 1)).
  { apply (group_sound false full_pattern m 1 _ Hs).
    - simpl. auto.
    - simpl. intros b [Hb | []]. now inversion Hb.
    - discriminate. }
  apply matches_seq_inv in Hm as (w1 & w' & Heq & Hup & Hm).
  apply matches_seq_inv in Hm as (w2 & w3 & -> & Hc & Hdig).
  apply matches_rep_chr in Hup as [Hup _].
  apply matches_chr_inv in Hc as (c & -> & Hc).
  apply matches_plus_chr in Hdig as [Hne Hdig].
  simpl in Hc. apply Ascii.eqb_eq in Hc. subst c.
  exists w1, w3. split; [exact Heq | split; [ | split]].
  - eapply upper_hyphen_free; eauto.
  - exact Hne.
  - exact Hdig.
Qed.

(** Group 1 of a keyword-and-number match is a run of digits. *)
Lemma partial_number_shape m :
  sound_match true partial_pattern m ->
  group m 1 <> [] /\ all_digits (group m 1).
Proof.
  intros Hs.
  assert (Hm : matches true (Plus digit) (group m 1)).
  { apply (group_sound true partial_pattern m 1 _ Hs).
    - simpl. auto.
    - simpl. intros b [Hb | []]. now inversion Hb.
    - discriminate. }
  now apply matches_plus_chr in Hm.
Qed.

(** None of the program's patterns matches the empty text, and each of their
    starred parts passes text at every iteration. *)
Example program_patterns_consume :
  forallb (fun r => negb (nullable r) && stars_consume r) program_patterns = true.
Proof. reflexivity. Qed.

End KeyFacts.

(** ** The three tiers of [extract_ticket_keys] *)

Module ExtractFacts.

Import PyStr Re Utils ReFacts KeyFacts.

Definition full_mention (m : pymatch) : mention :=
  Mention (group m 1) high full_key.

Definition partial_mention (default_project : str) (m : pymatch) : mention :=
  Mention (project_key default_project (group m 1)) medium partial_numeric.

Definition spoken_mention (default_project : str) (m : pymatch) : mention :=
  Mention (project_key default_project (spoken_to_digits (group m 0)))
    low spoken_digits.

Definition keys (tickets : list mention) : list str := map key tickets.

Lemma key_emitted_In k tickets :
  key_emitted k tickets = true <-> In k (keys tickets).
Proof.
  unfold key_emitted, keys. rewrite existsb_exists, in_map_iff.
  split; intros (t & H1 & H2); exists t.
  - apply eqb_eq in H2. auto.
  - split; [exact H2 | now apply eqb_eq].
Qed.

Lemma key_emitted_app k a b :
  key_emitted k (a ++ b) = key_emitted k a || key_emitted k b.
Proof. unfold key_emitted. apply existsb_app. Qed.

Lemma key_emitted_false k tickets :
  key_emitted k tickets = false <-> ~ In k (keys tickets).
Proof.
  rewrite <- key_emitted_In. destruct (key_emitted k tickets); split;
    intros H; try discriminate; try reflexivity; try congruence.
Qed.

Lemma fold_left_append {A B : Type} (g : A -> B) (l : list A) :
  forall acc, fold_left (fun acc a => acc ++ [g a]) l acc = acc ++ map g l.
Proof.
  induction l as [ | a l IH]; intros acc; simpl.
  - now rewrite app_nil_r.
  - rewrite IH, <- app_assoc. reflexivity.
Qed.

Lemma full_tier_map text :
  full_tier text = map full_mention (finditer false full_pattern text).
Proof. unfold full_tier, full_step. apply (fold_left_append full_mention). Qed.

(** A loop that appends what each item proposes unless its key is there. *)
Section Offers.

Context {A : Type}.
Variable candidate : A -> option mention.

Definition offer (tickets : list mention) (a : A) : list mention :=
  match candidate a with
  | Some t => if key_emitted (key t) tickets then tickets else tickets ++ [t]
  | None => tickets
  end.

Lemma offer_fold (l : list A) :
  forall tickets,
  exists added,
    fold_left offer l tickets = tickets ++ added /\
    (forall t, In t added -> exists a, In a l /\ candidate a = Some t) /\
    List.NoDup (keys added) /\
    (forall t, In t added -> key_emitted (key t) tickets = false).
Proof.
  induction l as [ | a l IH]; intros tickets; simpl.
  - exists []. rewrite app_nil_r. repeat split; try constructor; intros t [].
  - remember (offer tickets a) as o eqn:Ho.
    assert (Hskip : o = tickets ->
             exists added,
               fold_left offer l o = tickets ++ added /\
               (forall t, In t added ->
                  exists a0, (a = a0 \/ In a0 l) /\ candidate a0 = Some t) /\
               List.NoDup (keys added) /\
               (forall t, In t added -> key_emitted (key t) tickets = false)).
    { intros ->. destruct (IH tickets) as (added & H1 & H2 & H3 & H4).
      exists added. repeat split; auto.
      intros t Ht. destruct (H2 t Ht) as (a0 & Ha0 & Hc). eauto. }
    unfold offer in Ho.
    destruct (candidate a) as [t | ] eqn:Hc; [ | now apply Hskip].
    destruct (key_emitted (key t) tickets) eqn:He; [now apply Hskip | ].
    subst o. clear Hskip.
    destruct (IH (tickets ++ [t])) as (added & H1 & H2 & H3 & H4).
    exists (t :: added). split; [ | split; [ | split]].
    + rewrite H1, <- app_assoc. reflexivity.
    + intros x [<- | Hx]; [eauto | ].
      destruct (H2 x Hx) as (a0 & Ha0 & Hc0). eauto.
    + simpl. constructor; [ | exact H3].
      intros Hin. unfold keys in Hin. apply in_map_iff in Hin as (x & Hk & Hx).
      specialize (H4 x Hx). rewrite key_emitted_app in H4.
      apply orb_false_elim in H4 as [_ H4]. simpl in H4.
      rewrite orb_false_r in H4. apply eqb_neq in H4. congruence.
    + intros x [<- | Hx]; [exact He | ].
      specialize (H4 x Hx). rewrite key_emitted_app in H4.
      now apply orb_false_elim in H4 as [H4 _].
Qed.

End Offers.

Definition partial_candidate (default_project : str) (m : pymatch)
    : option mention :=
  Some (partial_mention default_project m).

Definition spoken_candidate (default_project : str) (m : pymatch)
    : option mention :=
  if 3 <=? length (spoken_to_digits (group m 0))
  then Some (spoken_mention default_project m)
  else None.

Lemma fold_left_ext {A B : Type} (f g : B -> A -> B) (l : list A) :
  (forall b a, f b a = g b a) ->
  forall b, fold_left f l b = fold_left g l b.
Proof.
  intros H. induction l as [ | a l IH]; intros b; simpl; [reflexivity | ].
  now rewrite H, IH.
Qed.

Lemma partial_tier_offer text default_project tickets :
  partial_tier text default_project tickets =
  fold_left (offer (partial_candidate default_project))
    (finditer true partial_pattern text) tickets.
Proof. unfold partial_tier. apply fold_left_ext. reflexivity. Qed.

Lemma spoken_tier_offer text default_project tickets :
  spoken_tier text default_project tickets =
  fold_left (offer (spoken_candidate default_project))
    (finditer true spoken_pattern text) tickets.
Proof.
  unfold spoken_tier. apply fold_left_ext. intros b m.
  unfold spoken_step, offer, spoken_candidate.
  destruct (3 <=? length (spoken_to_digits (group m 0))); reflexivity.
Qed.

(** What [extract_ticket_keys] returns: the full keys, then the mentions
    the second loop added, then those the third loop added. *)
Lemma extract_structure text default_project :
  exists partial spoken,
    extract_ticket_keys text default_project =
      full_tier text ++ partial ++ spoken /\
    partial_tier text default_project (full_tier text) =
      full_tier text ++ partial /\
    (forall t, In t partial ->
       exists m, In m (finditer true partial_pattern text) /\
                 t = partial_mention default_project m) /\
    (forall t, In t spoken ->
       exists m, In m (finditer true spoken_pattern text) /\
                 3 <= length (spoken_to_digits (group m 0)) /\
                 t = spoken_mention default_project m) /\
    List.NoDup (keys partial) /\ List.NoDup (keys spoken) /\
    (forall t, In t partial -> key_emitted (key t) (full_tier text) = false) /\
    (forall t, In t spoken ->
       key_emitted (key t) (full_tier text ++ partial) = false).
Proof.
  unfold extract_ticket_keys.
  destruct (offer_fold (partial_candidate default_project)
              (finditer true partial_pattern text) (full_tier text))
    as (partial & P1 & P2 & P3 & P4).
  rewrite <- partial_tier_offer in P1.
  destruct (offer_fold (spoken_candidate default_project)
              (finditer true spoken_pattern text) (full_tier text ++ partial))
    as (spoken & S1 & S2 & S3 & S4).
  rewrite <- spoken_tier_offer in S1.
  exists partial, spoken. rewrite P1, S1, <- app_assoc.
  repeat split; auto.
  - intros t Ht. destruct (P2 t Ht) as (m & Hm & Hc).
    exists m. split; [exact Hm | ]. unfold partial_candidate in Hc. congruence.
  - intros t Ht. destruct (S2 t Ht) as (m & Hm & Hc).
    exists m. unfold spoken_candidate in Hc.
    destruct (3 <=? length (spoken_to_digits (group m 0))) eqn:Hlen;
      [ | discriminate].
    apply Nat.leb_le in Hlen. repeat split; auto. congruence.
Qed.

End ExtractFacts.

(** ** Claims about ticket extraction *)

Module TicketExtraction.

Import PyStr Re Utils ReFacts KeyFacts ExtractFacts.

Definition sample_repeated : str := py "Let's discuss ABC-123 and ABC-123 again".

(** C1, as stated, fails: the text "Let's discuss ABC-123 and ABC-123
    again" yields two mentions that carry the same key. *)
Lemma repeated_full_key_counterexample :
  exists i j t1 t2,
    i < j /\
    nth_error (extract_ticket_keys sample_repeated "WJR") i = Some t1 /\
    nth_error (extract_ticket_keys sample_repeated "WJR") j = Some t2 /\
    key t1 = key t2.
Proof.
  exists 0, 1, (Mention (py "ABC-123") high full_key),
    (Mention (py "ABC-123") high full_key).
  split; [lia | ]. vm_compute. auto.
Qed.

(** C1, amended: the result of [extract_ticket_keys] is the full-key
    mentions (one per match, in text order), followed by the
    partial-numeric mentions, followed by the spoken-digits mentions; the
    keys of the synthesized mentions (medium and low) are pairwise
    distinct, and none of them is the key of a full-key mention. So a key
    emitted by an earlier tier is never emitted again by a later one. *)
Theorem synthesized_keys_unique (text default_project : str) :
  exists partial spoken,
    extract_ticket_keys text default_project =
      map full_mention (finditer false full_pattern text) ++ partial ++ spoken /\
    Forall (fun t => confidence t = medium /\ type t = partial_numeric) partial /\
    Forall (fun t => confidence t = low /\ type t = spoken_digits) spoken /\
    List.NoDup (keys (partial ++ spoken)) /\
    Forall (fun t => ~ In (key t)
                       (keys (map full_mention (finditer false full_pattern text))))
      (partial ++ spoken).
Proof.
  destruct (extract_structure text default_project)
    as (partial & spoken & E & _ & P & S & NP & NS & FP & FS).
  rewrite full_tier_map in *.
  exists partial, spoken. split; [exact E | ]. split; [ | split; [ | split]].
  - apply List.Forall_forall. intros t Ht.
    destruct (P t Ht) as (m & _ & ->). split; reflexivity.
  - apply List.Forall_forall. intros t Ht.
    destruct (S t Ht) as (m & _ & _ & ->). split; reflexivity.
  - unfold keys. rewrite map_app. apply List.NoDup_app; auto.
    intros k Hk Hk'. apply in_map_iff in Hk' as (t & <- & Ht).
    specialize (FS t Ht). rewrite key_emitted_app in FS.
    apply orb_false_elim in FS as [_ FS].
    apply key_emitted_false in FS. now apply FS.
  - apply List.Forall_app. split; apply List.Forall_forall; intros t Ht.
    + apply key_emitted_false. now apply FP.
    + specialize (FS t Ht). rewrite key_emitted_app in FS.
      apply orb_false_elim in FS as [FS _]. now apply key_emitted_false.
Qed.

(** C2: on "Let's discuss ABC-123 and ABC-123 again" the result is exactly
    two high-confidence full-key mentions of "ABC-123", whatever the
    default project; and for every text the result starts with one
    full-key mention per match of the full-key pattern, in text order,
    repeated keys included, and no other mention is a full-key one. *)
Theorem full_key_tier_keeps_repeats :
  (forall default_project,
     extract_ticket_keys sample_repeated default_project =
     [ Mention (py "ABC-123") high full_key;
       Mention (py "ABC-123") high full_key ]) /\
  (forall text default_project,
     exists rest,
       extract_ticket_keys text default_project =
         map full_mention (finditer false full_pattern text) ++ rest /\
       Forall (fun t => type t <> full_key) rest).
Proof.
  split.
  - intros default_project. vm_compute. reflexivity.
  - intros text default_project.
    destruct (extract_structure text default_project)
      as (partial & spoken & E & _ & P & S & _).
    exists (partial ++ spoken). rewrite <- full_tier_map. split; [exact E | ].
    apply List.Forall_app. split; apply List.Forall_forall; intros t Ht.
    + destruct (P t Ht) as (m & _ & ->). discriminate.
    + destruct (S t Ht) as (m & _ & _ & ->). discriminate.
Qed.

(** C4: every spoken-digits mention of the result is a low-confidence
    mention whose key is the default project, a hyphen, and the digits of
    a run of digit words of length at least 3, and that key was not
    emitted by the two earlier tiers; a run of fewer than 3 digits leaves
    the list of tickets as it is. "issue four five six" yields the
    low-confidence mention of project-456 (WJR-456 for project WJR), and
    "issue four five" yields nothing. *)
Theorem spoken_digits_need_three :
  (forall text default_project t,
     In t (extract_ticket_keys text default_project) ->
     type t = spoken_digits ->
     confidence t = low /\
     exists m,
       In m (finditer true spoken_pattern text) /\
       key t = project_key default_project (spoken_to_digits (group m 0)) /\
       3 <= length (spoken_to_digits (group m 0)) /\
       key_emitted (key t)
         (partial_tier text default_project (full_tier text)) = false) /\
  (forall default_project tickets m,
     length (spoken_to_digits (group m 0)) < 3 ->
     spoken_step default_project tickets m = tickets) /\
  extract_ticket_keys "issue four five six" "WJR" =
    [Mention (py "WJR-456") low spoken_digits] /\
  (forall default_project,
     extract_ticket_keys "issue four five six" default_project =
     [Mention (project_key default_project "456") low spoken_digits]) /\
  (forall default_project,
     extract_ticket_keys "issue four five" default_project = []).
Proof.
  split; [ | split; [ | split; [ | split]]].
  - intros text default_project t Hin Hty.
    destruct (extract_structure text default_project)
      as (partial & spoken & E & EP & P & S & _ & _ & _ & FS).
    rewrite E in Hin. rewrite EP.
    apply in_app_or in Hin as [Hin | Hin].
    { rewrite full_tier_map in Hin. apply in_map_iff in Hin as (m & <- & _).
      discriminate. }
    apply in_app_or in Hin as [Hin | Hin].
    { destruct (P t Hin) as (m & _ & ->). discriminate. }
    destruct (S t Hin) as (m & Hm & Hlen & Ht).
    split; [now subst t | ]. exists m. repeat split; auto.
    now subst t.
  - intros default_project tickets m Hlen. unfold spoken_step.
    apply Nat.leb_gt in Hlen. now rewrite Hlen.
  - vm_compute. reflexivity.
  - intros default_project. vm_compute. reflexivity.
  - intros default_project. vm_compute. reflexivity.
Qed.

Lemma spoken_digits_need_three_witness :
  confidence (Mention (py "WJR-456") low spoken_digits) = low /\
  exists m,
    In m (finditer true spoken_pattern "issue four five six") /\
    key (Mention (py "WJR-456") low spoken_digits) =
      project_key "WJR" (spoken_to_digits (group m 0)) /\
    3 <= length (spoken_to_digits (group m 0)) /\
    key_emitted (key (Mention (py "WJR-456") low spoken_digits))
      (partial_tier "issue four five six" "WJR"
         (full_tier "issue four five six")) = false.
Proof.
  apply (proj1 spoken_digits_need_three "issue four five six" "WJR"
           (Mention (py "WJR-456") low spoken_digits)).
  - vm_compute. left. reflexivity.
  - reflexivity.
Defined.

End TicketExtraction.

(** ** Dictionaries: reading after writing *)

Module DictFacts.

Import KeyFacts.

Lemma get_set_eq {V : Type} (k : str) (v : V) (d : Dict.t V) :
  Dict.get k (Dict.set k v d) = Some v.
Proof.
  induction d as [ | [k' v'] d IH]; simpl.
  - assert (H : PyStr.eqb k k = true) by now apply eqb_eq.
    now rewrite H.
  - destruct (PyStr.eqb k' k) eqn:H; simpl; rewrite H; auto.
Qed.

Lemma get_set_ne {V : Type} (k k' : str) (v : V) (d : Dict.t V) :
  k <> k' -> Dict.get k' (Dict.set k v d) = Dict.get k' d.
Proof.
  intros Hne. induction d as [ | [k0 v0] d IH]; simpl.
  - apply eqb_neq in Hne. now rewrite Hne.
  - destruct (PyStr.eqb k0 k) eqn:H; simpl.
    + apply eqb_eq in H. subst k0. apply eqb_neq in Hne. now rewrite Hne.
    + destruct (PyStr.eqb k0 k'); auto.
Qed.

Lemma get_append_eq {V : Type} (k : str) (x : V) (d : Dict.t (list V)) l :
  Dict.get k d = Some l -> Dict.get k (Dict.append k x d) = Some (l ++ [x]).
Proof.
  induction d as [ | [k0 v0] d IH]; simpl; [discriminate | ].
  destruct (PyStr.eqb k0 k) eqn:H; simpl; rewrite H.
  - intros Heq. now inversion Heq.
  - exact IH.
Qed.

Lemma get_append_ne {V : Type} (k k' : str) (x : V) (d : Dict.t (list V)) :
  k <> k' -> Dict.get k' (Dict.append k x d) = Dict.get k' d.
Proof.
  intros Hne. induction d as [ | [k0 v0] d IH]; simpl; [reflexivity | ].
  destruct (PyStr.eqb k0 k) eqn:H; simpl.
  - apply eqb_eq in H. subst k0. apply eqb_neq in Hne. now rewrite Hne.
  - destruct (PyStr.eqb k0 k'); auto.
Qed.

Lemma keys_append {V : Type} (k : str) (x : V) (d : Dict.t (list V)) :
  Dict.keys (Dict.append k x d) = Dict.keys d.
Proof.
  induction d as [ | [k0 v0] d IH]; simpl; [reflexivity | ].
  destruct (PyStr.eqb k0 k); simpl; [reflexivity | now rewrite IH].
Qed.

Lemma get_None_keys {V : Type} (k : str) (d : Dict.t V) :
  Dict.get k d = None <-> ~ In k (Dict.keys d).
Proof.
  induction d as [ | [k0 v0] d IH]; simpl; [tauto | ].
  destruct (PyStr.eqb k0 k) eqn:H.
  - apply eqb_eq in H. split; [discriminate | tauto].
  - apply eqb_neq in H. rewrite IH. tauto.
Qed.

Lemma keys_set_new {V : Type} (k : str) (v : V) (d : Dict.t V) :
  Dict.get k d = None -> Dict.keys (Dict.set k v d) = Dict.keys d ++ [k].
Proof.
  induction d as [ | [k0 v0] d IH]; simpl; [reflexivity | ].
  destruct (PyStr.eqb k0 k); [discriminate | ].
  intros H. simpl. now rewrite IH.
Qed.

Lemma keys_set_old {V : Type} (k : str) (v : V) (d : Dict.t V) :
  Dict.get k d <> None -> Dict.keys (Dict.set k v d) = Dict.keys d.
Proof.
  induction d as [ | [k0 v0] d IH]; simpl; [congruence | ].
  destruct (PyStr.eqb k0 k); simpl; [reflexivity | ].
  intros H. now rewrite IH.
Qed.

(** Writing a key keeps the keys distinct. *)
Lemma NoDup_keys_set {V : Type} (k : str) (v : V) (d : Dict.t V) :
  List.NoDup (Dict.keys d) -> List.NoDup (Dict.keys (Dict.set k v d)).
Proof.
  intros Hnd. destruct (Dict.get k d) eqn:H.
  - rewrite keys_set_old by congruence. exact Hnd.
  - rewrite keys_set_new by exact H.
    apply List.NoDup_app; auto.
    + repeat constructor. intros [].
    + intros a Ha [<- | []]. now apply get_None_keys in H.
Qed.

End DictFacts.

(** ** Speaker segmentation *)

Module Segmentation.

Import PyStr Re Utils ReFacts RunFacts KeyFacts DictFacts.

(** *** The segmentation, block by block

    A line is a speaker line "Name: rest", a continuation line (any other
    non-blank line, trimmed), or blank; which lines the pattern of the
    program takes for speaker lines is put in words in [SpeakerLines]. *)
Inductive line_kind : Type :=
| speaker_line (name rest : str)
| continuation_line (utterance : str)
| blank_line.

Definition classify (line : str) : line_kind :=
  match re_match false speaker_pattern (strip line) with
  | Some m => speaker_line (strip (group m 1)) (strip (group m 2))
  | None =>
      if truthy (strip line) then continuation_line (strip line)
      else blank_line
  end.

(** The continuation lines up to the next speaker line. *)
Fixpoint continuation_run (lines : list line_kind) : list str :=
  match lines with
  | continuation_line u :: rest => u :: continuation_run rest
  | blank_line :: rest => continuation_run rest
  | _ => []
  end.

Definition rest_utterance (rest : str) : list str :=
  if truthy rest then [rest] else [].

(** One block per speaker line: the name, and the non-empty rest of the
    line followed by the continuation lines up to the next speaker line.
    Lines before the first speaker line belong to no block. *)
Fixpoint blocks (lines : list line_kind) : list (str * list str) :=
  match lines with
  | speaker_line name rest :: more =>
      (name, rest_utterance rest ++ continuation_run more) :: blocks more
  | _ :: more => blocks more
  | [] => []
  end.

Definition named (name : str) (b : str * list str) : bool :=
  PyStr.eqb (fst b) name.

(** The utterances of the blocks of one speaker, in transcript order. *)
Definition collected (name : str) (bs : list (str * list str)) : list str :=
  concat (map snd (List.filter (named name) bs)).

Definition segment_spec (text : str) (name : str) : option (list str) :=
  let bs := blocks (map classify (split_on newline text)) in
  if existsb (named name) bs then Some (collected name bs) else None.

(** *** The loop of [parse_speakers], line kind by line kind *)

Definition apply_kind (st : seg_state) (k : line_kind) : seg_state :=
  match k with
  | speaker_line name rest =>
      let sp1 := if Dict.mem name (speakers st) then speakers st
                 else Dict.set name [] (speakers st) in
      let sp2 := if truthy rest then Dict.append name rest sp1 else sp1 in
      SegState sp2 (Some name)
  | continuation_line u =>
      match current_speaker st with
      | Some name =>
          if truthy name then SegState (Dict.append name u (speakers st))
                                (current_speaker st)
          else st
      | None => st
      end
  | blank_line => st
  end.

Lemma speakers_step_classify st line :
  speakers_step st line = apply_kind st (classify line).
Proof.
  unfold speakers_step, classify.
  destruct (re_match false speaker_pattern (strip line)); [reflexivity | ].
  destruct (truthy (strip line)) eqn:Ht; simpl.
  - destruct (current_speaker st) as [n | ]; [ | reflexivity].
    now rewrite andb_true_r.
  - destruct (current_speaker st) as [n | ]; [ | reflexivity].
    now rewrite andb_false_r.
Qed.

Lemma fold_classify lines :
  forall st,
    fold_left speakers_step lines st =
    fold_left apply_kind (map classify lines) st.
Proof.
  induction lines as [ | l ls IH]; intros st; simpl; [reflexivity | ].
  now rewrite speakers_step_classify, IH.
Qed.

(** *** Speaker names are never empty *)

Lemma lstrip_keeps_last l c :
  is_space c = false -> lstrip (l ++ [c]) <> [].
Proof.
  intros Hc. induction l as [ | a l IH]; simpl.
  - now rewrite Hc.
  - destruct (is_space a); [exact IH | discriminate].
Qed.

Lemma strip_upper_first c w :
  is_upper c = true -> truthy (strip (c :: w)) = true.
Proof.
  intros Hc.
  assert (Hs : is_space c = false).
  { unfold is_upper, is_space, between in *.
    destruct (code c =? 32) eqn:H32.
    - apply Nat.eqb_eq in H32. rewrite H32 in Hc. discriminate.
    - rewrite orb_false_r.
      apply andb_true_iff in Hc as [H1 H2]. apply Nat.leb_le in H1.
      apply orb_false_iff. split; apply andb_false_iff; right;
        apply Nat.leb_gt; lia. }
  unfold strip. simpl lstrip. rewrite Hs. unfold rstrip.
  simpl rev.
  destruct (lstrip (rev w ++ [c])) as [ | a l] eqn:H.
  - exfalso. eapply lstrip_keeps_last; eauto.
  - simpl. destruct (rev l ++ [a]) eqn:H'; [ | reflexivity].
    destruct (rev l); discriminate.
Qed.

Lemma speaker_name_truthy s m :
  re_match false speaker_pattern s = Some m ->
  truthy (strip (group m 1)) = true.
Proof.
  intros H. apply re_match_sound in H.
  assert (Hm : matches false
                 (Seq upper_AZ
                    (Plus (Chr (CUnion (CRange "a" "z")
                                  (CUnion (CRange "A" "Z") CSpace)))))
                 (group m 1)).
  { apply (group_sound false speaker_pattern m 1 _ H).
    - simpl. auto.
    - simpl. intros b [Hb | [Hb | []]]; now inversion Hb.
    - discriminate. }
  apply matches_seq_inv in Hm as (w1 & w2 & -> & Hc & _).
  apply matches_chr_inv in Hc as (c & -> & Hc).
  apply strip_upper_first. exact Hc.
Qed.

Definition good_kind (k : line_kind) : Prop :=
  match k with
  | speaker_line name _ => truthy name = true
  | _ => True
  end.

Lemma classify_good line : good_kind (classify line).
Proof.
  unfold classify.
  destruct (re_match false speaker_pattern (strip line)) eqn:H.
  - simpl. eapply speaker_name_truthy; eauto.
  - destruct (truthy (strip line)); exact I.
Qed.

(** *** The loop computes the blocks *)

(** The current speaker has a name and an entry. *)
Definition well_formed (st : seg_state) : Prop :=
  forall n, current_speaker st = Some n ->
            truthy n = true /\ Dict.get n (speakers st) <> None.

(** The continuation lines ahead that still go to [name]. *)
Definition pending (name : str) (st : seg_state) (kinds : list line_kind)
    : list str :=
  match current_speaker st with
  | Some n => if PyStr.eqb n name then continuation_run kinds else []
  | None => []
  end.

Definition outcome_for (name : str) (st : seg_state)
    (kinds : list line_kind) : option (list str) :=
  match Dict.get name (speakers st) with
  | Some l => Some (l ++ pending name st kinds ++ collected name (blocks kinds))
  | None =>
      if existsb (named name) (blocks kinds)
      then Some (collected name (blocks kinds))
      else None
  end.

Lemma eqb_refl (a : str) : PyStr.eqb a a = true.
Proof. now apply eqb_eq. Qed.

Lemma apply_speaker_get_same st name rest :
  Dict.get name (speakers (apply_kind st (speaker_line name rest))) =
  Some (match Dict.get name (speakers st) with Some l => l | None => [] end
        ++ rest_utterance rest).
Proof.
  simpl. unfold Dict.mem, rest_utterance.
  destruct (Dict.get name (speakers st)) as [l | ] eqn:Hg.
  - destruct (truthy rest).
    + now apply get_append_eq.
    + now rewrite app_nil_r.
  - destruct (truthy rest).
    + apply get_append_eq. apply get_set_eq.
    + apply get_set_eq.
Qed.

Lemma apply_speaker_get_other st name rest other :
  name <> other ->
  Dict.get other (speakers (apply_kind st (speaker_line name rest))) =
  Dict.get other (speakers st).
Proof.
  intros Hne. simpl.
  assert (H1 : Dict.get other
                 (if Dict.mem name (speakers st) then speakers st
                  else Dict.set name [] (speakers st)) =
               Dict.get other (speakers st)).
  { destruct (Dict.mem name (speakers st)); [reflexivity | ].
    now apply get_set_ne. }
  destruct (truthy rest); [ | exact H1].
  rewrite get_append_ne by exact Hne. exact H1.
Qed.

Lemma apply_kind_well_formed st k :
  well_formed st -> good_kind k -> well_formed (apply_kind st k).
Proof.
  intros Hwf Hgood. destruct k as [name rest | u | ].
  - intros n Hn. simpl in Hn. inversion Hn; subst n. split; [exact Hgood | ].
    rewrite apply_speaker_get_same. discriminate.
  - simpl. destruct (current_speaker st) as [c | ] eqn:Hc; [ | exact Hwf].
    destruct (truthy c) eqn:Ht; [ | exact Hwf].
    intros n Hn. simpl in Hn. try rewrite Hc in Hn. inversion Hn; subst n.
    split; [exact Ht | ]. simpl.
    destruct (Hwf c Hc) as [_ Hget].
    destruct (Dict.get c (speakers st)) as [l | ] eqn:Hg; [ | congruence].
    rewrite (get_append_eq _ _ _ _ Hg). discriminate.
  - exact Hwf.
Qed.

Lemma collected_cons_same name us bs :
  collected name ((name, us) :: bs) = us ++ collected name bs.
Proof.
  unfold collected. cbn [List.filter]. unfold named at 1. cbn [fst].
  now rewrite eqb_refl.
Qed.

Lemma collected_cons_other name n us bs :
  n <> name -> collected name ((n, us) :: bs) = collected name bs.
Proof.
  intros Hne. unfold collected. cbn [List.filter]. unfold named at 1.
  cbn [fst]. apply eqb_neq in Hne. now rewrite Hne.
Qed.

Lemma pending_after_speaker_same st name rest ks :
  pending name (apply_kind st (speaker_line name rest)) ks =
  continuation_run ks.
Proof. unfold pending. cbn [apply_kind current_speaker]. now rewrite eqb_refl. Qed.

Lemma pending_after_speaker_other st n name rest ks :
  n <> name -> pending name (apply_kind st (speaker_line n rest)) ks = [].
Proof.
  intros Hne. unfold pending. cbn [apply_kind current_speaker].
  apply eqb_neq in Hne. now rewrite Hne.
Qed.

Lemma pending_at_speaker st n name rest ks :
  pending name st (speaker_line n rest :: ks) = [].
Proof.
  unfold pending. destruct (current_speaker st) as [c | ]; [ | reflexivity].
  destruct (PyStr.eqb c name); reflexivity.
Qed.

Lemma pending_at_blank st name ks :
  pending name st (blank_line :: ks) = pending name st ks.
Proof.
  unfold pending. destruct (current_speaker st) as [c | ]; [ | reflexivity].
  destruct (PyStr.eqb c name); reflexivity.
Qed.

Lemma blocks_speaker n rest ks :
  blocks (speaker_line n rest :: ks) =
  (n, rest_utterance rest ++ continuation_run ks) :: blocks ks.
Proof. reflexivity. Qed.

Lemma present_cons_same name us bs :
  existsb (named name) ((name, us) :: bs) = true.
Proof. cbn [existsb]. unfold named at 1. cbn [fst]. now rewrite eqb_refl. Qed.

Lemma present_cons_other name n us bs :
  n <> name ->
  existsb (named name) ((n, us) :: bs) = existsb (named name) bs.
Proof.
  intros Hne. cbn [existsb]. unfold named at 1. cbn [fst].
  apply eqb_neq in Hne. now rewrite Hne.
Qed.

Lemma fold_get name kinds :
  forall st,
    well_formed st -> Forall good_kind kinds ->
    Dict.get name (speakers (fold_left apply_kind kinds st)) =
    outcome_for name st kinds.
Proof.
  induction kinds as [ | k ks IH]; intros st Hwf Hgood.
  - simpl. unfold outcome_for, pending. simpl.
    destruct (Dict.get name (speakers st)) as [l | ]; [ | reflexivity].
    destruct (current_speaker st) as [n | ];
      [destruct (PyStr.eqb n name) | ]; now rewrite !app_nil_r.
  - inversion Hgood as [ | k' ks' Hk Hks]; subst.
    cbn [fold_left].
    rewrite IH by (auto using apply_kind_well_formed).
    unfold outcome_for.
    destruct k as [n rest | u | ].
    + (* a speaker line *)
      rewrite pending_at_speaker, blocks_speaker.
      destruct (PyStr.eqb n name) eqn:Hn.
      * apply eqb_eq in Hn. subst n.
        rewrite apply_speaker_get_same, pending_after_speaker_same.
        rewrite present_cons_same, collected_cons_same.
        destruct (Dict.get name (speakers st)) as [l | ]; f_equal;
          cbn [app]; now rewrite <- ?app_assoc.
      * apply eqb_neq in Hn.
        rewrite (apply_speaker_get_other _ _ _ _ Hn).
        rewrite (pending_after_speaker_other _ _ _ _ _ Hn).
        rewrite (present_cons_other _ _ _ _ Hn).
        rewrite (collected_cons_other _ _ _ _ Hn).
        reflexivity.
    + (* a continuation line *)
      cbn [blocks apply_kind].
      destruct (current_speaker st) as [c | ] eqn:Hc.
      * destruct (Hwf c Hc) as [Ht Hget]. rewrite Ht.
        unfold pending. cbn [current_speaker speakers]. rewrite Hc.
        destruct (PyStr.eqb c name) eqn:Hn.
        -- apply eqb_eq in Hn. subst c.
           destruct (Dict.get name (speakers st)) as [l | ] eqn:Hg;
             [ | congruence].
           rewrite (get_append_eq _ _ _ _ Hg). cbn [continuation_run].
           f_equal. now rewrite <- app_assoc.
        -- apply eqb_neq in Hn. now rewrite (get_append_ne _ _ _ _ Hn).
      * unfold pending. rewrite Hc. reflexivity.
    + (* a blank line *)
      rewrite pending_at_blank. reflexivity.
Qed.

Lemma apply_kind_keys st k :
  List.NoDup (Dict.keys (speakers st)) ->
  List.NoDup (Dict.keys (speakers (apply_kind st k))).
Proof.
  intros Hnd. destruct k as [name rest | u | ]; simpl.
  - assert (H1 : List.NoDup (Dict.keys
                   (if Dict.mem name (speakers st) then speakers st
                    else Dict.set name [] (speakers st)))).
    { destruct (Dict.mem name (speakers st)); [exact Hnd | ].
      now apply NoDup_keys_set. }
    destruct (truthy rest); [ | exact H1]. now rewrite keys_append.
  - destruct (current_speaker st) as [c | ]; [ | exact Hnd].
    destruct (truthy c); [ | exact Hnd]. simpl. now rewrite keys_append.
  - exact Hnd.
Qed.

(** The speakers of a transcript have distinct names. *)
Lemma parse_speakers_keys text :
  List.NoDup (Dict.keys (parse_speakers text)).
Proof.
  unfold parse_speakers. rewrite fold_classify.
  generalize (map classify (split_on newline text)) as kinds.
  assert (H : forall kinds st,
            List.NoDup (Dict.keys (speakers st)) ->
            List.NoDup (Dict.keys (speakers (fold_left apply_kind kinds st)))).
  { induction kinds as [ | k ks IH]; intros st Hnd; simpl; [exact Hnd | ].
    apply IH. now apply apply_kind_keys. }
  intros kinds. apply H. constructor.
Qed.

(** For every transcript and every name, what [parse_speakers] holds
    under the name is what the blocks of that speaker hold, in transcript
    order. *)
Lemma parse_speakers_blocks text name :
  Dict.get name (parse_speakers text) = segment_spec text name.
Proof.
  unfold parse_speakers, segment_spec.
  rewrite fold_classify, fold_get.
  - reflexivity.
  - intros n Hn. discriminate.
  - apply List.Forall_forall. intros k Hk.
    apply in_map_iff in Hk as (line & <- & _). apply classify_good.
Qed.

End Segmentation.

(** ** Grouping the speakers' lines by ticket *)

Module Aggregation.

Import PyStr Re Utils Tools ReFacts KeyFacts DictFacts ExtractFacts.

(** *** The relevant lines as the specification words them

    A line of a speaker is relevant to a ticket when it contains the key,
    or when some line of that speaker, whichever, contains the numeric
    suffix of the key. *)
Definition relevant_spec (ticket_key suffix : str) (lines : list str)
    : list str :=
  List.filter
    (fun line => contains ticket_key line || existsb (contains suffix) lines)
    lines.

(** The speakers of a context: those with a relevant line, in the order of
    the transcript's speakers, each with its relevant lines. *)
Definition found_spec (ticket_key suffix : str)
    (speakers : Dict.t (list str)) : Dict.t (list str) :=
  flat_map (fun e => match relevant_spec ticket_key suffix (snd e) with
                     | [] => []
                     | rel => [(fst e, rel)]
                     end) speakers.

(** *** Every extracted key is [project-digits] *)

Lemma extract_keys_shaped text default_project :
  hyphen_free default_project ->
  forall t, In t (extract_ticket_keys text default_project) ->
            exists project suffix, key_of_shape (key t) project suffix.
Proof.
  intros Hdp t Hin.
  destruct (extract_structure text default_project)
    as (partial & spoken & E & _ & P & S & _).
  rewrite E in Hin. apply in_app_or in Hin as [Hin | Hin].
  { rewrite full_tier_map in Hin. apply in_map_iff in Hin as (m & <- & Hm).
    apply finditer_sound in Hm. now apply full_key_shape. }
  apply in_app_or in Hin as [Hin | Hin].
  - destruct (P t Hin) as (m & Hm & ->). apply finditer_sound in Hm.
    apply partial_number_shape in Hm as [Hne Hd].
    exists default_project, (group m 1). repeat split; auto.
  - destruct (S t Hin) as (m & _ & Hlen & ->).
    exists default_project, (spoken_to_digits (group m 0)).
    repeat split; auto.
    + intros H0. rewrite H0 in Hlen. simpl in Hlen. lia.
    + apply spoken_to_digits_all_digits.
Qed.

Lemma split_on_two_fields s :
  In hyphen s -> exists a b rest, split_on hyphen s = a :: b :: rest.
Proof.
  induction s as [ | c s IH]; intros Hin; [destruct Hin | ].
  simpl. destruct (Ascii.eqb c hyphen) eqn:Hc.
  - destruct (split_on hyphen s) as [ | b rest] eqn:Hs.
    + destruct s; simpl in Hs; [discriminate | ].
      destruct (Ascii.eqb a hyphen); [discriminate | ].
      destruct (split_on hyphen s); discriminate.
    + eauto.
  - destruct Hin as [Heq | Hin].
    + apply Ascii.eqb_neq in Hc. congruence.
    + destruct (IH Hin) as (a & b & rest & ->). eauto.
Qed.

(** Every extracted key has a second hyphen-separated field. *)
Lemma extract_keys_have_field text default_project :
  forall t, In t (extract_ticket_keys text default_project) ->
            exists field, key_suffix (key t) = Ok field.
Proof.
  intros t Hin.
  assert (Hh : In hyphen (key t)).
  { destruct (extract_structure text default_project)
      as (partial & spoken & E & _ & P & S & _).
    rewrite E in Hin. apply in_app_or in Hin as [Hin | Hin].
    { rewrite full_tier_map in Hin. apply in_map_iff in Hin as (m & <- & Hm).
      apply finditer_sound in Hm. apply full_key_shape in Hm as (p & d & Hk & _).
      change (key (full_mention m)) with (group m 1).
      rewrite Hk. apply in_or_app. right. now left. }
    apply in_app_or in Hin as [Hin | Hin].
    - destruct (P t Hin) as (m & _ & ->). simpl. unfold project_key.
      apply in_or_app. right. now left.
    - destruct (S t Hin) as (m & _ & _ & ->). simpl. unfold project_key.
      apply in_or_app. right. now left. }
  destruct (split_on_two_fields _ Hh) as (a & b & rest & Hsplit).
  exists b. unfold key_suffix. change "-"%char with hyphen.
  now rewrite Hsplit.
Qed.

(** *** The comprehension computes the relevant lines *)

Lemma any_line_has_suffix_spec k suffix lines :
  key_suffix k = Ok suffix ->
  any_line_has_suffix k lines = Ok (existsb (contains suffix) lines).
Proof.
  intros Hs. induction lines as [ | line rest IH]; simpl; [reflexivity | ].
  rewrite Hs. simpl. destruct (contains suffix line); [reflexivity | exact IH].
Qed.

Lemma relevant_among_spec k suffix lines rest :
  key_suffix k = Ok suffix ->
  relevant_among k lines rest =
  Ok (List.filter
        (fun line => contains k line || existsb (contains suffix) lines) rest).
Proof.
  intros Hs. induction rest as [ | line rest IH]; simpl; [reflexivity | ].
  rewrite IH.
  destruct (contains k line); simpl.
  - reflexivity.
  - rewrite (any_line_has_suffix_spec _ _ _ Hs). reflexivity.
Qed.

Lemma relevant_lines_spec k suffix lines :
  key_suffix k = Ok suffix ->
  relevant_lines k lines = Ok (relevant_spec k suffix lines).
Proof. apply relevant_among_spec. Qed.

(** When some line holds the suffix, every line is relevant. *)
Lemma relevant_spec_all k suffix lines :
  existsb (contains suffix) lines = true ->
  relevant_spec k suffix lines = lines.
Proof.
  intros H. unfold relevant_spec. rewrite H.
  induction lines as [ | l ls IH]; simpl; [reflexivity | ].
  rewrite orb_true_r. f_equal.
  assert (Hf : forall (ls' : list str),
             List.filter (fun line => contains k line || true) ls' = ls').
  { induction ls' as [ | a ls' IH']; simpl; [reflexivity | ].
    rewrite orb_true_r. now rewrite IH'. }
  apply Hf.
Qed.

(** *** The loop over the speakers *)

Lemma set_new {V : Type} (k : str) (v : V) (d : Dict.t V) :
  Dict.get k d = None -> Dict.set k v d = d ++ [(k, v)].
Proof.
  induction d as [ | [k0 v0] d IH]; simpl; [reflexivity | ].
  destruct (PyStr.eqb k0 k); [discriminate | ].
  intros H. now rewrite IH.
Qed.

Lemma keys_found_subset k suffix speakers name :
  In name (Dict.keys (found_spec k suffix speakers)) ->
  In name (Dict.keys speakers).
Proof.
  induction speakers as [ | [n lines] rest IH]; simpl; [tauto | ].
  unfold found_spec in *. simpl. unfold Dict.keys in *.
  rewrite map_app, in_app_iff. intros [H | H].
  - left. destruct (relevant_spec k suffix lines); simpl in H; tauto.
  - right. auto.
Qed.

Lemma speaker_step_spec k suffix found n lines :
  key_suffix k = Ok suffix ->
  speaker_step k found (n, lines) =
  Ok (match relevant_spec k suffix lines with
      | [] => found
      | rel => Dict.set n rel found
      end).
Proof.
  intros Hs. unfold speaker_step. cbn [fst snd].
  rewrite (relevant_lines_spec _ _ _ Hs).
  destruct (relevant_spec k suffix lines); reflexivity.
Qed.

Lemma ofold_cons {A B : Type} (f : B -> A -> outcome B) x rest acc acc' :
  f acc x = Ok acc' -> ofold f (x :: rest) acc = ofold f rest acc'.
Proof. intros H. cbn [ofold]. now rewrite H. Qed.

Lemma speakers_loop k suffix speakers :
  key_suffix k = Ok suffix ->
  forall found,
    List.NoDup (Dict.keys speakers) ->
    (forall name, In name (Dict.keys speakers) -> Dict.get name found = None) ->
    ofold (speaker_step k) speakers found =
    Ok (found ++ found_spec k suffix speakers).
Proof.
  intros Hs. induction speakers as [ | [n lines] rest IH]; intros found Hnd Hfresh.
  - simpl. now rewrite app_nil_r.
  - rewrite (ofold_cons _ _ _ _ _ (speaker_step_spec _ _ found n lines Hs)).
    inversion Hnd as [ | ? ? Hn Hnd']; subst.
    unfold found_spec. cbn [flat_map fst snd].
    fold (found_spec k suffix rest).
    destruct (relevant_spec k suffix lines) as [ | r rel] eqn:Hrel.
    + simpl. apply IH; [exact Hnd' | ].
      intros name Hname. apply Hfresh. now right.
    + rewrite set_new by (apply Hfresh; now left).
      rewrite IH.
      * now rewrite <- app_assoc.
      * exact Hnd'.
      * intros name Hname. apply get_None_keys. unfold Dict.keys.
        rewrite map_app, in_app_iff. intros [H | [H | []]].
        -- apply get_None_keys in H; [exact H | ]. apply Hfresh. now right.
        -- simpl in H. subst name. contradiction.
Qed.

Lemma get_found k suffix speakers name :
  List.NoDup (Dict.keys speakers) ->
  Dict.get name (found_spec k suffix speakers) =
  match Dict.get name speakers with
  | Some lines =>
      match relevant_spec k suffix lines with
      | [] => None
      | rel => Some rel
      end
  | None => None
  end.
Proof.
  induction speakers as [ | [n lines] rest IH]; intros Hnd; [reflexivity | ].
  inversion Hnd as [ | ? ? Hn Hnd']; subst.
  unfold found_spec. cbn [flat_map fst snd]. fold (found_spec k suffix rest).
  cbn [Dict.get].
  destruct (PyStr.eqb n name) eqn:Hname.
  - apply eqb_eq in Hname. subst n.
    assert (Hnone : Dict.get name (found_spec k suffix rest) = None).
    { apply get_None_keys. intros H. apply Hn.
      eapply keys_found_subset; eauto. }
    destruct (relevant_spec k suffix lines) as [ | r rel]; cbn [app Dict.get].
    + exact Hnone.
    + now rewrite Segmentation.eqb_refl.
  - destruct (relevant_spec k suffix lines) as [ | r rel]; cbn [app Dict.get].
    + now apply IH.
    + rewrite Hname. now apply IH.
Qed.

(** *** The loop over the tickets *)

Lemma ticket_step_spec speakers contexts t suffix :
  key_suffix (key t) = Ok suffix ->
  List.NoDup (Dict.keys speakers) ->
  ticket_step speakers contexts t =
  Ok (Dict.set (key t)
        (TicketContext (confidence t) (type t)
           (found_spec (key t) suffix speakers) [])
        contexts).
Proof.
  intros Hs Hnd. unfold ticket_step.
  rewrite (speakers_loop _ _ _ Hs []); [reflexivity | exact Hnd | reflexivity].
Qed.

(** A context holds the speakers found for its key. *)
Definition context_ok (speakers : Dict.t (list str)) (k : str)
    (ctx : ticket_context) : Prop :=
  exists suffix,
    key_suffix k = Ok suffix /\
    ctx_speakers ctx = found_spec k suffix speakers.

Definition contexts_ok (speakers : Dict.t (list str))
    (contexts : Dict.t ticket_context) : Prop :=
  forall k ctx, Dict.get k contexts = Some ctx -> context_ok speakers k ctx.

Lemma tickets_loop speakers :
  List.NoDup (Dict.keys speakers) ->
  forall tickets contexts,
    (forall t, In t tickets -> exists suffix, key_suffix (key t) = Ok suffix) ->
    contexts_ok speakers contexts ->
    exists final,
      ofold (ticket_step speakers) tickets contexts = Ok final /\
      contexts_ok speakers final /\
      (forall k, Dict.get k contexts <> None -> Dict.get k final <> None) /\
      (forall t, In t tickets -> Dict.get (key t) final <> None).
Proof.
  intros Hnd. induction tickets as [ | t rest IH]; intros contexts Hkeys Hok.
  - exists contexts. repeat split; auto.
  - destruct (Hkeys t (or_introl eq_refl)) as [suffix Hs].
    rewrite (ofold_cons _ _ _ _ _ (ticket_step_spec _ contexts _ _ Hs Hnd)).
    set (ctx := TicketContext (confidence t) (type t)
                  (found_spec (key t) suffix speakers) []).
    destruct (IH (Dict.set (key t) ctx contexts)) as (final & E & Hf & Hmono & Hall).
    + intros t' Ht'. apply Hkeys. now right.
    + intros k c Hget. destruct (PyStr.eqb (key t) k) eqn:Hk.
      * apply eqb_eq in Hk. subst k. rewrite get_set_eq in Hget.
        inversion Hget; subst c. exists suffix. split; [exact Hs | reflexivity].
      * apply eqb_neq in Hk. rewrite (get_set_ne _ _ _ _ Hk) in Hget.
        now apply Hok.
    + exists final. split; [exact E | ]. split; [exact Hf | ]. split.
      * intros k Hk. apply Hmono.
        destruct (PyStr.eqb (key t) k) eqn:Hkk.
        -- apply eqb_eq in Hkk. subst k. rewrite get_set_eq. discriminate.
        -- apply eqb_neq in Hkk. now rewrite (get_set_ne _ _ _ _ Hkk).
      * intros t' [<- | Ht'].
        -- apply Hmono. rewrite get_set_eq. discriminate.
        -- now apply Hall.
Qed.

(** The grouping of the extracted mentions never raises. *)
Lemma group_by_ticket_total text default_project :
  exists contexts,
    group_by_ticket (extract_ticket_keys text default_project)
      (parse_speakers text) = Ok contexts.
Proof.
  unfold group_by_ticket.
  destruct (tickets_loop (parse_speakers text)
              (Segmentation.parse_speakers_keys text)
              (extract_ticket_keys text default_project) [])
    as (final & E & _).
  - apply extract_keys_have_field.
  - intros k c Hget. discriminate.
  - now exists final.
Qed.

Definition standup_sample : str :=
  py "Alice: Working on PROJ-42, almost done" ++ [newline] ++
  py "Bob: ticket 99 is blocked".

(** What a context holds for a key whose second hyphen-separated field
    is [field]. *)
Definition context_lists (speakers : Dict.t (list str)) (k field : str)
    (ctx : ticket_context) : Prop :=
  ctx_speakers ctx = found_spec k field speakers /\
  (forall speaker,
     Dict.get speaker (ctx_speakers ctx) =
     match Dict.get speaker speakers with
     | Some lines =>
         match relevant_spec k field lines with
         | [] => None
         | rel => Some rel
         end
     | None => None
     end) /\
  (forall speaker lines,
     Dict.get speaker speakers = Some lines ->
     existsb (contains field) lines = true ->
     Dict.get speaker (ctx_speakers ctx) = Some lines).

Definition hyphenated_sample : str :=
  py "Alice: B is fine" ++ [newline] ++ py "Bob: ticket 99 is done".

(** C3, as stated, fails: with the default project "A-B" the key of
    "ticket 99" is "A-B-99", whose field after the first hyphen is "B" and
    not the number. Bob's line holds the numeric suffix 99 and is not
    listed; Alice's line holds neither the key nor 99, and is listed
    because it holds a "B". *)
Lemma hyphenated_project_counterexample :
  extract_ticket_keys hyphenated_sample "A-B" =
    [Mention (py "A-B-99") medium partial_numeric] /\
  parse_speakers hyphenated_sample =
    [ (py "Alice", [py "B is fine"]);
      (py "Bob", [py "ticket 99 is done"]) ] /\
  group_by_ticket (extract_ticket_keys hyphenated_sample "A-B")
    (parse_speakers hyphenated_sample) =
    Ok [ (py "A-B-99",
           TicketContext medium partial_numeric
             [(py "Alice", [py "B is fine"])] []) ] /\
  contains (py "99") (py "ticket 99 is done") = true /\
  contains (py "99") (py "B is fine") = false /\
  contains (py "A-B-99") (py "B is fine") = false.
Proof. repeat split; vm_compute; reflexivity. Qed.

(** C3, amended: for every transcript and default project the grouping of
    [parse_transcript] succeeds, and for every extracted mention the
    context under its key lists, in the order of the transcript's
    speakers, the speakers that have a relevant line, each with its
    relevant lines: a line is relevant when it contains the key, or when
    some line of the same speaker contains the field after the first
    hyphen of the key; so when one line of a speaker contains that field,
    all the lines of that speaker are listed, and a speaker without a
    relevant line is not in the context. For a key made of a project
    without hyphen, a hyphen and digits that field is the numeric suffix;
    when the default project has no hyphen every extracted key is a
    project without hyphen, a hyphen and that field, which is then all
    that follows the hyphen, and on an ASCII transcript a run of the
    digits 0 to 9. *)
Theorem relevant_utterances_by_ticket (text default_project : str) :
  exists contexts,
    group_by_ticket (extract_ticket_keys text default_project)
      (parse_speakers text) = Ok contexts /\
    forall t,
      In t (extract_ticket_keys text default_project) ->
      exists field ctx,
        key_suffix (key t) = Ok field /\
        Dict.get (key t) contexts = Some ctx /\
        context_lists (parse_speakers text) (key t) field ctx /\
        (forall project suffix,
           key_of_shape (key t) project suffix -> field = suffix) /\
        (hyphen_free default_project ->
           exists project,
             key t = project ++ py "-" ++ field /\
             hyphen_free project /\ hyphen_free field /\ field <> [] /\
             (isascii text = true -> all_digits field)).
Proof.
  unfold group_by_ticket.
  pose proof (Segmentation.parse_speakers_keys text) as Hnd.
  pose proof (extract_keys_have_field text default_project) as Hfield.
  destruct (tickets_loop (parse_speakers text) Hnd
              (extract_ticket_keys text default_project) [])
    as (final & E & Hok & _ & Hall).
  { exact Hfield. }
  { intros k c Hget. discriminate. }
  exists final. split; [exact E | ].
  intros t Ht.
  destruct (Dict.get (key t) final) as [ctx | ] eqn:Hget;
    [ | exfalso; now apply (Hall t Ht)].
  destruct (Hok _ _ Hget) as (field & Hf & Hsp).
  exists field, ctx. split; [exact Hf | ]. split; [reflexivity | ].
  assert (Hlookup : forall speaker,
            Dict.get speaker (ctx_speakers ctx) =
            match Dict.get speaker (parse_speakers text) with
            | Some lines =>
                match relevant_spec (key t) field lines with
                | [] => None
                | rel => Some rel
                end
            | None => None
            end).
  { intros speaker. rewrite Hsp. now apply get_found. }
  split; [ | split].
  - split; [exact Hsp | ]. split; [exact Hlookup | ].
    intros speaker lines Hlines Hany. rewrite Hlookup, Hlines.
    rewrite (relevant_spec_all _ _ _ Hany).
    destruct lines; [discriminate | reflexivity].
  - intros project suffix Hk.
    rewrite (key_suffix_of_shape _ _ _ Hk) in Hf. now inversion Hf.
  - intros Hdp.
    destruct (extract_keys_shaped text default_project Hdp t Ht)
      as (p & d & Hk).
    exists p. rewrite (key_suffix_of_shape _ _ _ Hk) in Hf.
    inversion Hf; subst d. destruct Hk as (Hk & Hp & Hne & Hd).
    repeat split; auto. now apply digits_hyphen_free.
Qed.

Lemma relevant_utterances_by_ticket_witness :
  exists contexts,
    group_by_ticket (extract_ticket_keys standup_sample "WJR")
      (parse_speakers standup_sample) = Ok contexts /\
    exists field ctx,
      key_suffix (py "WJR-99") = Ok field /\
      Dict.get (py "WJR-99") contexts = Some ctx /\
      context_lists (parse_speakers standup_sample) (py "WJR-99") field ctx /\
      exists project,
        py "WJR-99" = project ++ py "-" ++ field /\
        hyphen_free project /\ hyphen_free field /\ field <> [] /\
        all_digits field.
Proof.
  destruct (relevant_utterances_by_ticket standup_sample "WJR")
    as (contexts & E & H).
  exists contexts. split; [exact E | ].
  destruct (H (Mention (py "WJR-99") medium partial_numeric))
    as (field & ctx & Hf & Hg & Hc & _ & Hshape).
  { vm_compute. right. left. reflexivity. }
  exists field, ctx. split; [exact Hf | ]. split; [exact Hg | ].
  split; [exact Hc | ].
  destruct Hshape as (project & Hk & Hp & Hfree & Hne & Hd).
  { intros Hin. vm_compute in Hin.
    repeat (destruct Hin as [Hin | Hin]; [discriminate | ]). exact Hin. }
  exists project. repeat split; auto.
Defined.

(** The grouping on the sample: PROJ-42 is Alice's, WJR-99 is Bob's. *)
Example group_by_ticket_sample :
  group_by_ticket (extract_ticket_keys standup_sample "WJR")
    (parse_speakers standup_sample) =
  Ok [ (py "PROJ-42",
         TicketContext high full_key
           [(py "Alice", [py "Working on PROJ-42, almost done"])] []);
       (py "WJR-99",
         TicketContext medium partial_numeric
           [(py "Bob", [py "ticket 99 is blocked"])] []) ].
Proof. vm_compute. reflexivity. Qed.

End Aggregation.

(** ** The comment formatter *)

Module Formatter.

Import PyStr Utils.

(** The number of places at which [sub] occurs in [s]. *)
Fixpoint occurrences (sub s : str) : nat :=
  (if prefix sub s then 1 else 0) +
  match s with
  | [] => 0
  | _ :: s' => occurrences sub s'
  end.

Definition marked_em (run : str * list mark) : bool :=
  existsb (fun m => match m with em => true | strong => false end) (snd run).

(** The text runs of the section of one speaker. *)
Definition section_texts (entry : str * list str) : list (str * list mark) :=
  (fst entry, []) :: map (fun point => (point, [])) (snd entry).

Lemma sections_fold (speakers_data : Dict.t (list str)) :
  forall doc,
    fold_left (fun doc entry => doc ++ speaker_section entry) speakers_data doc =
    doc ++ flat_map speaker_section speakers_data.
Proof.
  induction speakers_data as [ | e rest IH]; intros doc; simpl.
  - now rewrite app_nil_r.
  - rewrite IH, <- app_assoc. reflexivity.
Qed.

(** The blocks of a comment: the title, the sections, the footer. *)
Lemma generate_adf_comment_blocks {C : Type} (content : C) date_str speakers_data :
  doc_content (generate_adf_comment content date_str speakers_data) =
  paragraph [text_node (title_of date_str) [strong]] ::
  flat_map speaker_section speakers_data ++ [footer_paragraph].
Proof.
  unfold generate_adf_comment. cbn [doc_content].
  rewrite sections_fold. reflexivity.
Qed.

Lemma bullet_texts points :
  flat_map node_texts (map bullet_item points) =
  map (fun point => (point, [])) points.
Proof.
  induction points as [ | p ps IH]; simpl; [reflexivity | now rewrite IH].
Qed.

Lemma sections_texts speakers_data :
  flat_map node_texts (flat_map speaker_section speakers_data) =
  flat_map section_texts speakers_data.
Proof.
  induction speakers_data as [ | e rest IH]; [reflexivity | ].
  cbn [flat_map]. rewrite flat_map_app, IH.
  unfold speaker_section, section_texts. cbn [flat_map node_texts app].
  rewrite app_nil_r, bullet_texts. reflexivity.
Qed.

Lemma generate_adf_comment_texts {C : Type} (content : C) date_str speakers_data :
  doc_texts (generate_adf_comment content date_str speakers_data) =
  (title_of date_str, [strong]) ::
  flat_map section_texts speakers_data ++ [(FOOTER, [em])].
Proof.
  unfold doc_texts. rewrite generate_adf_comment_blocks.
  cbn [flat_map node_texts app]. rewrite flat_map_app, sections_texts.
  reflexivity.
Qed.

Lemma section_texts_plain speakers_data :
  List.filter marked_em (flat_map section_texts speakers_data) = [].
Proof.
  induction speakers_data as [ | e rest IH]; [reflexivity | ].
  cbn [flat_map]. rewrite List.filter_app, IH, app_nil_r.
  unfold section_texts. cbn [List.filter marked_em snd existsb].
  induction (snd e) as [ | p ps IHp]; [reflexivity | exact IHp].
Qed.

(** *** Substrings *)

Lemma prefix_self_app u b : prefix u (u ++ b) = true.
Proof.
  induction u as [ | c u IH]; simpl; [reflexivity | ].
  now rewrite Ascii.eqb_refl, IH.
Qed.

Lemma contains_app_r u a s : contains u s = true -> contains u (a ++ s) = true.
Proof.
  intros H. induction a as [ | c a IH]; [exact H | ].
  cbn [app contains]. rewrite IH. apply orb_true_r.
Qed.

Lemma contains_middle u a b : contains u (a ++ u ++ b) = true.
Proof.
  apply contains_app_r. destruct (u ++ b) eqn:H; simpl.
  - destruct u; [reflexivity | discriminate].
  - rewrite <- H, prefix_self_app. reflexivity.
Qed.

(** Where a prefix of [y ++ w] can end. *)
Lemma prefix_app_cases f :
  forall y w,
    prefix f (y ++ w) = true ->
    prefix f y = true \/
    (length y < length f /\ prefix (skipn (length y) f) w = true).
Proof.
  induction f as [ | c f IH]; intros y w H; [now left | ].
  destruct y as [ | d y].
  - right. split; [simpl; lia | exact H].
  - cbn [app prefix] in H. apply andb_true_iff in H as [Hc H].
    destruct (IH y w H) as [Hp | [Hlen Hp]].
    + left. cbn [prefix]. now rewrite Hc, Hp.
    + right. split; [simpl; lia | exact Hp].
Qed.

(** No proper end of the footer is also a start of it. *)
Lemma footer_unbordered k :
  0 < k < length FOOTER -> prefix (skipn k FOOTER) FOOTER = false.
Proof.
  intros Hk.
  assert (H : forallb (fun k => negb (prefix (skipn k FOOTER) FOOTER))
                (seq 1 (length FOOTER - 1)) = true)
    by (vm_compute; reflexivity).
  rewrite forallb_forall in H. specialize (H k).
  apply negb_true_iff. apply H. apply in_seq. lia.
Qed.

Lemma footer_once_at_end x :
  contains FOOTER x = false -> occurrences FOOTER (x ++ FOOTER) = 1.
Proof.
  induction x as [ | c x IH]; intros H.
  - vm_compute. reflexivity.
  - cbn [app occurrences].
    assert (Hp : prefix FOOTER (c :: x) = false /\ contains FOOTER x = false).
    { cbn [contains] in H. now apply orb_false_iff in H. }
    destruct Hp as [Hp Hx]. rewrite (IH Hx).
    destruct (prefix FOOTER (c :: x ++ FOOTER)) eqn:Hpre; [ | reflexivity].
    exfalso. change (c :: x ++ FOOTER) with ((c :: x) ++ FOOTER) in Hpre.
    apply prefix_app_cases in Hpre as [Hq | [Hlen Hq]].
    + congruence.
    + rewrite footer_unbordered in Hq; [discriminate | ].
      split; [simpl; lia | exact Hlen].
Qed.

(** *** The comment for one speaker with one utterance *)

Definition quoting_context : Tools.ticket_context :=
  Tools.TicketContext high full_key [(py "Alice", [FOOTER])] [].

(** C9, as stated, fails: when the one utterance is itself the text of the
    footer, the concatenated text of the comment contains the footer
    twice. *)
Lemma footer_twice_counterexample :
  Tools.ctx_speakers quoting_context = [(py "Alice", [FOOTER])] /\
  occurrences FOOTER
    (doc_text (generate_adf_comment quoting_context "02 Oct 2025"
                 (Tools.ctx_speakers quoting_context))) = 2.
Proof. split; [reflexivity | vm_compute; reflexivity]. Qed.

(** C9, amended: for every ticket context with exactly one speaker having
    exactly one utterance, the text runs of the generated comment are, in
    order, the title, the speaker's name, the utterance and the footer, of
    which the footer alone is marked [em]; their concatenation contains
    the utterance verbatim, and it contains the footer exactly once
    whenever the footer does not already occur in the title, the name and
    the utterance put together. For every mapping of speakers the comment
    consists of the title paragraph, then one heading plus one bullet-list
    block per speaker, in mapping iteration order, then the italic footer
    paragraph, which holds the only text run marked [em]. *)
Theorem comment_of_single_utterance (ctx : Tools.ticket_context)
    (date_str speaker utterance : str) :
  Tools.ctx_speakers ctx = [(speaker, [utterance])] ->
  let doc := generate_adf_comment ctx date_str (Tools.ctx_speakers ctx) in
  doc_texts doc =
    [ (title_of date_str, [strong]); (speaker, []); (utterance, []);
      (FOOTER, [em]) ] /\
  contains utterance (doc_text doc) = true /\
  List.filter marked_em (doc_texts doc) = [(FOOTER, [em])] /\
  (contains FOOTER (title_of date_str ++ speaker ++ utterance) = false ->
   occurrences FOOTER (doc_text doc) = 1) /\
  (forall speakers_data,
     doc_content (generate_adf_comment ctx date_str speakers_data) =
       paragraph [text_node (title_of date_str) [strong]] ::
       flat_map speaker_section speakers_data ++ [footer_paragraph] /\
     List.filter marked_em
       (doc_texts (generate_adf_comment ctx date_str speakers_data)) =
       [(FOOTER, [em])]).
Proof.
  intros Hsp doc.
  assert (Htexts : doc_texts doc =
            [ (title_of date_str, [strong]); (speaker, []); (utterance, []);
              (FOOTER, [em]) ]).
  { unfold doc. rewrite generate_adf_comment_texts, Hsp. reflexivity. }
  assert (Htext : doc_text doc =
            (title_of date_str ++ speaker) ++ utterance ++ FOOTER).
  { unfold doc_text. rewrite Htexts. cbn [map fst concat].
    now rewrite app_nil_r, <- app_assoc. }
  split; [exact Htexts | ]. split; [ | split; [ | split]].
  - rewrite Htext. apply contains_middle.
  - rewrite Htexts. reflexivity.
  - intros Hfree. rewrite Htext.
    replace ((title_of date_str ++ speaker) ++ utterance ++ FOOTER)
      with ((title_of date_str ++ speaker ++ utterance) ++ FOOTER)
      by now rewrite <- !app_assoc.
    now apply footer_once_at_end.
  - intros speakers_data. split; [apply generate_adf_comment_blocks | ].
    rewrite generate_adf_comment_texts. cbn [List.filter marked_em snd existsb].
    now rewrite List.filter_app, section_texts_plain.
Qed.

Definition alice_context : Tools.ticket_context :=
  Tools.TicketContext high full_key
    [(py "Alice", [py "Working on PROJ-42, almost done"])] [].

Lemma comment_of_single_utterance_witness :
  let doc := generate_adf_comment alice_context "02 Oct 2025"
               (Tools.ctx_speakers alice_context) in
  doc_texts doc =
    [ (title_of "02 Oct 2025", [strong]); (py "Alice", []);
      (py "Working on PROJ-42, almost done", []); (FOOTER, [em]) ] /\
  contains (py "Working on PROJ-42, almost done") (doc_text doc) = true /\
  List.filter marked_em (doc_texts doc) = [(FOOTER, [em])] /\
  occurrences FOOTER (doc_text doc) = 1.
Proof.
  destruct (comment_of_single_utterance alice_context "02 Oct 2025"
              "Alice" "Working on PROJ-42, almost done" eq_refl)
    as (H1 & H2 & H3 & H4 & _).
  split; [exact H1 | ]. split; [exact H2 | ]. split; [exact H3 | ].
  apply H4. vm_compute. reflexivity.
Defined.

End Formatter.

(** ** Reasoning about computations on the session *)

Module Frames.

Import Session.

(** A frame fixes what a computation is observed to respect: an invariant
    of the machine, a relation between the machine before and after, the
    outside calls that respect them, and the session keys whose writing
    respects them. *)
Record frame (L : library) : Type := Frame {
  inv : machine L -> Prop;
  rel : machine L -> machine L -> Prop;
  quiet : event -> Prop;
  writable : string -> Prop;
  rel_refl : forall m, rel m m;
  rel_trans : forall a b c, rel a b -> rel b c -> rel a c;
  call_ok : forall ev m w,
    quiet ev -> inv m ->
    rel m (Machine L (state m) (trace m ++ [ev]) w) /\
    inv (Machine L (state m) (trace m ++ [ev]) w);
  write_ok : forall k v m,
    writable k -> inv m ->
    rel m (Machine L (<[k := v]> (state m)) (trace m) (world m)) /\
    inv (Machine L (<[k := v]> (state m)) (trace m) (world m))
}.

Arguments inv {L} _ _.
Arguments rel {L} _ _ _.
Arguments quiet {L} _ _.
Arguments writable {L} _ _.
Arguments rel_refl {L} _ _.
Arguments rel_trans {L} _ _ _ _ _ _.
Arguments call_ok {L} _ _ _ _ _ _.
Arguments write_ok {L} _ _ _ _ _ _.

(** [triple F c Q]: from a machine that satisfies the invariant, [c]
    leaves a related machine that satisfies it too, and what it returns
    satisfies [Q]. *)
Definition triple {L : library} (F : frame L) {A : Type} (c : M L A)
    (Q : A -> Prop) : Prop :=
  forall m, inv F m ->
    rel F m (snd (c m)) /\ inv F (snd (c m)) /\
    forall a, fst (c m) = Ok a -> Q a.

Definition any {A : Type} : A -> Prop := fun _ => True.

Section Rules.

Context {L : library} (F : frame L).

Lemma t_ret {A : Type} (a : A) (Q : A -> Prop) : Q a -> triple F (ret a) Q.
Proof.
  intros HQ m Hm. simpl. repeat split; auto using rel_refl.
  intros a' Ha. inversion Ha; subst. exact HQ.
Qed.

Lemma t_mret {A : Type} (a : A) (Q : A -> Prop) :
  Q a -> triple F (mret a : M L A) Q.
Proof. apply t_ret. Qed.

Lemma t_lift {A : Type} (o : outcome A) (Q : A -> Prop) :
  (forall a, o = Ok a -> Q a) -> triple F (lift o) Q.
Proof. intros HQ m Hm. simpl. repeat split; auto using rel_refl. Qed.

Lemma t_read {A : Type} (f : World L -> A) : triple F (read f) any.
Proof. intros m Hm. simpl. repeat split; auto using rel_refl. Qed.

Lemma t_bind {A B : Type} (c : M L A) (f : A -> M L B)
    (Q1 : A -> Prop) (Q : B -> Prop) :
  triple F c Q1 -> (forall a, Q1 a -> triple F (f a) Q) ->
  triple F (bind c f) Q.
Proof.
  intros Hc Hf m Hm. destruct (Hc m Hm) as (H1 & H2 & H3).
  unfold bind. destruct (c m) as [[a | e] m1]; simpl in *.
  - destruct (Hf a (H3 a eq_refl) m1 H2) as (G1 & G2 & G3).
    repeat split; eauto using rel_trans.
  - repeat split; auto. intros a Ha. discriminate.
Qed.

Lemma t_mbind {A B : Type} (c : M L A) (f : A -> M L B)
    (Q1 : A -> Prop) (Q : B -> Prop) :
  triple F c Q1 -> (forall a, Q1 a -> triple F (f a) Q) ->
  triple F (c ≫= f) Q.
Proof. apply t_bind. Qed.

Lemma t_mbind_any {A B : Type} (c : M L A) (f : A -> M L B)
    (Q : B -> Prop) :
  triple F c any -> (forall a, triple F (f a) Q) -> triple F (c ≫= f) Q.
Proof. intros Hc Hf. eapply t_bind; eauto. Qed.

Lemma t_try {A : Type} (body : M L A) (handler : str -> M L A)
    (Q : A -> Prop) :
  triple F body Q -> (forall e, triple F (handler e) Q) ->
  triple F (try_except body handler) Q.
Proof.
  intros Hb Hh m Hm. destruct (Hb m Hm) as (H1 & H2 & H3).
  unfold try_except. destruct (body m) as [[a | e] m1]; simpl in *.
  - repeat split; auto.
  - destruct (Hh e m1 H2) as (G1 & G2 & G3).
    repeat split; eauto using rel_trans.
Qed.

Lemma t_call {A : Type} (ev : event) (f : World L -> outcome A * World L) :
  quiet F ev -> triple F (call ev f) any.
Proof.
  intros Hq m Hm. unfold call. destruct (f (world m)) as [r w]. simpl.
  destruct (call_ok F ev m w Hq Hm). repeat split; auto.
Qed.

Lemma t_attr (tc : tool_context) (name : str) : triple F (attr tc name) any.
Proof. destruct tc; [apply t_lift | apply t_ret]; unfold any; auto. Qed.

Lemma t_state_get (tc : tool_context) (k : string) :
  triple F (state_get tc k) any.
Proof.
  unfold state_get. eapply t_bind; [apply t_attr | ].
  intros _ _ m Hm. simpl. repeat split; auto using rel_refl.
Qed.

Lemma t_state_set (tc : tool_context) (k : string) (v : pyval) :
  writable F k -> triple F (state_set tc k v) any.
Proof.
  intros Hw. unfold state_set. eapply t_bind; [apply t_attr | ].
  intros _ _ m Hm. simpl. destruct (write_ok F k v m Hw Hm).
  repeat split; auto.
Qed.

Lemma t_ask_auth_response (tc : tool_context) (p : provider) :
  quiet F (GetAuthResponse p) -> triple F (ask_auth_response tc p) any.
Proof.
  intros Hq. unfold ask_auth_response. eapply t_bind; [apply t_attr | ].
  intros _ _. now apply t_call.
Qed.

Lemma t_ask_credential (tc : tool_context) (p : provider) :
  quiet F (RequestCredential p) -> triple F (ask_credential tc p) any.
Proof.
  intros Hq. unfold ask_credential. eapply t_bind; [apply t_attr | ].
  intros _ _. now apply t_call.
Qed.

Lemma t_foldM {A B : Type} (f : B -> A -> M L B) (Q : B -> Prop)
    (items : list A) :
  (forall acc x, Q acc -> triple F (f acc x) Q) ->
  forall acc, Q acc -> triple F (foldM f items acc) Q.
Proof.
  intros Hf. induction items as [ | x rest IH]; intros acc Hacc; simpl.
  - now apply t_ret.
  - eapply t_bind; [now apply Hf | ]. intros acc' Hacc'. now apply IH.
Qed.

End Rules.


(** The frame of a cache entry: the entry under [slot] holds [v], and the
    outside calls that [watched] selects are not made. *)
Definition watched_calls (watched : event -> bool) (t : list event)
    : list event :=
  List.filter watched t.

Definition cache_frame (L : library) (slot : string) (v : pyval)
    (watched : event -> bool) : frame L.
Proof.
  refine (Frame L
            (fun m => state m !! slot = Some v)
            (fun m m' => watched_calls watched (trace m') =
                         watched_calls watched (trace m))
            (fun ev => watched ev = false)
            (fun k => k <> slot) _ _ _ _).
  - reflexivity.
  - intros a b c H1 H2. now rewrite H2.
  - intros ev m w Hq Hm. simpl. split; [ | exact Hm].
    unfold watched_calls. rewrite List.filter_app. simpl. rewrite Hq.
    apply app_nil_r.
  - intros k x m Hk Hm. simpl. split; [reflexivity | ].
    now rewrite lookup_insert_ne.
Defined.

End Frames.

(** ** The operations, frame by frame *)

Module OperationFacts.

Import PyStr Utils Tools Session Frames DictFacts KeyFacts.

(** The calls of the Google side, of the Jira OAuth exchange, of the
    resource discovery, and of the issue API. *)
Definition is_google (ev : event) : bool :=
  match ev with
  | GetAuthResponse google | RequestCredential google
  | RefreshCredentials | BuildService _
  | EventsList | EventsGet | FilesList | ExportText => true
  | _ => false
  end.

Definition is_jira_oauth (ev : event) : bool :=
  match ev with
  | GetAuthResponse jira | RequestCredential jira => true
  | _ => false
  end.

Definition is_resources (ev : event) : bool :=
  match ev with
  | AccessibleResources => true
  | _ => false
  end.

Definition is_issue (ev : event) : bool :=
  match ev with
  | GetIssue _ | PostComment _ => true
  | _ => false
  end.

(** The status of a result is one of the three. *)
Definition tri_state (r : result) : Prop :=
  status_of r = Some (PStr (py "success")) \/
  status_of r = Some (PStr (py "pending")) \/
  status_of r = Some (PStr (py "error")).

Lemma tri_state_error e : tri_state (error_result e).
Proof. right. right. reflexivity. Qed.

Lemma tri_state_pending msg : tri_state (pending_result msg).
Proof. right. left. reflexivity. Qed.

Lemma status_set_other (k : str) (v : pyval) (r : result) :
  k <> py "status" -> status_of (Dict.set k v r) = status_of r.
Proof. intros Hk. unfold status_of. now apply get_set_ne. Qed.

Lemma tri_state_set (k : str) (v : pyval) (r : result) :
  k <> py "status" -> tri_state r -> tri_state (Dict.set k v r).
Proof. intros Hk Hr. unfold tri_state. now rewrite status_set_other. Qed.

Ltac solve_tri_state :=
  first [ apply tri_state_error
        | apply tri_state_pending
        | left; reflexivity
        | right; left; reflexivity
        | right; right; reflexivity
        | exact I ].

(** One step through the text of a computation. *)
Ltac step :=
  cbv beta;
  lazymatch goal with
  | |- triple _ (mbind _ (attach_content _ _ _ _ _)) _ => fail
  | |- triple _ (mbind _ _) _ => apply t_mbind_any; [ | intros ? ]
  | |- triple _ (mret _) _ => apply t_mret; try solve_tri_state
  | |- triple _ (ret _) _ => apply t_ret; try solve_tri_state
  | |- triple _ (lift _) any => apply t_lift; intros; exact I
  | |- triple _ (read _) any => apply t_read
  | |- triple _ (state_get _ _) any => apply t_state_get
  | |- triple _ (try_except _ _) _ => apply t_try; [ | intros ? ]
  | |- triple _ (boundary _) _ => unfold boundary
  | |- triple _ (if ?b then _ else _) _ => destruct b eqn:?
  | |- triple _ (match ?x with _ => _ end) _ => destruct x
  end.

Section Generic.

Context {L : library} (F : frame L).

Hypothesis google_quiet : forall ev, is_google ev = true -> quiet F ev.
Hypothesis google_slot : writable F GOOGLE_TOKEN_CACHE_KEY.

Lemma cached_google_credentials_any tc info :
  triple F (cached_google_credentials L tc info) any.
Proof.
  unfold cached_google_credentials. repeat step.
  - apply t_call. now apply google_quiet.
  - now apply t_state_set.
Qed.

Lemma lacks_valid_any creds : triple F (lacks_valid L creds) any.
Proof. unfold lacks_valid. repeat step. Qed.

Lemma google_services_any tc :
  triple F (get_authenticated_google_services L tc) any.
Proof.
  unfold get_authenticated_google_services. repeat step;
    try apply cached_google_credentials_any;
    try apply lacks_valid_any;
    try (apply t_ask_auth_response; now apply google_quiet);
    try (apply t_ask_credential; now apply google_quiet);
    try (apply t_call; now apply google_quiet);
    try (now apply t_state_set).
Qed.

Lemma read_document_content_any drive_service file_id :
  triple F (read_document_content L drive_service file_id) any.
Proof.
  unfold read_document_content. repeat step.
  apply t_call. now apply google_quiet.
Qed.

Lemma search_meeting_notes_any drive_service summary event_time :
  triple F (search_meeting_notes L drive_service summary event_time) any.
Proof.
  unfold search_meeting_notes. repeat step.
  apply t_call. now apply google_quiet.
Qed.

Lemma check_for_transcript_any cal drive code summary event_time :
  triple F (check_for_transcript_and_recording L cal drive code summary
              event_time) any.
Proof.
  unfold check_for_transcript_and_recording. repeat step.
  apply search_meeting_notes_any.
Qed.

Lemma event_step_any cal drive only_with_notes result_events e :
  triple F (event_step L cal drive only_with_notes result_events e) any.
Proof.
  unfold event_step. repeat step. apply check_for_transcript_any.
Qed.

Lemma fetch_calendar_events_tri days_back only_with_notes tc :
  triple F (fetch_calendar_events L days_back only_with_notes tc) tri_state.
Proof.
  unfold fetch_calendar_events. repeat step.
  - apply google_services_any.
  - apply t_call. now apply google_quiet.
  - apply (t_foldM F _ any); [ | exact I].
    intros acc x _. apply event_step_any.
Qed.

Lemma attach_content_tri drive_service media (kind : str) res :
  kind ++ py "_link" <> py "status" ->
  kind ++ py "_content" <> py "status" ->
  tri_state res ->
  triple F (attach_content L drive_service media kind res) tri_state.
Proof.
  intros Hlink Hcontent Hres. unfold attach_content. repeat step.
  - apply read_document_content_any.
  - now repeat apply tri_state_set.
  - exact Hres.
Qed.

Lemma get_meeting_notes_tri event_id tc :
  triple F (get_meeting_notes L event_id tc) tri_state.
Proof.
  unfold get_meeting_notes. repeat step.
  - apply google_services_any.
  - apply t_call. now apply google_quiet.
  - apply check_for_transcript_any.
  - eapply t_mbind.
    + apply attach_content_tri; [discriminate | discriminate | ].
      left. reflexivity.
    + intros res Hres. apply attach_content_tri;
        [discriminate | discriminate | exact Hres].
Qed.

Lemma parse_transcript_tri text default_project :
  triple F (parse_transcript L text default_project) tri_state.
Proof.
  unfold parse_transcript, get_sydney_date. repeat step.
Qed.

Lemma generate_jira_comment_tri ticket_key context date_str ticket_info :
  triple F (generate_jira_comment L ticket_key context date_str ticket_info)
    tri_state.
Proof.
  unfold generate_jira_comment. repeat step.
Qed.

(** The two cache readers, and the operations built on them. *)
Variable token_Q : pyval -> Prop.
Hypothesis jira_auth_triple :
  forall tc, triple F (get_jira_auth L tc) token_Q.
Hypothesis cloud_id_triple :
  forall token tc, triple F (get_jira_cloud_id L token tc) any.
Hypothesis issue_quiet : forall ev, is_issue ev = true -> quiet F ev.

Lemma validate_one_any cloud_id token results ticket_key :
  triple F (validate_one L cloud_id token results ticket_key) any.
Proof.
  unfold validate_one. repeat step.
  apply t_call. now apply issue_quiet.
Qed.

Lemma validate_jira_tickets_tri ticket_keys tc :
  triple F (validate_jira_tickets L ticket_keys tc) tri_state.
Proof.
  unfold validate_jira_tickets. step. step; [ | step].
  eapply t_mbind; [apply jira_auth_triple | ]. intros token _.
  repeat step.
  - apply cloud_id_triple.
  - apply (t_foldM F _ any); [ | exact I].
    intros acc x _. apply validate_one_any.
Qed.

Lemma post_jira_comment_tri ticket_key adf_comment tc :
  triple F (post_jira_comment L ticket_key adf_comment tc) tri_state.
Proof.
  unfold post_jira_comment. step. step; [ | step].
  eapply t_mbind; [apply jira_auth_triple | ]. intros token _.
  repeat step.
  - apply cloud_id_triple.
  - apply t_call. now apply issue_quiet.
Qed.

End Generic.

(** The cache readers in a frame that lets them reach their service. *)
Section Readers.

Context {L : library} (F : frame L).

Lemma get_jira_auth_any tc :
  (forall ev, is_jira_oauth ev = true -> quiet F ev) ->
  writable F JIRA_TOKEN_CACHE_KEY ->
  triple F (get_jira_auth L tc) any.
Proof.
  intros Hq Hw. unfold get_jira_auth. repeat step.
  - now apply t_ask_auth_response, Hq.
  - now apply t_state_set.
  - now apply t_ask_credential, Hq.
Qed.

Lemma get_jira_cloud_id_any token tc :
  quiet F AccessibleResources ->
  writable F CLOUD_ID_CACHE_KEY ->
  triple F (get_jira_cloud_id L token tc) any.
Proof.
  intros Hq Hw. unfold get_jira_cloud_id. repeat step.
  - now apply t_call.
  - now apply t_state_set.
Qed.

End Readers.

End OperationFacts.

(** ** The operations and the session cache *)

Module SessionClaims.

Import PyStr Utils Tools Session Frames OperationFacts DictFacts KeyFacts.

(** What the session holds under a key, [None] when it holds nothing. *)
Definition cached {L : library} (m : machine L) (k : string) : pyval :=
  match state m !! k with
  | Some v => v
  | None => PNone
  end.

(** *** The operations never raise *)







(** *** A missing credential *)





Definition awaiting_jira : result :=
  pending_result "Awaiting Jira authentication".
Definition awaiting_google : result :=
  pending_result "Awaiting Google authentication".



(** *** A library to run the operations against

    No credential is ever granted, the services answer 404, and the clock
    stands at 4 Nov 2026; [dateutil] knows two dates. *)
Definition sample_date : Type := nat * nat * nat.

Definition sample_parse (s : str) : outcome sample_date :=
  if PyStr.eqb s (py "27 Oct 2025") then Ok (2025, 10, 27)
  else if PyStr.eqb s (py "2 Oct 2025") then Ok (2025, 10, 2)
  else Raise (py "Unknown string format").

Definition sample_strftime (d : sample_date) : outcome str :=
  let '(y, mo, dd) := d in
  Ok ((if dd <? 10 then py "0" else []) ++ Py.of_nat dd ++ py " " ++
      nth (mo - 1) month_abbrevs [] ++ py " " ++ Py.of_nat y).

Definition not_found : response := Response 404 (Raise (py "no body")) [].

Definition sample_library : library :=
  Library nat sample_date unit unit
    sample_parse
    (fun _ => (2026, 11, 4))
    sample_strftime
    (fun _ => Raise (py "Invalid isoformat string"))
    (fun d _ => Ok d)
    (fun _ _ => Ok false)
    (fun _ w => (Ok None, S w))
    (fun _ w => (Ok tt, S w))
    (fun _ => Raise (py "invalid token info"))
    (fun _ _ => Ok tt)
    (fun _ _ => true)
    (fun _ _ => false)
    (fun _ => PNone)
    (fun c w => (Ok c, S w))
    (fun _ => Ok (PDict []))
    (fun _ _ w => (Ok tt, S w))
    (fun _ _ _ w => (Ok (PDict []), S w))
    (fun _ _ w => (Ok (PDict []), S w))
    (fun _ w => (Ok (PDict []), S w))
    (fun _ _ w => (Ok [], S w))
    (fun _ w => (Ok not_found, S w))
    (fun _ _ _ w => (Ok not_found, S w))
    (fun _ _ _ _ w => (Ok not_found, S w)).

Definition fresh_session : machine sample_library :=
  Machine sample_library ∅ [] 0.

(** *** The cached token and the cached cloud id *)

Definition token_frame (L : library) (token : pyval) : frame L :=
  cache_frame L JIRA_TOKEN_CACHE_KEY token is_jira_oauth.

Definition cloud_frame (L : library) (cloud_id : pyval) : frame L :=
  cache_frame L CLOUD_ID_CACHE_KEY cloud_id is_resources.

Lemma get_jira_auth_hit (L : library) (token : pyval) (m : machine L) :
  Py.truthy token = true ->
  state m !! JIRA_TOKEN_CACHE_KEY = Some token ->
  get_jira_auth L ToolContext m = (Ok token, m).
Proof.
  intros Ht Hm.
  unfold get_jira_auth, state_get, attr, mbind, M_bind, bind, mret, M_ret, ret.
  cbn [fst snd]. rewrite Hm, Ht. reflexivity.
Qed.

Lemma get_jira_cloud_id_hit (L : library) (cloud_id token : pyval)
    (m : machine L) :
  Py.truthy cloud_id = true ->
  state m !! CLOUD_ID_CACHE_KEY = Some cloud_id ->
  get_jira_cloud_id L token ToolContext m = (Ok cloud_id, m).
Proof.
  intros Ht Hm.
  unfold get_jira_cloud_id, state_get, attr, mbind, M_bind, bind, mret,
    M_ret, ret.
  cbn [fst snd]. rewrite Hm, Ht. reflexivity.
Qed.

Lemma no_context_raises {L : library} {A : Type} (k : string)
    (f : pyval -> M L A) (m : machine L) :
  exists e, (state_get NoToolContext k ≫= f) m = (Raise e, m).
Proof. eexists. reflexivity. Qed.

Lemma get_jira_auth_cached (L : library) (token : pyval) :
  Py.truthy token = true ->
  forall tc, triple (token_frame L token) (get_jira_auth L tc) any.
Proof.
  intros Ht tc m Hm. destruct tc.
  - destruct (no_context_raises JIRA_TOKEN_CACHE_KEY
                (fun cached_token =>
                   if Py.truthy cached_token then mret cached_token
                   else
                     exchanged_credential ← ask_auth_response NoToolContext jira;
                     match exchanged_credential with
                     | None => _ ← ask_credential NoToolContext jira; mret PNone
                     | Some credential =>
                         o ← lift (oauth2_of credential);
                         _ ← state_set NoToolContext JIRA_TOKEN_CACHE_KEY
                               (access_token o);
                         mret (access_token o)
                     end) m) as [e He].
    unfold get_jira_auth. rewrite He. simpl.
    repeat split; auto; try exact I; try discriminate.
  - rewrite (get_jira_auth_hit L token m Ht Hm). simpl.
    repeat split; auto; try exact I; try discriminate.
Qed.

Lemma get_jira_cloud_id_cached (L : library) (cloud_id : pyval) :
  Py.truthy cloud_id = true ->
  forall token tc,
    triple (cloud_frame L cloud_id) (get_jira_cloud_id L token tc) any.
Proof.
  intros Ht token tc m Hm. destruct tc.
  - unfold get_jira_cloud_id.
    match goal with
    | |- context [(state_get NoToolContext ?k ≫= ?f) m] =>
        destruct (no_context_raises k f m) as [e He]; rewrite He
    end.
    simpl. repeat split; auto; try exact I; try discriminate.
  - rewrite (get_jira_cloud_id_hit L cloud_id token m Ht Hm). simpl.
    repeat split; auto; try exact I; try discriminate.
Qed.

Lemma cached_truthy {L : library} (m : machine L) (k : string) (v : pyval) :
  cached m k = v -> Py.truthy v = true -> state m !! k = Some v.
Proof.
  unfold cached. destruct (state m !! k) as [x | ]; intros <- Ht.
  - reflexivity.
  - discriminate.
Qed.

(** A truthy token that [get_jira_auth] returns is in the cache. *)
Lemma get_jira_auth_stores (L : library) tc (m m' : machine L) (v : pyval) :
  get_jira_auth L tc m = (Ok v, m') ->
  Py.truthy v = true ->
  state m' !! JIRA_TOKEN_CACHE_KEY = Some v.
Proof.
  intros H Hv. destruct tc; [discriminate | ].
  unfold get_jira_auth, state_get, ask_auth_response, ask_credential,
    state_set, call, attr, lift, mbind, M_bind, bind, mret, M_ret, ret in H.
  cbn [fst snd] in H.
  fold (cached m JIRA_TOKEN_CACHE_KEY) in H.
  destruct (Py.truthy (cached m JIRA_TOKEN_CACHE_KEY)) eqn:Hc.
  - inversion H; subst. now apply cached_truthy.
  - destruct (get_auth_response L jira (world m)) as [[[cred | ] | e] w1];
      cbn [state trace world] in H; [ | | discriminate].
    + destruct (oauth2_of cred) as [o | e]; [ | discriminate].
      inversion H; subst. simpl. apply lookup_insert_eq.
    + destruct (request_credential L jira w1) as [[[] | e] w2];
        [ | discriminate].
      inversion H; subst. discriminate.
Qed.

(** A truthy cloud id that [get_jira_cloud_id] returns is in the cache. *)
Lemma get_jira_cloud_id_stores (L : library) token tc (m m' : machine L)
    (v : pyval) :
  get_jira_cloud_id L token tc m = (Ok v, m') ->
  Py.truthy v = true ->
  state m' !! CLOUD_ID_CACHE_KEY = Some v.
Proof.
  intros H Hv. destruct tc; [discriminate | ].
  unfold get_jira_cloud_id, state_get, state_set, call, attr, lift, mbind,
    M_bind, bind, mret, M_ret, ret in H.
  cbn [fst snd] in H.
  fold (cached m CLOUD_ID_CACHE_KEY) in H.
  destruct (Py.truthy (cached m CLOUD_ID_CACHE_KEY)) eqn:Hc.
  - inversion H; subst. now apply cached_truthy.
  - destruct (http_accessible_resources L token (world m)) as [[resp | e] w1];
      cbn [state trace world] in H; [ | discriminate].
    destruct (negb (status_code resp =? 200)).
    { inversion H; subst. discriminate. }
    destruct (json resp) as [resources | e]; [ | discriminate].
    destruct (negb (Py.truthy resources)).
    { inversion H; subst. discriminate. }
    destruct (Py.first resources) as [resource | e]; [ | discriminate].
    destruct (Py.getitem resource "id") as [id | e]; [ | discriminate].
    inversion H; subst. simpl. apply lookup_insert_eq.
Qed.

Lemma run_session_respects {L : library} (F : frame L) :
  (forall c, triple F (perform L c) tri_state) ->
  forall calls m,
    inv F m ->
    rel F m (run_session L calls m) /\ inv F (run_session L calls m).
Proof.
  intros Hc. induction calls as [ | c rest IH]; intros m Hm; simpl.
  - split; [apply rel_refl | exact Hm].
  - destruct (Hc c m Hm) as (H1 & H2 & _).
    destruct (IH _ H2) as (G1 & G2).
    split; [eapply rel_trans; eauto | exact G2].
Qed.

Lemma google_not_jira_oauth ev : is_google ev = true -> is_jira_oauth ev = false.
Proof. destruct ev as [[] | [] | | | | | | | | | ]; simpl; congruence. Qed.

Lemma google_not_resources ev : is_google ev = true -> is_resources ev = false.
Proof. destruct ev as [[] | [] | | | | | | | | | ]; simpl; congruence. Qed.

Lemma issue_not_jira_oauth ev : is_issue ev = true -> is_jira_oauth ev = false.
Proof. destruct ev as [[] | [] | | | | | | | | | ]; simpl; congruence. Qed.

Lemma issue_not_resources ev : is_issue ev = true -> is_resources ev = false.
Proof. destruct ev as [[] | [] | | | | | | | | | ]; simpl; congruence. Qed.

Lemma jira_oauth_not_resources ev :
  is_jira_oauth ev = true -> is_resources ev = false.
Proof. destruct ev as [[] | [] | | | | | | | | | ]; simpl; congruence. Qed.

Lemma perform_keeps_token (L : library) (token : pyval) :
  Py.truthy token = true ->
  forall c, triple (token_frame L token) (perform L c) tri_state.
Proof.
  intros Ht.
  assert (Hg : forall ev, is_google ev = true ->
                          quiet (token_frame L token) ev)
    by exact google_not_jira_oauth.
  assert (Hs : writable (token_frame L token) GOOGLE_TOKEN_CACHE_KEY)
    by (simpl; discriminate).
  assert (Hcloud : forall tok tc,
            triple (token_frame L token) (get_jira_cloud_id L tok tc) any).
  { intros tok tc. apply get_jira_cloud_id_any; simpl;
      [reflexivity | discriminate]. }
  destruct c; simpl.
  - now apply fetch_calendar_events_tri.
  - now apply get_meeting_notes_tri.
  - apply parse_transcript_tri.
  - apply (validate_jira_tickets_tri _ any); auto.
    + now apply get_jira_auth_cached.
    + exact issue_not_jira_oauth.
  - apply generate_jira_comment_tri.
  - apply (post_jira_comment_tri _ any); auto.
    + now apply get_jira_auth_cached.
    + exact issue_not_jira_oauth.
  - apply parse_transcript_tri.
Qed.

Lemma perform_keeps_cloud_id (L : library) (cloud_id : pyval) :
  Py.truthy cloud_id = true ->
  forall c, triple (cloud_frame L cloud_id) (perform L c) tri_state.
Proof.
  intros Ht.
  assert (Hg : forall ev, is_google ev = true ->
                          quiet (cloud_frame L cloud_id) ev)
    by exact google_not_resources.
  assert (Hs : writable (cloud_frame L cloud_id) GOOGLE_TOKEN_CACHE_KEY)
    by (simpl; discriminate).
  assert (Hauth : forall tc,
            triple (cloud_frame L cloud_id) (get_jira_auth L tc) any).
  { intros tc. apply get_jira_auth_any; simpl;
      [exact jira_oauth_not_resources | discriminate]. }
  destruct c; simpl.
  - now apply fetch_calendar_events_tri.
  - now apply get_meeting_notes_tri.
  - apply parse_transcript_tri.
  - apply (validate_jira_tickets_tri _ any); auto.
    + now apply get_jira_cloud_id_cached.
    + exact issue_not_resources.
  - apply generate_jira_comment_tri.
  - apply (post_jira_comment_tri _ any); auto.
    + now apply get_jira_cloud_id_cached.
    + exact issue_not_resources.
  - apply parse_transcript_tri.
Qed.

(** The calls of the OAuth exchange path for Jira, and the calls to the
    provider for the cloud id, among the calls logged so far. *)
Definition oauth_exchanges {L : library} (m : machine L) : list event :=
  watched_calls is_jira_oauth (trace m).

Definition cloud_id_fetches {L : library} (m : machine L) : list event :=
  watched_calls is_resources (trace m).


Definition sample_token : pyval := PStr (py "token-1").

Definition signed_in : machine sample_library :=
  Machine sample_library
    (<[JIRA_TOKEN_CACHE_KEY := sample_token]> ∅) [] 0.







(** What the session of the sample does when the token is there and the
    cloud id is not: the provider is asked at each call, since it never
    answers with an id. *)
Example signed_in_trace :
  trace (run_session sample_library
           [ValidateJiraTickets [py "PROJ-42"] ToolContext;
            PostJiraComment (py "PROJ-42") PNone ToolContext]
           signed_in) =
  [AccessibleResources; AccessibleResources].
Proof. vm_compute. reflexivity. Qed.

End SessionClaims.

(** ** Date resolution *)

Module DateClaims.

Import PyStr Re Utils Tools Session SessionClaims.

(** One pattern tried on the text: the date parsed from the first match,
    if the pattern matches and the capture parses. *)
Definition attempt {datetime : Type} (parser : str -> outcome datetime)
    (pattern : regex) (text : str) : option datetime :=
  match re_search true pattern text with
  | Some m =>
      match parser (group m 1) with
      | Ok d => Some d
      | Raise _ => None
      end
  | None => None
  end.

(** The date [parse_transcript] formats. *)
Definition date_used (L : library) (text : str) (m : machine L) : datetime L :=
  match extract_date_from_transcript (parser_parse L) text with
  | Some d => d
  | None => now_sydney L (world m)
  end.

Lemma extract_date_order {datetime : Type} (parser : str -> outcome datetime)
    (text : str) :
  extract_date_from_transcript parser text =
  match attempt parser standup_date_pattern text with
  | Some d => Some d
  | None => attempt parser full_date_pattern text
  end.
Proof.
  unfold extract_date_from_transcript, date_patterns, attempt.
  cbn [first_parsed_date].
  destruct (re_search true standup_date_pattern text) as [m | ].
  - destruct (parser (group m 1)); [reflexivity | ].
    destruct (re_search true full_date_pattern text) as [m' | ];
      [destruct (parser (group m' 1)) | ]; reflexivity.
  - destruct (re_search true full_date_pattern text) as [m' | ];
      [destruct (parser (group m' 1)) | ]; reflexivity.
Qed.

Lemma parse_transcript_date (L : library) (text default_project : str)
    (m : machine L) (s : str) :
  strftime_dby L (date_used L text m) = Ok s ->
  exists r,
    parse_transcript L text default_project m = (Ok r, m) /\
    status_of r = Some (PStr (py "success")) /\
    Dict.get (py "date") r = Some (PStr s).
Proof.
  intros Hs.
  destruct (Aggregation.group_by_ticket_total text default_project)
    as [contexts Hc].
  unfold date_used in Hs.
  unfold parse_transcript, boundary, try_except, get_sydney_date, read, lift,
    mbind, M_bind, bind, mret, M_ret, ret.
  rewrite Hc.
  destruct (extract_date_from_transcript (parser_parse L) text) as [d | ];
    cbn [fst snd]; rewrite Hs; eexists; split; try reflexivity;
    split; reflexivity.
Qed.

Definition standup_line : str := py "Standup for 27 Oct 2025".

(** The scenario of a whole transcript, on the sample library: the date of
    the first line, the two tickets, and Alice's line under PROJ-42. *)
Definition scenario : str :=
  py "Standup for 2 Oct 2025" ++ [newline] ++ Aggregation.standup_sample.

Example scenario_result :
  extract_ticket_keys scenario "WJR" =
    [ Mention (py "PROJ-42") high full_key;
      Mention (py "WJR-99") medium partial_numeric ] /\
  exists r,
    fst (parse_transcript sample_library scenario "WJR" fresh_session) = Ok r /\
    status_of r = Some (PStr (py "success")) /\
    Dict.get (py "date") r = Some (PStr (py "02 Oct 2025")) /\
    exists contexts,
      Dict.get (py "ticket_contexts") r = Some (PDict contexts) /\
      Dict.get (py "PROJ-42") contexts =
        Some (ticket_context_to_py
                (TicketContext high full_key
                   [(py "Alice", [py "Working on PROJ-42, almost done"])] [])).
Proof.
  split; [vm_compute; reflexivity | ].
  eexists. split; [vm_compute; reflexivity | ].
  split; [reflexivity | ]. split; [reflexivity | ].
  eexists. split; reflexivity.
Qed.

End DateClaims.

(** ** Parts of a text *)

Module TextFacts.

Import PyStr Re ReFacts.

(** [x] occurs in [s]: [s] is some text, then [x], then some text. *)
Definition occurs (x s : str) : Prop := exists a b, s = a ++ x ++ b.

Lemma occurs_refl s : occurs s s.
Proof. exists [], []. now rewrite app_nil_r. Qed.

Lemma occurs_nil s : occurs [] s.
Proof. exists [], s. reflexivity. Qed.

Lemma occurs_trans x y z : occurs x y -> occurs y z -> occurs x z.
Proof.
  intros (a & b & ->) (c & d & ->). exists (c ++ a), (b ++ d).
  now rewrite <- !app_assoc.
Qed.

Lemma occurs_app_l x s t : occurs x s -> occurs x (s ++ t).
Proof.
  intros (a & b & ->). exists a, (b ++ t). now rewrite <- !app_assoc.
Qed.

Lemma occurs_app_r x s t : occurs x t -> occurs x (s ++ t).
Proof.
  intros (a & b & ->). exists (s ++ a), b. now rewrite <- !app_assoc.
Qed.

Lemma occurs_cons x c s : occurs x s -> occurs x (c :: s).
Proof. apply (occurs_app_r x [c] s). Qed.

Lemma occurs_In x s c : occurs x s -> In c x -> In c s.
Proof.
  intros (a & b & ->) Hc. apply in_or_app. right. apply in_or_app. now left.
Qed.

Lemma prefix_true p : forall s, prefix p s = true <-> exists b, s = p ++ b.
Proof.
  induction p as [ | c p IH]; intros s; simpl.
  - split; [intros _; now exists s | reflexivity].
  - destruct s as [ | d s].
    + split; [discriminate | intros [b Hb]; discriminate].
    + rewrite andb_true_iff, IH. split.
      * intros [Hc [b ->]]. apply Ascii.eqb_eq in Hc. subst d. now exists b.
      * intros [b Hb]. inversion Hb; subst. split; [apply Ascii.eqb_refl | eauto].
Qed.

(** [contains] decides [occurs]. *)
Lemma contains_occurs x : forall s, contains x s = true <-> occurs x s.
Proof.
  induction s as [ | c s IH].
  - simpl. rewrite orb_false_r, prefix_true. split.
    + intros [b Hb]. exists [], b. exact Hb.
    + intros (a & b & H). destruct a; [now exists b | discriminate].
  - cbn [contains]. rewrite orb_true_iff, prefix_true, IH. split.
    + intros [[b Hb] | H]; [exists [], b; exact Hb | now apply occurs_cons].
    + intros (a & b & H). destruct a as [ | d a].
      * left. now exists b.
      * right. inversion H; subst. now exists a, b.
Qed.

(** *** What a match passes, and what it captures, is part of the text *)

Definition parts_of (w : str) (gs : list (nat * str)) : Prop :=
  Forall (fun g => occurs (snd g) w) gs.

Lemma parts_of_app_l w1 w2 gs : parts_of w1 gs -> parts_of (w1 ++ w2) gs.
Proof.
  apply List.Forall_impl. intros g. apply occurs_app_l.
Qed.

Lemma parts_of_app_r w1 w2 gs : parts_of w2 gs -> parts_of (w1 ++ w2) gs.
Proof.
  apply List.Forall_impl. intros g. apply occurs_app_r.
Qed.

Lemma rmatch_captures ic r :
  forall st k res,
    rmatch ic r st k = Some res ->
    exists st' w new,
      k st' = Some res /\ reaches st st' w new /\ parts_of w new.
Proof.
  induction r as [ | cs | r1 IH1 r2 IH2 | r1 IH1 r2 IH2 | r1 IH1 | n r1 IH1 | | | ];
    intros st k res H; simpl in H.
  - exists st, [], []. repeat split; auto. constructor.
  - destruct (after st) as [ | c rest] eqn:Ha; [discriminate | ].
    destruct (cset_mem ic cs c) eqn:Hc; [ | discriminate].
    exists (advance c rest st), [c], []. repeat split; auto. constructor.
  - apply IH1 in H as (st1 & w1 & n1 & Hk1 & Hr1 & Hp1).
    apply IH2 in Hk1 as (st2 & w2 & n2 & Hk2 & Hr2 & Hp2).
    exists st2, (w1 ++ w2), (n2 ++ n1).
    split; [exact Hk2 | ]. split; [eapply reaches_trans; eauto | ].
    apply List.Forall_app. split;
      [now apply parts_of_app_r | now apply parts_of_app_l].
  - destruct (rmatch ic r1 st k) as [res1 | ] eqn:H1.
    + inversion H; subst res1. now apply IH1 in H1.
    + now apply IH2 in H.
  - revert H. generalize (length (after st)) as fuel. intros fuel. revert st.
    induction fuel as [ | fuel IHf]; intros st H.
    + exists st, [], []. repeat split; auto. constructor.
    + match type of H with
      | match ?X with _ => _ end = _ => destruct X as [res1 | ] eqn:H1
      end.
      * inversion H; subst res1.
        apply IH1 in H1 as (st1 & w1 & n1 & Hk1 & Hr1 & Hp1).
        destruct (length (after st1) <? length (after st)); [ | discriminate].
        apply IHf in Hk1 as (st2 & w2 & n2 & Hk2 & Hr2 & Hp2).
        exists st2, (w1 ++ w2), (n2 ++ n1).
        split; [exact Hk2 | ]. split; [eapply reaches_trans; eauto | ].
        apply List.Forall_app. split;
          [now apply parts_of_app_r | now apply parts_of_app_l].
      * exists st, [], []. repeat split; auto. constructor.
  - apply IH1 in H as (st1 & w1 & n1 & Hk1 & Hr1 & Hp1).
    exists (set_group n (span st st1) st1), w1, ((n, w1) :: n1).
    rewrite (span_reaches _ _ _ _ Hr1) in *.
    destruct Hr1 as (Ha & Hb & Hg).
    split; [exact Hk1 | ]. split.
    + repeat split; auto. simpl. now rewrite Hg.
    + constructor; [apply occurs_refl | exact Hp1].
  - destruct (at_boundary st); [ | discriminate].
    exists st, [], []. repeat split; auto. constructor.
  - destruct (before st); [ | discriminate].
    exists st, [], []. repeat split; auto. constructor.
  - destruct (at_end st); [ | discriminate].
    exists st, [], []. repeat split; auto. constructor.
Qed.

(** A match object lies at the start of [aft] when [group(0)] is a start of
    [aft] and each numbered group is part of [group(0)]. *)
Definition starts (m : pymatch) (aft : str) : Prop :=
  (exists rest, aft = group0 m ++ rest) /\
  forall n, occurs (group m n) (group0 m).

Definition lies_in (m : pymatch) (text : str) : Prop :=
  occurs (group0 m) text /\ forall n, occurs (group m n) (group0 m).

Lemma starts_lies_in m aft : starts m aft -> lies_in m aft.
Proof.
  intros [[rest ->] Hg]. split; [ | exact Hg].
  exists [], rest. reflexivity.
Qed.

Lemma lookup_group_parts w n gs v :
  parts_of w gs -> lookup_group n gs = Some v -> occurs v w.
Proof.
  induction gs as [ | [i x] gs IH]; intros Hp; simpl; [discriminate | ].
  inversion Hp; subst. destruct (i =? n).
  - intros Heq. now inversion Heq; subst.
  - now apply IH.
Qed.

Lemma match_here_starts ic r bef aft st :
  match_here ic r bef aft = Some st ->
  starts (to_match (start_state bef aft) st) aft /\
  aft = group0 (to_match (start_state bef aft) st) ++ after st /\
  before st = rev (group0 (to_match (start_state bef aft) st)) ++ bef.
Proof.
  unfold match_here. intros H.
  apply rmatch_captures in H as (st' & w & new & Hk & Hr & Hp).
  inversion Hk; subst st'. unfold to_match. cbn [group0].
  rewrite (span_reaches _ _ _ _ Hr).
  destruct Hr as (Ha & Hb & Hg). simpl in Ha, Hb, Hg.
  rewrite app_nil_r in Hg. repeat split; eauto.
  intros n. unfold group. cbn [group0 captures]. destruct n as [ | n].
  - apply occurs_refl.
  - destruct (lookup_group (S n) (groups st)) as [v | ] eqn:Hl.
    + rewrite Hg in Hl. eapply lookup_group_parts; eauto.
    + apply occurs_nil.
Qed.

Lemma re_match_starts ic r text m :
  re_match ic r text = Some m -> starts m text.
Proof.
  unfold re_match. destruct (match_here ic r [] text) eqn:H; [ | discriminate].
  intros Heq. inversion Heq; subst m. now apply match_here_starts in H.
Qed.

Lemma lies_in_cons m c s : lies_in m s -> lies_in m (c :: s).
Proof. intros [H1 H2]. split; [now apply occurs_cons | exact H2]. Qed.

Lemma search_from_lies_in ic r aft :
  forall bef m, search_from ic r bef aft = Some m -> lies_in m aft.
Proof.
  induction aft as [ | c rest IH]; intros bef m; simpl;
    destruct (match_here ic r bef _) eqn:H; intros Heq;
    try (inversion Heq; subst m; apply starts_lies_in;
         now apply match_here_starts in H);
    try discriminate.
  apply lies_in_cons. eapply IH; eauto.
Qed.

Lemma re_search_lies_in ic r text m :
  re_search ic r text = Some m -> lies_in m text.
Proof. apply search_from_lies_in. Qed.

Lemma scan_lies_in ic r fuel :
  forall bef aft m, In m (scan ic r fuel bef aft) -> lies_in m aft.
Proof.
  induction fuel as [ | fuel IH]; intros bef aft m; simpl; [tauto | ].
  assert (Hstep : In m (match aft with
                        | [] => []
                        | c :: rest => scan ic r fuel (c :: bef) rest
                        end) -> lies_in m aft).
  { destruct aft; simpl; [tauto | ]. intros Hin. apply lies_in_cons.
    eapply IH; eauto. }
  destruct (match_here ic r bef aft) eqn:H; [ | exact Hstep].
  apply match_here_starts in H as (Hs & Haft & _).
  intros [Heq | Hin].
  - subst m. now apply starts_lies_in.
  - destruct (length (after m0) <? length aft); [ | auto].
    apply IH in Hin as [H1 H2]. split; [ | exact H2].
    rewrite Haft. now apply occurs_app_r.
Qed.

Lemma finditer_lies_in ic r text m :
  In m (finditer ic r text) -> lies_in m text.
Proof. apply scan_lies_in. Qed.

End TextFacts.

(** ** Lines and their trimming *)

Module LineFacts.

Import PyStr TextFacts.

Lemma lstrip_suffix s : exists a, s = a ++ lstrip s.
Proof.
  induction s as [ | c s [a IH]]; simpl.
  - now exists [].
  - destruct (is_space c).
    + exists (c :: a). simpl. now rewrite <- IH.
    + now exists [].
Qed.

Lemma rstrip_prefix s : exists b, s = rstrip s ++ b.
Proof.
  unfold rstrip. destruct (lstrip_suffix (rev s)) as [a Ha].
  exists (rev a). rewrite <- rev_app_distr, <- Ha. now rewrite rev_involutive.
Qed.

Lemma strip_occurs s : occurs (strip s) s.
Proof.
  unfold strip. destruct (lstrip_suffix s) as [a Ha].
  destruct (rstrip_prefix (lstrip s)) as [b Hb].
  exists a, b. now rewrite <- Hb.
Qed.

Lemma lstrip_snoc l c :
  is_space c = false -> lstrip (l ++ [c]) = lstrip l ++ [c].
Proof.
  intros Hc. induction l as [ | a l IH]; simpl.
  - now rewrite Hc.
  - destruct (is_space a); [exact IH | reflexivity].
Qed.

Lemma rstrip_cons c s :
  is_space c = false -> rstrip (c :: s) = c :: rstrip s.
Proof.
  intros Hc. unfold rstrip. simpl rev. rewrite lstrip_snoc by exact Hc.
  now rewrite rev_app_distr.
Qed.

Lemma strip_cons c s :
  is_space c = false -> strip (c :: s) = c :: rstrip s.
Proof.
  intros Hc. unfold strip. simpl lstrip. rewrite Hc. now apply rstrip_cons.
Qed.

Lemma lstrip_head s :
  lstrip s = [] \/ exists c t, lstrip s = c :: t /\ is_space c = false.
Proof.
  induction s as [ | c s IH]; simpl; [now left | ].
  destruct (is_space c) eqn:Hc; [exact IH | right; eauto].
Qed.

Lemma lstrip_lstrip s : lstrip (lstrip s) = lstrip s.
Proof.
  destruct (lstrip_head s) as [-> | (c & t & -> & Hc)]; [reflexivity | ].
  simpl. now rewrite Hc.
Qed.

Lemma rstrip_rstrip s : rstrip (rstrip s) = rstrip s.
Proof. unfold rstrip. now rewrite rev_involutive, lstrip_lstrip. Qed.

(** Trimming a trimmed text changes nothing. *)
Lemma strip_strip s : strip (strip s) = strip s.
Proof.
  assert (Hs : strip s = rstrip (lstrip s)) by reflexivity. rewrite Hs.
  destruct (lstrip_head s) as [H | (c & t & H & Hc)]; rewrite H.
  - reflexivity.
  - rewrite (rstrip_cons _ _ Hc), (strip_cons _ _ Hc). now rewrite rstrip_rstrip.
Qed.

Lemma upper_not_space c : is_upper c = true -> is_space c = false.
Proof.
  unfold is_upper, is_space, between. intros Hc.
  apply andb_true_iff in Hc as [H1 H2]. apply Nat.leb_le in H1.
  apply orb_false_iff. split; [apply orb_false_iff; split | ].
  - apply andb_false_iff. right. apply Nat.leb_gt. lia.
  - apply andb_false_iff. right. apply Nat.leb_gt. lia.
  - apply Nat.eqb_neq. lia.
Qed.

(** The first field of a split is a start of the text. *)
Lemma split_on_first sep s w ws :
  split_on sep s = w :: ws -> exists b, s = w ++ b.
Proof.
  revert w ws. induction s as [ | c s IH]; intros w ws; simpl.
  - intros H. inversion H; subst. now exists [].
  - destruct (Ascii.eqb c sep).
    + intros H. inversion H; subst. now exists (c :: s).
    + destruct (split_on sep s) as [ | w' ws'] eqn:Hs.
      * intros H. inversion H; subst. now exists s.
      * destruct (IH w' ws' eq_refl) as [b ->].
        intros H. inversion H; subst. now exists b.
Qed.

(** The fields of a split are parts of the text, free of the separator. *)
Lemma split_on_fields sep s :
  Forall (fun field => occurs field s /\ ~ In sep field) (split_on sep s).
Proof.
  induction s as [ | c s IH]; simpl.
  - constructor; [ | constructor]. split; [apply occurs_refl | tauto].
  - destruct (Ascii.eqb c sep) eqn:Hc.
    + constructor.
      * split; [apply occurs_nil | tauto].
      * eapply List.Forall_impl; [ | exact IH].
        intros f [Hf Hn]. split; [now apply occurs_cons | exact Hn].
    + apply Ascii.eqb_neq in Hc.
      destruct (split_on sep s) as [ | w ws] eqn:Hs.
      * constructor; [ | constructor]. split.
        -- exists [], s. reflexivity.
        -- intros [H | []]. congruence.
      * destruct (split_on_first _ _ _ _ Hs) as [b Hb].
        inversion IH as [ | ? ? [_ Hn] Hws]; subst. constructor.
        -- split.
           ++ exists [], b. reflexivity.
           ++ intros [H | H]; [congruence | tauto].
        -- eapply List.Forall_impl; [ | exact Hws].
           intros f [Hf Hn']. split; [ | exact Hn'].
           apply (occurs_cons f c (w ++ b)). exact Hf.
Qed.

End LineFacts.

(** ** Runs of digit words *)

Module SpokenRuns.

Import PyStr Re Utils ReFacts RunFacts KeyFacts ExtractFacts TextFacts
  LineFacts ReEval ReRuns.

(** The words of [SPOKEN_DIGITS]. *)
Definition digit_words : list str := Dict.keys SPOKEN_DIGITS.

(** The digit of a digit word. *)
Definition digit_of (w : str) : str :=
  match Dict.get w SPOKEN_DIGITS with
  | Some d => d
  | None => []
  end.

Definition digits_of (ws : list str) : str := concat (map digit_of ws).

(** Words written one after the other, each after a single space. *)
Definition spaced (ws : list str) : str :=
  concat (map (fun w => py " " ++ w) ws).

(** A run of words separated by single spaces. *)
Definition word_run (w : str) (ws : list str) : str := w ++ spaced ws.

(** A digit word at the head of the text is passed, whatever follows it:
    no other alternative can take its place, since no digit word starts
    another. *)
Lemma digit_word_at w :
  In w digit_words ->
  forall bef rest gs k,
    rmatch true digit_word (MState bef (w ++ rest) gs) k =
    k (MState (rev w ++ bef) rest gs).
Proof.
  intros Hin bef rest gs k. unfold digit_words, SPOKEN_DIGITS in Hin.
  cbn [Dict.keys map fst] in Hin.
  repeat (destruct Hin as [<- | Hin]); [ .. | destruct Hin];
    vm_compute;
    match goal with
    | |- context [k ?st] => destruct (k st); reflexivity
    end.
Qed.

(** What a digit word is made of. *)
Lemma digit_word_chars w :
  In w digit_words ->
  w <> [] /\ Forall (fun c => is_space c = false /\ is_word c = true) w /\
  lower w = w /\ length (digit_of w) = 1.
Proof.
  intros Hin. unfold digit_words, SPOKEN_DIGITS in Hin.
  cbn [Dict.keys map fst] in Hin.
  repeat (destruct Hin as [<- | Hin]); [ .. | destruct Hin];
    (split; [discriminate | ]);
    (split; [repeat constructor | split; reflexivity]).
Qed.

Definition stops (tail : str) : Prop :=
  match tail with
  | c :: _ => is_space c = false
  | [] => True
  end.

Definition more_words : regex := Seq (Plus space) (Group 2 digit_word).

(** The star of the pattern passes every word of the run. *)
Lemma more_words_passed ws :
  Forall (fun w => In w digit_words) ws ->
  forall bef gs tail,
    stops tail ->
    exists bef' gs',
      rmatch true (Star more_words) (MState bef (spaced ws ++ tail) gs) Some =
      Some (MState bef' tail gs').
Proof.
  induction ws as [ | w ws IH]; intros Hws bef gs tail Htail.
  - exists bef, gs. cbn [spaced map concat app].
    rewrite rmatch_star. unfold more_words, Plus, space.
    rewrite !rmatch_seq, rmatch_chr.
    destruct tail as [ | c tail]; [reflexivity | ].
    simpl in Htail. cbn [cset_mem]. now rewrite Htail.
  - inversion Hws as [ | ? ? Hw Hws']; subst.
    destruct (digit_word_chars w Hw) as (Hne & Hchars & _).
    destruct (IH Hws' (rev w ++ " "%char :: bef) ((2, w) :: gs) tail Htail)
      as (bef' & gs' & Hrun).
    exists bef', gs'.
    unfold spaced. cbn [map concat]. fold (spaced ws).
    rewrite <- !app_assoc. cbn [py list_ascii_of_string app].
    rewrite rmatch_star. unfold more_words at 1, Plus, space.
    rewrite !rmatch_seq, rmatch_chr. cbn [cset_mem].
    change (is_space " ") with true. cbv iota.
    rewrite rmatch_star_chr, star_run_end.
    2: { destruct w as [ | c w]; [congruence | ]. inversion Hchars; subst.
         simpl. tauto. }
    rewrite rmatch_group, (digit_word_at w Hw).
    unfold set_group. cbn [before after groups].
    rewrite span_app. cbn [length].
    replace (length (spaced ws ++ tail) <?
             S (length (w ++ spaced ws ++ tail))) with true
      by (symmetry; apply Nat.ltb_lt; rewrite (length_app w); lia).
    fold more_words. now rewrite Hrun.
Qed.

(** At the start of a text that begins with a run of digit words, the
    pattern passes the whole run, whatever follows the last word, as long
    as it is not white space. *)
Lemma run_matched w ws tail :
  In w digit_words -> Forall (fun w => In w digit_words) ws -> stops tail ->
  exists st,
    match_here true spoken_pattern [] (word_run w ws ++ tail) = Some st /\
    after st = tail /\
    group0 (to_match (start_state [] (word_run w ws ++ tail)) st) =
      word_run w ws.
Proof.
  intros Hw Hws Htail.
  destruct (digit_word_chars w Hw) as (Hne & Hchars & _).
  destruct (more_words_passed ws Hws (rev w) [(1, w)] tail Htail)
    as (bef' & gs' & Hrun).
  exists (MState bef' tail gs').
  assert (Hm : match_here true spoken_pattern [] (word_run w ws ++ tail) =
               Some (MState bef' tail gs')).
  { unfold match_here, start_state, spoken_pattern, word_run.
    rewrite <- app_assoc, rmatch_seq, rmatch_wordb.
    replace (at_boundary (MState [] (w ++ spaced ws ++ tail) [])) with true.
    2: { destruct w as [ | c w]; [congruence | ]. inversion Hchars; subst.
         unfold at_boundary, word_before, word_after. simpl.
         destruct H1 as [_ ->]. reflexivity. }
    rewrite rmatch_seq, rmatch_group, (digit_word_at w Hw).
    unfold set_group. cbn [before after groups].
    rewrite span_app, app_nil_r. exact Hrun. }
  split; [exact Hm | ]. split; [reflexivity | ].
  unfold to_match, start_state. cbn [group0]. apply span_app.
Qed.

(** *** The words of a run, and its digits *)

Lemma split_ws_aux_word w :
  Forall (fun c => is_space c = false /\ is_word c = true) w ->
  forall cur s, split_ws_aux cur (w ++ s) = split_ws_aux (rev w ++ cur) s.
Proof.
  induction w as [ | c w IH]; intros Hw cur s; [reflexivity | ].
  inversion Hw as [ | ? ? [Hc _] Hw']; subst. cbn [app split_ws_aux].
  rewrite Hc, IH by exact Hw'. simpl. now rewrite <- app_assoc.
Qed.

Lemma split_ws_aux_run ws :
  Forall (fun w => In w digit_words) ws ->
  forall cur, cur <> [] ->
    split_ws_aux cur (spaced ws) = rev cur :: ws.
Proof.
  induction ws as [ | w ws IH]; intros Hws cur Hcur.
  - simpl. destruct cur; [congruence | reflexivity].
  - inversion Hws as [ | ? ? Hw Hws']; subst.
    destruct (digit_word_chars w Hw) as (Hne & Hchars & _).
    unfold spaced. cbn [map concat]. fold (spaced ws).
    rewrite <- app_assoc. cbn [py list_ascii_of_string app split_ws_aux].
    change (is_space " ") with true. cbv iota.
    destruct cur as [ | x cur]; [congruence | ]. f_equal.
    rewrite (split_ws_aux_word w Hchars), app_nil_r.
    rewrite IH; [now rewrite rev_involutive | exact Hws' | ].
    destruct w; [congruence | ]. simpl.
    intros H. apply app_eq_nil in H as [_ H]. discriminate.
Qed.

Lemma split_ws_run w ws :
  In w digit_words -> Forall (fun w => In w digit_words) ws ->
  split_ws (word_run w ws) = w :: ws.
Proof.
  intros Hw Hws. destruct (digit_word_chars w Hw) as (Hne & Hchars & _).
  unfold split_ws, word_run.
  rewrite (split_ws_aux_word w Hchars), app_nil_r.
  rewrite split_ws_aux_run; [now rewrite rev_involutive | exact Hws | ].
  destruct w; [congruence | ]. simpl.
  intros H. apply app_eq_nil in H as [_ H]. discriminate.
Qed.

Lemma digits_of_words xs :
  Forall (fun w => In w digit_words) xs ->
  concat (map (fun word =>
                 match Dict.get (lower word) SPOKEN_DIGITS with
                 | Some d => d
                 | None => []
                 end) xs) = digits_of xs /\
  length (digits_of xs) = length xs.
Proof.
  unfold digits_of.
  induction xs as [ | x xs IH]; intros Hall; [split; reflexivity | ].
  inversion Hall as [ | ? ? Hx Hxs]; subst.
  destruct (digit_word_chars x Hx) as (_ & _ & Hlow & Hlen).
  destruct (IH Hxs) as [E L]. cbn [map concat]. rewrite Hlow. fold (digit_of x).
  split; [now rewrite E | ]. rewrite length_app, Hlen, L. reflexivity.
Qed.

Lemma spoken_to_digits_run w ws :
  In w digit_words -> Forall (fun w => In w digit_words) ws ->
  spoken_to_digits (word_run w ws) = digits_of (w :: ws) /\
  length (digits_of (w :: ws)) = S (length ws).
Proof.
  intros Hw Hws. unfold spoken_to_digits. rewrite (split_ws_run w ws Hw Hws).
  apply (digits_of_words (w :: ws)). now constructor.
Qed.

(** *** The first match of the scan *)

Lemma first_spoken_match w ws tail :
  In w digit_words -> Forall (fun w => In w digit_words) ws -> stops tail ->
  exists m ms,
    finditer true spoken_pattern (word_run w ws ++ tail) = m :: ms /\
    group m 0 = word_run w ws.
Proof.
  intros Hw Hws Htail.
  destruct (run_matched w ws tail Hw Hws Htail) as (st & Hm & _ & Hg).
  unfold finditer. rewrite scan_resumes by reflexivity. rewrite Hm.
  eexists. eexists. split; [reflexivity | exact Hg].
Qed.

(** What the first item of a loop proposes ends up among the keys. *)
Lemma offer_first {A : Type} (candidate : A -> option mention) a l tickets t :
  candidate a = Some t ->
  In (key t) (keys (fold_left (offer candidate) (a :: l) tickets)) /\
  (key_emitted (key t) tickets = false ->
   In t (fold_left (offer candidate) (a :: l) tickets)).
Proof.
  intros Hc. cbn [fold_left].
  destruct (offer_fold candidate l (offer candidate tickets a))
    as (added & E & _).
  rewrite E.
  assert (Ho : offer candidate tickets a =
               if key_emitted (key t) tickets then tickets
               else tickets ++ [t])
    by (unfold offer; now rewrite Hc).
  rewrite Ho.
  destruct (key_emitted (key t) tickets) eqn:He.
  - split; [ | discriminate]. unfold keys. rewrite map_app.
    apply in_or_app. left. now apply key_emitted_In.
  - split.
    + unfold keys. rewrite !map_app. apply in_or_app. left.
      apply in_or_app. right. now left.
    + intros _. apply in_or_app. left. apply in_or_app. right. now left.
Qed.

Lemma run_key_extracted w ws tail default_project :
  In w digit_words -> Forall (fun w => In w digit_words) ws -> stops tail ->
  2 <= length ws ->
  let text := word_run w ws ++ tail in
  let t := Mention (project_key default_project (digits_of (w :: ws)))
             low spoken_digits in
  In (key t) (keys (extract_ticket_keys text default_project)) /\
  (key_emitted (key t)
     (partial_tier text default_project (full_tier text)) = false ->
   In t (extract_ticket_keys text default_project)).
Proof.
  intros Hw Hws Htail Hlen text t.
  destruct (first_spoken_match w ws tail Hw Hws Htail) as (m & ms & Hf & Hg).
  destruct (spoken_to_digits_run w ws Hw Hws) as [Hd Hl].
  unfold extract_ticket_keys. rewrite spoken_tier_offer.
  subst text. cbv zeta. rewrite Hf.
  apply offer_first. unfold spoken_candidate, spoken_mention.
  rewrite Hg, Hd, Hl.
  replace (3 <=? S (length ws)) with true
    by (symmetry; apply Nat.leb_le; lia).
  reflexivity.
Qed.

(** *** What a match of the pattern is made of *)

Lemma lower_char_space c : is_space (lower_char c) = is_space c.
Proof.
  unfold lower_char. destruct (is_upper c) eqn:Hu; [ | reflexivity].
  rewrite (upper_not_space c Hu).
  unfold is_upper, between in Hu. apply andb_true_iff in Hu as [H1 H2].
  apply Nat.leb_le in H1, H2.
  assert (Hcode : code (ascii_of_nat (code c + 32)) = code c + 32).
  { unfold code. apply nat_ascii_embedding. unfold code in H2. lia. }
  unfold is_space, between. rewrite Hcode.
  apply orb_false_iff. split; [apply orb_false_iff; split | ].
  - apply andb_false_iff. right. apply Nat.leb_gt. lia.
  - apply andb_false_iff. right. apply Nat.leb_gt. lia.
  - apply Nat.eqb_neq. lia.
Qed.

Lemma matches_lit_ci s :
  forall w, matches true (Lit s) w -> lower w = lower s.
Proof.
  induction s as [ | c s IH]; intros w H.
  - inversion H; subst. reflexivity.
  - destruct s as [ | d s].
    + simpl in H. apply matches_chr_inv in H as (x & -> & Hx).
      simpl in Hx. apply Ascii.eqb_eq in Hx. simpl. now rewrite Hx.
    + change (Lit (c :: d :: s)) with (Seq (Chr (CLit c)) (Lit (d :: s))) in H.
      apply matches_seq_inv in H as (w1 & w2 & -> & Hc & Hr).
      apply matches_chr_inv in Hc as (x & -> & Hx).
      simpl in Hx. apply Ascii.eqb_eq in Hx.
      apply IH in Hr. unfold lower in *. cbn [app map].
      rewrite Hx. f_equal. exact Hr.
Qed.

Lemma matches_alt_of ic rs :
  forall w, rs <> [] -> matches ic (AltOf rs) w ->
            exists r, In r rs /\ matches ic r w.
Proof.
  induction rs as [ | r rs IH]; intros w Hne H; [congruence | ].
  destruct rs as [ | r' rs].
  - exists r. split; [now left | exact H].
  - change (AltOf (r :: r' :: rs)) with (Alt r (AltOf (r' :: rs))) in H.
    inversion H; subst.
    + exists r. split; [now left | assumption].
    + destruct (IH w) as (r0 & Hin & Hm); [discriminate | assumption | ].
      exists r0. split; [now right | exact Hm].
Qed.

(** A word that the pattern takes for a digit word is one, case apart. *)
Lemma matches_digit_word w :
  matches true digit_word w ->
  In (lower w) digit_words /\ w <> [] /\
  Forall (fun c => is_space c = false) w.
Proof.
  intros H. unfold digit_word in H.
  apply matches_alt_of in H as (r & Hin & Hm); [ | discriminate].
  apply in_map_iff in Hin as (k & <- & Hk).
  apply matches_lit_ci in Hm.
  fold digit_words in Hk.
  destruct (digit_word_chars k Hk) as (Hne & Hchars & Hlow & _).
  rewrite Hlow in Hm. split; [now rewrite Hm | ]. split.
  - intros ->. simpl in Hm. congruence.
  - assert (Hs : Forall (fun c => is_space c = false) (lower w)).
    { rewrite Hm. eapply List.Forall_impl; [ | exact Hchars].
      intros c [Hc _]. exact Hc. }
    unfold lower in Hs. rewrite List.Forall_map in Hs.
    eapply List.Forall_impl; [ | exact Hs].
    intros c Hc. cbv beta in Hc. now rewrite lower_char_space in Hc.
Qed.

(** White space, then a word, and so on. *)
Definition gapped (pairs : list (str * str)) : str :=
  concat (map (fun p => fst p ++ snd p) pairs).

Definition gap_and_word (p : str * str) : Prop :=
  fst p <> [] /\ Forall (fun c => is_space c = true) (fst p) /\
  matches true digit_word (snd p).

Lemma matches_more_words x :
  matches true (Star more_words) x ->
  exists pairs, x = gapped pairs /\ Forall gap_and_word pairs.
Proof.
  intros H. remember (Star more_words) as r eqn:Hr.
  induction H; try discriminate.
  - exists []. split; [reflexivity | constructor].
  - inversion Hr; subst r. clear IHmatches1.
    destruct (IHmatches2 eq_refl) as (pairs & -> & Hp).
    unfold more_words in H.
    apply matches_seq_inv in H as (sp & w & -> & Hsp & Hw).
    apply matches_plus_chr in Hsp as [Hne Hsp].
    apply matches_group_inv in Hw.
    exists ((sp, w) :: pairs). split; [reflexivity | ].
    constructor; [ | exact Hp]. split; [exact Hne | ]. split; [ | exact Hw].
    eapply List.Forall_impl; [ | exact Hsp]. intros c Hc. exact Hc.
Qed.

Lemma spoken_match_parts run :
  matches true spoken_pattern run ->
  exists w pairs,
    run = w ++ gapped pairs /\ matches true digit_word w /\
    Forall gap_and_word pairs.
Proof.
  intros H. unfold spoken_pattern in H.
  apply matches_seq_inv in H as (w0 & w' & -> & Hb & H).
  inversion Hb; subst. 
  apply matches_seq_inv in H as (w & x & -> & Hw & Hx).
  apply matches_group_inv in Hw.
  fold more_words in Hx.
  destruct (matches_more_words x Hx) as (pairs & -> & Hp).
  exists w, pairs. repeat split; auto.
Qed.

Lemma split_ws_aux_letters w :
  Forall (fun c => is_space c = false) w ->
  forall cur s, split_ws_aux cur (w ++ s) = split_ws_aux (rev w ++ cur) s.
Proof.
  induction w as [ | c w IH]; intros Hw cur s; [reflexivity | ].
  inversion Hw as [ | ? ? Hc Hw']; subst. cbn [app split_ws_aux].
  rewrite Hc, IH by exact Hw'. simpl. now rewrite <- app_assoc.
Qed.

Lemma split_ws_aux_gap sp :
  Forall (fun c => is_space c = true) sp ->
  forall s, split_ws_aux [] (sp ++ s) = split_ws_aux [] s.
Proof.
  induction sp as [ | c sp IH]; intros Hsp s; [reflexivity | ].
  inversion Hsp; subst. cbn [app split_ws_aux].
  match goal with H : is_space c = true |- _ => rewrite H end.
  now apply IH.
Qed.

Lemma split_ws_aux_gapped pairs :
  Forall gap_and_word pairs ->
  forall cur, cur <> [] ->
    split_ws_aux cur (gapped pairs) = rev cur :: map snd pairs.
Proof.
  induction pairs as [ | [sp w] pairs IH]; intros Hp cur Hcur.
  - simpl. destruct cur; [congruence | reflexivity].
  - inversion Hp as [ | ? ? (Hne & Hsp & Hw) Hp']; subst. cbn [fst snd] in *.
    destruct (matches_digit_word w Hw) as (_ & Hwne & Hchars).
    unfold gapped. cbn [map concat fst snd]. fold (gapped pairs).
    rewrite <- app_assoc.
    destruct sp as [ | c sp]; [congruence | ]. inversion Hsp; subst.
    cbn [app split_ws_aux].
    match goal with H : is_space c = true |- _ => rewrite H end.
    destruct cur as [ | x cur]; [congruence | ]. f_equal.
    rewrite split_ws_aux_gap by assumption.
    rewrite (split_ws_aux_letters w Hchars), app_nil_r.
    rewrite IH; [now rewrite rev_involutive | exact Hp' | ].
    destruct w; [congruence | ]. simpl.
    intros H. apply app_eq_nil in H as [_ H]. discriminate.
Qed.

(** A run that the pattern matched is made of digit words, case apart,
    with white space between them. *)
Definition digit_word_run (run : str) : Prop :=
  exists w ws,
    split_ws run = w :: ws /\
    Forall (fun x => In (lower x) digit_words) (w :: ws).

Lemma spoken_match_run run :
  matches true spoken_pattern run -> digit_word_run run.
Proof.
  intros H. destruct (spoken_match_parts run H) as (w & pairs & -> & Hw & Hp).
  destruct (matches_digit_word w Hw) as (Hin & Hne & Hchars).
  exists w, (map snd pairs). split.
  - unfold split_ws. rewrite (split_ws_aux_letters w Hchars), app_nil_r.
    rewrite split_ws_aux_gapped; [now rewrite rev_involutive | exact Hp | ].
    destruct w; [congruence | ]. simpl.
    intros H'. apply app_eq_nil in H' as [_ H']. discriminate.
  - constructor; [exact Hin | ]. apply List.Forall_map.
    eapply List.Forall_impl; [ | exact Hp].
    intros [sp x] (_ & _ & Hx). now apply matches_digit_word in Hx.
Qed.

(** *** A digit word that starts a longer word *)

Lemma word_not_space c : is_word c = true -> is_space c = false.
Proof.
  intros H. destruct c as [b0 b1 b2 b3 b4 b5 b6 b7].
  destruct b0, b1, b2, b3, b4, b5, b6, b7; try reflexivity;
    vm_compute in H; discriminate.
Qed.

(** C10: the spoken-digits pattern ends without a word boundary. For
    every run of digit words separated by single spaces at the start of
    a text, the last of them immediately followed by a word character
    (so that it is the start of a longer word), the first match of the
    scan is the whole run, that last word included, and its digits are
    those of all the words, one each. With three words or more the key
    made of the default project and these digits is among the keys of the
    result, and unless an earlier tier emitted that key the result holds
    the low-confidence spoken-digits mention of it. On "one two nineteen"
    the match is "one two nine" and the result is the mention of
    project-129 (WJR-129 for project WJR). *)
Theorem digit_word_prefix_counts :
  (forall w ws c more default_project,
     In w digit_words -> Forall (fun x => In x digit_words) ws ->
     is_word c = true ->
     (exists m ms,
        finditer true spoken_pattern (word_run w ws ++ c :: more) = m :: ms /\
        group m 0 = word_run w ws /\
        spoken_to_digits (group m 0) = digits_of (w :: ws) /\
        length (digits_of (w :: ws)) = S (length ws)) /\
     (2 <= length ws ->
      In (project_key default_project (digits_of (w :: ws)))
        (keys (extract_ticket_keys (word_run w ws ++ c :: more)
                 default_project)) /\
      (key_emitted (project_key default_project (digits_of (w :: ws)))
         (partial_tier (word_run w ws ++ c :: more) default_project
            (full_tier (word_run w ws ++ c :: more))) = false ->
       In (Mention (project_key default_project (digits_of (w :: ws)))
             low spoken_digits)
         (extract_ticket_keys (word_run w ws ++ c :: more)
            default_project)))) /\
  map group0 (finditer true spoken_pattern "one two nineteen") =
    [py "one two nine"] /\
  extract_ticket_keys "one two nineteen" "WJR" =
    [Mention (py "WJR-129") low spoken_digits] /\
  (forall default_project,
     extract_ticket_keys "one two nineteen" default_project =
     [Mention (project_key default_project "129") low spoken_digits]).
Proof.
  split.
  { intros w ws c more default_project Hw Hws Hc.
    assert (Hstop : stops (c :: more)) by (simpl; now apply word_not_space).
    split.
    - destruct (first_spoken_match w ws (c :: more) Hw Hws Hstop)
        as (m & ms & Hf & Hg).
      destruct (spoken_to_digits_run w ws Hw Hws) as [Hd Hl].
      exists m, ms. rewrite Hg. auto.
    - intros Hlen.
      exact (run_key_extracted w ws (c :: more) default_project
               Hw Hws Hstop Hlen). }
  split; [vm_compute; reflexivity | ].
  split; [vm_compute; reflexivity | ].
  intros default_project. vm_compute. reflexivity.
Qed.

Lemma digit_word_prefix_counts_witness :
  In (py "WJR-129") (keys (extract_ticket_keys "one two nineteen" "WJR")) /\
  In (Mention (py "WJR-129") low spoken_digits)
    (extract_ticket_keys "one two nineteen" "WJR").
Proof.
  destruct (proj1 digit_word_prefix_counts
              (py "one") [py "two"; py "nine"] "t"%char (py "een") (py "WJR"))
    as [_ H].
  - vm_compute. tauto.
  - repeat constructor; vm_compute; tauto.
  - reflexivity.
  - destruct H as [H1 H2]; [simpl; lia | ].
    split; [exact H1 | ]. apply H2. vm_compute. reflexivity.
Defined.

End SpokenRuns.

(** ** The keys that [extract_ticket_keys] returns *)

Module TicketKeys.

Import PyStr Re Utils ReFacts RunFacts KeyFacts ExtractFacts TextFacts
  SpokenRuns.

Definition capitals (s : str) : Prop := Forall (fun c => is_upper c = true) s.

Lemma matches_upto_len ic cs n :
  forall w, matches ic (UpTo n (Chr cs)) w -> length w <= n.
Proof.
  induction n as [ | n IH]; intros w H; simpl in H.
  - inversion H; subst. simpl. lia.
  - unfold Opt in H. inversion H; subst.
    + match goal with
      | H1 : matches _ (Seq _ _) _ |- _ =>
          apply matches_seq_inv in H1 as (w1 & w2 & -> & Hc & Hr)
      end.
      apply matches_chr_inv in Hc as (c & -> & _). apply IH in Hr.
      simpl. lia.
    + match goal with
      | H1 : matches _ Eps _ |- _ => inversion H1; subst
      end.
      simpl. lia.
Qed.

Lemma matches_rep_len ic cs lo extra :
  forall w, matches ic (Rep lo extra (Chr cs)) w -> length w <= lo + extra.
Proof.
  induction lo as [ | lo IH]; intros w H; simpl in H.
  - now apply matches_upto_len in H.
  - apply matches_seq_inv in H as (w1 & w2 & -> & Hc & Hr).
    apply matches_chr_inv in Hc as (c & -> & _). apply IH in Hr.
    simpl. lia.
Qed.

(** Group 1 of a full-key match: 2 to 10 capitals, a hyphen, digits. *)
Lemma full_key_parts m :
  sound_match false full_pattern m ->
  exists project suffix,
    group m 1 = project ++ py "-" ++ suffix /\
    capitals project /\ 2 <= length project <= 10 /\
    suffix <> [] /\ all_digits suffix.
Proof.
  intros Hs.
  assert (Hm : matches false
                 (Seq (Rep 2 8 upper_AZ) (Seq (Chr (CLit "-")) (Plus digit)))
                 (group m 1)).
  { apply (group_sound false full_pattern m 1 _ Hs).
    - simpl. auto.
    - simpl. intros b [Hb | []]. now inversion Hb.
    - discriminate. }
  apply matches_seq_inv in Hm as (w1 & w' & Heq & Hup & Hm).
  apply matches_seq_inv in Hm as (w2 & w3 & -> & Hc & Hdig).
  pose proof (matches_rep_len _ _ _ _ _ Hup) as Hlen.
  apply matches_rep_chr in Hup as [Hup Hlo].
  apply matches_chr_inv in Hc as (c & -> & Hc).
  apply matches_plus_chr in Hdig as [Hne Hdig].
  simpl in Hc. apply Ascii.eqb_eq in Hc. subst c.
  exists w1, w3. split; [exact Heq | ]. split; [exact Hup | ].
  split; [lia | ]. split; [exact Hne | exact Hdig].
Qed.

(** What a mention of each kind carries. *)
Definition key_shaped (default_project : str) (t : mention) : Prop :=
  exists project suffix,
    key t = project ++ py "-" ++ suffix /\
    suffix <> [] /\ all_digits suffix /\
    match type t with
    | full_key =>
        confidence t = high /\ capitals project /\ 2 <= length project <= 10
    | partial_numeric => confidence t = medium /\ project = default_project
    | spoken_digits =>
        confidence t = low /\ project = default_project /\ 3 <= length suffix
    end.

(** Where the key of a mention of each kind comes from. *)
Definition drawn_from (text default_project : str) (t : mention) : Prop :=
  match type t with
  | full_key => contains (key t) text = true
  | partial_numeric =>
      exists digits,
        key t = project_key default_project digits /\
        contains digits text = true
  | spoken_digits =>
      exists run,
        key t = project_key default_project (spoken_to_digits run) /\
        contains run text = true /\ digit_word_run run
  end.

Lemma mention_cases text default_project t :
  In t (extract_ticket_keys text default_project) ->
  (exists m, In m (finditer false full_pattern text) /\ t = full_mention m) \/
  (exists m, In m (finditer true partial_pattern text) /\
             t = partial_mention default_project m) \/
  (exists m, In m (finditer true spoken_pattern text) /\
             3 <= length (spoken_to_digits (group m 0)) /\
             t = spoken_mention default_project m).
Proof.
  intros Hin.
  destruct (extract_structure text default_project)
    as (partial & spoken & E & _ & P & S & _).
  rewrite E in Hin. apply in_app_or in Hin as [Hin | Hin].
  { left. rewrite full_tier_map in Hin.
    apply in_map_iff in Hin as (m & <- & Hm). eauto. }
  apply in_app_or in Hin as [Hin | Hin]; [right; left | right; right]; auto.
Qed.

(** X1: On an ASCII text, every key returned is a project, a hyphen and a run
    of digits 0 to 9: 2 to 10 capitals A to Z for a key read off the text,
    the default project for a synthesized key, with at least three digits
    when they were spoken. *)
Theorem ticket_keys_well_formed (text default_project : str) :
  isascii text = true ->
  Forall (key_shaped default_project)
    (extract_ticket_keys text default_project).
Proof.
  intros _. apply List.Forall_forall. intros t Hin.
  destruct (mention_cases _ _ _ Hin)
    as [(m & Hm & ->) | [(m & Hm & ->) | (m & Hm & Hlen & ->)]].
  - apply finditer_sound in Hm.
    apply full_key_parts in Hm as (p & d & Hk & Hc & Hl & Hne & Hd).
    exists p, d. simpl. repeat split; auto; lia.
  - apply finditer_sound in Hm.
    apply partial_number_shape in Hm as [Hne Hd].
    exists default_project, (group m 1). simpl. repeat split; auto.
  - exists default_project, (spoken_to_digits (group m 0)).
    split; [reflexivity | ].
    split; [intros H0; rewrite H0 in Hlen; simpl in Hlen; lia | ].
    split; [apply spoken_to_digits_all_digits | ].
    repeat split; try reflexivity. exact Hlen.
Qed.

Lemma ticket_keys_well_formed_witness :
  Forall (key_shaped "WJR")
    (extract_ticket_keys "ABC-12 blocks ticket 7, see one two three" "WJR").
Proof.
  apply (ticket_keys_well_formed
           "ABC-12 blocks ticket 7, see one two three" "WJR").
  reflexivity.
Defined.

(** X2: On an ASCII text, a key read off the text is there verbatim; the
    digits of a key built from a keyword and a number are there verbatim;
    the digits of a key built from spoken digits are those of a part of
    the text whose fields, as [split] cuts them, are all digit words, in
    any case of letters. *)
Theorem ticket_keys_drawn_from_text (text default_project : str) :
  isascii text = true ->
  Forall (drawn_from text default_project)
    (extract_ticket_keys text default_project).
Proof.
  intros _. apply List.Forall_forall. intros t Hin.
  destruct (mention_cases _ _ _ Hin)
    as [(m & Hm & ->) | [(m & Hm & ->) | (m & Hm & Hlen & ->)]];
    pose proof (finditer_sound _ _ _ _ Hm) as (Hrun & _);
    apply finditer_lies_in in Hm as [H0 Hg]; unfold drawn_from; simpl.
  - apply contains_occurs. exact (occurs_trans _ _ _ (Hg 1) H0).
  - exists (group m 1). split; [reflexivity | ].
    apply contains_occurs. exact (occurs_trans _ _ _ (Hg 1) H0).
  - exists (group m 0). split; [reflexivity | ].
    split; [apply contains_occurs; exact H0 | ].
    now apply spoken_match_run.
Qed.

Lemma ticket_keys_drawn_from_text_witness :
  Forall (drawn_from "ABC-12 blocks ticket 7, see One two THREE" "WJR")
    (extract_ticket_keys "ABC-12 blocks ticket 7, see One two THREE" "WJR").
Proof.
  apply (ticket_keys_drawn_from_text
           "ABC-12 blocks ticket 7, see One two THREE" "WJR").
  reflexivity.
Defined.

Definition no_capital (text : str) : Prop :=
  Forall (fun c => is_upper c = false) text.
Definition no_digit (text : str) : Prop :=
  Forall (fun c => is_digit c = false) text.

Lemma none_in (P : ascii -> bool) (text x : str) c :
  Forall (fun c => P c = false) text -> occurs x text -> In c x ->
  P c = true -> False.
Proof.
  intros Hall Hocc Hin Hc. rewrite List.Forall_forall in Hall.
  rewrite (Hall c) in Hc; [discriminate | ]. eapply occurs_In; eauto.
Qed.

(** X3: The full-key tier is case-sensitive and the two first tiers need a
    written number: a text without a capital letter A to Z yields no
    full-key mention, and an ASCII text without a digit 0 to 9 yields
    spoken-digits mentions only. *)
Theorem tiers_need_their_characters (text default_project : str) :
  (no_capital text ->
   Forall (fun t => type t <> full_key)
     (extract_ticket_keys text default_project)) /\
  (isascii text = true -> no_digit text ->
   Forall (fun t => type t = spoken_digits)
     (extract_ticket_keys text default_project)).
Proof.
  split; [intros Hno | intros _ Hno]; apply List.Forall_forall; intros t Hin;
    destruct (mention_cases _ _ _ Hin)
      as [(m & Hm & ->) | [(m & Hm & ->) | (m & Hm & Hlen & ->)]];
    try discriminate; try reflexivity; exfalso.
  - pose proof (finditer_lies_in _ _ _ _ Hm) as [H0 Hg].
    apply finditer_sound in Hm.
    apply full_key_parts in Hm as (p & d & Hk & Hc & Hl & _).
    destruct p as [ | c p]; [simpl in Hl; lia | ].
    inversion Hc; subst.
    apply (none_in is_upper text (group m 1) c Hno).
    + exact (occurs_trans _ _ _ (Hg 1) H0).
    + rewrite Hk. now left.
    + assumption.
  - pose proof (finditer_lies_in _ _ _ _ Hm) as [H0 Hg].
    apply finditer_sound in Hm.
    apply full_key_parts in Hm as (p & d & Hk & _ & _ & Hne & Hd).
    destruct d as [ | c d]; [congruence | ]. inversion Hd; subst.
    apply (none_in is_digit text (group m 1) c Hno).
    + exact (occurs_trans _ _ _ (Hg 1) H0).
    + rewrite Hk. apply in_or_app. right. right. now left.
    + assumption.
  - pose proof (finditer_lies_in _ _ _ _ Hm) as [H0 Hg].
    apply finditer_sound in Hm.
    apply partial_number_shape in Hm as [Hne Hd].
    destruct (group m 1) as [ | c d] eqn:Hk; [congruence | ].
    inversion Hd; subst.
    apply (none_in is_digit text (c :: d) c Hno).
    + rewrite <- Hk. exact (occurs_trans _ _ _ (Hg 1) H0).
    + now left.
    + assumption.
Qed.

Lemma tiers_need_their_characters_witness :
  Forall (fun t => type t <> full_key)
    (extract_ticket_keys "wjr-123 is done, ticket 7 is not" "WJR") /\
  Forall (fun t => type t = spoken_digits)
    (extract_ticket_keys "ABC-one two three" "WJR").
Proof.
  split.
  - apply (proj1 (tiers_need_their_characters
                    "wjr-123 is done, ticket 7 is not" "WJR")).
    unfold no_capital. repeat constructor.
  - apply (proj2 (tiers_need_their_characters "ABC-one two three" "WJR")).
    + reflexivity.
    + unfold no_digit. repeat constructor.
Defined.

End TicketKeys.

(** ** What [parse_speakers] keeps of a transcript *)

Module SpeakerFacts.

Import PyStr Re Utils ReFacts RunFacts KeyFacts DictFacts TextFacts LineFacts.

(** *** An invariant of the loop, for any property of names and of
    utterances that the two branches of the loop establish *)

Section Invariant.

Variables PN PU : str -> Prop.

Definition entries_ok (d : Dict.t (list str)) : Prop :=
  Forall (fun e => PN (fst e) /\ Forall PU (snd e)) d.

Lemma set_ok k v d :
  entries_ok d -> PN k -> Forall PU v -> entries_ok (Dict.set k v d).
Proof.
  intros Hd Hk Hv. induction d as [ | [k' v'] d IH]; simpl.
  - repeat constructor; auto.
  - inversion Hd as [ | ? ? [Hk' Hv'] Hd']; subst. simpl in *.
    destruct (PyStr.eqb k' k); constructor; simpl; auto.
    now apply IH.
Qed.

Lemma append_ok k x d :
  entries_ok d -> PU x -> entries_ok (Dict.append k x d).
Proof.
  intros Hd Hx. induction d as [ | [k' v'] d IH]; simpl; [constructor | ].
  inversion Hd as [ | ? ? [Hk' Hv'] Hd']; subst. simpl in *.
  destruct (PyStr.eqb k' k); constructor; simpl; auto.
  - split; [exact Hk' | ]. apply List.Forall_app. auto.
  - now apply IH.
Qed.

Definition line_ok (line : str) : Prop :=
  match re_match false speaker_pattern (strip line) with
  | Some m =>
      PN (strip (group m 1)) /\
      (truthy (strip (group m 2)) = true -> PU (strip (group m 2)))
  | None => truthy (strip line) = true -> PU (strip line)
  end.

Lemma speakers_step_ok st line :
  line_ok line -> entries_ok (speakers st) ->
  entries_ok (speakers (speakers_step st line)).
Proof.
  unfold line_ok, speakers_step. intros Hl Hst.
  destruct (re_match false speaker_pattern (strip line)) as [m | ].
  - destruct Hl as [Hn Hu]. cbn [speakers].
    assert (H1 : entries_ok
                   (if Dict.mem (strip (group m 1)) (speakers st)
                    then speakers st
                    else Dict.set (strip (group m 1)) [] (speakers st))).
    { destruct (Dict.mem (strip (group m 1)) (speakers st)); [exact Hst | ].
      apply set_ok; auto. }
    destruct (truthy (strip (group m 2))); [ | exact H1].
    apply append_ok; auto.
  - destruct (current_speaker st) as [name | ]; [ | exact Hst].
    destruct (truthy name); simpl; [ | exact Hst].
    destruct (truthy (strip line)); simpl; [ | exact Hst].
    apply append_ok; auto.
Qed.

Lemma parse_speakers_ok text :
  Forall line_ok (split_on newline text) -> entries_ok (parse_speakers text).
Proof.
  unfold parse_speakers.
  assert (H : forall lines st,
            Forall line_ok lines -> entries_ok (speakers st) ->
            entries_ok (speakers (fold_left speakers_step lines st))).
  { induction lines as [ | l ls IH]; intros st Hl Hst; simpl; [exact Hst | ].
    inversion Hl; subst. apply IH; [assumption | ].
    now apply speakers_step_ok. }
  intros Hl. apply H; [exact Hl | constructor].
Qed.

End Invariant.

(** *** The shape of a speaker line *)

Definition name_char (c : ascii) : bool := is_alpha c || is_space c.

Definition name_body : regex :=
  Seq upper_AZ
    (Plus (Chr (CUnion (CRange "a" "z") (CUnion (CRange "A" "Z") CSpace)))).

Lemma name_body_parts w :
  matches false name_body w ->
  exists c rest,
    w = c :: rest /\ is_upper c = true /\ rest <> [] /\
    Forall (fun x => name_char x = true) rest.
Proof.
  intros Hm. apply matches_seq_inv in Hm as (w1 & w2 & -> & Hc & Hr).
  apply matches_chr_inv in Hc as (c & -> & Hc).
  apply matches_plus_chr in Hr as [Hne Hr].
  exists c, w2. repeat split; auto.
  eapply List.Forall_impl; [ | exact Hr]. intros x Hx.
  unfold name_char, is_alpha. simpl in Hx.
  change (between (code "a") (code "z") x) with (is_lower x) in Hx.
  change (between (code "A") (code "Z") x) with (is_upper x) in Hx.
  destruct (is_lower x), (is_upper x), (is_space x); auto.
Qed.

Lemma speaker_group_1 s m :
  re_match false speaker_pattern s = Some m ->
  matches false name_body (group m 1).
Proof.
  intros H. apply re_match_sound in H.
  apply (group_sound false speaker_pattern m 1 _ H).
  - simpl. auto.
  - simpl. intros b [Hb | [Hb | []]]; now inversion Hb.
  - discriminate.
Qed.

(** A line that the pattern takes for a speaker line starts with a
    capital letter and has a colon further on. *)
Definition looks_like_speaker (line : str) : bool :=
  match strip line with
  | c :: rest => is_upper c && contains (py ":") rest
  | [] => false
  end.

Lemma speaker_line_looks line m :
  re_match false speaker_pattern (strip line) = Some m ->
  looks_like_speaker line = true.
Proof.
  intros H. pose proof (re_match_starts _ _ _ _ H) as [[rest Hrest] _].
  apply re_match_sound in H as (Hm & _).
  unfold speaker_pattern in Hm.
  apply matches_seq_inv in Hm as (w0 & w' & E0 & Hb & Hm).
  apply matches_seq_inv in Hm as (w1 & w'' & -> & Hg & Hm).
  apply matches_seq_inv in Hm as (w2 & w3 & -> & Hc & _).
  apply matches_bol_inv in Hb. subst w0.
  apply matches_group_inv in Hg.
  apply name_body_parts in Hg as (c & r & -> & Hup & _ & _).
  apply matches_chr_inv in Hc as (x & -> & Hx).
  simpl in Hx. apply Ascii.eqb_eq in Hx. subst x.
  unfold looks_like_speaker. rewrite Hrest, E0. cbn [app]. rewrite Hup.
  simpl andb. apply contains_occurs. exists r, (w3 ++ rest).
  now rewrite <- !app_assoc.
Qed.

(** *** The entries of the result *)

(** A name: a capital letter, then letters and white space, trimmed, and
    part of the transcript. *)
Definition name_ok (text name : str) : Prop :=
  (exists c rest,
     name = c :: rest /\ is_upper c = true /\
     Forall (fun x => name_char x = true) rest) /\
  strip name = name /\
  contains name text = true.

(** An utterance: not empty, trimmed, within one line, and part of the
    transcript. *)
Definition utterance_ok (text u : str) : Prop :=
  u <> [] /\ strip u = u /\ ~ In newline u /\ contains u text = true.

Lemma truthy_nonempty (s : str) : truthy s = true -> s <> [].
Proof. destruct s; [discriminate | discriminate]. Qed.

Lemma prefix_Forall (P : ascii -> Prop) (s pre b : str) :
  s = pre ++ b -> Forall P s -> Forall P pre.
Proof. intros ->. intros H. now apply List.Forall_app in H as [H _]. Qed.

Lemma speaker_name_ok text line m :
  occurs line text ->
  re_match false speaker_pattern (strip line) = Some m ->
  name_ok text (strip (group m 1)).
Proof.
  intros Hline H.
  pose proof (re_match_starts _ _ _ _ H) as [[rest Hrest] Hg].
  pose proof (speaker_group_1 _ _ H) as Hn.
  apply name_body_parts in Hn as (c & r & Hk & Hup & _ & Hr).
  split; [ | split].
  - rewrite Hk, (strip_cons _ _ (upper_not_space _ Hup)).
    exists c, (rstrip r). repeat split; auto.
    destruct (rstrip_prefix r) as [b Hb].
    eapply prefix_Forall; eauto.
  - apply strip_strip.
  - apply contains_occurs.
    apply (occurs_trans _ (group m 1)); [apply strip_occurs | ].
    apply (occurs_trans _ (group0 m)); [apply Hg | ].
    apply (occurs_trans _ (strip line));
      [rewrite Hrest; apply occurs_app_l, occurs_refl | ].
    apply (occurs_trans _ line); [apply strip_occurs | exact Hline].
Qed.

Lemma part_of_line_ok text line u :
  occurs line text -> ~ In newline line ->
  occurs u (strip line) -> truthy (strip u) = true ->
  utterance_ok text (strip u).
Proof.
  intros Hline Hnl Hu Ht.
  assert (Hin : occurs (strip u) line).
  { apply (occurs_trans _ u); [apply strip_occurs | ].
    apply (occurs_trans _ (strip line)); [exact Hu | apply strip_occurs]. }
  split; [now apply truthy_nonempty | ]. split; [apply strip_strip | ]. split.
  - intros Hc. apply Hnl. eapply occurs_In; eauto.
  - apply contains_occurs. eapply occurs_trans; eauto.
Qed.

(** X4: No name comes twice in the result, and on an ASCII text every entry
    holds a well-formed name and well-formed utterances. *)
Theorem parse_speakers_entries_well_formed (text : str) :
  List.NoDup (Dict.keys (parse_speakers text)) /\
  (isascii text = true ->
   Forall (fun e => name_ok text (fst e) /\ Forall (utterance_ok text) (snd e))
     (parse_speakers text)).
Proof.
  split; [apply Segmentation.parse_speakers_keys | ]. intros _.
  apply (parse_speakers_ok (name_ok text) (utterance_ok text)).
  eapply List.Forall_impl; [ | apply (split_on_fields newline text)].
  intros line [Hline Hnl]. unfold line_ok.
  destruct (re_match false speaker_pattern (strip line)) as [m | ] eqn:H.
  - split; [eapply speaker_name_ok; eauto | ].
    intros Ht. apply (part_of_line_ok text line); auto.
    pose proof (re_match_starts _ _ _ _ H) as [[rest Hrest] Hg].
    apply (occurs_trans _ (group0 m)); [apply Hg | ].
    rewrite Hrest. apply occurs_app_l, occurs_refl.
  - intros Ht. rewrite <- (strip_strip line).
    apply (part_of_line_ok text line); auto.
    + apply occurs_refl.
    + now rewrite strip_strip.
Qed.

Definition two_speakers : str :=
  py "  Alice: fixed the bug" ++ [newline] ++ py " still testing " ++
  [newline] ++ py "Bob:" ++ [newline] ++ py "reviewed PR".

Lemma parse_speakers_entries_well_formed_witness :
  List.NoDup (Dict.keys (parse_speakers two_speakers)) /\
  Forall (fun e => name_ok two_speakers (fst e) /\
                   Forall (utterance_ok two_speakers) (snd e))
    (parse_speakers two_speakers).
Proof.
  destruct (parse_speakers_entries_well_formed two_speakers) as [Hn He].
  split; [exact Hn | ]. apply He. reflexivity.
Defined.

(** *** Speakers come from speaker lines only *)

Definition from_speaker_line (text name : str) : Prop :=
  exists line,
    In line (split_on newline text) /\ looks_like_speaker line = true /\
    contains name line = true.

Lemma speakers_from_speaker_lines text :
  Forall (from_speaker_line text) (Dict.keys (parse_speakers text)).
Proof.
  assert (H : entries_ok (from_speaker_line text) (fun _ => True)
                (parse_speakers text)).
  { apply parse_speakers_ok. apply List.Forall_forall. intros line Hin.
    unfold line_ok.
    destruct (re_match false speaker_pattern (strip line)) as [m | ] eqn:H;
      [ | auto].
    split; [ | auto]. exists line. split; [exact Hin | ]. split.
    - eapply speaker_line_looks; eauto.
    - apply (speaker_name_ok line line m (occurs_refl line) H). }
  unfold Dict.keys. apply List.Forall_map.
  eapply List.Forall_impl; [ | exact H]. intros e [He _]. exact He.
Qed.

Lemma colon_needed text line :
  In line (split_on newline text) -> looks_like_speaker line = true ->
  contains (py ":") text = true.
Proof.
  intros Hin Hl.
  pose proof (split_on_fields newline text) as Hf.
  rewrite List.Forall_forall in Hf. destruct (Hf line Hin) as [Hline _].
  unfold looks_like_speaker in Hl.
  destruct (strip line) as [ | c rest] eqn:Hs; [discriminate | ].
  apply andb_true_iff in Hl as [_ Hc]. apply contains_occurs in Hc.
  apply contains_occurs.
  apply (occurs_trans _ rest); [exact Hc | ].
  apply (occurs_trans _ (strip line));
    [rewrite Hs; apply occurs_cons, occurs_refl | ].
  apply (occurs_trans _ line); [apply strip_occurs | exact Hline].
Qed.

(** X5: On an ASCII text, each speaker of the result is named in a line
    that, once trimmed, starts with a capital letter A to Z and has a colon
    further on, and a transcript without such a line has no speaker at
    all. A transcript without a colon, ASCII or not, has no speaker. *)
Theorem speakers_need_speaker_lines :
  (forall text,
     isascii text = true ->
     Forall (from_speaker_line text) (Dict.keys (parse_speakers text))) /\
  (forall text,
     isascii text = true ->
     forallb (fun line => negb (looks_like_speaker line))
       (split_on newline text) = true ->
     parse_speakers text = []) /\
  (forall text, contains (py ":") text = false -> parse_speakers text = []).
Proof.
  assert (Hb : forall text,
            forallb (fun line => negb (looks_like_speaker line))
              (split_on newline text) = true ->
            parse_speakers text = []).
  { intros text Hall. pose proof (speakers_from_speaker_lines text) as H.
    destruct (parse_speakers text) as [ | [name us] rest]; [reflexivity | ].
    inversion H as [ | ? ? (line & Hin & Hl & _) _]; subst.
    rewrite forallb_forall in Hall. specialize (Hall line Hin).
    rewrite Hl in Hall. discriminate. }
  split; [intros text _; apply speakers_from_speaker_lines | ].
  split; [intros text _; apply Hb | ].
  intros text Hc. apply Hb. apply forallb_forall. intros line Hin.
  destruct (looks_like_speaker line) eqn:Hl; [ | reflexivity].
  rewrite (colon_needed text line Hin Hl) in Hc. discriminate.
Qed.

Lemma speakers_need_speaker_lines_witness :
  parse_speakers
    (py "10:30 standup notes" ++ [newline] ++ py "alice: fixed the bug") = [] /\
  parse_speakers "Alice fixed the bug and Bob reviewed it" = [].
Proof.
  destruct speakers_need_speaker_lines as (_ & Hb & Hc). split.
  - apply Hb; vm_compute; reflexivity.
  - apply Hc. vm_compute. reflexivity.
Defined.

End SpeakerFacts.

(** ** Speaker lines, in words *)

Module SpeakerLines.

Import PyStr Re Utils ReFacts RunFacts KeyFacts DictFacts TextFacts LineFacts
  SpeakerFacts Segmentation ReEval ReRuns.

Definition colon : ascii := ":"%char.

(** The text before the first colon of a text, and the text after it. *)
Fixpoint cut_at_colon (s : str) : option (str * str) :=
  match s with
  | [] => None
  | c :: s' =>
      if Ascii.eqb c colon then Some ([], s')
      else match cut_at_colon s' with
           | Some (a, b) => Some (c :: a, b)
           | None => None
           end
  end.

(** A speaker line, once trimmed: a capital letter, then one or more
    letters or white-space characters, then a colon, then the rest. *)
Definition speaker_form (s : str) : option (str * str) :=
  match cut_at_colon s with
  | Some (c :: d :: body, rest) =>
      if is_upper c && forallb name_char (d :: body)
      then Some (c :: d :: body, rest)
      else None
  | _ => None
  end.

Lemma cut_at_colon_parts s :
  forall a b,
    cut_at_colon s = Some (a, b) -> s = a ++ colon :: b /\ ~ In colon a.
Proof.
  induction s as [ | c s IH]; intros a b; simpl; [discriminate | ].
  destruct (Ascii.eqb c colon) eqn:Hc.
  - apply Ascii.eqb_eq in Hc. subst c. intros H. inversion H; subst.
    split; [reflexivity | tauto].
  - apply Ascii.eqb_neq in Hc.
    destruct (cut_at_colon s) as [[a' b'] | ]; [ | discriminate].
    destruct (IH a' b' eq_refl) as [-> Hn]. intros H. inversion H; subst.
    split; [reflexivity | ]. intros [Hx | Hx]; [congruence | tauto].
Qed.

Lemma cut_at_colon_app a b :
  ~ In colon a -> cut_at_colon (a ++ colon :: b) = Some (a, b).
Proof.
  induction a as [ | x a IH]; intros Hn; simpl.
  - reflexivity.
  - destruct (Ascii.eqb x colon) eqn:Hx.
    + apply Ascii.eqb_eq in Hx. subst x. exfalso. apply Hn. now left.
    + rewrite IH; [reflexivity | ]. intros H. apply Hn. now right.
Qed.

Definition name_class : cset :=
  CUnion (CRange "a" "z") (CUnion (CRange "A" "Z") CSpace).

Lemma name_class_mem c : cset_mem false name_class c = name_char c.
Proof.
  unfold name_char, is_alpha. simpl.
  change (between (code "a") (code "z") c) with (is_lower c).
  change (between (code "A") (code "Z") c) with (is_upper c).
  destruct (is_lower c), (is_upper c), (is_space c); reflexivity.
Qed.

Lemma name_char_not_colon c : name_char c = true -> c <> colon.
Proof. intros H ->. vm_compute in H. discriminate. Qed.

Lemma upper_not_colon c : is_upper c = true -> c <> colon.
Proof. intros H ->. vm_compute in H. discriminate. Qed.

(** The white space at the start of a text. *)
Lemma lstrip_split s :
  exists a, s = a ++ lstrip s /\ Forall (fun c => is_space c = true) a.
Proof.
  induction s as [ | c s (a & IH & Ha)]; simpl.
  - exists []. split; [reflexivity | constructor].
  - destruct (is_space c) eqn:Hc.
    + exists (c :: a). simpl. split; [now rewrite <- IH | now constructor].
    + exists []. split; [reflexivity | constructor].
Qed.

Lemma code_newline c : c <> newline -> (code c =? 10) = false.
Proof.
  intros H. apply Nat.eqb_neq. intros Hc. apply H.
  unfold code in Hc. rewrite <- (ascii_nat_embedding c), Hc. reflexivity.
Qed.

(** What the pattern makes of a text of the speaker form. *)
Lemma speaker_match_form s name rest :
  ~ In newline s ->
  speaker_form s = Some (name, rest) ->
  re_match false speaker_pattern s =
  Some (PyMatch s [(2, lstrip rest); (1, name)]).
Proof.
  intros Hnl Hform. unfold speaker_form in Hform.
  destruct (cut_at_colon s) as [[[ | c [ | d body]] rest'] | ] eqn:Hcut;
    try discriminate.
  destruct (is_upper c && forallb name_char (d :: body)) eqn:Hok;
    [ | discriminate].
  inversion Hform; subst name rest'. clear Hform.
  apply andb_true_iff in Hok as [Hc Hbody].
  cbn [forallb] in Hbody. apply andb_true_iff in Hbody as [Hd Hbody].
  apply cut_at_colon_parts in Hcut as [Hs _].
  destruct (lstrip_split rest) as (sp & Hrest & Hsp).
  pose proof (lstrip_head rest) as Hhead.
  remember (lstrip rest) as r2 eqn:Hr2. clear Hr2. subst rest.
  assert (Hany : Forall (fun x => cset_mem false CAny x = true) r2).
  { apply List.Forall_forall. intros x Hx. simpl.
    rewrite code_newline; [reflexivity | ]. intros ->. apply Hnl.
    rewrite Hs. apply in_or_app. right. right.
    apply in_or_app. now right. }
  assert (Hname : Forall (fun x => cset_mem false name_class x = true) body).
  { apply List.Forall_forall. intros x Hx. rewrite name_class_mem.
    rewrite forallb_forall in Hbody. now apply Hbody. }
  assert (Hrun :
    rmatch false speaker_pattern (MState [] s []) Some =
    Some (MState (rev s) [] [(2, r2); (1, c :: d :: body)])).
  { unfold speaker_pattern, upper_AZ, Plus, space. fold name_class.
    rewrite rmatch_seq, rmatch_bol. cbn [before].
    rewrite rmatch_seq, rmatch_group, rmatch_seq.
    rewrite Hs at 1. cbn [app]. rewrite rmatch_chr.
    change (cset_mem false (CRange "A" "Z") c) with (is_upper c). rewrite Hc.
    rewrite rmatch_seq, rmatch_chr, name_class_mem, Hd.
    rewrite rmatch_star_chr.
    apply star_run_greedy; [exact Hname | reflexivity | ].
    unfold set_group. cbn [before after groups].
    replace (span (MState [] s []) (MState (rev body ++ [d; c]) (colon :: sp ++ r2) []))
      with (c :: d :: body) by (rewrite Hs; symmetry; apply span_app).
    rewrite rmatch_seq, rmatch_chr.
    change (cset_mem false (CLit ":") colon) with true. cbv iota.
    rewrite rmatch_seq, rmatch_star_chr.
    apply star_run_greedy.
    { eapply List.Forall_impl; [ | exact Hsp]. intros x Hx. exact Hx. }
    { destruct Hhead as [-> | (x & t & -> & Hx)]; [exact I | exact Hx]. }
    rewrite rmatch_seq, rmatch_group, rmatch_star_chr.
    apply star_run_all; [exact Hany | ].
    rewrite rmatch_eol. unfold set_group. cbn [before after groups at_end].
    rewrite span_all. f_equal. f_equal.
    rewrite Hs. cbn [app rev]. rewrite !rev_app_distr. cbn [rev app].
    rewrite !rev_app_distr. cbn [rev app]. now rewrite <- !app_assoc. }
  unfold re_match, match_here, start_state. rewrite Hrun.
  unfold to_match. cbn [groups]. now rewrite span_all.
Qed.

(** A text that the pattern takes is of the speaker form. *)
Lemma speaker_match_has_form s m :
  re_match false speaker_pattern s = Some m ->
  exists name rest, speaker_form s = Some (name, rest).
Proof.
  intros H. pose proof (re_match_starts _ _ _ _ H) as [[rest Hrest] _].
  apply re_match_sound in H as (Hm & _).
  unfold speaker_pattern in Hm.
  apply matches_seq_inv in Hm as (w0 & w' & E0 & Hb & Hm).
  apply matches_seq_inv in Hm as (w1 & w'' & -> & Hg & Hm).
  apply matches_seq_inv in Hm as (w2 & w3 & -> & Hc & _).
  apply matches_bol_inv in Hb. subst w0.
  apply matches_group_inv in Hg.
  apply name_body_parts in Hg as (c & r & -> & Hup & Hne & Hr).
  apply matches_chr_inv in Hc as (x & -> & Hx).
  simpl in Hx. apply Ascii.eqb_eq in Hx. subst x.
  destruct r as [ | d body]; [congruence | ].
  assert (Hs : s = (c :: d :: body) ++ colon :: (w3 ++ rest)).
  { rewrite Hrest, E0. cbn [app]. now rewrite <- !app_assoc. }
  assert (Hn : ~ In colon (c :: d :: body)).
  { intros [Hx | Hx].
    - now apply (upper_not_colon c Hup).
    - rewrite List.Forall_forall in Hr.
      now apply (name_char_not_colon colon (Hr _ Hx)). }
  exists (c :: d :: body), (w3 ++ rest). unfold speaker_form.
  rewrite Hs, (cut_at_colon_app _ _ Hn), Hup.
  replace (forallb name_char (d :: body)) with true; [reflexivity | ].
  symmetry. apply forallb_forall. intros x Hx.
  rewrite List.Forall_forall in Hr. now apply Hr.
Qed.

(** *** The segmentation in words *)

Definition classify_words (line : str) : line_kind :=
  match speaker_form (strip line) with
  | Some (name, rest) => speaker_line (strip name) (strip rest)
  | None =>
      if truthy (strip line) then continuation_line (strip line)
      else blank_line
  end.

Definition segment_words (text : str) (name : str) : option (list str) :=
  let bs := blocks (map classify_words (split_on newline text)) in
  if existsb (named name) bs then Some (collected name bs) else None.

Lemma strip_lstrip s : strip (lstrip s) = strip s.
Proof. unfold strip. now rewrite lstrip_lstrip. Qed.

Lemma classify_in_words line :
  ~ In newline line -> classify line = classify_words line.
Proof.
  intros Hnl. unfold classify, classify_words.
  assert (Hs : ~ In newline (strip line)).
  { intros H. apply Hnl. eapply occurs_In; [apply strip_occurs | exact H]. }
  destruct (speaker_form (strip line)) as [[name rest] | ] eqn:Hf.
  - rewrite (speaker_match_form _ _ _ Hs Hf).
    unfold group. cbn [captures lookup_group Nat.eqb].
    now rewrite strip_lstrip.
  - destruct (re_match false speaker_pattern (strip line)) as [m | ] eqn:Hm;
      [ | reflexivity].
    destruct (speaker_match_has_form _ _ Hm) as (name & rest & H).
    congruence.
Qed.

Lemma segment_in_words text name :
  segment_spec text name = segment_words text name.
Proof.
  unfold segment_spec, segment_words.
  replace (map classify (split_on newline text))
    with (map classify_words (split_on newline text)); [reflexivity | ].
  apply map_ext_in. intros line Hin. symmetry. apply classify_in_words.
  pose proof (split_on_fields newline text) as Hf.
  rewrite List.Forall_forall in Hf. now apply Hf.
Qed.

(** *** The speaker line as the specification has it: any name that
    starts with a capital letter and is made of letters and spaces *)

Definition speaker_form_specified (s : str) : option (str * str) :=
  match cut_at_colon s with
  | Some (c :: body, rest) =>
      if is_upper c && forallb name_char body
      then Some (c :: body, rest)
      else None
  | _ => None
  end.

Definition classify_specified (line : str) : line_kind :=
  match speaker_form_specified (strip line) with
  | Some (name, rest) => speaker_line (strip name) (strip rest)
  | None =>
      if truthy (strip line) then continuation_line (strip line)
      else blank_line
  end.

Definition segment_specified (text : str) (name : str) : option (list str) :=
  let bs := blocks (map classify_specified (split_on newline text)) in
  if existsb (named name) bs then Some (collected name bs) else None.

Definition one_letter_sample : str :=
  py "Bob: hi" ++ [newline] ++ py "A: x".

Definition three_line_sample : str :=
  py "Alice: fixed the bug" ++ [newline] ++
  py "still testing" ++ [newline] ++ py "Bob: reviewed PR".

(** C5, as stated, fails: "A: x" is a line of the form "Name: rest" for
    the specification, whose names are any sequence that starts with a
    capital letter; the program asks for a second character in the name,
    takes the line for a continuation and files it under Bob. *)
Lemma one_letter_name_counterexample :
  segment_specified one_letter_sample (py "A") = Some [py "x"] /\
  segment_specified one_letter_sample (py "Bob") = Some [py "hi"] /\
  Dict.get (py "A") (parse_speakers one_letter_sample) = None /\
  parse_speakers one_letter_sample = [(py "Bob", [py "hi"; py "A: x"])].
Proof. repeat split; vm_compute; reflexivity. Qed.

(** C5, amended: on an ASCII transcript, a speaker line is a line whose
    trimmed text is a capital letter, then one or more letters or
    white-space characters, then a colon, then the rest; the name is what
    comes before the colon, trimmed. For every name, what [parse_speakers]
    holds under it is, in transcript order and for each speaker line of
    that name, the trimmed rest of the line when it is not empty, then the
    trimmed non-blank lines up to the next speaker line; blank lines and
    the lines before the first speaker line are in no block, and a name
    without a speaker line has no entry. On "Alice: fixed the bug / still
    testing / Bob: reviewed PR" (three lines) the result is Alice with
    "fixed the bug", "still testing" and Bob with "reviewed PR". *)
Theorem segments_follow_speaker_lines :
  (forall text name,
     isascii text = true ->
     Dict.get name (parse_speakers text) = segment_words text name) /\
  parse_speakers three_line_sample =
  [ (py "Alice", [py "fixed the bug"; py "still testing"]);
    (py "Bob", [py "reviewed PR"]) ].
Proof.
  split; [ | vm_compute; reflexivity].
  intros text name _.
  rewrite parse_speakers_blocks. apply segment_in_words.
Qed.

Lemma segments_follow_speaker_lines_witness :
  Dict.get (py "Alice") (parse_speakers three_line_sample) =
    Some [py "fixed the bug"; py "still testing"] /\
  Dict.get (py "Carol") (parse_speakers three_line_sample) = None.
Proof.
  split.
  - exact (proj1 segments_follow_speaker_lines three_line_sample (py "Alice")
             eq_refl).
  - exact (proj1 segments_follow_speaker_lines three_line_sample (py "Carol")
             eq_refl).
Defined.

End SpeakerLines.

(** ** Where a resolved date comes from *)

Module DateFacts.

Import PyStr Re Utils Tools Session ReFacts RunFacts KeyFacts TextFacts
  TicketKeys DateClaims.

(** A text that starts with a decimal digit. *)
Definition starts_with_digit (s : str) : bool :=
  match s with
  | c :: _ => is_digit c
  | [] => false
  end.

(** Whether every text of a pattern starts with a decimal digit, read off
    the pattern. *)
Fixpoint leads_with_digit (r : regex) : bool :=
  match r with
  | Chr CDigit => true
  | Seq r1 _ => leads_with_digit r1
  | Group _ r1 => leads_with_digit r1
  | Alt r1 r2 => leads_with_digit r1 && leads_with_digit r2
  | _ => false
  end.

Lemma leads_with_digit_sound ic r w :
  matches ic r w -> leads_with_digit r = true -> starts_with_digit w = true.
Proof.
  induction 1; simpl; intros Hl; try discriminate.
  - destruct cs; try discriminate. assumption.
  - specialize (IHmatches1 Hl). destruct w1; [discriminate | exact IHmatches1].
  - apply andb_true_iff in Hl as [Hl _]. auto.
  - apply andb_true_iff in Hl as [_ Hl]. auto.
  - auto.
Qed.

(** A group that a pattern always captures holds a text of one of the
    bodies with its number. *)
Lemma group_justified ic r m n :
  sound_match ic r m -> In n (sure_groups r) -> n <> 0 ->
  exists body, In (n, body) (group_bodies r) /\ matches ic body (group m n).
Proof.
  intros (_ & Hj & Hs) Hn Hn0.
  rewrite List.Forall_forall in Hs. destruct (Hs n Hn) as [v Hv].
  unfold group. destruct n as [ | n']; [congruence | ].
  revert Hj Hv. generalize (captures m) as gs.
  induction gs as [ | [i x] gs IH]; intros HF Hv0; [destruct Hv0 | ].
  inversion HF as [ | ? ? Hjust HF']; subst. simpl lookup_group.
  destruct (i =? S n') eqn:Hi.
  - apply Nat.eqb_eq in Hi. subst i. exact Hjust.
  - destruct Hv0 as [Heq | Hin].
    + inversion Heq; subst. rewrite Nat.eqb_refl in Hi. discriminate.
    + now apply IH.
Qed.

Definition captures_a_date (r : regex) : bool :=
  existsb (Nat.eqb 1) (sure_groups r) &&
  forallb (fun nb => negb (fst nb =? 1) || leads_with_digit (snd nb))
    (group_bodies r).

Lemma date_capture r m :
  captures_a_date r = true -> sound_match true r m ->
  starts_with_digit (group m 1) = true.
Proof.
  intros Hc Hs. apply andb_true_iff in Hc as [H1 H2].
  apply existsb_exists in H1 as (n & Hn & Heq).
  apply Nat.eqb_eq in Heq. subst n.
  destruct (group_justified true r m 1 Hs Hn) as (body & Hb & Hm);
    [discriminate | ].
  rewrite forallb_forall in H2. specialize (H2 _ Hb). simpl in H2.
  eapply leads_with_digit_sound; eauto.
Qed.

Lemma standup_date_capture m :
  sound_match true standup_date_pattern m ->
  starts_with_digit (group m 1) = true.
Proof. apply date_capture. vm_compute. reflexivity. Qed.

Lemma full_date_capture m :
  sound_match true full_date_pattern m ->
  starts_with_digit (group m 1) = true.
Proof. apply date_capture. vm_compute. reflexivity. Qed.

(** What the parser was given when an attempt gives a date. *)
Definition parsed_from {datetime : Type} (parser : str -> outcome datetime)
    (text : str) (d : datetime) : Prop :=
  exists s,
    parser s = Ok d /\ contains s text = true /\ starts_with_digit s = true.

Lemma attempt_parsed_from {datetime : Type} (parser : str -> outcome datetime)
    (pattern : regex) (text : str) (d : datetime) :
  (forall m, sound_match true pattern m -> starts_with_digit (group m 1) = true) ->
  attempt parser pattern text = Some d -> parsed_from parser text d.
Proof.
  intros Hcap. unfold attempt.
  destruct (re_search true pattern text) as [m | ] eqn:Hm; [ | discriminate].
  destruct (parser (group m 1)) as [d' | e] eqn:Hp; [ | discriminate].
  intros Heq. inversion Heq; subst d'. exists (group m 1).
  split; [exact Hp | ]. split.
  - apply re_search_lies_in in Hm as [H0 Hg].
    apply contains_occurs. exact (occurs_trans _ _ _ (Hg 1) H0).
  - apply Hcap. eapply re_search_sound; eauto.
Qed.

Lemma extract_date_parsed_from {datetime : Type}
    (parser : str -> outcome datetime) (text : str) (d : datetime) :
  extract_date_from_transcript parser text = Some d ->
  parsed_from parser text d.
Proof.
  rewrite extract_date_order.
  destruct (attempt parser standup_date_pattern text) as [d' | ] eqn:H1.
  - intros Heq. inversion Heq; subst d'.
    eapply attempt_parsed_from; [exact standup_date_capture | exact H1].
  - intros H2.
    eapply attempt_parsed_from; [exact full_date_capture | exact H2].
Qed.

Lemma extract_date_needs_digit {datetime : Type}
    (parser : str -> outcome datetime) (text : str) :
  no_digit text -> extract_date_from_transcript parser text = None.
Proof.
  intros Hno.
  destruct (extract_date_from_transcript parser text) as [d | ] eqn:H;
    [ | reflexivity].
  apply extract_date_parsed_from in H as (s & _ & Hc & Hd).
  destruct s as [ | c s]; [discriminate | ]. exfalso.
  apply contains_occurs in Hc.
  apply (none_in is_digit text (c :: s) c Hno Hc); [now left | exact Hd].
Qed.

(** X6: On an ASCII transcript, a date that the resolver returns is what the
    parser made of a part of the transcript that starts with a digit 0 to
    9; so on an ASCII transcript without such a digit the resolver returns
    none, whatever the parser, and [parse_transcript] reports the date of
    the clock. *)
Theorem resolved_date_is_parsed_from_text :
  (forall (datetime : Type) (parser : str -> outcome datetime) text d,
     isascii text = true ->
     extract_date_from_transcript parser text = Some d ->
     parsed_from parser text d) /\
  (forall (datetime : Type) (parser : str -> outcome datetime) text,
     isascii text = true ->
     no_digit text -> extract_date_from_transcript parser text = None) /\
  (forall (L : library) text default_project (m : machine L) s,
     isascii text = true ->
     no_digit text ->
     strftime_dby L (now_sydney L (world m)) = Ok s ->
     exists r,
       parse_transcript L text default_project m = (Ok r, m) /\
       Dict.get (py "date") r = Some (PStr s)).
Proof.
  split; [intros; now apply extract_date_parsed_from | ].
  split; [intros; now apply extract_date_needs_digit | ].
  intros L text default_project m s _ Hno Hs.
  destruct (parse_transcript_date L text default_project m s) as (r & H1 & _ & H2).
  - unfold date_used. now rewrite extract_date_needs_digit.
  - eauto.
Qed.

Lemma resolved_date_is_parsed_from_text_witness :
  parsed_from SessionClaims.sample_parse standup_line (2025, 10, 27) /\
  extract_date_from_transcript SessionClaims.sample_parse
    "Standup for the twenty-seventh of October" = None.
Proof.
  destruct resolved_date_is_parsed_from_text as (H1 & H2 & _). split.
  - apply H1; vm_compute; reflexivity.
  - apply H2; [reflexivity | ]. unfold no_digit. repeat constructor.
Defined.

End DateFacts.

(** ** The date line of a transcript *)

Module DateRuns.

Import PyStr Re Utils Tools Session ReFacts RunFacts KeyFacts TextFacts
  ReEval ReRuns DateClaims.








(** *** The two patterns at work *)









End DateRuns.

(** ** Reading a comment back *)

Module CommentReader.

Import PyStr Utils Formatter.

(** [p ++ s] without its start [p]. *)
Fixpoint without_prefix (p s : str) : option str :=
  match p, s with
  | [], _ => Some s
  | a :: p', b :: s' => if Ascii.eqb a b then without_prefix p' s' else None
  | _ :: _, [] => None
  end.

Fixpoint all_some {A : Type} (l : list (option A)) : option (list A) :=
  match l with
  | [] => Some []
  | Some a :: rest =>
      match all_some rest with
      | Some more => Some (a :: more)
      | None => None
      end
  | None :: _ => None
  end.

(** The point of a list item. *)
Definition point_of (item : adf_node) : option str :=
  match item with
  | listItem [paragraph [text_node point []]] => Some point
  | _ => None
  end.

(** The sections of the blocks that follow the title: a heading and a
    bullet list per speaker, up to the closing paragraph. *)
Fixpoint sections_of (blocks : list adf_node) : option (Dict.t (list str)) :=
  match blocks with
  | [paragraph [text_node _ [em]]] => Some []
  | heading 3 [text_node speaker []] :: bulletList items :: rest =>
      match all_some (map point_of items), sections_of rest with
      | Some points, Some more => Some ((speaker, points) :: more)
      | _, _ => None
      end
  | _ => None
  end.

(** The date string and the speakers' points of a comment. *)
Definition read_comment (d : adf_doc) : option (str * Dict.t (list str)) :=
  match doc_content d with
  | paragraph [text_node title [strong]] :: rest =>
      match without_prefix (title_of []) title, sections_of rest with
      | Some date_str, Some sections => Some (date_str, sections)
      | _, _ => None
      end
  | _ => None
  end.

Lemma without_prefix_app p s : without_prefix p (p ++ s) = Some s.
Proof.
  induction p as [ | c p IH]; simpl; [reflexivity | ].
  now rewrite Ascii.eqb_refl.
Qed.

Lemma points_back points :
  all_some (map point_of (map bullet_item points)) = Some points.
Proof.
  induction points as [ | p ps IH]; simpl; [reflexivity | ].
  simpl in IH. now rewrite IH.
Qed.

Lemma sections_back speakers_data :
  sections_of (flat_map speaker_section speakers_data ++ [footer_paragraph]) =
  Some speakers_data.
Proof.
  induction speakers_data as [ | [speaker points] rest IH]; [reflexivity | ].
  cbn [flat_map speaker_section fst snd app sections_of].
  rewrite points_back, IH.
  destruct (flat_map speaker_section rest ++ [footer_paragraph]) eqn:H;
    [destruct (flat_map speaker_section rest); discriminate | ].
  reflexivity.
Qed.

Lemma sections_length speakers_data :
  length (flat_map speaker_section speakers_data) = 2 * length speakers_data.
Proof.
  induction speakers_data as [ | e rest IH]; [reflexivity | ].
  cbn [flat_map]. rewrite length_app, IH. simpl. lia.
Qed.

(** X7: A generated comment can be read back: it is version 1, it has two
    blocks per speaker between the title and the footer, and its blocks
    give back the date string and the speakers with their points, in
    order. So two comments are the same only if they were generated from
    the same date string and the same points. *)
Theorem comment_reads_back :
  (forall (C : Type) (content : C) date_str speakers_data,
     let doc := generate_adf_comment content date_str speakers_data in
     version doc = 1 /\
     length (doc_content doc) = 2 + 2 * length speakers_data /\
     read_comment doc = Some (date_str, speakers_data)) /\
  (forall (C : Type) (c1 c2 : C) d1 d2 s1 s2,
     generate_adf_comment c1 d1 s1 = generate_adf_comment c2 d2 s2 ->
     d1 = d2 /\ s1 = s2).
Proof.
  assert (Hread : forall (C : Type) (content : C) date_str speakers_data,
            read_comment (generate_adf_comment content date_str speakers_data) =
            Some (date_str, speakers_data)).
  { intros C content date_str speakers_data. unfold read_comment.
    rewrite generate_adf_comment_blocks.
    change (title_of date_str) with (title_of [] ++ date_str).
    now rewrite without_prefix_app, sections_back. }
  split.
  - intros C content date_str speakers_data doc. split; [reflexivity | ].
    split; [ | apply Hread].
    unfold doc. rewrite generate_adf_comment_blocks. cbn [length].
    rewrite length_app, sections_length. simpl. lia.
  - intros C c1 c2 d1 d2 s1 s2 Heq.
    pose proof (Hread C c1 d1 s1) as H1. rewrite Heq, Hread in H1.
    now inversion H1.
Qed.

Lemma comment_reads_back_witness :
  read_comment
    (generate_adf_comment alice_context "02 Oct 2025"
       (Tools.ctx_speakers alice_context)) =
  Some (py "02 Oct 2025", Tools.ctx_speakers alice_context).
Proof.
  apply (proj1 comment_reads_back Tools.ticket_context alice_context
           "02 Oct 2025" (Tools.ctx_speakers alice_context)).
Defined.

End CommentReader.

(** ** The code of a meeting link *)

Module MeetCode.

Import PyStr Utils TextFacts LineFacts.

(** [c] is not in [s]. *)
Definition lacks (c : ascii) (s : str) : bool :=
  negb (existsb (Ascii.eqb c) s).

Lemma lacks_spec c s : lacks c s = true <-> ~ In c s.
Proof.
  unfold lacks. rewrite negb_true_iff. split.
  - intros H Hin. assert (He : existsb (Ascii.eqb c) s = true).
    { apply existsb_exists. exists c. split; [exact Hin | apply Ascii.eqb_refl]. }
    congruence.
  - intros H. destruct (existsb (Ascii.eqb c) s) eqn:He; [ | reflexivity].
    apply existsb_exists in He as (x & Hx & Heq).
    apply Ascii.eqb_eq in Heq. subst x. contradiction.
Qed.

Lemma split_on_nonempty sep s : split_on sep s <> [].
Proof.
  destruct s as [ | c s]; simpl; [discriminate | ].
  destruct (Ascii.eqb c sep); [discriminate | ].
  destruct (split_on sep s); discriminate.
Qed.

Lemma last_In {A : Type} (l : list A) (d : A) : l <> [] -> In (List.last l d) l.
Proof.
  induction l as [ | a l IH]; [congruence | ]. intros _.
  destruct l as [ | b l]; [now left | ]. right. apply IH. discriminate.
Qed.

Lemma last_app_nonempty {A : Type} (l1 l2 : list A) (d : A) :
  l2 <> [] -> List.last (l1 ++ l2) d = List.last l2 d.
Proof.
  intros H. induction l1 as [ | a l1 IH]; [reflexivity | ].
  cbn [app]. rewrite <- IH. destruct (l1 ++ l2) eqn:E; [ | reflexivity].
  apply app_eq_nil in E as [_ E]. congruence.
Qed.

(** What follows the last separator is split on its own. *)
Lemma split_on_after sep a b :
  exists w ws, split_on sep (a ++ sep :: b) = (w :: ws) ++ split_on sep b.
Proof.
  induction a as [ | c a (w & ws & IH)]; cbn [app split_on].
  - rewrite Ascii.eqb_refl. now exists [], [].
  - destruct (Ascii.eqb c sep).
    + exists [], (w :: ws). now rewrite IH.
    + rewrite IH. cbn [app]. now exists (c :: w), ws.
Qed.

Lemma split_on_lacks sep s : lacks sep s = true -> split_on sep s = [s].
Proof.
  rewrite lacks_spec.
  induction s as [ | c s IH]; intros H; simpl; [reflexivity | ].
  destruct (Ascii.eqb c sep) eqn:Hc.
  - apply Ascii.eqb_eq in Hc. subst c. exfalso. apply H. now left.
  - rewrite IH; [reflexivity | ]. intros Hin. apply H. now right.
Qed.

Lemma split_on_head sep s rest :
  lacks sep s = true -> List.hd [] (split_on sep (s ++ sep :: rest)) = s.
Proof.
  rewrite lacks_spec.
  induction s as [ | c s IH]; intros H; cbn [app split_on].
  - now rewrite Ascii.eqb_refl.
  - destruct (Ascii.eqb c sep) eqn:Hc.
    + apply Ascii.eqb_eq in Hc. subst c. exfalso. apply H. now left.
    + assert (Hs : ~ In sep s) by (intros Hin; apply H; now right).
      specialize (IH Hs).
      destruct (split_on sep (s ++ sep :: rest)) as [ | w ws]; simpl in *;
        now subst.
Qed.

Lemma replace_char_drops c s :
  Forall (fun x => x <> c) (Py.replace_char c [] s) /\
  forall x, In x (Py.replace_char c [] s) -> In x s.
Proof.
  unfold Py.replace_char. induction s as [ | a s [IH1 IH2]]; simpl.
  - split; [constructor | tauto].
  - destruct (Ascii.eqb a c) eqn:Ha; simpl.
    + split; [exact IH1 | auto].
    + apply Ascii.eqb_neq in Ha. split; [now constructor | ].
      intros x [Hx | Hx]; auto.
Qed.

Lemma replace_char_lacks c by_ s :
  lacks c s = true -> Py.replace_char c by_ s = s.
Proof.
  rewrite lacks_spec. unfold Py.replace_char.
  induction s as [ | a s IH]; intros H; simpl; [reflexivity | ].
  destruct (Ascii.eqb a c) eqn:Ha.
  - apply Ascii.eqb_eq in Ha. subst a. exfalso. apply H. now left.
  - simpl. rewrite IH; [reflexivity | ]. intros Hin. apply H. now right.
Qed.

(** A character of a meeting code. *)
Definition code_char (x : ascii) : Prop :=
  x <> "/"%char /\ x <> "?"%char /\ x <> "-"%char.

(** X8: [get_meet_code] gives a code for a non-empty string and [None] for
    anything else; the code is made of characters of the link, none of
    them a slash, a question mark or a dash. *)
Theorem meet_code_is_clean (hangout_link : pyval) :
  match hangout_link with
  | PStr (c :: s) =>
      exists code,
        get_meet_code hangout_link = PStr code /\
        Forall code_char code /\
        forall x, In x code -> In x (c :: s)
  | _ => get_meet_code hangout_link = PNone
  end.
Proof.
  destruct hangout_link as [ | b | n | [ | c s] | items | entries];
    try reflexivity.
  - unfold get_meet_code. simpl. now destruct b.
  - unfold get_meet_code. simpl. now destruct (negb (n =? 0)%Z).
  - set (link := c :: s).
    set (segment := List.last (split_on "/" link) []).
    set (code := List.hd [] (split_on "?" segment)).
    exists (Py.replace_char "-" [] code). split; [reflexivity | ].
    assert (Hseg : occurs segment link /\ ~ In "/"%char segment).
    { pose proof (split_on_fields "/" link) as Hf.
      rewrite List.Forall_forall in Hf. apply Hf.
      apply last_In, split_on_nonempty. }
    assert (Hcode : occurs code segment /\ ~ In "?"%char code).
    { pose proof (split_on_fields "?" segment) as Hf.
      rewrite List.Forall_forall in Hf. apply Hf. unfold code.
      pose proof (split_on_nonempty "?" segment) as Hne.
      destruct (split_on "?" segment); [congruence | now left]. }
    destruct Hseg as [Hs1 Hs2]. destruct Hcode as [Hc1 Hc2].
    destruct (replace_char_drops "-" code) as [Hd1 Hd2]. split.
    + apply List.Forall_forall. intros x Hx.
      rewrite List.Forall_forall in Hd1. repeat split.
      * intros ->. apply Hs2. eapply occurs_In; eauto.
      * intros ->. apply Hc2. auto.
      * now apply Hd1.
    + intros x Hx. eapply occurs_In; [exact Hs1 | ].
      eapply occurs_In; [exact Hc1 | auto].
  - unfold get_meet_code. simpl. now destruct items.
  - unfold get_meet_code. simpl. now destruct entries.
Qed.

(** X9: The code of a link that ends with a slash, the code, and perhaps a
    question mark and a query: the code without its dashes. *)
Theorem meet_code_of_link (base code query : str) :
  lacks "/" code = true -> lacks "?" code = true -> lacks "/" query = true ->
  get_meet_code (PStr (base ++ py "/" ++ code)) =
    PStr (Py.replace_char "-" [] code) /\
  get_meet_code (PStr (base ++ py "/" ++ code ++ py "?" ++ query)) =
    PStr (Py.replace_char "-" [] code) /\
  (lacks "-" code = true ->
   get_meet_code (PStr (base ++ py "/" ++ code)) = PStr code).
Proof.
  intros H1 H2 H3.
  assert (Hlast : forall tail,
            lacks "/" tail = true ->
            List.last (split_on "/" (base ++ py "/" ++ tail)) [] = tail).
  { intros tail Ht. destruct (split_on_after "/" base tail) as (w & ws & Hi).
    cbn [py list_ascii_of_string app]. rewrite Hi.
    rewrite last_app_nonempty by apply split_on_nonempty.
    now rewrite split_on_lacks. }
  assert (Hplain : get_meet_code (PStr (base ++ py "/" ++ code)) =
                   PStr (Py.replace_char "-" [] code)).
  { unfold get_meet_code.
    destruct (base ++ py "/" ++ code) as [ | c s] eqn:E;
      [destruct base; discriminate | ].
    rewrite <- E. cbn [Py.truthy PyStr.truthy negb].
    rewrite E at 1. cbn [Py.truthy PyStr.truthy negb].
    rewrite (Hlast code H1), (split_on_lacks _ _ H2). reflexivity. }
  split; [exact Hplain | ]. split.
  - unfold get_meet_code.
    destruct (base ++ py "/" ++ code ++ py "?" ++ query) as [ | c s] eqn:E;
      [destruct base; discriminate | ].
    cbn [Py.truthy PyStr.truthy negb]. rewrite <- E.
    rewrite (Hlast (code ++ py "?" ++ query)).
    + cbn [py list_ascii_of_string app]. now rewrite split_on_head.
    + apply lacks_spec. intros Hin. apply in_app_or in Hin as [Hin | Hin].
      * apply lacks_spec in H1. contradiction.
      * destruct Hin as [Hin | Hin]; [discriminate | ].
        apply lacks_spec in H3. contradiction.
  - intros Hd. rewrite Hplain. now rewrite replace_char_lacks.
Qed.

Lemma meet_code_of_link_witness :
  get_meet_code (PStr (py "https://meet.google.com" ++ py "/" ++ py "abc-defg-hij")) =
    PStr (Py.replace_char "-" [] (py "abc-defg-hij")) /\
  get_meet_code
    (PStr (py "https://meet.google.com" ++ py "/" ++ py "abc-defg-hij" ++
           py "?" ++ py "authuser=0")) =
    PStr (Py.replace_char "-" [] (py "abc-defg-hij")) /\
  Py.replace_char "-" [] (py "abc-defg-hij") = py "abcdefghij".
Proof.
  destruct (meet_code_of_link "https://meet.google.com" "abc-defg-hij"
              "authuser=0" eq_refl eq_refl eq_refl) as (H1 & H2 & _).
  split; [exact H1 | ]. split; [exact H2 | reflexivity].
Defined.

End MeetCode.

(** ** Running the operations step by step *)

Module Runs.

Import PyStr Utils Tools Session Frames OperationFacts.

Lemma bind_ok {L : library} {A B : Type} (c : M L A) (f : A -> M L B) m a m1 :
  c m = (Ok a, m1) -> (c ≫= f) m = f a m1.
Proof. intros H. unfold mbind, M_bind, bind. now rewrite H. Qed.

Lemma bind_raise {L : library} {A B : Type} (c : M L A) (f : A -> M L B)
    m e m1 :
  c m = (Raise e, m1) -> (c ≫= f) m = (Raise e, m1).
Proof. intros H. unfold mbind, M_bind, bind. now rewrite H. Qed.

Lemma boundary_bind {L : library} {A : Type} (c : M L A) (f : A -> M L result) m :
  boundary (c ≫= f) m =
  match c m with
  | (Ok a, m1) => boundary (f a) m1
  | (Raise e, m1) => (Ok (error_result e), m1)
  end.
Proof.
  unfold boundary, try_except, mbind, M_bind, bind.
  destruct (c m) as [[a | e] m1]; reflexivity.
Qed.

Lemma boundary_ret {L : library} (r : result) (m : machine L) :
  boundary (mret r) m = (Ok r, m).
Proof. reflexivity. Qed.

Lemma obind_inv {A B : Type} (o : outcome A) (f : A -> outcome B) b :
  o ≫= f = Ok b -> exists a, o = Ok a /\ f a = Ok b.
Proof. destruct o as [a | e]; simpl; [eauto | discriminate]. Qed.

Lemma as_str_inv v method s : Py.as_str v method = Ok s -> v = PStr s.
Proof. destruct v; simpl; intros H; now inversion H. Qed.

Lemma lift_bind {L : library} {A B : Type} (a : A) (f : A -> M L B) m :
  (lift (Ok a) ≫= f) m = f a m.
Proof. reflexivity. Qed.

Lemma lift_raise_bind {L : library} {A B : Type} (e : str) (f : A -> M L B) m :
  (lift (Raise e) ≫= f) m = (Raise e, m).
Proof. reflexivity. Qed.

Lemma call_run {L : library} {A : Type} (ev : event)
    (f : World L -> outcome A * World L) (m : machine L) :
  call ev f m =
  (fst (f (world m)),
   Machine L (state m) (trace m ++ [ev]) (snd (f (world m)))).
Proof. unfold call. now destruct (f (world m)). Qed.

(** A computation that returns went through both parts of a bind. *)
Lemma bind_inv {L : library} {A B : Type} (c : M L A) (f : A -> M L B)
    m b m' :
  (c ≫= f) m = (Ok b, m') ->
  exists a m1, c m = (Ok a, m1) /\ f a m1 = (Ok b, m').
Proof.
  unfold mbind, M_bind, bind. destruct (c m) as [[a | e] m1]; intros H.
  - eauto.
  - discriminate.
Qed.

(** What a result of a body within the boundary is. *)
Lemma boundary_inv {L : library} (body : M L result) m r m' :
  boundary body m = (Ok r, m') ->
  body m = (Ok r, m') \/ exists e, body m = (Raise e, m') /\ r = error_result e.
Proof.
  unfold boundary, try_except. destruct (body m) as [[a | e] m1]; intros H.
  - now left.
  - right. exists e. inversion H; subst. auto.
Qed.

Lemma boundary_lift {L : library} {A : Type} (o : outcome A)
    (f : A -> M L result) m :
  boundary (lift o ≫= f) m =
  match o with
  | Ok a => boundary (f a) m
  | Raise e => (Ok (error_result e), m)
  end.
Proof. rewrite boundary_bind. now destruct o. Qed.

Lemma boundary_call {L : library} {A : Type} (ev : event)
    (f : World L -> outcome A * World L) (k : A -> M L result) m :
  boundary (call ev f ≫= k) m =
  match fst (f (world m)) with
  | Ok a =>
      boundary (k a) (Machine L (state m) (trace m ++ [ev]) (snd (f (world m))))
  | Raise e =>
      (Ok (error_result e),
       Machine L (state m) (trace m ++ [ev]) (snd (f (world m))))
  end.
Proof. rewrite boundary_bind, call_run. reflexivity. Qed.

Lemma boundary_ok {L : library} (body : M L result) m r m' :
  body m = (Ok r, m') -> boundary body m = (Ok r, m').
Proof. intros H. unfold boundary, try_except. now rewrite H. Qed.

(** *** Frames that record what a computation touches *)

(** The calls made go to [events], and only the session keys of [keys]
    are written. *)
Definition touches {L : library} (events : event -> bool)
    (keys : string -> bool) (m m' : machine L) : Prop :=
  (exists new, trace m' = trace m ++ new /\ forallb events new = true) /\
  forall k, keys k = false -> state m' !! k = state m !! k.

Definition footprint_frame (L : library) (events : event -> bool)
    (keys : string -> bool) : frame L.
Proof.
  refine (Frame L (fun _ => True) (touches events keys)
            (fun ev => events ev = true) (fun k => keys k = true) _ _ _ _).
  - intros m. split; [exists []; now rewrite app_nil_r | reflexivity].
  - intros a b c [(n1 & T1 & F1) S1] [(n2 & T2 & F2) S2]. split.
    + exists (n1 ++ n2). rewrite T2, T1, <- app_assoc. split; [reflexivity | ].
      rewrite forallb_app, F1, F2. reflexivity.
    + intros k Hk. rewrite S2, S1; auto.
  - intros ev m w Hq _. split; [ | exact I]. split.
    + exists [ev]. simpl. now rewrite Hq.
    + reflexivity.
  - intros k v m Hk _. split; [ | exact I]. split.
    + exists []. simpl. now rewrite app_nil_r.
    + intros k' Hk'. simpl. apply lookup_insert_ne. congruence.
Defined.

(** The frame of a computation that leaves the machine as it is. *)
Definition still_frame (L : library) : frame L.
Proof.
  refine (Frame L (fun _ => True) (fun m m' => m' = m)
            (fun _ => False) (fun _ => False) _ _ _ _).
  - reflexivity.
  - intros a b c H1 H2. congruence.
  - intros ev m w [].
  - intros k v m [].
Defined.

End Runs.

(** ** The client credentials *)

Module ClientCredentials.

Import PyStr Utils Runs.

(** The section of the data that is read: [installed] when it counts,
    [web] otherwise. *)
Definition section_read (creds_data section : pyval) : Prop :=
  exists installed,
    Py.get creds_data "installed" PNone = Ok installed /\
    if Py.truthy installed then section = installed
    else Py.get creds_data "web" PNone = Ok section.

(** X10: The client id and the client secret come from one section of the
    file: [installed] when it is there and not empty, [web] otherwise. A
    section [installed] that counts is the only one read, so that one
    without a secret fails whatever [web] holds; when neither section
    counts the format is refused; and when there is no file the path is
    reported. *)
Theorem client_credentials_come_from_one_section (path : str) :
  load_oauth_credentials path None =
    Raise (py "credentials.json not found at " ++ path) /\
  (forall creds_data client_id client_secret,
     load_oauth_credentials path (Some (Ok creds_data)) =
       Ok (client_id, client_secret) ->
     exists section,
       section_read creds_data section /\ Py.truthy section = true /\
       Py.getitem section "client_id" = Ok client_id /\
       Py.getitem section "client_secret" = Ok client_secret) /\
  (forall creds_data installed,
     Py.get creds_data "installed" PNone = Ok installed ->
     Py.truthy installed = true ->
     load_oauth_credentials path (Some (Ok creds_data)) =
     (client_id ← Py.getitem installed "client_id";
      client_secret ← Py.getitem installed "client_secret";
      Ok (client_id, client_secret))) /\
  (forall creds_data installed web,
     Py.get creds_data "installed" PNone = Ok installed ->
     Py.truthy installed = false ->
     Py.get creds_data "web" PNone = Ok web ->
     Py.truthy web = false ->
     load_oauth_credentials path (Some (Ok creds_data)) =
     Raise (py "Invalid credentials.json format")).
Proof.
  split; [reflexivity | ]. split; [ | split].
  - intros creds_data client_id client_secret H.
    unfold load_oauth_credentials in H. cbn [mbind outcome_bind] in H.
    apply obind_inv in H as (installed & Hi & H).
    apply obind_inv in H as (section & Hsec & H).
    destruct (Py.truthy section) eqn:Ht; cbn [negb] in H; [ | discriminate].
    apply obind_inv in H as (id & Hid & H).
    apply obind_inv in H as (secret & Hs & H).
    inversion H; subst. exists section.
    split; [ | auto]. exists installed. split; [exact Hi | ].
    destruct (Py.truthy installed); [now inversion Hsec | exact Hsec].
  - intros creds_data installed Hi Ht. unfold load_oauth_credentials.
    cbn [mbind outcome_bind]. rewrite Hi. cbn [mbind outcome_bind].
    rewrite Ht. cbn [mbind outcome_bind]. rewrite Ht. reflexivity.
  - intros creds_data installed web Hi Ht Hw Hwt.
    unfold load_oauth_credentials.
    cbn [mbind outcome_bind]. rewrite Hi. cbn [mbind outcome_bind].
    rewrite Ht, Hw. cbn [mbind outcome_bind]. rewrite Hwt. reflexivity.
Qed.

(** A file whose [installed] section is empty and whose [web] section is
    complete, and one whose [installed] section lacks the secret. *)
Definition web_section : pyval :=
  PDict [ (py "client_id", PStr (py "id-1"));
          (py "client_secret", PStr (py "secret-1")) ].

Lemma client_credentials_come_from_one_section_witness :
  (exists section,
     section_read (PDict [(py "installed", PDict []); (py "web", web_section)])
       section /\
     Py.truthy section = true /\
     Py.getitem section "client_id" = Ok (PStr (py "id-1")) /\
     Py.getitem section "client_secret" = Ok (PStr (py "secret-1"))) /\
  load_oauth_credentials "/app/credentials.json"
    (Some (Ok (PDict [ (py "installed",
                         PDict [(py "client_id", PStr (py "id-2"))]);
                       (py "web", web_section) ]))) =
  Raise (py "'client_secret'").
Proof.
  destruct (client_credentials_come_from_one_section "/app/credentials.json")
    as (_ & H2 & H3 & _).
  split.
  - apply (H2 (PDict [(py "installed", PDict []); (py "web", web_section)])).
    reflexivity.
  - rewrite (H3 _ (PDict [(py "client_id", PStr (py "id-2"))]));
      reflexivity.
Defined.

End ClientCredentials.

(** ** What each tool touches *)

Module Footprints.

Import PyStr Utils Tools Session Frames OperationFacts Runs.

(** The calls of the Jira side. *)
Definition is_jira (ev : event) : bool :=
  is_jira_oauth ev || is_resources ev || is_issue ev.

Definition google_key (k : string) : bool :=
  String.eqb k GOOGLE_TOKEN_CACHE_KEY.

Definition jira_key (k : string) : bool :=
  String.eqb k JIRA_TOKEN_CACHE_KEY || String.eqb k CLOUD_ID_CACHE_KEY.

(** What a tool call may do to the machine. *)
Definition within_footprint {L : library} (c : tool_call) (m m' : machine L)
    : Prop :=
  match c with
  | ParseTranscript _ _ | ProcessManualTranscript _ _
  | GenerateJiraComment _ _ _ _ => m' = m
  | FetchCalendarEvents _ _ _ | GetMeetingNotes _ _ =>
      touches is_google google_key m m'
  | ValidateJiraTickets _ _ | PostJiraComment _ _ _ =>
      touches is_jira jira_key m m'
  end.

Lemma google_frame_quiet (L : library) :
  forall ev, is_google ev = true ->
             quiet (footprint_frame L is_google google_key) ev.
Proof. intros ev H. exact H. Qed.

Lemma jira_frame_auth (L : library) tc :
  triple (footprint_frame L is_jira jira_key) (get_jira_auth L tc) any.
Proof.
  apply get_jira_auth_any.
  - intros ev H. simpl. unfold is_jira. now rewrite H.
  - reflexivity.
Qed.

Lemma jira_frame_cloud_id (L : library) token tc :
  triple (footprint_frame L is_jira jira_key) (get_jira_cloud_id L token tc) any.
Proof. apply get_jira_cloud_id_any; reflexivity. Qed.

Lemma jira_frame_issue (L : library) :
  forall ev, is_issue ev = true ->
             quiet (footprint_frame L is_jira jira_key) ev.
Proof.
  intros ev H. simpl. unfold is_jira. rewrite H. apply orb_true_r.
Qed.

(** X11: The transcript and comment tools leave the machine as it is: they
    call no service and write nothing. The calendar and notes tools only
    call Google and only write the Google token entry of the session. The
    ticket tools only call the Jira side and only write the token and the
    cloud id entries. *)
Theorem tools_stay_within_footprint (L : library) (c : tool_call)
    (m : machine L) :
  within_footprint c m (snd (perform L c m)).
Proof.
  destruct c; simpl.
  - apply (fetch_calendar_events_tri (footprint_frame L is_google google_key)
             (google_frame_quiet L) eq_refl days_back only_with_notes tc m I).
  - apply (get_meeting_notes_tri (footprint_frame L is_google google_key)
             (google_frame_quiet L) eq_refl event_id tc m I).
  - apply (parse_transcript_tri (still_frame L) transcript_text
             default_project m I).
  - apply (validate_jira_tickets_tri (footprint_frame L is_jira jira_key) any
             (jira_frame_auth L) (jira_frame_cloud_id L) (jira_frame_issue L)
             ticket_keys tc m I).
  - apply (generate_jira_comment_tri (still_frame L) ticket_key context
             date_str ticket_info m I).
  - apply (post_jira_comment_tri (footprint_frame L is_jira jira_key) any
             (jira_frame_auth L) (jira_frame_cloud_id L) (jira_frame_issue L)
             ticket_key adf_comment tc m I).
  - apply (parse_transcript_tri (still_frame L) transcript_text
             default_project m I).
Qed.

End Footprints.

(** ** Validating tickets and posting comments *)

Module TicketTools.

Import PyStr Utils Tools Session Frames OperationFacts Runs Footprints
  SessionClaims.

(** *** One entry per ticket *)

(** An entry of the results for [ticket_key]: it names the key, and it
    is either valid, with the status, the assignee and the summary, or
    not valid, with an error text. *)
Definition entry_for (ticket_key : str) (entry : pyval) : Prop :=
  (exists status assignee summary,
     entry = PDict [ (py "key", PStr ticket_key); (py "valid", PBool true);
                     (py "status", status); (py "assignee", assignee);
                     (py "summary", summary) ]) \/
  (exists error,
     entry = PDict [ (py "key", PStr ticket_key); (py "valid", PBool false);
                     (py "error", PStr error) ]).

(** Whatever the issue API answers or raises, one call is made and one
    entry is added. *)
Lemma validate_one_run (L : library) cloud_id token results ticket_key
    (m : machine L) :
  exists entry,
    validate_one L cloud_id token results ticket_key m =
    (Ok (results ++ [entry]),
     Machine L (state m) (trace m ++ [GetIssue ticket_key])
       (snd (http_get_issue L cloud_id token ticket_key (world m)))) /\
    entry_for ticket_key entry /\
    (Py.getitem entry "valid" = Ok (PBool true) ->
     exists response,
       fst (http_get_issue L cloud_id token ticket_key (world m)) = Ok response /\
       status_code response = 200).
Proof.
  unfold validate_one, try_except, call, lift, mbind, M_bind, bind, mret,
    M_ret, ret.
  destruct (http_get_issue L cloud_id token ticket_key (world m))
    as [[response | e] w]; cbn [fst snd].
  - destruct (status_code response =? 200) eqn:Hcode.
    + apply Nat.eqb_eq in Hcode.
      destruct (json response) as [data | e]; cbn [fst snd];
        [ | eexists; split; [reflexivity | split; [right; eauto | discriminate]]].
      destruct (Py.getitem data "fields") as [fields | e]; cbn [fst snd];
        [ | eexists; split; [reflexivity | split; [right; eauto | discriminate]]].
      destruct (Py.getitem fields "status") as [status | e]; cbn [fst snd];
        [ | eexists; split; [reflexivity | split; [right; eauto | discriminate]]].
      destruct (Py.getitem status "name") as [name | e]; cbn [fst snd];
        [ | eexists; split; [reflexivity | split; [right; eauto | discriminate]]].
      destruct (Py.get fields "assignee" (PDict [])) as [assignee | e];
        cbn [fst snd];
        [ | eexists; split; [reflexivity | split; [right; eauto | discriminate]]].
      destruct (Py.get assignee "displayName" (PStr (py "Unassigned")))
        as [display | e]; cbn [fst snd];
        [ | eexists; split; [reflexivity | split; [right; eauto | discriminate]]].
      destruct (Py.getitem fields "summary") as [summary | e]; cbn [fst snd];
        [ | eexists; split; [reflexivity | split; [right; eauto | discriminate]]].
      eexists. split; [reflexivity | ]. split; [left; eauto | eauto].
    + eexists. split; [reflexivity | ]. split; [right; eauto | discriminate].
  - eexists. split; [reflexivity | ]. split; [right; eauto | discriminate].
Qed.

Lemma validate_all_run (L : library) cloud_id token ticket_keys :
  forall results (m : machine L),
  exists entries m',
    foldM (validate_one L cloud_id token) ticket_keys results m =
      (Ok (results ++ entries), m') /\
    Forall2 entry_for ticket_keys entries /\
    trace m' = trace m ++ map GetIssue ticket_keys /\
    state m' = state m.
Proof.
  induction ticket_keys as [ | k ks IH]; intros results m.
  - exists [], m. simpl. rewrite !app_nil_r. repeat split. constructor.
  - destruct (validate_one_run L cloud_id token results k m)
      as (entry & Hrun & Hentry & _).
    destruct (IH (results ++ [entry])
                (Machine L (state m) (trace m ++ [GetIssue k])
                   (snd (http_get_issue L cloud_id token k (world m)))))
      as (entries & m' & Hfold & Hall & Htrace & Hstate).
    exists (entry :: entries), m'. cbn [foldM].
    change (bind ?c ?f) with (c ≫= f).
    rewrite (bind_ok _ _ _ _ _ Hrun), Hfold, <- app_assoc.
    split; [reflexivity | ]. split; [now constructor | ].
    split; [ | exact Hstate].
    rewrite Htrace. cbn [trace map]. now rewrite <- app_assoc.
Qed.

Definition is_success (r : result) : Prop :=
  status_of r = Some (PStr (py "success")).
Definition is_pending (r : result) : Prop :=
  status_of r = Some (PStr (py "pending")).

(** The calls made before the issue API is reached. *)
Definition before_issues (pre : list event) : Prop :=
  forallb (fun ev => negb (is_issue ev)) pre = true.

Lemma auth_trace (L : library) tc (m : machine L) :
  exists pre, trace (snd (get_jira_auth L tc m)) = trace m ++ pre /\
              forallb is_jira_oauth pre = true.
Proof.
  destruct (get_jira_auth_any
              (footprint_frame L is_jira_oauth
                 (fun k => String.eqb k JIRA_TOKEN_CACHE_KEY))
              tc (fun ev H => H) eq_refl m I) as ([H _] & _).
  exact H.
Qed.

Lemma cloud_id_trace (L : library) token tc (m : machine L) :
  exists pre, trace (snd (get_jira_cloud_id L token tc m)) = trace m ++ pre /\
              forallb is_resources pre = true.
Proof.
  destruct (get_jira_cloud_id_any
              (footprint_frame L is_resources
                 (fun k => String.eqb k CLOUD_ID_CACHE_KEY))
              token tc eq_refl eq_refl m I) as ([H _] & _).
  exact H.
Qed.

Lemma forallb_weaken {A : Type} (p q : A -> bool) (l : list A) :
  (forall a, p a = true -> q a = true) ->
  forallb p l = true -> forallb q l = true.
Proof.
  intros Hpq H. rewrite forallb_forall in *. auto.
Qed.

Lemma before_issues_app a b :
  before_issues a -> before_issues b -> before_issues (a ++ b).
Proof.
  unfold before_issues. intros Ha Hb. now rewrite forallb_app, Ha, Hb.
Qed.

Lemma oauth_before_issues pre :
  forallb is_jira_oauth pre = true -> before_issues pre.
Proof.
  apply forallb_weaken. intros ev H.
  destruct ev as [[] | [] | | | | | | | | | ]; simpl in *; congruence.
Qed.

Lemma resources_before_issues pre :
  forallb is_resources pre = true -> before_issues pre.
Proof.
  apply forallb_weaken. intros ev H.
  destruct ev as [[] | [] | | | | | | | | | ]; simpl in *; congruence.
Qed.

Definition validated (entries : list pyval) : result :=
  [ (py "status", PStr (py "success")); (py "results", PList entries) ].

(** X12: When [validate_jira_tickets] succeeds, its results hold one entry per
    ticket key, in the order of the keys, and the issue API was called once
    per key, in that order, after the calls that obtained the
    credentials. A ticket that the API does not know, or on which the call
    fails, gives an entry that is not valid; it does not fail the
    operation. With a token and a cloud id in the session the operation
    always succeeds, makes these calls only and leaves the session state
    as it is. *)
Theorem validate_lists_every_ticket (L : library) (ticket_keys : list str) :
  (forall tc (m m' : machine L) r,
     validate_jira_tickets L ticket_keys tc m = (Ok r, m') ->
     is_success r ->
     exists entries pre,
       r = validated entries /\
       Forall2 entry_for ticket_keys entries /\
       before_issues pre /\
       trace m' = trace m ++ pre ++ map GetIssue ticket_keys) /\
  (forall (m : machine L) token cloud_id,
     Py.truthy token = true -> Py.truthy cloud_id = true ->
     state m !! JIRA_TOKEN_CACHE_KEY = Some token ->
     state m !! CLOUD_ID_CACHE_KEY = Some cloud_id ->
     exists entries m',
       validate_jira_tickets L ticket_keys ToolContext m =
         (Ok (validated entries), m') /\
       Forall2 entry_for ticket_keys entries /\
       trace m' = trace m ++ map GetIssue ticket_keys /\
       state m' = state m) /\
  (forall cloud_id token results ticket_key (m : machine L),
     exists entry,
       validate_one L cloud_id token results ticket_key m =
       (Ok (results ++ [entry]),
        Machine L (state m) (trace m ++ [GetIssue ticket_key])
          (snd (http_get_issue L cloud_id token ticket_key (world m)))) /\
       entry_for ticket_key entry /\
       (Py.getitem entry "valid" = Ok (PBool true) ->
        exists response,
          fst (http_get_issue L cloud_id token ticket_key (world m)) =
            Ok response /\
          status_code response = 200)).
Proof.
  split; [ | split; [ | intros; apply validate_one_run]].
  - intros tc m m' r H Hs. unfold validate_jira_tickets in H.
    rewrite boundary_bind in H.
    destruct (auth_trace L tc m) as (p1 & Hp1 & Hq1).
    destruct (get_jira_auth L tc m) as [[token | e] m1];
      [ | inversion H; subst; discriminate].
    destruct (Py.truthy token); cbn [negb] in H;
      [ | inversion H; subst; discriminate].
    rewrite boundary_bind in H.
    destruct (cloud_id_trace L token tc m1) as (p2 & Hp2 & Hq2).
    destruct (get_jira_cloud_id L token tc m1) as [[c | e] m2];
      [ | inversion H; subst; discriminate].
    destruct (Py.truthy c); cbn [negb] in H;
      [ | inversion H; subst; discriminate].
    rewrite boundary_bind in H.
    destruct (validate_all_run L c token ticket_keys [] m2)
      as (entries & m3 & Hf & Hall & Htr & Hst).
    rewrite Hf in H. inversion H; subst.
    exists entries, (p1 ++ p2). split; [reflexivity | ].
    split; [exact Hall | ]. split.
    + apply before_issues_app;
        [now apply oauth_before_issues | now apply resources_before_issues].
    + simpl in Hp1, Hp2. rewrite Htr, Hp2, Hp1. now rewrite <- !app_assoc.
  - intros m token c Ht Hc Hm1 Hm2. unfold validate_jira_tickets.
    rewrite boundary_bind, (get_jira_auth_hit L token m Ht Hm1), Ht.
    cbn [negb].
    rewrite boundary_bind, (get_jira_cloud_id_hit L c token m Hc Hm2), Hc.
    cbn [negb].
    destruct (validate_all_run L c token ticket_keys [] m)
      as (entries & m3 & Hf & Hall & Htr & Hst).
    exists entries, m3. rewrite boundary_bind, Hf. auto.
Qed.

(** A session that holds a token and a cloud id. *)
Definition sample_cloud_id : pyval := PStr (py "cloud-1").

Definition ready : machine sample_library :=
  Machine sample_library
    (<[CLOUD_ID_CACHE_KEY := sample_cloud_id]>
       (<[JIRA_TOKEN_CACHE_KEY := sample_token]> ∅)) [] 0.

Lemma validate_lists_every_ticket_witness :
  exists entries m',
    validate_jira_tickets sample_library [py "PROJ-42"; py "WJR-99"]
      ToolContext ready = (Ok (validated entries), m') /\
    Forall2 entry_for [py "PROJ-42"; py "WJR-99"] entries /\
    trace m' = trace ready ++ map GetIssue [py "PROJ-42"; py "WJR-99"] /\
    state m' = state ready.
Proof.
  apply (proj1 (proj2 (validate_lists_every_ticket sample_library
                         [py "PROJ-42"; py "WJR-99"]))
           ready sample_token sample_cloud_id);
    reflexivity.
Defined.

(** On the sample, where the issue API answers 404. *)
Example validate_sample :
  fst (validate_jira_tickets sample_library [py "PROJ-42"] ToolContext ready) =
  Ok (validated
        [PDict [ (py "key", PStr (py "PROJ-42")); (py "valid", PBool false);
                 (py "error", PStr (py "HTTP 404")) ]]).
Proof. vm_compute. reflexivity. Qed.

(** *** One comment per call *)

Definition posted (ticket_key : str) : result :=
  [ (py "status", PStr (py "success"));
    (py "ticket_key", PStr ticket_key);
    (py "link",
      PStr (py "https://wow-sandbox2.atlassian.net/browse/" ++ ticket_key)) ].

(** The answers that [post_jira_comment] takes for a success. *)
Definition accepted (o : outcome response) : Prop :=
  exists response,
    o = Ok response /\
    (status_code response = 200 \/ status_code response = 201).

Lemma post_after_credentials (L : library) ticket_key adf_comment cloud_id
    token (m : machine L) :
  exists r,
    boundary
      (response ← call (PostComment ticket_key)
                    (http_post_comment L cloud_id token ticket_key adf_comment);
       if (status_code response =? 200) || (status_code response =? 201)
       then mret (posted ticket_key)
       else
         mret [ (py "status", PStr (py "error"));
                (py "ticket_key", PStr ticket_key);
                (py "error_message",
                  PStr (py "HTTP " ++ Py.of_nat (status_code response)
                        ++ py ": " ++ text response)) ]) m =
    (Ok r,
     Machine L (state m) (trace m ++ [PostComment ticket_key])
       (snd (http_post_comment L cloud_id token ticket_key adf_comment
               (world m)))) /\
    (is_success r <->
     accepted (fst (http_post_comment L cloud_id token ticket_key adf_comment
                      (world m)))) /\
    (is_success r -> r = posted ticket_key) /\
    (is_pending r -> False).
Proof.
  unfold boundary, try_except, call, mbind, M_bind, bind, mret, M_ret, ret.
  destruct (http_post_comment L cloud_id token ticket_key adf_comment (world m))
    as [[response | e] w]; cbn [fst snd].
  - destruct ((status_code response =? 200) || (status_code response =? 201))
      eqn:Hcode; eexists; (split; [reflexivity | ]).
    + apply orb_true_iff in Hcode. rewrite !Nat.eqb_eq in Hcode.
      repeat split; auto; try discriminate.
      intros _. exists response. auto.
    + apply orb_false_iff in Hcode as [H1 H2].
      apply Nat.eqb_neq in H1, H2.
      repeat split; try discriminate.
      intros (resp & Heq & Hcode). inversion Heq; subst. lia.
  - eexists. split; [reflexivity | ].
    repeat split; try discriminate.
    intros (resp & Heq & _). discriminate.
Qed.

Lemma post_with_credentials (L : library) ticket_key adf_comment
    (m : machine L) token cloud_id :
  Py.truthy token = true -> Py.truthy cloud_id = true ->
  state m !! JIRA_TOKEN_CACHE_KEY = Some token ->
  state m !! CLOUD_ID_CACHE_KEY = Some cloud_id ->
  exists r,
    post_jira_comment L ticket_key adf_comment ToolContext m =
    (Ok r,
     Machine L (state m) (trace m ++ [PostComment ticket_key])
       (snd (http_post_comment L cloud_id token ticket_key adf_comment
               (world m)))) /\
    (is_success r <->
     accepted (fst (http_post_comment L cloud_id token ticket_key
                      adf_comment (world m)))).
Proof.
  intros Ht Hc Hm1 Hm2. unfold post_jira_comment.
  rewrite boundary_bind, (get_jira_auth_hit L token m Ht Hm1), Ht.
  cbn [negb].
  rewrite boundary_bind, (get_jira_cloud_id_hit L cloud_id token m Hc Hm2), Hc.
  cbn [negb].
  destruct (post_after_credentials L ticket_key adf_comment cloud_id token m)
    as (r' & Hrun & Hiff & _).
  exists r'. split; [exact Hrun | exact Hiff].
Qed.

(** X13: [post_jira_comment] calls the issue API at most once, for the comment
    of its ticket, and only after the calls that obtained the credentials;
    a success is the answer 200 or 201 to that call and carries the link of
    the ticket, and a pending result means that nothing was posted. With a
    token and a cloud id in the session the comment is posted by that one
    call, and the session state stays as it is. *)
Theorem post_posts_once (L : library) (ticket_key : str) (adf_comment : pyval) :
  (forall tc (m m' : machine L) r,
     post_jira_comment L ticket_key adf_comment tc m = (Ok r, m') ->
     exists pre,
       before_issues pre /\
       (trace m' = trace m ++ pre \/
        trace m' = trace m ++ pre ++ [PostComment ticket_key]) /\
       (is_success r ->
        trace m' = trace m ++ pre ++ [PostComment ticket_key] /\
        r = posted ticket_key) /\
       (is_pending r -> trace m' = trace m ++ pre)) /\
  (forall (m : machine L) token cloud_id,
     Py.truthy token = true -> Py.truthy cloud_id = true ->
     state m !! JIRA_TOKEN_CACHE_KEY = Some token ->
     state m !! CLOUD_ID_CACHE_KEY = Some cloud_id ->
     exists r,
       post_jira_comment L ticket_key adf_comment ToolContext m =
       (Ok r,
        Machine L (state m) (trace m ++ [PostComment ticket_key])
          (snd (http_post_comment L cloud_id token ticket_key adf_comment
                  (world m)))) /\
       (is_success r <->
        accepted (fst (http_post_comment L cloud_id token ticket_key
                         adf_comment (world m))))).
Proof.
  split.
  - intros tc m m' r H. unfold post_jira_comment in H.
    rewrite boundary_bind in H.
    destruct (auth_trace L tc m) as (p1 & Hp1 & Hq1).
    apply oauth_before_issues in Hq1.
    destruct (get_jira_auth L tc m) as [[token | e] m1]; simpl in Hp1.
    2: { inversion H; subst. exists p1. split; [exact Hq1 | ].
         split; [now left | ]. split; [discriminate | auto]. }
    destruct (Py.truthy token); cbn [negb] in H.
    2: { inversion H; subst. exists p1. split; [exact Hq1 | ].
         split; [now left | ]. split; [discriminate | auto]. }
    rewrite boundary_bind in H.
    destruct (cloud_id_trace L token tc m1) as (p2 & Hp2 & Hq2).
    apply resources_before_issues in Hq2.
    assert (Hpre : before_issues (p1 ++ p2)) by now apply before_issues_app.
    destruct (get_jira_cloud_id L token tc m1) as [[c | e] m2]; simpl in Hp2.
    2: { inversion H; subst. exists (p1 ++ p2). split; [exact Hpre | ].
         rewrite Hp2, Hp1, <- app_assoc.
         split; [now left | ]. split; [discriminate | auto]. }
    destruct (Py.truthy c); cbn [negb] in H.
    2: { inversion H; subst. exists (p1 ++ p2). split; [exact Hpre | ].
         rewrite Hp2, Hp1, <- app_assoc.
         split; [now left | ]. split; [discriminate | discriminate]. }
    destruct (post_after_credentials L ticket_key adf_comment c token m2)
      as (r' & Hrun & _ & Hs & Hp).
    match type of H with
    | ?X = _ =>
        match type of Hrun with
        | _ = ?Y => assert (HX : X = Y) by exact Hrun
        end
    end.
    rewrite HX in H. inversion H; subst.
    exists (p1 ++ p2). split; [exact Hpre | ].
    cbn [trace]. rewrite Hp2, Hp1, <- !app_assoc.
    split; [now right | ]. split; [ | intros Hpend; now apply Hp in Hpend].
    intros Hsucc. split; [reflexivity | now apply Hs].
  - intros m token c Ht Hc Hm1 Hm2. now apply post_with_credentials.
Qed.

Lemma post_posts_once_witness :
  exists r,
    post_jira_comment sample_library (py "PROJ-42") PNone ToolContext ready =
    (Ok r,
     Machine sample_library (state ready)
       (trace ready ++ [PostComment (py "PROJ-42")])
       (snd (http_post_comment sample_library sample_cloud_id sample_token
               (py "PROJ-42") PNone (world ready)))) /\
    (is_success r <->
     accepted (fst (http_post_comment sample_library sample_cloud_id
                      sample_token (py "PROJ-42") PNone (world ready)))).
Proof.
  apply (proj2 (post_posts_once sample_library (py "PROJ-42") PNone)
           ready sample_token sample_cloud_id);
    reflexivity.
Defined.

End TicketTools.

(** ** Meeting notes *)

Module NotesFacts.

Import PyStr Utils Tools Session Frames OperationFacts Runs.

(** The record of a notes document: its id, its name and its link. *)
Definition notes_record (v : pyval) : Prop :=
  exists id name link,
    v = PDict [(py "id", id); (py "name", name); (py "link", link)].

(** The file of a listing that a record was made of: its name holds the
    summary, case apart, and it was created within the window. *)
Definition made_of {L : library} (event_summary : pyval)
    (event_time : datetime L) (file v : pyval) : Prop :=
  exists summary name created file_time id link,
    event_summary = PStr summary /\
    Py.getitem file "name" = Ok (PStr name) /\
    contains (lower summary) (lower name) = true /\
    Py.getitem file "createdTime" = Ok (PStr created) /\
    fromisoformat L (Py.replace_char "Z" "+00:00" created) = Ok file_time /\
    within_four_hours L file_time event_time = Ok true /\
    Py.getitem file "id" = Ok id /\
    Py.getitem file "webViewLink" = Ok link /\
    v = PDict [(py "id", id); (py "name", PStr name); (py "link", link)].

Lemma first_matching_file_shape {L : library} files event_summary
    (event_time : datetime L) v :
  first_matching_file L files event_summary event_time = Ok v ->
  v = PNone \/
  exists file, In file files /\ made_of event_summary event_time file v.
Proof.
  induction files as [ | file rest IH]; cbn [first_matching_file].
  - intros H. inversion H. now left.
  - intros H.
    apply obind_inv in H as (summary & Hs & H). apply as_str_inv in Hs.
    apply obind_inv in H as (name & Hn & H).
    apply obind_inv in H as (name_s & Hns & H). apply as_str_inv in Hns.
    subst name.
    assert (Hrest : first_matching_file L rest event_summary event_time = Ok v ->
                    v = PNone \/
                    exists f, In f (file :: rest) /\
                              made_of event_summary event_time f v).
    { intros H'. destruct (IH H') as [-> | (f & Hin & Hm)]; [now left | ].
      right. exists f. split; [now right | exact Hm]. }
    destruct (contains (lower summary) (lower name_s)) eqn:Hc; [ | auto].
    apply obind_inv in H as (created & Hcr & H).
    apply obind_inv in H as (created_s & Hcs & H). apply as_str_inv in Hcs.
    subst created.
    apply obind_inv in H as (file_time & Hiso & H).
    apply obind_inv in H as (in_window & Hw & H).
    destruct in_window; [ | auto].
    apply obind_inv in H as (id & Hid & H).
    apply obind_inv in H as (name' & Hn' & H).
    apply obind_inv in H as (link & Hl & H).
    inversion H; subst. right. exists file. split; [now left | ].
    rewrite Hn in Hn'. inversion Hn'; subst name'.
    exists summary, name_s, created_s, file_time, id, link.
    repeat split; auto.
Qed.

Lemma made_of_record {L : library} event_summary (event_time : datetime L)
    file v :
  made_of event_summary event_time file v -> notes_record v.
Proof.
  intros (summary & name & created & file_time & id & link & H).
  exists id, (PStr name), link. apply H.
Qed.

(** [search_meeting_notes] lists the files once and never raises: it
    gives [None] or the record of a file. *)
Lemma search_meeting_notes_run (L : library) drive_service event_summary
    event_time (m : machine L) :
  exists v,
    search_meeting_notes L drive_service event_summary event_time m =
    (Ok v,
     Machine L (state m) (trace m ++ [FilesList])
       (snd (files_list L drive_service (world m)))) /\
    (v = PNone \/ notes_record v).
Proof.
  unfold search_meeting_notes, try_except, mbind, M_bind, bind, lift, mret,
    M_ret, ret.
  rewrite call_run.
  destruct (fst (files_list L drive_service (world m))) as [results | e];
    [ | eexists; split; [reflexivity | now left]].
  destruct (Py.get results "files" (PList [])) as [files | e];
    [ | eexists; split; [reflexivity | now left]].
  destruct (Py.iterate files) as [items | e];
    [ | eexists; split; [reflexivity | now left]].
  destruct (first_matching_file L items event_summary event_time)
    as [v | e] eqn:Hf; [ | eexists; split; [reflexivity | now left]].
  exists v. split; [reflexivity | ].
  apply first_matching_file_shape in Hf as [-> | (f & _ & Hm)];
    [now left | right; eapply made_of_record; eauto].
Qed.

(** What [check_for_transcript_and_recording] gives for a meeting: the
    notes found, and never a transcript or a recording. *)
Definition media_of (notes : pyval) : pyval :=
  PDict [ (py "transcript", PNone); (py "recording", PNone);
          (py "notes", notes) ].

Lemma check_for_transcript_run (L : library) cal_service drive_service
    meet_code event_summary event_time (m : machine L) :
  exists v m',
    check_for_transcript_and_recording L cal_service drive_service meet_code
      event_summary event_time m = (Ok v, m') /\
    state m' = state m /\
    ((v = PNone /\
      (trace m' = trace m \/ trace m' = trace m ++ [FilesList])) \/
     (exists notes,
        notes_record notes /\ v = media_of notes /\
        trace m' = trace m ++ [FilesList])) /\
    (Py.truthy meet_code = false -> v = PNone /\ m' = m).
Proof.
  unfold check_for_transcript_and_recording.
  destruct (Py.truthy meet_code) eqn:Hcode; cbn [negb].
  - destruct (search_meeting_notes_run L drive_service event_summary
                event_time m) as (notes & Hrun & Hshape).
    rewrite (bind_ok _ _ _ _ _ Hrun).
    destruct Hshape as [-> | Hrec].
    + eexists _, _. split; [reflexivity | ]. split; [reflexivity | ].
      split; [left; split; [reflexivity | now right] | discriminate].
    + pose proof Hrec as (id & name & link & ->).
      eexists _, _. split; [reflexivity | ]. split; [reflexivity | ].
      split; [ | discriminate].
      right. eexists. split; [exact Hrec | ]. split; reflexivity.
  - exists PNone, m. split; [reflexivity | ]. split; [reflexivity | ].
    split; [left; split; [reflexivity | now left] | auto].
Qed.

(** X14: [check_for_transcript_and_recording] never raises and lists the files
    of the drive at most once. It gives [None], or the notes found under
    [notes] with [None] under [transcript] and under [recording]; the notes
    are the id, the name and the link of a file. A missing meeting code
    gives [None] without any call. [search_meeting_notes] gives, after one
    listing, [None] or such a record, made of a file of the listing whose
    name holds the summary of the event, case apart, and that was created
    within the window. *)
Theorem media_holds_notes_only (L : library) :
  (forall cal_service drive_service meet_code event_summary event_time
          (m : machine L),
     exists v m',
       check_for_transcript_and_recording L cal_service drive_service
         meet_code event_summary event_time m = (Ok v, m') /\
       state m' = state m /\
       ((v = PNone /\
         (trace m' = trace m \/ trace m' = trace m ++ [FilesList])) \/
        (exists notes,
           notes_record notes /\ v = media_of notes /\
           trace m' = trace m ++ [FilesList])) /\
       (Py.truthy meet_code = false -> v = PNone /\ m' = m)) /\
  (forall drive_service event_summary event_time (m : machine L),
     exists v,
       search_meeting_notes L drive_service event_summary event_time m =
       (Ok v,
        Machine L (state m) (trace m ++ [FilesList])
          (snd (files_list L drive_service (world m)))) /\
       (v = PNone \/ notes_record v)) /\
  (forall files event_summary (event_time : datetime L) v,
     first_matching_file L files event_summary event_time = Ok v ->
     v = PNone \/
     exists file, In file files /\ made_of event_summary event_time file v).
Proof.
  split; [intros; apply check_for_transcript_run | ].
  split; [intros; apply search_meeting_notes_run | ].
  intros. now apply first_matching_file_shape.
Qed.

End NotesFacts.

(** ** A library in which every service answers

    The tool context grants a credential for both providers, the calendar
    holds one meeting, the drive holds its notes, and Jira knows every
    ticket. *)

Module Office.

Import PyStr Utils Tools Session SessionClaims.

Definition standup_event : pyval :=
  PDict [ (py "id", PStr (py "evt-1"));
          (py "summary", PStr (py "Daily standup"));
          (py "start", PDict [(py "dateTime", PStr (py "2025-10-02T09:00:00Z"))]);
          (py "hangoutLink", PStr (py "https://meet.google.com/abc-defg-hij")) ].

Definition notes_file : pyval :=
  PDict [ (py "id", PStr (py "doc-1"));
          (py "name", PStr (py "Daily Standup - Notes by Gemini"));
          (py "createdTime", PStr (py "2025-10-02T09:30:00Z"));
          (py "webViewLink", PStr (py "https://docs.example/doc-1")) ].

Definition issue_body : pyval :=
  PDict [(py "fields",
           PDict [ (py "status", PDict [(py "name", PStr (py "In Progress"))]);
                   (py "assignee", PDict [(py "displayName", PStr (py "Alice"))]);
                   (py "summary", PStr (py "Fix the login page")) ])].

Definition granted : auth_credential :=
  AuthCredential (Some (OAuth2Auth (PStr (py "access-1")) (PStr (py "refresh-1")))).

Definition office_library : library :=
  Library nat sample_date unit unit
    sample_parse
    (fun _ => (2026, 11, 4))
    sample_strftime
    (fun _ => Ok (2025, 10, 2))
    (fun d _ => Ok d)
    (fun _ _ => Ok true)
    (fun _ w => (Ok (Some granted), S w))
    (fun _ w => (Ok tt, S w))
    (fun _ => Ok tt)
    (fun _ _ => Ok tt)
    (fun _ _ => true)
    (fun _ _ => false)
    (fun _ => PNone)
    (fun c w => (Ok c, S w))
    (fun _ => Ok (PDict [(py "token", PStr (py "access-1"))]))
    (fun _ _ w => (Ok tt, S w))
    (fun _ _ _ w => (Ok (PDict [(py "items", PList [standup_event])]), S w))
    (fun _ _ w => (Ok standup_event, S w))
    (fun _ w => (Ok (PDict [(py "files", PList [notes_file])]), S w))
    (fun _ _ w => (Ok (py "Alice: Working on PROJ-42, almost done"), S w))
    (fun _ w =>
       (Ok (Response 200 (Ok (PList [PDict [(py "id", PStr (py "cloud-1"))]])) []),
        S w))
    (fun _ _ _ w => (Ok (Response 200 (Ok issue_body) []), S w))
    (fun _ _ _ _ w => (Ok (Response 201 (Ok (PDict [])) []), S w)).

Definition first_day : machine office_library :=
  Machine office_library ∅ [] 0.

End Office.

(** ** The calendar and notes tools *)

Module MeetingTools.

Import PyStr Utils Tools Session Frames OperationFacts Runs NotesFacts
  TicketTools.

(** What [read_document_content] makes of a download. *)
Definition content_of (o : outcome str) : str :=
  match o with
  | Ok content => content
  | Raise e => py "Error reading document: " ++ e
  end.

Lemma read_document_content_run (L : library) drive_service file_id
    (m : machine L) :
  read_document_content L drive_service file_id m =
  (Ok (PStr (content_of (fst (export_text L drive_service file_id (world m))))),
   Machine L (state m) (trace m ++ [ExportText])
     (snd (export_text L drive_service file_id (world m)))).
Proof.
  unfold read_document_content, try_except, mbind, M_bind, bind, mret, M_ret,
    ret.
  rewrite call_run.
  destruct (fst (export_text L drive_service file_id (world m))); reflexivity.
Qed.

Lemma attach_content_run (L : library) drive_service media (kind : str)
    item id link res (m : machine L) :
  Py.get media kind PNone = Ok item -> Py.truthy item = true ->
  Py.getitem item "id" = Ok id -> Py.getitem item "link" = Ok link ->
  attach_content L drive_service media kind res m =
  (Ok (Dict.set (kind ++ py "_link") link
         (Dict.set (kind ++ py "_content")
            (PStr (content_of
                     (fst (export_text L drive_service id (world m))))) res)),
   Machine L (state m) (trace m ++ [ExportText])
     (snd (export_text L drive_service id (world m)))).
Proof.
  intros H1 H2 H3 H4. unfold attach_content.
  rewrite H1, lift_bind, H2, H3, lift_bind.
  rewrite (bind_ok _ _ _ _ _ (read_document_content_run L drive_service id m)).
  rewrite H4, lift_bind. reflexivity.
Qed.

Lemma attach_notes (L : library) drive_service id name link res
    (m : machine L) :
  attach_content L drive_service
    (media_of (PDict [(py "id", id); (py "name", name); (py "link", link)]))
    "notes" res m =
  (Ok (Dict.set (py "notes_link") link
         (Dict.set (py "notes_content")
            (PStr (content_of
                     (fst (export_text L drive_service id (world m))))) res)),
   Machine L (state m) (trace m ++ [ExportText])
     (snd (export_text L drive_service id (world m)))).
Proof.
  apply (attach_content_run L drive_service _ "notes"
           (PDict [(py "id", id); (py "name", name); (py "link", link)]));
    reflexivity.
Qed.

Lemma attach_transcript (L : library) drive_service notes res (m : machine L) :
  attach_content L drive_service (media_of notes) "transcript" res m =
  (Ok res, m).
Proof. reflexivity. Qed.

Lemma google_services_trace (L : library) tc (m : machine L) :
  exists pre,
    trace (snd (get_authenticated_google_services L tc m)) = trace m ++ pre /\
    forallb is_google pre = true.
Proof.
  destruct (google_services_any
              (footprint_frame L is_google Footprints.google_key)
              (Footprints.google_frame_quiet L) eq_refl tc m I) as ([H _] & _).
  exact H.
Qed.

(** A result of [get_meeting_notes] that carries the notes. *)
Definition notes_result (summary start : pyval) (content : str) (link : pyval)
    : result :=
  [ (py "status", PStr (py "success"));
    (py "event_name", summary);
    (py "event_time", start);
    (py "notes_content", PStr content);
    (py "notes_link", link) ].

(** Media that hold something are the notes that this search gave. *)
Lemma check_for_transcript_found (L : library) cal_service drive_service
    meet_code event_summary event_time (m m' : machine L) v :
  check_for_transcript_and_recording L cal_service drive_service meet_code
    event_summary event_time m = (Ok v, m') ->
  Py.truthy v = true ->
  exists id name link,
    v = media_of (PDict [(py "id", id); (py "name", name); (py "link", link)]) /\
    search_meeting_notes L drive_service event_summary event_time m =
    (Ok (PDict [(py "id", id); (py "name", name); (py "link", link)]), m').
Proof.
  unfold check_for_transcript_and_recording.
  destruct (Py.truthy meet_code); cbn [negb].
  - destruct (search_meeting_notes_run L drive_service event_summary
                event_time m) as (notes & Hrun & Hshape).
    rewrite (bind_ok _ _ _ _ _ Hrun).
    destruct Hshape as [-> | (id & name & link & ->)].
    + cbn [Py.truthy]. intros H. inversion H; subst. discriminate.
    + cbn [Py.truthy]. intros H _. inversion H; subst.
      exists id, name, link. split; [reflexivity | exact Hrun].
  - intros H. inversion H; subst. discriminate.
Qed.

(** The calls of a run of [get_meeting_notes] that succeeds, one after the
    other, each on the machine that the one before left. *)
Inductive notes_run {L : library} (event_id : str) (tc : tool_context)
    (m m' : machine L) (r : result) : Prop :=
| NotesRun (cal_service drive_service : service L) (m1 m2 m3 : machine L)
    (event summary start meet_link : pyval) (event_time : datetime L)
    (notes_id notes_name notes_link : pyval) (content : str)
    (run_services :
       get_authenticated_google_services L tc m =
       (Ok (Some (cal_service, drive_service)), m1))
    (run_event :
       call EventsGet (events_get L cal_service event_id) m1 = (Ok event, m2))
    (run_summary :
       Py.get event "summary" (PStr (py "No Title")) = Ok summary)
    (run_start : start_of event = Ok start)
    (run_link : Py.get event "hangoutLink" PNone = Ok meet_link)
    (run_meet : Py.truthy meet_link = true)
    (run_time : event_time_of L start = Ok event_time)
    (run_search :
       search_meeting_notes L drive_service summary event_time m2 =
       (Ok (PDict [ (py "id", notes_id); (py "name", notes_name);
                    (py "link", notes_link) ]), m3))
    (run_read :
       read_document_content L drive_service notes_id m3 =
       (Ok (PStr content), m'))
    (run_content :
       content =
       content_of (fst (export_text L drive_service notes_id (world m3))))
    (run_result : r = notes_result summary start content notes_link).

(** X15: A success of [get_meeting_notes] comes from one run of calls, each
    on the machine that the one before left: the services of the
    authentication, the event read from the calendar under the id given,
    the notes that [search_meeting_notes] found on the drive for the
    summary and the time of that event, and the download of the document
    of those notes. The result holds the summary and the start of that
    event, the content of the notes as a text and their link, and nothing
    else: no transcript. The content is what that download gave, or, when
    it failed, the text of its failure. The calls made were those of the
    authentication, then one for the event, one listing of the drive and
    one download. *)
Theorem meeting_notes_hold_notes_only (L : library) (event_id : str)
    (tc : tool_context) (m m' : machine L) (r : result) :
  get_meeting_notes L event_id tc m = (Ok r, m') ->
  is_success r ->
  notes_run event_id tc m m' r /\
  exists pre,
    forallb is_google pre = true /\
    trace m' = trace m ++ pre ++ [EventsGet; FilesList; ExportText].
Proof.
  intros H Hs. unfold get_meeting_notes in H. rewrite boundary_bind in H.
  destruct (google_services_trace L tc m) as (pre & Hp & Hq).
  destruct (get_authenticated_google_services L tc m)
    as [[[[cal drive] | ] | e] m1] eqn:Hserv; simpl in Hp;
    [ | inversion H; subst; discriminate | inversion H; subst; discriminate].
  rewrite boundary_bind in H.
  destruct (call EventsGet (events_get L cal event_id) m1)
    as [[event | e] m2] eqn:Hev;
    [ | inversion H; subst; discriminate].
  assert (Ht2 : trace m2 = trace m1 ++ [EventsGet]).
  { rewrite call_run in Hev. inversion Hev; subst. reflexivity. }
  rewrite boundary_lift in H.
  destruct (Py.get event "summary" (PStr (py "No Title")))
    as [summary | e] eqn:Hsum;
    [ | inversion H; subst; discriminate].
  rewrite boundary_lift in H.
  destruct (start_of event) as [start | e] eqn:Hstart;
    [ | inversion H; subst; discriminate].
  rewrite boundary_lift in H.
  destruct (Py.get event "hangoutLink" PNone) as [meet_link | e] eqn:Hlink;
    [ | inversion H; subst; discriminate].
  destruct (Py.truthy meet_link) eqn:Hmeet; cbn [negb] in H;
    [ | inversion H; subst; discriminate].
  rewrite boundary_lift in H.
  destruct (event_time_of L start) as [event_time | e] eqn:Htime;
    [ | inversion H; subst; discriminate].
  rewrite boundary_bind in H.
  destruct (check_for_transcript_and_recording L cal drive
              (get_meet_code meet_link) summary event_time m2)
    as [[v | e] m3] eqn:Hcheck;
    [ | inversion H; subst; discriminate].
  destruct (Py.truthy v) eqn:Hv; cbn [negb] in H;
    [ | inversion H; subst; discriminate].
  destruct (check_for_transcript_found L cal drive _ _ _ _ _ _ Hcheck Hv)
    as (id & name & link & -> & Hsearch).
  assert (Ht3 : trace m3 = trace m2 ++ [FilesList]).
  { destruct (search_meeting_notes_run L drive summary event_time m2)
      as (v' & Hrun & _).
    rewrite Hrun in Hsearch. inversion Hsearch; subst. reflexivity. }
  rewrite boundary_bind, attach_notes in H.
  rewrite (boundary_ok _ _ _ _ (attach_transcript L drive _ _ _)) in H.
  inversion H; subst r m'. clear H.
  split.
  - eapply (NotesRun event_id tc m _ _ cal drive m1 m2 m3 event summary
              start meet_link event_time id name link);
      try eassumption; try reflexivity.
    apply read_document_content_run.
  - exists pre. split; [exact Hq | ].
    cbn [trace]. rewrite Ht3, Ht2, Hp. now rewrite <- !app_assoc.
Qed.

Lemma meeting_notes_hold_notes_only_witness :
  notes_run (py "evt-1") ToolContext Office.first_day
    (snd (get_meeting_notes Office.office_library (py "evt-1") ToolContext
            Office.first_day))
    (notes_result (PStr (py "Daily standup"))
       (PStr (py "2025-10-02T09:00:00Z"))
       "Alice: Working on PROJ-42, almost done"
       (PStr (py "https://docs.example/doc-1"))) /\
  exists pre,
    forallb is_google pre = true /\
    trace (snd (get_meeting_notes Office.office_library (py "evt-1")
                  ToolContext Office.first_day)) =
    trace Office.first_day ++ pre ++ [EventsGet; FilesList; ExportText].
Proof.
  apply (meeting_notes_hold_notes_only Office.office_library (py "evt-1")
           ToolContext Office.first_day).
  - vm_compute. reflexivity.
  - reflexivity.
Defined.

(** *** The events listed *)

(** An event listed with its notes. *)
Definition listed_with_notes (info : pyval) : Prop :=
  exists id summary start notes_id notes_link,
    info = PDict [ (py "id", id); (py "summary", summary);
                   (py "start", start); (py "has_meet", PBool true);
                   (py "notes_id", notes_id);
                   (py "notes_link", notes_link) ].

(** An event listed as the calendar has it. *)
Definition listed_plain (info : pyval) : Prop :=
  exists id summary start has_meet,
    info = PDict [ (py "id", id); (py "summary", summary);
                   (py "start", start); (py "has_meet", PBool has_meet) ].

Definition listed (only_with_notes : bool) : pyval -> Prop :=
  if only_with_notes then listed_with_notes else listed_plain.

(** The listings of the drive among the calls made. *)
Definition listings (calls : list event) : Prop :=
  Forall (fun ev => ev = FilesList) calls.

(** What one turn of the loop adds: at most one event and, when notes are
    asked for, at most one listing of the drive. *)
Definition turn_ok {L : library} (only_with_notes : bool) (m m' : machine L)
    (new : list pyval) : Prop :=
  state m' = state m /\
  Forall (listed only_with_notes) new /\
  exists calls,
    trace m' = trace m ++ calls /\ listings calls /\
    length new <= 1 /\ length calls <= 1 /\ length new <= length calls + 
      (if only_with_notes then 0 else 1) /\
    (only_with_notes = false -> calls = [] /\ length new = 1).

Lemma event_step_run (L : library) cal_service drive_service only_with_notes
    result_events e (m : machine L) :
  match event_step L cal_service drive_service only_with_notes result_events
          e m with
  | (Ok events, m') =>
      exists new, events = result_events ++ new /\
                  turn_ok only_with_notes m m' new
  | (Raise _, m') =>
      state m' = state m /\
      exists calls,
        trace m' = trace m ++ calls /\ listings calls /\ length calls <= 1 /\
        (only_with_notes = false -> calls = [])
  end.
Proof.
  assert (Hraise :
            state m = state m /\
            exists calls,
              trace m = trace m ++ calls /\ listings calls /\
              length calls <= 1 /\ (only_with_notes = false -> calls = [])).
  { split; [reflexivity | ]. exists [].
    rewrite app_nil_r. repeat split; auto. constructor. }
  assert (Hskip : exists new,
            result_events = result_events ++ new /\
            turn_ok true m m new).
  { exists []. rewrite app_nil_r. split; [reflexivity | ].
    split; [reflexivity | ]. split; [constructor | ].
    exists []. rewrite app_nil_r. repeat split; auto; try constructor.
    discriminate. }
  unfold event_step.
  destruct (Py.get e "summary" (PStr (py "No Title"))) as [summary | err];
    [rewrite lift_bind | rewrite lift_raise_bind; exact Hraise].
  destruct (start_of e) as [start | err];
    [rewrite lift_bind | rewrite lift_raise_bind; exact Hraise].
  destruct (Py.get e "hangoutLink" PNone) as [meet_link | err];
    [rewrite lift_bind | rewrite lift_raise_bind; exact Hraise].
  destruct (Py.get e "id" PNone) as [id | err];
    [rewrite lift_bind | rewrite lift_raise_bind; exact Hraise].
  destruct only_with_notes; cbn [andb negb].
  - destruct (Py.truthy meet_link) eqn:Hmeet; [ | exact Hskip].
    destruct (event_time_of L start) as [event_time | err];
      [rewrite lift_bind | rewrite lift_raise_bind; exact Hraise].
    match goal with
    | |- context [check_for_transcript_and_recording L ?c ?d ?code ?s ?t] =>
        destruct (check_for_transcript_run L c d code s t m)
          as (v & m3 & Hrun & Hst & Hshape & _)
    end.
    rewrite (bind_ok _ _ _ _ _ Hrun).
    destruct Hshape as [[-> Htr] | (notes & (i & n & l & ->) & -> & Htr)].
    + cbn [Py.truthy]. exists []. rewrite app_nil_r. split; [reflexivity | ].
      split; [exact Hst | ]. split; [constructor | ].
      destruct Htr as [Htr | Htr].
      * exists []. rewrite app_nil_r. repeat split; auto; try constructor.
        discriminate.
      * exists [FilesList]. repeat split; auto; try discriminate.
        repeat constructor.
    + cbn [Py.truthy media_of].
      match goal with
      | |- context [attach_links ?media ?kind ?info] =>
          assert (H1 : attach_links media kind info =
                       Ok (info ++ [(py "notes_id", i); (py "notes_link", l)]))
            by reflexivity;
          rewrite H1, lift_bind
      end.
      match goal with
      | |- context [attach_links ?media ?kind ?info] =>
          assert (H2 : attach_links media kind info = Ok info)
            by reflexivity;
          rewrite H2, lift_bind
      end.
      eexists [_]. split; [reflexivity | ].
      split; [exact Hst | ]. split.
      * constructor; [ | constructor].
        exists id, summary, start, i, l. reflexivity.
      * exists [FilesList]. repeat split; auto; try discriminate.
        repeat constructor.
  - eexists [_]. split; [reflexivity | ].
    split; [reflexivity | ]. split.
    + constructor; [ | constructor].
      exists id, summary, start, (Py.truthy meet_link). reflexivity.
    + exists []. rewrite app_nil_r. repeat split; auto. constructor.
Qed.

Lemma events_run (L : library) cal_service drive_service only_with_notes
    items :
  forall result_events (m : machine L),
    match foldM (event_step L cal_service drive_service only_with_notes)
            items result_events m with
    | (Ok events, m') =>
        exists new calls,
          events = result_events ++ new /\
          state m' = state m /\
          Forall (listed only_with_notes) new /\
          trace m' = trace m ++ calls /\ listings calls /\
          length new <= length items /\
          (only_with_notes = true -> length new <= length calls) /\
          (only_with_notes = false ->
           calls = [] /\ length new = length items)
    | (Raise _, _) => True
    end.
Proof.
  induction items as [ | e items IH]; intros result_events m.
  - simpl. exists [], []. rewrite !app_nil_r.
    repeat split; auto; constructor.
  - cbn [foldM]. change (bind ?c ?f) with (c ≫= f).
    pose proof (event_step_run L cal_service drive_service only_with_notes
                  result_events e m) as Hstep.
    destruct (event_step L cal_service drive_service only_with_notes
                result_events e m) as [[events | err] m1] eqn:Hrun.
    2: { rewrite (bind_raise _ _ _ _ _ Hrun). exact I. }
    rewrite (bind_ok _ _ _ _ _ Hrun).
    destruct Hstep as (new1 & -> & Hst1 & Hl1 & calls1 & Ht1 & Hc1 & Hn1 &
                       Hk1 & Hle1 & Hoff1).
    specialize (IH (result_events ++ new1) m1).
    destruct (foldM (event_step L cal_service drive_service only_with_notes)
                items (result_events ++ new1) m1) as [[events | err] m2];
      [ | exact I].
    destruct IH as (new2 & calls2 & -> & Hst2 & Hl2 & Ht2 & Hc2 & Hn2 &
                    Hon2 & Hoff2).
    exists (new1 ++ new2), (calls1 ++ calls2).
    rewrite !length_app. cbn [length].
    split; [now rewrite app_assoc | ]. split; [congruence | ].
    split; [now apply List.Forall_app | ].
    split; [rewrite Ht2, Ht1; now rewrite app_assoc | ].
    split; [now apply List.Forall_app | ].
    split; [lia | ]. split.
    + intros Hon. specialize (Hon2 Hon). subst only_with_notes. lia.
    + intros Hoff. destruct (Hoff1 Hoff) as [-> Hlen1].
      destruct (Hoff2 Hoff) as [-> Hlen2]. split; [reflexivity | lia].
Qed.

(** A result of [fetch_calendar_events] that lists events. *)
Definition events_result (events : list pyval) : result :=
  [ (py "status", PStr (py "success"));
    (py "events", PList events);
    (py "count", PInt (Z.of_nat (length events))) ].

(** The entry of an event, as the loop builds it before it looks for
    notes. *)
Definition event_info_of (id summary start meet_link : pyval)
    : Dict.t pyval :=
  [ (py "id", id); (py "summary", summary); (py "start", start);
    (py "has_meet", PBool (Py.truthy meet_link)) ].

(** One turn of the loop of [fetch_calendar_events] on the item [e] of the
    calendar: the entries that it adds to the list, none or one, and the
    machine that it leaves. *)
Inductive event_turn {L : library} (cal_service drive_service : service L)
    (e : pyval) (m : machine L)
    : bool -> list pyval -> machine L -> Prop :=
| turn_plain (summary start meet_link id : pyval)
    (turn_summary : Py.get e "summary" (PStr (py "No Title")) = Ok summary)
    (turn_start : start_of e = Ok start)
    (turn_link : Py.get e "hangoutLink" PNone = Ok meet_link)
    (turn_id : Py.get e "id" PNone = Ok id) :
    event_turn cal_service drive_service e m false
      [PDict (event_info_of id summary start meet_link)] m
| turn_no_meeting (summary start meet_link id : pyval)
    (turn_summary : Py.get e "summary" (PStr (py "No Title")) = Ok summary)
    (turn_start : start_of e = Ok start)
    (turn_link : Py.get e "hangoutLink" PNone = Ok meet_link)
    (turn_id : Py.get e "id" PNone = Ok id)
    (turn_meet : Py.truthy meet_link = false) :
    event_turn cal_service drive_service e m true [] m
| turn_no_notes (summary start meet_link id : pyval)
    (event_time : datetime L) (m1 : machine L)
    (turn_summary : Py.get e "summary" (PStr (py "No Title")) = Ok summary)
    (turn_start : start_of e = Ok start)
    (turn_link : Py.get e "hangoutLink" PNone = Ok meet_link)
    (turn_id : Py.get e "id" PNone = Ok id)
    (turn_meet : Py.truthy meet_link = true)
    (turn_time : event_time_of L start = Ok event_time)
    (turn_check :
       check_for_transcript_and_recording L cal_service drive_service
         (get_meet_code meet_link) summary event_time m = (Ok PNone, m1)) :
    event_turn cal_service drive_service e m true [] m1
| turn_notes (summary start meet_link id : pyval)
    (event_time : datetime L) (m1 : machine L)
    (notes_id notes_name notes_link : pyval)
    (turn_summary : Py.get e "summary" (PStr (py "No Title")) = Ok summary)
    (turn_start : start_of e = Ok start)
    (turn_link : Py.get e "hangoutLink" PNone = Ok meet_link)
    (turn_id : Py.get e "id" PNone = Ok id)
    (turn_meet : Py.truthy meet_link = true)
    (turn_time : event_time_of L start = Ok event_time)
    (turn_check :
       check_for_transcript_and_recording L cal_service drive_service
         (get_meet_code meet_link) summary event_time m =
       (Ok (media_of (PDict [ (py "id", notes_id); (py "name", notes_name);
                              (py "link", notes_link) ])), m1))
    (turn_search :
       search_meeting_notes L drive_service summary event_time m =
       (Ok (PDict [ (py "id", notes_id); (py "name", notes_name);
                    (py "link", notes_link) ]), m1)) :
    event_turn cal_service drive_service e m true
      [PDict (event_info_of id summary start meet_link ++
              [ (py "notes_id", notes_id); (py "notes_link", notes_link) ])]
      m1.

(** The turns of the loop over the items of the calendar, in their order. *)
Inductive events_listed_from {L : library}
    (cal_service drive_service : service L) (only_with_notes : bool)
    : list pyval -> machine L -> list pyval -> machine L -> Prop :=
| listed_none (m : machine L) :
    events_listed_from cal_service drive_service only_with_notes [] m [] m
| listed_next (e : pyval) (items : list pyval) (m m1 m' : machine L)
    (new entries : list pyval)
    (this_turn :
       event_turn cal_service drive_service e m only_with_notes new m1)
    (later_turns :
       events_listed_from cal_service drive_service only_with_notes items m1
         entries m') :
    events_listed_from cal_service drive_service only_with_notes
      (e :: items) m (new ++ entries) m'.

Lemma lift_inv {L : library} {A B : Type} (o : outcome A) (f : A -> M L B)
    (m m' : machine L) b :
  (lift o ≫= f) m = (Ok b, m') -> exists a, o = Ok a /\ f a m = (Ok b, m').
Proof.
  destruct o as [a | e]; [rewrite lift_bind; eauto | ].
  rewrite lift_raise_bind. discriminate.
Qed.

Lemma event_step_turn (L : library) cal_service drive_service only_with_notes
    result_events e (m m1 : machine L) events :
  event_step L cal_service drive_service only_with_notes result_events e m =
    (Ok events, m1) ->
  exists new,
    events = result_events ++ new /\
    event_turn cal_service drive_service e m only_with_notes new m1.
Proof.
  unfold event_step. intros H.
  apply lift_inv in H as (summary & Hsum & H).
  apply lift_inv in H as (start & Hstart & H).
  apply lift_inv in H as (meet_link & Hlink & H).
  apply lift_inv in H as (id & Hid & H).
  destruct only_with_notes; cbn [andb negb] in H.
  - destruct (Py.truthy meet_link) eqn:Hmeet.
    + apply lift_inv in H as (event_time & Htime & H).
      apply bind_inv in H as (media & m2 & Hcheck & H).
      destruct (Py.truthy media) eqn:Hmedia.
      * destruct (check_for_transcript_found L _ _ _ _ _ _ _ _ Hcheck Hmedia)
          as (nid & name & link & -> & Hsearch).
        exists [PDict (event_info_of id summary start meet_link ++
                       [ (py "notes_id", nid); (py "notes_link", link) ])].
        split.
        { unfold event_info_of. rewrite Hmeet. inversion H; reflexivity. }
        assert (m2 = m1) as -> by (inversion H; reflexivity).
        apply (turn_notes cal_service drive_service e m summary start
                 meet_link id event_time m1 nid name link);
          assumption.
      * inversion H; subst events m2. exists []. rewrite app_nil_r.
        split; [reflexivity | ].
        assert (media = PNone) as ->.
        { destruct (check_for_transcript_run L cal_service drive_service
                      (get_meet_code meet_link) summary event_time m)
            as (v & m3 & Hrun & _ & Hshape & _).
          rewrite Hrun in Hcheck. inversion Hcheck; subst v m3.
          destruct Hshape as [[-> _] | (notes & _ & -> & _)];
            [reflexivity | discriminate]. }
        apply (turn_no_notes cal_service drive_service e m summary start
                 meet_link id event_time m1);
          assumption.
    + inversion H; subst events m1. exists []. rewrite app_nil_r.
      split; [reflexivity | ].
      apply (turn_no_meeting cal_service drive_service e m summary start
               meet_link id);
        assumption.
  - inversion H; subst events m1.
    exists [PDict (event_info_of id summary start meet_link)].
    split; [reflexivity | ].
    apply (turn_plain cal_service drive_service e m summary start
             meet_link id);
      assumption.
Qed.

Lemma events_listed (L : library) cal_service drive_service only_with_notes
    items :
  forall result_events (m m' : machine L) events,
    foldM (event_step L cal_service drive_service only_with_notes) items
      result_events m = (Ok events, m') ->
    exists entries,
      events = result_events ++ entries /\
      events_listed_from cal_service drive_service only_with_notes items m
        entries m'.
Proof.
  induction items as [ | e items IH]; intros result_events m m' events H.
  - cbn [foldM] in H. inversion H; subst. exists [].
    rewrite app_nil_r. split; [reflexivity | constructor].
  - cbn [foldM] in H. change (bind ?c ?f) with (c ≫= f) in H.
    apply bind_inv in H as (events1 & m1 & Hstep & H).
    apply event_step_turn in Hstep as (new & -> & Hturn).
    apply IH in H as (entries & -> & Hrest).
    exists (new ++ entries). split; [now rewrite app_assoc | ].
    econstructor; eassumption.
Qed.

(** X16: A success of [fetch_calendar_events] comes from one run: the
    services of the authentication, one listing of the calendar from the
    start of the window to the present, and one turn of the loop per item
    of that listing, in order, each on the machine that the one before
    left. The result holds the entries that these turns added and their
    number. When notes are not asked for, every item gives an entry with
    its id, summary, start and whether it has a meeting link, and the
    drive is not touched. When they are, an item gives an entry only if
    it has a meeting link and [check_for_transcript_and_recording] found
    notes for its summary and time on the drive, and the entry carries in
    addition the id and the link of those notes, never a transcript; the
    drive was listed at least once per entry. The calendar is asked once,
    after the calls of the authentication, and nothing is downloaded. *)
Theorem calendar_events_listed (L : library) (days_back : Z)
    (only_with_notes : bool) (tc : tool_context) (m m' : machine L)
    (r : result) :
  fetch_calendar_events L days_back only_with_notes tc m = (Ok r, m') ->
  is_success r ->
  exists cal_service drive_service m1 m2 start_date answer events items
         entries pre calls,
    get_authenticated_google_services L tc m =
      (Ok (Some (cal_service, drive_service)), m1) /\
    window_start L (now_sydney L (world m1)) days_back = Ok start_date /\
    call EventsList
      (events_list L cal_service start_date (now_sydney L (world m1))) m1 =
      (Ok answer, m2) /\
    Py.get answer "items" (PList []) = Ok events /\
    Py.iterate events = Ok items /\
    events_listed_from cal_service drive_service only_with_notes items m2
      entries m' /\
    r = events_result entries /\
    Forall (listed only_with_notes) entries /\
    length entries <= length items /\
    forallb is_google pre = true /\
    trace m' = trace m ++ pre ++ [EventsList] ++ calls /\
    listings calls /\
    (only_with_notes = true -> length entries <= length calls) /\
    (only_with_notes = false ->
     calls = [] /\ length entries = length items).
Proof.
  intros H Hs. unfold fetch_calendar_events in H. rewrite boundary_bind in H.
  destruct (google_services_trace L tc m) as (pre & Hp & Hq).
  destruct (get_authenticated_google_services L tc m)
    as [[[[cal drive] | ] | e] m1] eqn:Hserv; simpl in Hp;
    [ | inversion H; subst; discriminate | inversion H; subst; discriminate].
  rewrite boundary_bind in H. unfold read at 1 in H.
  rewrite boundary_lift in H.
  destruct (window_start L (now_sydney L (world m1)) days_back)
    as [start_date | e] eqn:Hwin; [ | inversion H; subst; discriminate].
  rewrite boundary_bind in H.
  destruct (call EventsList
              (events_list L cal start_date (now_sydney L (world m1))) m1)
    as [[answer | e] m2] eqn:Hlist;
    [ | inversion H; subst; discriminate].
  assert (Ht2 : trace m2 = trace m1 ++ [EventsList]).
  { rewrite call_run in Hlist. inversion Hlist; subst. reflexivity. }
  rewrite boundary_lift in H.
  destruct (Py.get answer "items" (PList [])) as [events | e] eqn:Hitems;
    [ | inversion H; subst; discriminate].
  rewrite boundary_lift in H.
  destruct (Py.iterate events) as [items | e] eqn:Hiter;
    [ | inversion H; subst; discriminate].
  rewrite boundary_bind in H.
  pose proof (events_run L cal drive only_with_notes items [] m2) as Hrun.
  destruct (foldM (event_step L cal drive only_with_notes) items [] m2)
    as [[listed_events | e] m3] eqn:Hfold;
    [ | inversion H; subst; discriminate].
  destruct Hrun as (new & calls & Hev & Hst & Hl & Ht & Hc & Hn & Hon & Hoff).
  simpl in Hev. subst listed_events.
  apply events_listed in Hfold as (entries & Hentries & Hfrom).
  simpl in Hentries. subst new.
  inversion H; subst r m'. clear H.
  exists cal, drive, m1, m2, start_date, answer, events, items, entries, pre,
    calls.
  repeat (split; [first [assumption | reflexivity] | ]).
  split.
  - rewrite Ht, Ht2, Hp. now rewrite <- !app_assoc.
  - split; [exact Hc | ]. split; [exact Hon | ].
    intros Hoff'. now apply Hoff.
Qed.

Definition office_listing : machine Office.office_library :=
  snd (fetch_calendar_events Office.office_library 7 true ToolContext
         Office.first_day).

Definition office_entry : pyval :=
  PDict [ (py "id", PStr (py "evt-1"));
          (py "summary", PStr (py "Daily standup"));
          (py "start", PStr (py "2025-10-02T09:00:00Z"));
          (py "has_meet", PBool true);
          (py "notes_id", PStr (py "doc-1"));
          (py "notes_link", PStr (py "https://docs.example/doc-1")) ].

Lemma calendar_events_listed_witness :
  exists cal_service drive_service m1 m2 start_date answer events items
         entries pre calls,
    get_authenticated_google_services Office.office_library ToolContext
      Office.first_day =
      (Ok (Some (cal_service, drive_service)), m1) /\
    window_start Office.office_library
      (now_sydney Office.office_library (world m1)) 7 = Ok start_date /\
    call EventsList
      (events_list Office.office_library cal_service start_date
         (now_sydney Office.office_library (world m1))) m1 =
      (Ok answer, m2) /\
    Py.get answer "items" (PList []) = Ok events /\
    Py.iterate events = Ok items /\
    events_listed_from cal_service drive_service true items m2 entries
      office_listing /\
    events_result [office_entry] = events_result entries /\
    Forall (listed true) entries /\
    length entries <= length items /\
    forallb is_google pre = true /\
    trace office_listing =
      trace Office.first_day ++ pre ++ [EventsList] ++ calls /\
    listings calls /\
    (true = true -> length entries <= length calls) /\
    (true = false -> calls = [] /\ length entries = length items).
Proof.
  apply (calendar_events_listed Office.office_library 7 true ToolContext
           Office.first_day).
  - vm_compute. reflexivity.
  - reflexivity.
Defined.

End MeetingTools.

(** ** Pending results *)

Module Pending.

Import PyStr Utils Tools Session Frames OperationFacts Runs NotesFacts
  TicketTools MeetingTools SessionClaims.

(** How [get_authenticated_google_services] ends: without services right
    after it asked for a credential, with services right after it built
    them. *)
Definition services_end {L : library}
    (services : option (service L * service L)) (calls : list event) : Prop :=
  match services with
  | None => exists pre, calls = pre ++ [RequestCredential google]
  | Some _ =>
      exists pre,
        calls = pre ++ [BuildService (py "calendar"); BuildService (py "drive")]
  end.

Lemma google_services_end (L : library) tc (m m' : machine L) services :
  get_authenticated_google_services L tc m = (Ok services, m') ->
  services_end services (trace m').
Proof.
  destruct tc; [discriminate | ].
  unfold get_authenticated_google_services. intros H.
  apply bind_inv in H as (info & m1 & _ & H).
  apply bind_inv in H as (creds & m2 & _ & H).
  apply bind_inv in H as (stale & m3 & _ & H).
  apply bind_inv in H as (creds' & m4 & _ & H).
  apply bind_inv in H as (stale' & m5 & _ & H).
  assert (Hask : (ask_credential ToolContext google ≫=
                  (fun _ => mret None : M L (option (service L * service L))))
                   m5 = (Ok services, m') ->
                 services_end services (trace m')).
  { intros Ha. apply bind_inv in Ha as ([] & m6 & Hcall & Hret).
    inversion Hret; subst. unfold ask_credential, attr in Hcall.
    change (bind (ret tt) ?f) with (ret tt ≫= f) in Hcall.
    apply bind_inv in Hcall as ([] & m7 & Hr & Hcall).
    inversion Hr; subst. rewrite call_run in Hcall. inversion Hcall; subst.
    simpl. eauto. }
  destruct creds' as [c | ]; [ | now apply Hask].
  destruct stale'; [now apply Hask | ].
  apply bind_inv in H as (cal & m6 & Hc1 & H).
  apply bind_inv in H as (drive & m7 & Hc2 & H).
  inversion H; subst. rewrite call_run in Hc1, Hc2.
  inversion Hc1; subst. inversion Hc2; subst. simpl.
  exists (trace m5). now rewrite <- app_assoc.
Qed.

(** How [get_jira_auth] ends when what it returns does not count as a
    token: it asked for a credential, or the credential it was given
    holds no token, and that was stored. *)
Definition asked_for_token {L : library} (m m' : machine L) : Prop :=
  (trace m' = trace m ++ [GetAuthResponse jira; RequestCredential jira] /\
   state m' = state m) \/
  (trace m' = trace m ++ [GetAuthResponse jira] /\
   exists v, Py.truthy v = false /\
             state m' = <[JIRA_TOKEN_CACHE_KEY := v]> (state m)).

Lemma get_jira_auth_falsy (L : library) tc (m m' : machine L) v :
  get_jira_auth L tc m = (Ok v, m') -> Py.truthy v = false ->
  asked_for_token m m'.
Proof.
  destruct tc; [discriminate | ].
  unfold get_jira_auth. intros H Hv.
  apply bind_inv in H as (cached_token & m1 & Hget & H).
  unfold state_get, attr in Hget.
  change (bind (ret tt) ?f) with (ret tt ≫= f) in Hget.
  apply bind_inv in Hget as ([] & m0 & Hr & Hget).
  inversion Hr; subst m0. inversion Hget; subst m1. clear Hr Hget.
  destruct (Py.truthy cached_token) eqn:Hc.
  { inversion H; subst. congruence. }
  apply bind_inv in H as (exchanged & m1 & Hask & H).
  unfold ask_auth_response, attr in Hask.
  change (bind (ret tt) ?f) with (ret tt ≫= f) in Hask.
  apply bind_inv in Hask as ([] & m0 & Hr & Hask).
  inversion Hr; subst m0. rewrite call_run in Hask. inversion Hask; subst m1.
  clear Hr.
  destruct exchanged as [credential | ].
  - apply bind_inv in H as (o & m2 & Ho & H).
    unfold lift in Ho. inversion Ho; subst m2.
    apply bind_inv in H as ([] & m3 & Hset & H).
    inversion H; subst. unfold state_set, attr in Hset.
    change (bind (ret tt) ?f) with (ret tt ≫= f) in Hset.
    apply bind_inv in Hset as ([] & m0 & Hr & Hset).
    inversion Hr; subst m0. inversion Hset; subst.
    right. simpl. split; [reflexivity | eauto].
  - apply bind_inv in H as ([] & m2 & Hcall & H).
    inversion H; subst. unfold ask_credential, attr in Hcall.
    change (bind (ret tt) ?f) with (ret tt ≫= f) in Hcall.
    apply bind_inv in Hcall as ([] & m0 & Hr & Hcall).
    inversion Hr; subst m0. rewrite call_run in Hcall. inversion Hcall; subst.
    left. simpl. split; [now rewrite <- app_assoc | reflexivity].
Qed.

Ltac fails_not_pending H :=
  inversion H; subst; discriminate.

(** X17: A pending result follows the attempt to obtain a credential. From the
    calendar and notes tools it comes right after the request for a Google
    credential. From the ticket tools it comes after one attempt at the
    exchange: either no credential was given and one was requested, or the
    credential given holds no token, which was stored as it is; nothing
    else was called. In each case the result is the fixed message of the
    provider. *)
Theorem pending_follows_the_exchange (L : library) :
  (forall days_back only_with_notes tc (m m' : machine L) r,
     fetch_calendar_events L days_back only_with_notes tc m = (Ok r, m') ->
     is_pending r ->
     r = awaiting_google /\
     exists pre, trace m' = pre ++ [RequestCredential google]) /\
  (forall event_id tc (m m' : machine L) r,
     get_meeting_notes L event_id tc m = (Ok r, m') ->
     is_pending r ->
     r = awaiting_google /\
     exists pre, trace m' = pre ++ [RequestCredential google]) /\
  (forall ticket_keys tc (m m' : machine L) r,
     validate_jira_tickets L ticket_keys tc m = (Ok r, m') ->
     is_pending r ->
     r = awaiting_jira /\ asked_for_token m m') /\
  (forall ticket_key adf_comment tc (m m' : machine L) r,
     post_jira_comment L ticket_key adf_comment tc m = (Ok r, m') ->
     is_pending r ->
     r = awaiting_jira /\ asked_for_token m m').
Proof.
  split; [ | split; [ | split]].
  - intros days_back only_with_notes tc m m' r H Hp.
    unfold fetch_calendar_events in H. rewrite boundary_bind in H.
    destruct (get_authenticated_google_services L tc m)
      as [[[[cal drive] | ] | e] m1] eqn:Hserv;
      [ | | fails_not_pending H].
    2: { inversion H; subst. split; [reflexivity | ].
         exact (google_services_end L tc m m' None Hserv). }
    exfalso.
    rewrite boundary_bind in H. unfold read at 1 in H.
    rewrite boundary_lift in H.
    destruct (window_start L (now_sydney L (world m1)) days_back)
      as [start_date | e]; [ | fails_not_pending H].
    rewrite boundary_call in H.
    match type of H with
    | context [fst ?X] =>
        destruct (fst X) as [events_result | e]; [ | fails_not_pending H]
    end.
    rewrite boundary_lift in H.
    destruct (Py.get events_result "items" (PList [])) as [events | e];
      [ | fails_not_pending H].
    rewrite boundary_lift in H.
    destruct (Py.iterate events) as [items | e]; [ | fails_not_pending H].
    rewrite boundary_bind in H.
    match type of H with
    | context [foldM ?f items [] ?m0] =>
        destruct (foldM f items [] m0) as [[listed_events | e] m2];
          fails_not_pending H
    end.
  - intros event_id tc m m' r H Hp.
    unfold get_meeting_notes in H. rewrite boundary_bind in H.
    destruct (get_authenticated_google_services L tc m)
      as [[[[cal drive] | ] | e] m1] eqn:Hserv;
      [ | | fails_not_pending H].
    2: { inversion H; subst. split; [reflexivity | ].
         exact (google_services_end L tc m m' None Hserv). }
    exfalso.
    rewrite boundary_call in H.
    destruct (fst (events_get L cal event_id (world m1))) as [event | e];
      [ | fails_not_pending H].
    rewrite boundary_lift in H.
    destruct (Py.get event "summary" (PStr (py "No Title"))) as [summary | e];
      [ | fails_not_pending H].
    rewrite boundary_lift in H.
    destruct (start_of event) as [start | e]; [ | fails_not_pending H].
    rewrite boundary_lift in H.
    destruct (Py.get event "hangoutLink" PNone) as [meet_link | e];
      [ | fails_not_pending H].
    destruct (Py.truthy meet_link); cbn [negb] in H; [ | fails_not_pending H].
    rewrite boundary_lift in H.
    destruct (event_time_of L start) as [event_time | e];
      [ | fails_not_pending H].
    rewrite boundary_bind in H.
    match type of H with
    | context [check_for_transcript_and_recording L ?c ?d ?code ?s ?t ?m0] =>
        destruct (check_for_transcript_run L c d code s t m0)
          as (v & m3 & Hrun & Hst & Hshape & _)
    end.
    rewrite Hrun in H.
    destruct Hshape as [[-> Htr] | (notes & (id & name & link & ->) & -> & Htr)];
      [fails_not_pending H | ].
    cbn [Py.truthy media_of negb] in H.
    rewrite boundary_bind, attach_notes in H.
    rewrite (boundary_ok _ _ _ _ (attach_transcript L drive _ _ _)) in H.
    fails_not_pending H.
  - intros ticket_keys tc m m' r H Hp.
    unfold validate_jira_tickets in H. rewrite boundary_bind in H.
    destruct (get_jira_auth L tc m) as [[token | e] m1] eqn:Hauth;
      [ | fails_not_pending H].
    destruct (Py.truthy token) eqn:Ht; cbn [negb] in H.
    2: { inversion H; subst. split; [reflexivity | ].
         exact (get_jira_auth_falsy L tc m m' token Hauth Ht). }
    exfalso. rewrite boundary_bind in H.
    destruct (get_jira_cloud_id L token tc m1) as [[c | e] m2];
      [ | fails_not_pending H].
    destruct (Py.truthy c); cbn [negb] in H; [ | fails_not_pending H].
    rewrite boundary_bind in H.
    destruct (validate_all_run L c token ticket_keys [] m2)
      as (entries & m3 & Hf & _).
    rewrite Hf in H. fails_not_pending H.
  - intros ticket_key adf_comment tc m m' r H Hp.
    unfold post_jira_comment in H. rewrite boundary_bind in H.
    destruct (get_jira_auth L tc m) as [[token | e] m1] eqn:Hauth;
      [ | fails_not_pending H].
    destruct (Py.truthy token) eqn:Ht; cbn [negb] in H.
    2: { inversion H; subst. split; [reflexivity | ].
         exact (get_jira_auth_falsy L tc m m' token Hauth Ht). }
    exfalso. rewrite boundary_bind in H.
    destruct (get_jira_cloud_id L token tc m1) as [[c | e] m2];
      [ | fails_not_pending H].
    destruct (Py.truthy c); cbn [negb] in H; [ | fails_not_pending H].
    destruct (post_after_credentials L ticket_key adf_comment c token m2)
      as (r' & Hrun & _ & _ & Hnp).
    match type of H with
    | ?X = _ =>
        match type of Hrun with
        | _ = ?Y => assert (HX : X = Y) by exact Hrun
        end
    end.
    rewrite HX in H. inversion H; subst. now apply Hnp.
Qed.

Lemma pending_follows_the_exchange_witness :
  (awaiting_google = awaiting_google /\
   exists pre,
     trace (snd (fetch_calendar_events sample_library 7 true ToolContext
                   fresh_session)) = pre ++ [RequestCredential google]) /\
  (awaiting_jira = awaiting_jira /\
   asked_for_token fresh_session
     (snd (validate_jira_tickets sample_library [py "PROJ-42"] ToolContext
             fresh_session))).
Proof.
  destruct (pending_follows_the_exchange sample_library) as (H1 & _ & H3 & _).
  split.
  - apply (H1 7%Z true ToolContext fresh_session); reflexivity.
  - apply (H3 [py "PROJ-42"] ToolContext fresh_session); reflexivity.
Defined.

End Pending.

(** ** Calls without a tool context *)

Module Edges.

Import PyStr Utils Tools Session.

(** The error of an attribute read on [None]. *)
Definition no_state : result :=
  error_result "'NoneType' object has no attribute 'state'".

(** The four tools open their [try] block with [from .config import ...].
    When the module is loaded the statement does nothing; otherwise it runs
    the module, which calls [load_oauth_credentials] and may raise.
    [entered imported tool] is the tool of the program whose import has the
    outcome [imported], [tool] being the rest of the [try] block inside the
    same handler. *)
Definition entered {L : library} (imported : outcome unit)
    (tool : M L result) : M L result :=
  fun m =>
    match imported with
    | Ok _ => tool m
    | Raise e => (Ok (error_result e), m)
    end.

(** The import of [config] when the module is not loaded yet. *)
Definition import_config (CREDENTIALS_PATH : str)
    (file : option (outcome pyval)) : outcome unit :=
  _ ← load_oauth_credentials CREDENTIALS_PATH file; Ok tt.

(** The answer of a tool that is called without a tool context. *)
Definition answer_without_context (imported : outcome unit) : result :=
  match imported with
  | Ok _ => no_state
  | Raise e => error_result e
  end.

Lemma entered_boundary {L : library} (imported : outcome unit)
    (body : M L result) (m : machine L) :
  boundary (_ ← lift imported; body) m = entered imported (boundary body) m.
Proof.
  unfold entered, boundary, try_except, lift, mbind, M_bind, bind.
  destruct imported as [[] | e]; reflexivity.
Qed.

(** X18: The four tools that take a tool context import [config] and then
    read the state of the context, inside their handler. Called without a
    context (the default of the parameter) they return an error, call no
    service and leave the machine as it is: the error of the import when
    the import raises, as it does when the credentials file is missing,
    and otherwise the error of the attribute read on [None]. They do not
    return a pending result. *)
Theorem tools_need_a_tool_context (L : library) (m : machine L)
    (imported : outcome unit) :
  (forall (body : M L result),
     boundary (_ ← lift imported; body) m =
     entered imported (boundary body) m) /\
  (forall days_back only_with_notes,
     entered imported
       (fetch_calendar_events L days_back only_with_notes NoToolContext) m =
     (Ok (answer_without_context imported), m)) /\
  (forall event_id,
     entered imported (get_meeting_notes L event_id NoToolContext) m =
     (Ok (answer_without_context imported), m)) /\
  (forall ticket_keys,
     entered imported (validate_jira_tickets L ticket_keys NoToolContext) m =
     (Ok (answer_without_context imported), m)) /\
  (forall ticket_key adf_comment,
     entered imported
       (post_jira_comment L ticket_key adf_comment NoToolContext) m =
     (Ok (answer_without_context imported), m)) /\
  status_of (answer_without_context imported) = Some (PStr (py "error")) /\
  answer_without_context (Ok tt) = no_state /\
  (forall path,
     answer_without_context (import_config path None) =
     error_result (py "credentials.json not found at " ++ path)).
Proof.
  split; [intros body; apply entered_boundary | ].
  destruct imported as [[] | e]; repeat split.
Qed.

End Edges.

(** ** The contexts of a transcript, key by key *)

Module ContextKeys.

Import PyStr Re Utils Tools ReFacts KeyFacts DictFacts ExtractFacts Runs
  Aggregation.

(** The keys in order of first mention. *)
Definition add_key (acc : list str) (k : str) : list str :=
  if existsb (PyStr.eqb k) acc then acc else acc ++ [k].

Definition first_mentions (ks : list str) : list str :=
  fold_left add_key ks [].

Lemma existsb_eqb_In k (l : list str) :
  existsb (PyStr.eqb k) l = true <-> In k l.
Proof.
  rewrite existsb_exists. split.
  - intros (x & Hx & Heq). apply eqb_eq in Heq. now subst.
  - intros H. exists k. split; [exact H | now apply eqb_eq].
Qed.

Lemma keys_set_add {V : Type} (k : str) (v : V) (d : Dict.t V) :
  Dict.keys (Dict.set k v d) = add_key (Dict.keys d) k.
Proof.
  unfold add_key. destruct (existsb (PyStr.eqb k) (Dict.keys d)) eqn:H.
  - apply existsb_eqb_In in H. apply keys_set_old.
    intros Hn. apply get_None_keys in Hn. contradiction.
  - apply keys_set_new. apply get_None_keys. intros Hin.
    apply existsb_eqb_In in Hin. congruence.
Qed.

Lemma add_key_NoDup acc k : List.NoDup acc -> List.NoDup (add_key acc k).
Proof.
  intros H. unfold add_key.
  destruct (existsb (PyStr.eqb k) acc) eqn:He; [exact H | ].
  apply List.NoDup_app; auto.
  - repeat constructor. intros [].
  - intros a Ha [<- | []]. apply existsb_eqb_In in Ha. congruence.
Qed.

Lemma fold_add_key_NoDup ks :
  forall acc, List.NoDup acc -> List.NoDup (fold_left add_key ks acc).
Proof.
  induction ks as [ | k ks IH]; intros acc H; simpl; [exact H | ].
  apply IH. now apply add_key_NoDup.
Qed.

(** What a context holds of a mention. *)
Definition context_of (t : mention) (ctx : ticket_context) : Prop :=
  ctx_confidence ctx = confidence t /\ ctx_type ctx = type t /\
  ctx_mentions ctx = [].

Lemma tickets_loop_keys speakers tickets :
  forall contexts final,
    ofold (ticket_step speakers) tickets contexts = Ok final ->
    Dict.keys final =
      fold_left add_key (map key tickets) (Dict.keys contexts) /\
    forall k ctx,
      Dict.get k final = Some ctx ->
      Dict.get k contexts = Some ctx \/
      exists t, In t tickets /\ key t = k /\ context_of t ctx.
Proof.
  induction tickets as [ | t rest IH]; intros contexts final H.
  - inversion H; subst. split; [reflexivity | auto].
  - cbn [ofold] in H. apply obind_inv in H as (next & Hstep & H).
    unfold ticket_step in Hstep.
    apply obind_inv in Hstep as (found & _ & Hstep). inversion Hstep; subst next.
    destruct (IH _ _ H) as [Hkeys Hvals]. split.
    + rewrite Hkeys, keys_set_add. reflexivity.
    + intros k ctx Hget. destruct (Hvals k ctx Hget) as [Hold | (t' & Hin & Hk & Hc)].
      * destruct (PyStr.eqb (key t) k) eqn:Hk.
        -- apply eqb_eq in Hk. subst k. rewrite get_set_eq in Hold.
           inversion Hold; subst ctx. right. exists t.
           split; [now left | ]. repeat split.
        -- apply eqb_neq in Hk. rewrite (get_set_ne _ _ _ _ Hk) in Hold.
           now left.
      * right. exists t'. split; [now right | auto].
Qed.

(** Two mentions of the result that carry the same key are the same
    mention. *)
Lemma same_key_same_mention text default_project t1 t2 :
  In t1 (extract_ticket_keys text default_project) ->
  In t2 (extract_ticket_keys text default_project) ->
  key t1 = key t2 -> t1 = t2.
Proof.
  destruct (extract_structure text default_project)
    as (partial & spoken & E & _ & P & S & NP & NS & FP & FS).
  rewrite E, full_tier_map.
  assert (Hfull : forall t, In t (map full_mention
                                    (finditer false full_pattern text)) ->
                            t = Mention (key t) high full_key).
  { intros t Ht. apply in_map_iff in Ht as (m & <- & _). reflexivity. }
  assert (Hinj : forall l (a b : mention),
            List.NoDup (keys l) -> In a l -> In b l -> key a = key b -> a = b).
  { induction l as [ | x l IHl]; intros a b Hnd Ha Hb Hk; [destruct Ha | ].
    simpl in Hnd. inversion Hnd as [ | ? ? Hx Hnd']; subst.
    destruct Ha as [Ha | Ha], Hb as [Hb | Hb].
    - congruence.
    - exfalso. apply Hx. subst x. rewrite Hk. unfold keys. now apply in_map.
    - exfalso. apply Hx. subst x. rewrite <- Hk. unfold keys. now apply in_map.
    - now apply IHl. }
  assert (Hp : forall t, In t partial ->
                 ~ In (key t) (keys (map full_mention
                                       (finditer false full_pattern text)))).
  { intros t Ht. apply key_emitted_false. rewrite <- full_tier_map.
    now apply FP. }
  assert (Hs : forall t, In t spoken ->
                 ~ In (key t) (keys (map full_mention
                                       (finditer false full_pattern text) ++
                                     partial))).
  { intros t Ht. apply key_emitted_false. rewrite <- full_tier_map.
    now apply FS. }
  intros H1 H2 Hk.
  apply in_app_or in H1 as [H1 | H1]; apply in_app_or in H2 as [H2 | H2].
  - rewrite (Hfull _ H1), (Hfull _ H2). simpl. now rewrite Hk.
  - exfalso. apply in_app_or in H2 as [H2 | H2].
    + apply (Hp _ H2). rewrite <- Hk. unfold keys. now apply in_map.
    + apply (Hs _ H2). rewrite <- Hk. unfold keys. rewrite map_app.
      apply in_or_app. left. now apply in_map.
  - exfalso. apply in_app_or in H1 as [H1 | H1].
    + apply (Hp _ H1). rewrite Hk. unfold keys. now apply in_map.
    + apply (Hs _ H1). rewrite Hk. unfold keys. rewrite map_app.
      apply in_or_app. left. now apply in_map.
  - apply in_app_or in H1 as [H1 | H1]; apply in_app_or in H2 as [H2 | H2].
    + now apply (Hinj partial).
    + exfalso. apply (Hs _ H2). rewrite <- Hk. unfold keys. rewrite map_app.
      apply in_or_app. right. now apply in_map.
    + exfalso. apply (Hs _ H1). rewrite Hk. unfold keys. rewrite map_app.
      apply in_or_app. right. now apply in_map.
    + now apply (Hinj spoken).
Qed.

(** X19: The contexts of a transcript hold one entry per key, in the order in
    which the keys are first mentioned; the entry of a key carries the
    confidence and the type of the mention of that key, and its list of
    mentions is empty. Two mentions with the same key are two full-key
    mentions of it, so the entry does not depend on which one is read. *)
Theorem contexts_follow_first_mentions (text default_project : str) :
  exists contexts,
    group_by_ticket (extract_ticket_keys text default_project)
      (parse_speakers text) = Ok contexts /\
    Dict.keys contexts =
      first_mentions (map key (extract_ticket_keys text default_project)) /\
    List.NoDup (Dict.keys contexts) /\
    (forall t ctx,
       In t (extract_ticket_keys text default_project) ->
       Dict.get (key t) contexts = Some ctx -> context_of t ctx) /\
    (forall t1 t2,
       In t1 (extract_ticket_keys text default_project) ->
       In t2 (extract_ticket_keys text default_project) ->
       key t1 = key t2 -> t1 = t2).
Proof.
  destruct (group_by_ticket_total text default_project) as [contexts Hc].
  exists contexts. split; [exact Hc | ].
  unfold group_by_ticket in Hc.
  destruct (tickets_loop_keys _ _ _ _ Hc) as [Hkeys Hvals].
  split; [exact Hkeys | ]. split.
  - rewrite Hkeys. apply fold_add_key_NoDup. constructor.
  - split; [ | apply same_key_same_mention].
    intros t ctx Hin Hget.
    destruct (Hvals _ _ Hget) as [Hold | (t' & Hin' & Hk & Hctx)];
      [discriminate | ].
    now rewrite <- (same_key_same_mention _ _ _ _ Hin' Hin Hk).
Qed.

(** On a transcript that names a key twice. *)
Example contexts_of_a_repeated_key :
  option_map Dict.keys
    (match group_by_ticket
             (extract_ticket_keys TicketExtraction.sample_repeated "WJR")
             (parse_speakers TicketExtraction.sample_repeated) with
     | Ok contexts => Some contexts
     | Raise _ => None
     end) = Some [py "ABC-123"].
Proof. vm_compute. reflexivity. Qed.

End ContextKeys.

(** ** A session after its first success on tickets *)

Module SessionFlow.

Import PyStr Utils Tools Session Frames OperationFacts Runs Footprints
  TicketTools SessionClaims.

(** The credentials of the Jira side are in the session. *)
Definition signed_in_to_jira {L : library} (m : machine L) : Prop :=
  exists token cloud_id,
    Py.truthy token = true /\ Py.truthy cloud_id = true /\
    state m !! JIRA_TOKEN_CACHE_KEY = Some token /\
    state m !! CLOUD_ID_CACHE_KEY = Some cloud_id.

Lemma cloud_id_keeps_token (L : library) token tc (m : machine L) :
  state (snd (get_jira_cloud_id L token tc m)) !! JIRA_TOKEN_CACHE_KEY =
  state m !! JIRA_TOKEN_CACHE_KEY.
Proof.
  destruct (get_jira_cloud_id_any
              (footprint_frame L is_resources
                 (fun k => String.eqb k CLOUD_ID_CACHE_KEY))
              token tc eq_refl eq_refl m I) as ([_ H] & _).
  apply H. reflexivity.
Qed.

(** The credentials after [get_jira_auth] and [get_jira_cloud_id] both
    gave something that counts. *)
Lemma credentials_stored (L : library) tc (m m1 m2 : machine L) token cloud_id :
  get_jira_auth L tc m = (Ok token, m1) -> Py.truthy token = true ->
  get_jira_cloud_id L token tc m1 = (Ok cloud_id, m2) ->
  Py.truthy cloud_id = true ->
  signed_in_to_jira m2.
Proof.
  intros Ha Ht Hc Hcl. exists token, cloud_id.
  split; [exact Ht | ]. split; [exact Hcl | ]. split.
  - pose proof (cloud_id_keeps_token L token tc m1) as Hk.
    rewrite Hc in Hk. simpl in Hk. rewrite Hk.
    eapply get_jira_auth_stores; eauto.
  - eapply get_jira_cloud_id_stores; eauto.
Qed.

Lemma signed_in_stays (L : library) (m : machine L) calls :
  signed_in_to_jira m ->
  signed_in_to_jira (run_session L calls m) /\
  oauth_exchanges (run_session L calls m) = oauth_exchanges m /\
  cloud_id_fetches (run_session L calls m) = cloud_id_fetches m.
Proof.
  intros (token & c & Ht & Hc & Hm1 & Hm2).
  destruct (run_session_respects (token_frame L token)
              (perform_keeps_token L token Ht) calls m Hm1) as [R1 I1].
  destruct (run_session_respects (cloud_frame L c)
              (perform_keeps_cloud_id L c Hc) calls m Hm2) as [R2 I2].
  split; [ | split; [exact R1 | exact R2]].
  exists token, c. auto.
Qed.

(** X20: After a success of [validate_jira_tickets] or of [post_jira_comment]
    the token and the cloud id are in the session. Through any further
    calls of the tools they stay there, the exchange is not entered again
    and the cloud id is not fetched again; a comment posted then takes the
    one call that posts it. *)
Theorem success_signs_the_session_in (L : library) :
  (forall ticket_keys tc (m m' : machine L) r,
     validate_jira_tickets L ticket_keys tc m = (Ok r, m') ->
     is_success r -> signed_in_to_jira m') /\
  (forall ticket_key adf_comment tc (m m' : machine L) r,
     post_jira_comment L ticket_key adf_comment tc m = (Ok r, m') ->
     is_success r -> signed_in_to_jira m') /\
  (forall (m : machine L) calls,
     signed_in_to_jira m ->
     signed_in_to_jira (run_session L calls m) /\
     oauth_exchanges (run_session L calls m) = oauth_exchanges m /\
     cloud_id_fetches (run_session L calls m) = cloud_id_fetches m) /\
  (forall (m : machine L) ticket_key adf_comment,
     signed_in_to_jira m ->
     trace (snd (post_jira_comment L ticket_key adf_comment ToolContext m)) =
     trace m ++ [PostComment ticket_key]).
Proof.
  split; [ | split; [ | split]].
  - intros ticket_keys tc m m' r H Hs. unfold validate_jira_tickets in H.
    rewrite boundary_bind in H.
    destruct (get_jira_auth L tc m) as [[token | e] m1] eqn:Ha;
      [ | inversion H; subst; discriminate].
    destruct (Py.truthy token) eqn:Ht; cbn [negb] in H;
      [ | inversion H; subst; discriminate].
    rewrite boundary_bind in H.
    destruct (get_jira_cloud_id L token tc m1) as [[c | e] m2] eqn:Hc;
      [ | inversion H; subst; discriminate].
    destruct (Py.truthy c) eqn:Hcl; cbn [negb] in H;
      [ | inversion H; subst; discriminate].
    rewrite boundary_bind in H.
    destruct (validate_all_run L c token ticket_keys [] m2)
      as (entries & m3 & Hf & _ & _ & Hst).
    rewrite Hf in H. inversion H; subst.
    destruct (credentials_stored L tc m m1 m2 token c Ha Ht Hc Hcl)
      as (t & c' & H1 & H2 & H3 & H4).
    exists t, c'. rewrite Hst. auto.
  - intros ticket_key adf_comment tc m m' r H Hs. unfold post_jira_comment in H.
    rewrite boundary_bind in H.
    destruct (get_jira_auth L tc m) as [[token | e] m1] eqn:Ha;
      [ | inversion H; subst; discriminate].
    destruct (Py.truthy token) eqn:Ht; cbn [negb] in H;
      [ | inversion H; subst; discriminate].
    rewrite boundary_bind in H.
    destruct (get_jira_cloud_id L token tc m1) as [[c | e] m2] eqn:Hc;
      [ | inversion H; subst; discriminate].
    destruct (Py.truthy c) eqn:Hcl; cbn [negb] in H;
      [ | inversion H; subst; discriminate].
    destruct (post_after_credentials L ticket_key adf_comment c token m2)
      as (r' & Hrun & _).
    match type of H with
    | ?X = _ =>
        match type of Hrun with
        | _ = ?Y => assert (HX : X = Y) by exact Hrun
        end
    end.
    rewrite HX in H. inversion H; subst.
    destruct (credentials_stored L tc m m1 m2 token c Ha Ht Hc Hcl)
      as (t & c' & H1 & H2 & H3 & H4).
    exists t, c'. auto.
  - intros m calls Hm. now apply signed_in_stays.
  - intros m ticket_key adf_comment (token & c & Ht & Hc & Hm1 & Hm2).
    destruct (post_with_credentials L ticket_key adf_comment m token c
                Ht Hc Hm1 Hm2) as (r & Hrun & _).
    now rewrite Hrun.
Qed.

Lemma success_signs_the_session_in_witness :
  signed_in_to_jira
    (snd (validate_jira_tickets Office.office_library [py "PROJ-42"]
            ToolContext Office.first_day)) /\
  oauth_exchanges
    (run_session Office.office_library
       [ PostJiraComment (py "PROJ-42") PNone ToolContext;
         ValidateJiraTickets [py "WJR-99"] ToolContext ]
       (snd (validate_jira_tickets Office.office_library [py "PROJ-42"]
               ToolContext Office.first_day))) =
  oauth_exchanges
    (snd (validate_jira_tickets Office.office_library [py "PROJ-42"]
            ToolContext Office.first_day)).
Proof.
  destruct (success_signs_the_session_in Office.office_library)
    as (H1 & _ & H3 & _).
  assert (Hin : signed_in_to_jira
                  (snd (validate_jira_tickets Office.office_library
                          [py "PROJ-42"] ToolContext Office.first_day))).
  { eapply (H1 [py "PROJ-42"] ToolContext Office.first_day).
    - vm_compute. reflexivity.
    - reflexivity. }
  split; [exact Hin | ]. now apply H3.
Defined.

(** The calls of a whole session on tickets: the exchange and the cloud
    id once, then one call per ticket and per comment. *)
Example a_session_on_tickets :
  trace (run_session Office.office_library
           [ ValidateJiraTickets [py "PROJ-42"; py "WJR-99"] ToolContext;
             PostJiraComment (py "PROJ-42") PNone ToolContext;
             PostJiraComment (py "WJR-99") PNone ToolContext ]
           Office.first_day) =
  [ GetAuthResponse jira; AccessibleResources;
    GetIssue (py "PROJ-42"); GetIssue (py "WJR-99");
    PostComment (py "PROJ-42"); PostComment (py "WJR-99") ].
Proof. vm_compute. reflexivity. Qed.

End SessionFlow.

(** ** Reading a preview back *)

Module PreviewReader.

Import PyStr Utils Tools Session Formatter CommentReader MeetCode
  SessionClaims.



















End PreviewReader.

(** ** The Google credentials of the session *)

Module GoogleCache.

Import PyStr Utils Tools Session Frames OperationFacts Runs SessionClaims.

(** The services built from [creds] in the world [w]: the calls made and
    what they gave. *)
Definition built {L : library} (creds : credentials L) (m : machine L)
    : outcome (option (service L * service L)) * machine L :=
  (calendar_service ← call (BuildService "calendar") (build L "calendar" creds);
   drive_service ← call (BuildService "drive") (build L "drive" creds);
   mret (Some (calendar_service, drive_service))) m.

Lemma built_trace {L : library} (creds : credentials L) (m : machine L) :
  state (snd (built creds m)) = state m /\
  (trace (snd (built creds m)) = trace m ++ [BuildService (py "calendar")] \/
   trace (snd (built creds m)) =
     trace m ++ [BuildService (py "calendar"); BuildService (py "drive")]) /\
  forall services,
    fst (built creds m) = Ok services ->
    services <> None /\
    trace (snd (built creds m)) =
      trace m ++ [BuildService (py "calendar"); BuildService (py "drive")].
Proof.
  unfold built, mbind, M_bind, bind, mret, M_ret, ret. rewrite call_run.
  destruct (fst (build L "calendar" creds (world m))) as [cal | e].
  - rewrite call_run. cbn [state trace world].
    destruct (fst (build L "drive" creds _)) as [drive | e]; cbn [fst snd state trace].
    + rewrite <- app_assoc. split; [reflexivity | ]. split; [now right | ].
      intros s H. inversion H. split; [discriminate | reflexivity].
    + rewrite <- app_assoc. split; [reflexivity | ]. split; [now right | ].
      discriminate.
  - cbn [fst snd state trace]. split; [reflexivity | ]. split; [now left | ].
    discriminate.
Qed.

(** Credentials in the session that are still valid are used as they
    are. *)
Lemma valid_credentials_run (L : library) (m : machine L) info creds :
  state m !! GOOGLE_TOKEN_CACHE_KEY = Some info ->
  Py.truthy info = true ->
  from_authorized_user_info L info = Ok creds ->
  creds_valid L creds (world m) = true ->
  get_authenticated_google_services L ToolContext m = built creds m.
Proof.
  intros Hm Ht Hc Hv.
  unfold get_authenticated_google_services, cached_google_credentials,
    lacks_valid, built, state_get, attr, try_except, read, lift, mbind,
    M_bind, bind, mret, M_ret, ret.
  cbn [fst snd]. rewrite Hm, Ht, Hc. cbn [fst snd].
  rewrite Hv. cbn [negb andb fst snd]. rewrite Hv. cbn [negb fst snd].
  rewrite Hv. cbn [negb]. rewrite Hv. reflexivity.
Qed.

(** Credentials in the session that have expired and can be refreshed are
    refreshed, and what was refreshed is stored. *)
Lemma refreshed_credentials_run (L : library) (m : machine L) info creds
    creds' w info' :
  state m !! GOOGLE_TOKEN_CACHE_KEY = Some info ->
  Py.truthy info = true ->
  from_authorized_user_info L info = Ok creds ->
  creds_valid L creds (world m) = false ->
  creds_expired L creds (world m) = true ->
  Py.truthy (creds_refresh_token L creds) = true ->
  creds_refresh L creds (world m) = (Ok creds', w) ->
  creds_to_json L creds' = Ok info' ->
  creds_valid L creds' w = true ->
  get_authenticated_google_services L ToolContext m =
  built creds'
    (Machine L (<[GOOGLE_TOKEN_CACHE_KEY := info']> (state m))
       (trace m ++ [RefreshCredentials]) w).
Proof.
  intros Hm Ht Hc Hv He Hr Hrun Hj Hv'.
  unfold get_authenticated_google_services, cached_google_credentials,
    lacks_valid, built, state_get, state_set, attr, try_except, read, lift,
    call, mbind, M_bind, bind, mret, M_ret, ret.
  cbn [fst snd]. rewrite Hm, Ht, Hc. cbn [fst snd].
  rewrite Hv, He, Hr. cbn [negb andb fst snd]. rewrite Hrun, Hj.
  cbn [fst snd state trace world]. rewrite Hv'. cbn [negb world].
  rewrite Hv'. reflexivity.
Qed.

Definition with_refreshed {L : library} (m : machine L) (info' : pyval)
    (w : World L) : machine L :=
  Machine L (<[GOOGLE_TOKEN_CACHE_KEY := info']> (state m))
    (trace m ++ [RefreshCredentials]) w.

(** X22: Google credentials kept in the session are used again. When they are
    still valid the services are built from them: the exchange is not
    entered and nothing is written. When they have expired and hold a
    refresh token they are refreshed once, what was refreshed is stored
    under the same key, and the services are built from it. In both cases
    the only other calls are the two that build the services, and services
    that are returned were both built. *)
Theorem google_credentials_are_reused (L : library) (m : machine L)
    (info : pyval) (creds : credentials L) :
  state m !! GOOGLE_TOKEN_CACHE_KEY = Some info ->
  Py.truthy info = true ->
  from_authorized_user_info L info = Ok creds ->
  (creds_valid L creds (world m) = true ->
   get_authenticated_google_services L ToolContext m = built creds m) /\
  (forall creds' w info',
     creds_valid L creds (world m) = false ->
     creds_expired L creds (world m) = true ->
     Py.truthy (creds_refresh_token L creds) = true ->
     creds_refresh L creds (world m) = (Ok creds', w) ->
     creds_to_json L creds' = Ok info' ->
     creds_valid L creds' w = true ->
     get_authenticated_google_services L ToolContext m =
     built creds' (with_refreshed m info' w)) /\
  (forall (c : credentials L) (m0 : machine L),
     state (snd (built c m0)) = state m0 /\
     (trace (snd (built c m0)) = trace m0 ++ [BuildService (py "calendar")] \/
      trace (snd (built c m0)) =
        trace m0 ++ [BuildService (py "calendar"); BuildService (py "drive")]) /\
     forall services,
       fst (built c m0) = Ok services ->
       services <> None /\
       trace (snd (built c m0)) =
         trace m0 ++ [BuildService (py "calendar"); BuildService (py "drive")]).
Proof.
  intros Hm Ht Hc. split; [ | split].
  - intros Hv. now apply (valid_credentials_run L m info creds).
  - intros creds' w info' Hv He Hr Hrun Hj Hv'.
    now apply (refreshed_credentials_run L m info creds creds' w info').
  - intros c m0. apply built_trace.
Qed.

(** On the library in which every service answers: the second call of a
    session finds the credentials that the first one stored. *)
Lemma google_credentials_are_reused_witness :
  get_authenticated_google_services Office.office_library ToolContext
    (snd (get_authenticated_google_services Office.office_library ToolContext
            Office.first_day)) =
  built (tt : credentials Office.office_library)
    (snd (get_authenticated_google_services Office.office_library ToolContext
            Office.first_day)).
Proof.
  apply (proj1 (google_credentials_are_reused Office.office_library
                  (snd (get_authenticated_google_services
                          Office.office_library ToolContext Office.first_day))
                  (PDict [(py "token", PStr (py "access-1"))]) tt
                  eq_refl eq_refl eq_refl)).
  reflexivity.
Defined.

Example google_calls_of_two_fetches :
  trace (run_session Office.office_library
           [ FetchCalendarEvents 7 false ToolContext;
             FetchCalendarEvents 7 false ToolContext ]
           Office.first_day) =
  [ GetAuthResponse google;
    BuildService (py "calendar"); BuildService (py "drive"); EventsList;
    BuildService (py "calendar"); BuildService (py "drive"); EventsList ].
Proof. vm_compute. reflexivity. Qed.

End GoogleCache.

(** ** Where an exception ends *)

Module Handlers.

Import PyStr Utils Tools Session Frames OperationFacts Runs SessionClaims
  TicketTools NotesFacts MeetingTools DateClaims Edges.







(** *** Exceptions that an inner handler takes *)




(** *** Exceptions that reach the handler of the operation *)






End Handlers.
